(* ===== verification/_CoqProject ===== *)
-Q . S2P
Prelude.v
GoStrings.v
Effects.v
Net.v
Stream.v
Obfs.v
TlsTransport.v
WsTransport.v
TunnelConfig.v
MultiPath.v
MultiPathRun.v
IPTables.v
AutoDiscover.v
RawPacketConn.v
Pipe.v
Tunnel.v
Main.v
Program.v
Sha256.v
PanelAuth.v
PanelPeers.v
PanelHandlers.v
