(* ===== verification/Prelude.v ===== *)
(** * t2tunnel: verification development (root)

    The repository holds two Go programs.  The tunnel ([t2tunnel/*.go]) carries
    local TCP connections to a target behind a server: the client opens, for
    each of them, a stream of one smux session, whose connection runs over KCP
    on UDP, over TLS, over a WebSocket or over KCP in forged TCP segments,
    always below a padding layer.  The panel ([t2tunnel/webpanel/panel.go]) is an
    HTTP server that installs, configures and watches the tunnel.  This
    development models all of their Go code but for the print-out of the first
    start, translated from the source function by function.

    ** How the code is modelled

    - [Prelude]: the scope, the tactics and hints, machine integers with their
      wrap-around, [res] (a value or a [goerr]), and lemmas on lists.
    - [GoStrings]: the functions of Go's [strings] package that the source calls,
      on byte strings, with Unicode white space.
    - [Effects]: code that calls the outside is a [prog E A], a tree of external
      calls.  [wp p Q] says that [Q] holds of the trace of calls and the result
      of every run in which the outside keeps its contract ([EffSpec]); [runs]
      is one such run, as a relation; [run] executes a program in a [world].
      Sequencing is the monad's bind, so a Definition reads like its function.
    - [Net]: the calls of both programs ([sysE]), with the contracts their
      documentation gives ([sys_spec]): network, processes, files, clock,
      randomness, smux, KCP, uTLS, WebSocket, packet capture.  A goroutine that
      a loop starts is a call as well ([GoServe], [GoStream], [GoClient],
      [GoOnSignal]); its body is a definition of its own ([handleServerSession],
      [serve_stream], [serve_client] or [handleConn], [on_signal]).  The call
      [Pipe] is the call of the function modelled in [Pipe], with its two ends
      in the order of the call.  [scripted] is a world that keeps all
      contracts ([scripted_ok]), so no [wp] is void.
    - Code that waits on channels, mutexes or other goroutines is a step
      relation, and its properties are invariants of all its executions.
    - What the source takes from a package is an interface: a Class of
      operations and a Class of laws, with an instance that satisfies the laws
      ([ByteReader], [WebSocket], [Iptables], [DbCodec]).

    ** The parts

    - [Stream]: the interface [ByteReader] of an [io.Reader], with
      [io.ReadFull]; [Obfs] is proved against it and is an instance of it.
    - [Obfs] (obfs.go): [obfsConn]; the state of a reader is the inner stream and
      [readBuf].  Round trip, refinement of a byte queue, truncated streams, the
      overflow of the 16-bit length field.
    - [TlsTransport] (net.go, tls_transport.go): [dialTCP], [listenTCP],
      [fragConn], [dialTLS], the certificate and the listener.  Fragmentation
      is transparent and cuts as configured; dialling leaks nothing.
    - [WsTransport] (ws_transport.go): [wsConn] as an instance of [ByteReader],
      the decoy handler, [WSListener] (steps of handlers, [Accept], [Close]) and
      [dialWS]; padding over a WebSocket round trips.
    - [TunnelConfig] (engine.go): constants, [applyKCP], [smuxConfig], [pad32];
      the smux frames fit the padding layer.
    - [MultiPath] (multipath.go): [MultiPathClient] with its endpoints in a store,
      because they are shared by pointer; [getSession], [markFailed],
      [handleConn].  Failover order, which [attempt], [round] and [failed_over]
      state without the code's loop; what a connection is given and when its
      server is marked failed; circuit breaker, no leak, no panic.
    - [MultiPathRun] (multipath.go): the goroutines of [handleConn] on one
      client.  The mutex makes [getSession] and [markFailed] single steps.
      Invariant of all interleavings; [handleConn] run alone is one of them; an
      execution in which a late [markFailed] closes a session that is not the
      failed one.
    - [IPTables] (iptables.go): [Apply], [Cleanup] against an iptables with the
      laws of its manual, and a kernel table that satisfies them.
    - [AutoDiscover] (autodiscover.go): route, interface, neighbour and ARP tables.
    - [RawPacketConn] (rawpacketconn.go): constructor and [WriteTo] as programs;
      [readLoop], [ReadFrom] and [Close] as steps; [itoa].
    - [Pipe] (engine.go, [pipe]): two goroutines and a [sync.Once]; both ends are
      closed once; every execution ends.
    - [Tunnel] (engine.go, engine_tls.go, engine_ws.go, engine_raw.go): the cached
      session of the four clients, with the layers each of them dials; session
      and accept loops of the servers.
    - [Main] (engine.go, [main]): discovery, firewall, the choice of what is
      started ([launch]).
    - [Program]: the accept loops of the clients, what a [launch] runs, and the
      whole tunnel program: it listens where its flags say, serves that and
      nothing else, and stops on an error only as its kind of server does.
    - [Sha256]: SHA-256 and hexadecimal coding, with test vectors.
    - [PanelAuth] (panel.go): the account file, the sessions, [auth], log-in,
      log-out.  [sess_steps] are series of operations; the table refines the
      grants.  The account survives a restart, given that JSON round trips.
    - [PanelPeers] (panel.go): [parsePeers], [handlePeer].
    - [PanelHandlers] (panel.go): the other handlers, the routes ([serve]) and
      the start.  Without a session nothing privileged happens on any path; each
      handler does what it reports and nothing else.  The password that the
      first start prints opens the guarded routes, also after a restart.

    ** Fuel and bounds

    - Loops that serve for ever ([accept_loop], [accept_streams], [client_loop])
      take fuel, one unit per call of [Accept]; the theorems hold for every
      fuel and say that only an error of the stated kind ends the loop sooner.
    - [frag_loop], [wsConn_Read_loop], [read_at_least] and [itoa_loop] end; their
      callers give fuel from the length of the data (twenty digits for
      [itoa]), and theorems show that it is never used up.
    - Counters have the width of the source: [int32] for failures, [uint16] for
      ports and frame lengths, [uint32] for sequence numbers.

    ** What is not modelled, and why

    - Log messages and [printFirstRun]: they only write to the terminal.
    - What net/http does with a server: the goroutine [NewWSListener] starts to
      run it, and its [Shutdown] by [WSListener]'s [Close].
    - Third-party protocols (KCP, smux, uTLS, gorilla/websocket, gopacket) and
      the standard library's TLS and HTTP servers: external calls.  The cleaning
      of paths by [http.ServeMux] is theirs; [route] is asked for clean paths.
    - JSON: requests are decoded by the interfaces [LoginDecoder] and
      [BodyDecoder], about which nothing is assumed; responses are JSON values.
    - The mutexes of the panel: each operation on the session table is atomic.
    - The address methods of the wrappers, which only forward, and panel.html,
      install.sh and the assembly file, which are not Go. *)

From Stdlib Require Export ZArith Lia.
From Stdlib Require Export Strings.Byte.
From Stdlib Require Strings.Ascii.
From stdpp Require Export base tactics list numbers option gmap strings pretty.
Export Stdlib.Strings.Ascii(ascii(..)).
Export (notations) Stdlib.Strings.Ascii.

Declare Scope go_scope.
Delimit Scope go_scope with go.
Global Open Scope Z_scope.
Global Open Scope go_scope.

(** ** Machine integers

    A Go integer of width [w] is a [Z]; every conversion and every arithmetic
    step that can leave the range of the type is written with one of the
    wrap-around functions below. *)

Definition wrap_u (w x : Z) : Z := x `mod` 2 ^ w.

Definition wrap_s (w x : Z) : Z := (x + 2 ^ (w - 1)) `mod` 2 ^ w - 2 ^ (w - 1).

Definition uint16 (x : Z) : Z := wrap_u 16 x.

Definition uint32 (x : Z) : Z := wrap_u 32 x.

Definition int32 (x : Z) : Z := wrap_s 32 x.

Definition int64 (x : Z) : Z := wrap_s 64 x.

Definition in_int64 (x : Z) : Prop := - 2 ^ 63 <= x < 2 ^ 63.

Definition in_int32 (x : Z) : Prop := - 2 ^ 31 <= x < 2 ^ 31.

Definition max_int64 : Z := 2 ^ 63 - 1.

Definition min_int64 : Z := - 2 ^ 63.

(** ** Bytes *)

Abbreviation byte := Byte.byte.

#[global] Instance byte_eq_dec : EqDecision byte := Byte.byte_eq_dec.

#[global] Instance byte_inhabited : Inhabited byte := populate Byte.x00.

Definition Z_of_byte (b : byte) : Z := Z.of_N (Byte.to_N b).

Definition byte_of_Z (z : Z) : byte :=
  default Byte.x00 (Byte.of_N (Z.to_N (z `mod` 256))).

(** [binary.BigEndian.PutUint16] and [binary.BigEndian.Uint16]. *)
Definition be_put16 (v : Z) : list byte := [byte_of_Z (Z.shiftr v 8); byte_of_Z v].

Definition be_uint16 (b0 b1 : byte) : Z :=
  Z.lor (Z_of_byte b1) (Z.shiftl (Z_of_byte b0) 8).

(** The conversions [[]byte(s)] and [string(b)]. *)
Abbreviation bytes_of_string := String.list_byte_of_string.
Abbreviation string_of_bytes := String.string_of_list_byte.

(** ** Time

    An instant ([time.Time]) is a number of nanoseconds since the zero
    [time.Time]; a [time.Duration] is a signed 64-bit number of nanoseconds.
    [Time.Sub] saturates at the ends of that range. *)

Definition millisecond : Z := 1000000.

Definition second : Z := 1000 * millisecond.

Definition minute : Z := 60 * second.

Definition hour : Z := 60 * minute.

Definition zero_time : Z := 0.

Definition time_is_zero (t : Z) : bool := t =? zero_time.

Definition time_sub (t u : Z) : Z := Z.max min_int64 (Z.min max_int64 (t - u)).

(** ** Errors

    The [error] values the code distinguishes are constructors; any other
    error is an opaque text.  [ErrWrap] is [fmt.Errorf] around an error. *)

Inductive goerr :=
| EOF
| ErrUnexpectedEOF
| ErrClosed
| ErrTimeout
| ErrNotExist
| ErrAllServersDown
| ErrText (msg : string)
| ErrWrap (ctx : string) (e : goerr).

#[global] Instance goerr_eq_dec : EqDecision goerr.
Proof. solve_decision. Defined.

(** The results of a Go function that returns [(value, error)] with exactly
    one of the two meaningful. *)
Inductive res (A : Type) :=
| Ok (a : A)
| Err (e : goerr).
Arguments Ok {A} a.
Arguments Err {A} e.

Definition is_ok {A} (r : res A) : bool :=
  match r with Ok _ => true | Err _ => false end.

#[global] Instance res_ret : MRet res := λ A a, Ok a.

#[global] Instance res_bind : MBind res := λ A B f r,
  match r with Ok a => f a | Err e => Err e end.

#[global] Instance res_fmap : FMap res := λ A B f r,
  match r with Ok a => Ok (f a) | Err e => Err e end.

(** ** Automation *)

Create HintDb go discriminated.
#[export] Hint Constants Transparent : go.
Create Rewrite HintDb go.

(** Splits every conditional and match of the goal and the hypotheses, and
    closes the branches that are contradictory or immediate. *)
Ltac go_cases :=
  repeat (first [ progress simplify_eq/= | case_match | case_decide ]).

(** Turns boolean tests on integers into the facts they decide. *)
Ltac zbool :=
  repeat match goal with
  | H : (_ <? _) = true |- _ => apply Z.ltb_lt in H
  | H : (_ <? _) = false |- _ => apply Z.ltb_ge in H
  | H : (_ <=? _) = true |- _ => apply Z.leb_le in H
  | H : (_ <=? _) = false |- _ => apply Z.leb_gt in H
  | H : (_ >? _) = _ |- _ => rewrite Z.gtb_ltb in H
  | H : (_ =? _) = true |- _ => apply Z.eqb_eq in H
  | H : (_ =? _) = false |- _ => apply Z.eqb_neq in H
  | H : (_ && _) = true |- _ => apply andb_true_iff in H as [? ?]
  | H : (_ || _) = false |- _ => apply orb_false_iff in H as [? ?]
  | H : negb _ = true |- _ => apply negb_true_iff in H
  | H : negb _ = false |- _ => apply negb_false_iff in H
  end.

(** Arithmetic with division and modulo by constants. *)
Ltac zmod := Z.div_mod_to_equations; lia.

(** ** Lemmas on machine integers *)

Lemma wrap_u_range w x : 0 <= w → 0 <= wrap_u w x < 2 ^ w.
Proof. intros. apply Z.mod_pos_bound. lia. Qed.

Lemma wrap_u_small w x : 0 <= x < 2 ^ w → wrap_u w x = x.
Proof. apply Z.mod_small. Qed.

Lemma wrap_s_range w x : 0 < w → - 2 ^ (w - 1) <= wrap_s w x < 2 ^ (w - 1).
Proof.
  intros Hw. unfold wrap_s.
  replace (2 ^ w) with (2 * 2 ^ (w - 1))
    by (rewrite <- Z.pow_succ_r by lia; f_equal; lia).
  assert (0 < 2 ^ (w - 1)) by (apply Z.pow_pos_nonneg; lia).
  pose proof (Z.mod_pos_bound (x + 2 ^ (w - 1)) (2 * 2 ^ (w - 1))). lia.
Qed.

Lemma wrap_s_small w x : 0 < w → - 2 ^ (w - 1) <= x < 2 ^ (w - 1) → wrap_s w x = x.
Proof.
  intros Hw Hx. unfold wrap_s. rewrite Z.mod_small; [lia|].
  replace (2 ^ w) with (2 * 2 ^ (w - 1))
    by (rewrite <- Z.pow_succ_r by lia; f_equal; lia).
  lia.
Qed.

Lemma uint16_range x : 0 <= uint16 x < 65536.
Proof. apply (wrap_u_range 16). lia. Qed.

Lemma uint16_small x : 0 <= x < 65536 → uint16 x = x.
Proof. apply (wrap_u_small 16). Qed.

Lemma uint32_range x : 0 <= uint32 x < 2 ^ 32.
Proof. apply (wrap_u_range 32). lia. Qed.

Lemma uint32_small x : 0 <= x < 2 ^ 32 → uint32 x = x.
Proof. apply (wrap_u_small 32). Qed.

Lemma uint32_add_l x y : uint32 (uint32 x + y) = uint32 (x + y).
Proof. unfold uint32, wrap_u. apply Zplus_mod_idemp_l. Qed.

Lemma int32_range x : in_int32 (int32 x).
Proof. apply (wrap_s_range 32). lia. Qed.

Lemma int32_small x : in_int32 x → int32 x = x.
Proof. apply (wrap_s_small 32). lia. Qed.

Lemma int64_range x : in_int64 (int64 x).
Proof. apply (wrap_s_range 64). lia. Qed.

Lemma int64_small x : in_int64 x → int64 x = x.
Proof. apply (wrap_s_small 64). lia. Qed.

#[export] Hint Resolve uint16_range uint32_range int32_range int64_range : go.
#[export] Hint Rewrite uint16_small uint32_small int32_small int64_small
  using (unfold in_int32, in_int64 in *; lia) : go.

(** ** Lemmas on bytes *)

Lemma Z_of_byte_range b : 0 <= Z_of_byte b < 256.
Proof. unfold Z_of_byte. pose proof (Byte.to_N_bounded b). lia. Qed.

Lemma Z_of_byte_of_Z z : Z_of_byte (byte_of_Z z) = z `mod` 256.
Proof.
  unfold Z_of_byte, byte_of_Z.
  pose proof (Z.mod_pos_bound z 256 ltac:(lia)) as Hz.
  destruct (Byte.of_N (Z.to_N (z `mod` 256))) as [b|] eqn:Hb; simpl.
  - apply Byte.to_of_N in Hb. rewrite Hb, Z2N.id; lia.
  - apply Byte.of_N_None_iff in Hb. lia.
Qed.

Lemma Z_of_byte_inj b c : Z_of_byte b = Z_of_byte c → b = c.
Proof.
  unfold Z_of_byte. intros H%N2Z.inj.
  pose proof (Byte.of_to_N b). pose proof (Byte.of_to_N c). congruence.
Qed.

Lemma byte_of_Z_of_byte b : byte_of_Z (Z_of_byte b) = b.
Proof.
  apply Z_of_byte_inj. rewrite Z_of_byte_of_Z.
  apply Z.mod_small, Z_of_byte_range.
Qed.

Lemma be_uint16_sum b0 b1 : be_uint16 b0 b1 = Z_of_byte b0 * 256 + Z_of_byte b1.
Proof.
  unfold be_uint16. rewrite Z.shiftl_mul_pow2 by lia.
  pose proof (Z_of_byte_range b1).
  pose proof (Z.add_lor_land (Z_of_byte b1) (Z_of_byte b0 * 2 ^ 8)) as Hadd.
  enough (Z.land (Z_of_byte b1) (Z_of_byte b0 * 2 ^ 8) = 0) as H0 by lia.
  rewrite <- Z.shiftl_mul_pow2 by lia.
  apply Z.bits_inj'. intros n Hn.
  rewrite Z.land_spec, Z.bits_0, Z.shiftl_spec by lia.
  destruct (decide (n < 8)).
  - rewrite (Z.testbit_neg_r _ (n - 8)) by lia. apply andb_false_r.
  - rewrite Z.bits_above_log2, andb_false_l; [done|lia|].
    destruct (decide (Z_of_byte b1 = 0)) as [->|]; [simpl; lia|].
    apply Z.log2_lt_pow2; [lia|].
    apply Z.lt_le_trans with 256; [lia|].
    change 256 with (2 ^ 8). apply Z.pow_le_mono_r; lia.
Qed.

Lemma be_uint16_range b0 b1 : 0 <= be_uint16 b0 b1 < 65536.
Proof.
  rewrite be_uint16_sum. pose proof (Z_of_byte_range b0).
  pose proof (Z_of_byte_range b1). lia.
Qed.

(** Decoding what [PutUint16] stored gives the value truncated to 16 bits. *)
Lemma be_uint16_put v :
  be_uint16 (byte_of_Z (Z.shiftr v 8)) (byte_of_Z v) = uint16 v.
Proof.
  rewrite be_uint16_sum, !Z_of_byte_of_Z, Z.shiftr_div_pow2 by lia.
  unfold uint16, wrap_u. change (2 ^ 8) with 256. change (2 ^ 16) with 65536.
  zmod.
Qed.

(** ** Lemmas on time *)

Lemma time_sub_exact t u : in_int64 (t - u) → time_sub t u = t - u.
Proof. unfold in_int64, time_sub, min_int64, max_int64. lia. Qed.

Lemma time_sub_lt t u d :
  0 < d < 2 ^ 63 → time_sub t u < d ↔ t - u < d.
Proof. unfold time_sub, min_int64, max_int64. lia. Qed.

(** ** Lemmas on lists *)

Lemma take_drop_app {A} (n : nat) (l k : list A) :
  take n l ++ drop n l ++ k = l ++ k.
Proof. by rewrite app_assoc, take_drop. Qed.

Lemma concat_take_drop {A} (n : nat) (ls : list (list A)) :
  concat (take n ls) ++ concat (drop n ls) = concat ls.
Proof. by rewrite <- concat_app, take_drop. Qed.

Lemma filter_ext_in {A} (P Q : A → Prop) `{∀ a, Decision (P a), ∀ a, Decision (Q a)} (l : list A) :
  (∀ a, a ∈ l → P a ↔ Q a) → filter P l = filter Q l.
Proof.
  induction l as [|a l IH]; intros Hl; [done|].
  assert (filter P l = filter Q l) as Heq by (apply IH; intros b Hb; apply Hl; by right).
  rewrite !filter_cons, Heq. specialize (Hl a ltac:(left)).
  by repeat case_decide; try tauto.
Qed.

Lemma filter_all {A} (P : A → Prop) `{∀ a, Decision (P a)} (l : list A) :
  (∀ a, a ∈ l → P a) → filter P l = l.
Proof.
  induction l as [|a l IH]; intros Hl; [done|].
  rewrite filter_cons_True by (apply Hl; left). f_equal. apply IH. intros b Hb. apply Hl. by right.
Qed.

Lemma filter_none {A} (P : A → Prop) `{∀ a, Decision (P a)} (l : list A) :
  (∀ a, a ∈ l → ¬ P a) → filter P l = [].
Proof.
  induction l as [|a l IH]; intros Hl; [done|].
  rewrite filter_cons_False by (apply Hl; left). apply IH. intros b Hb. apply Hl. by right.
Qed.

Lemma length_concat_const {A} (n : nat) (ls : list (list A)) :
  Forall (λ l, length l = n) ls → length (concat ls) = (length ls * n)%nat.
Proof. induction 1 as [|l ls Hl _ IH]; [done|]. simpl. rewrite length_app, Hl, IH. done. Qed.
