(* ===== verification/GoStrings.v ===== *)
(** * The part of Go's [strings] package the program uses

    Go strings are byte sequences, here Rocq [string]s whose characters are
    the bytes.  [Fields] and [TrimSpace] split at Unicode white space, so the
    UTF-8 encodings of the white-space runes are recognised as well as the
    ASCII ones. *)

From S2P Require Import Prelude.

(** ** White space *)

Definition code (c : ascii) : Z := Z.of_N (Ascii.N_of_ascii c).

(** [unicode.IsSpace] of a three-byte rune. *)
Definition wide_space (b1 b2 b3 : Z) : bool :=
  ((b1 =? 225) && (b2 =? 154) && (b3 =? 128)) ||
  ((b1 =? 226) && (b2 =? 128) &&
     (((128 <=? b3) && (b3 <=? 138)) || (b3 =? 168) || (b3 =? 169) || (b3 =? 175))) ||
  ((b1 =? 226) && (b2 =? 129) && (b3 =? 159)) ||
  ((b1 =? 227) && (b2 =? 128) && (b3 =? 128)).

(** The number of bytes of the white-space rune [s] starts with; 0 if [s]
    does not start with one. *)
Definition space_width (s : string) : nat :=
  match s with
  | EmptyString => 0
  | String c s1 =>
    if Ascii.is_space c then 1
    else match s1 with
    | EmptyString => 0
    | String d s2 =>
      if (code c =? 194) && ((code d =? 133) || (code d =? 160)) then 2
      else match s2 with
      | EmptyString => 0
      | String e _ => if wide_space (code c) (code d) (code e) then 3 else 0
      end
    end
  end.

(** ** [strings.Fields] *)

Definition emit (cur : string) (l : list string) : list string :=
  if decide (cur = "") then l else cur :: l.

(** [skip] counts the bytes left of the white-space rune being read, [cur] is
    the field read so far. *)
Fixpoint fields_from (skip : nat) (cur s : string) : list string :=
  match s with
  | EmptyString => emit cur []
  | String c s' =>
    match skip with
    | S k => fields_from k cur s'
    | O =>
      match space_width s with
      | O => fields_from O (cur +:+ String c "") s'
      | S k => emit cur (fields_from k "" s')
      end
    end
  end.

Definition fields (s : string) : list string := fields_from 0 "" s.

(** ** [strings.TrimSpace], [strings.Trim] with a one-character cutset *)

Fixpoint trim_left_from (skip : nat) (s : string) : string :=
  match s with
  | EmptyString => EmptyString
  | String _ s' =>
    match skip with
    | S k => trim_left_from k s'
    | O => match space_width s with O => s | S k => trim_left_from k s' end
    end
  end.

Fixpoint all_space_from (skip : nat) (s : string) : bool :=
  match s with
  | EmptyString => true
  | String _ s' =>
    match skip with
    | S k => all_space_from k s'
    | O => match space_width s with O => false | S k => all_space_from k s' end
    end
  end.

Fixpoint trim_right (s : string) : string :=
  match s with
  | EmptyString => EmptyString
  | String c s' => if all_space_from 0 s then "" else String c (trim_right s')
  end.

Definition trim_space (s : string) : string := trim_right (trim_left_from 0 s).

Fixpoint trim_left_char (q : ascii) (s : string) : string :=
  match s with
  | EmptyString => EmptyString
  | String c s' => if decide (c = q) then trim_left_char q s' else s
  end.

Fixpoint trim_right_char (q : ascii) (s : string) : string :=
  match s with
  | EmptyString => EmptyString
  | String c s' =>
    match trim_right_char q s' with
    | EmptyString => if decide (c = q) then "" else String c ""
    | r => String c r
    end
  end.

Definition trim_char (q : ascii) (s : string) : string :=
  trim_right_char q (trim_left_char q s).

(** ** [strings.Split] at a one-character separator, [strings.Join] *)

Fixpoint split_char (q : ascii) (s : string) : list string :=
  match s with
  | EmptyString => [""]
  | String c s' =>
    if decide (c = q) then "" :: split_char q s'
    else match split_char q s' with
         | w :: ws => String c w :: ws
         | [] => [String c ""]
         end
  end.

Fixpoint join (sep : string) (l : list string) : string :=
  match l with
  | [] => ""
  | [w] => w
  | w :: ws => w +:+ sep +:+ join sep ws
  end.

(** ** Searching *)

Definition has_prefix (p s : string) : bool := String.prefix p s.

Fixpoint drop_string (n : nat) (s : string) : string :=
  match n, s with
  | S k, String _ s' => drop_string k s'
  | _, _ => s
  end.

Fixpoint take_string (n : nat) (s : string) : string :=
  match n, s with
  | S k, String c s' => String c (take_string k s')
  | _, _ => ""
  end.

Definition trim_prefix (p s : string) : string :=
  if has_prefix p s then drop_string (String.length p) s else s.

Fixpoint contains (sub s : string) : bool :=
  has_prefix sub s || match s with EmptyString => false | String _ s' => contains sub s' end.

(** [strings.IndexByte] and [strings.LastIndex] of one character; [None] is
    Go's -1. *)
Fixpoint index_byte (q : ascii) (s : string) : option nat :=
  match s with
  | EmptyString => None
  | String c s' => if decide (c = q) then Some O else S <$> index_byte q s'
  end.

Fixpoint last_index (q : ascii) (s : string) : option nat :=
  match s with
  | EmptyString => None
  | String c s' =>
    match last_index q s' with
    | Some i => Some (S i)
    | None => if decide (c = q) then Some O else None
    end
  end.

(** The characters of a string. *)
Fixpoint chars (s : string) : list ascii :=
  match s with EmptyString => [] | String c s' => c :: chars s' end.

(** A plain character: ASCII and not white space.  A plain token: a nonempty
    string of plain characters. *)
Definition plain_char (c : ascii) : bool := (code c <? 128) && negb (Ascii.is_space c).

Fixpoint plain_chars (s : string) : bool :=
  match s with EmptyString => true | String c s' => plain_char c && plain_chars s' end.

Definition plain_token (s : string) : bool :=
  negb (bool_decide (s = "")) && plain_chars s.

(** Whether [q] does not occur in [s]. *)
Fixpoint lacks (q : ascii) (s : string) : bool :=
  match s with EmptyString => true | String c s' => negb (bool_decide (c = q)) && lacks q s' end.

(** ** Concatenation *)

Lemma sapp_nil_l s : "" +:+ s = s.
Proof. done. Qed.

Lemma sapp_cons c s t : String c s +:+ t = String c (s +:+ t).
Proof. done. Qed.

Lemma sapp_nil_r s : s +:+ "" = s.
Proof. induction s as [|c s IH]; [done|]. by rewrite sapp_cons, IH. Qed.

Lemma sapp_assoc s t u : (s +:+ t) +:+ u = s +:+ (t +:+ u).
Proof. induction s as [|c s IH]; [done|]. by rewrite !sapp_cons, IH. Qed.

Lemma slength_app s t : String.length (s +:+ t) = (String.length s + String.length t)%nat.
Proof. induction s as [|c s IH]; [done|]. rewrite sapp_cons. simpl. by rewrite IH. Qed.

Lemma sapp_snoc_ne s c : s +:+ String c "" ≠ "".
Proof. by destruct s. Qed.

Lemma sapp_cons_snoc s c t : s +:+ String c t = (s +:+ String c "") +:+ t.
Proof. by rewrite sapp_assoc. Qed.

#[export] Hint Rewrite sapp_nil_l sapp_cons sapp_nil_r sapp_assoc : go.

(** Normalises concatenations of strings. *)
Ltac sapp := autorewrite with go; simpl.

Lemma chars_app s t : chars (s +:+ t) = chars s ++ chars t.
Proof. induction s as [|c s IH]; [done|]. rewrite sapp_cons. simpl. by rewrite IH. Qed.

Lemma lacks_cons q c s : lacks q (String c s) = true ↔ c ≠ q ∧ lacks q s = true.
Proof. simpl. by rewrite andb_true_iff, negb_true_iff, bool_decide_eq_false. Qed.

Lemma lacks_app q s t : lacks q (s +:+ t) = lacks q s && lacks q t.
Proof.
  induction s as [|c s IH]; [done|]. rewrite sapp_cons. simpl.
  by rewrite IH, andb_assoc.
Qed.

Lemma plain_chars_app s t : plain_chars (s +:+ t) = plain_chars s && plain_chars t.
Proof.
  induction s as [|c s IH]; [done|]. rewrite sapp_cons. simpl.
  by rewrite IH, andb_assoc.
Qed.

(** ** White space *)

Lemma plain_char_spec c :
  plain_char c = true ↔ code c < 128 ∧ Ascii.is_space c = false.
Proof. unfold plain_char. rewrite andb_true_iff, Z.ltb_lt, negb_true_iff. done. Qed.

Lemma space_width_plain c s : plain_char c = true → space_width (String c s) = O.
Proof.
  intros [Hc Hsp]%plain_char_spec. simpl. rewrite Hsp.
  destruct s as [|d s]; [done|].
  rewrite (proj2 (Z.eqb_neq (code c) 194)) by lia. simpl.
  destruct s as [|e s]; [done|]. unfold wide_space.
  by rewrite !(proj2 (Z.eqb_neq (code c) _)) by lia.
Qed.

Lemma space_width_space c s : Ascii.is_space c = true → space_width (String c s) = 1%nat.
Proof. intros Hc. simpl. by rewrite Hc. Qed.

Lemma plain_token_spec t : plain_token t = true ↔ t ≠ "" ∧ plain_chars t = true.
Proof.
  unfold plain_token. rewrite andb_true_iff, negb_true_iff, bool_decide_eq_false. done.
Qed.

Lemma plain_chars_lacks q t : plain_char q = false → plain_chars t = true → lacks q t = true.
Proof.
  intros Hq. induction t as [|c t IH]; [done|]. simpl.
  intros [Hc Ht]%andb_true_iff. rewrite IH by done.
  rewrite bool_decide_eq_false_2 by congruence. done.
Qed.

(** ** [fields] *)

Lemma emit_nonempty cur l : cur ≠ "" → emit cur l = cur :: l.
Proof. intros. unfold emit. by rewrite decide_False. Qed.

Lemma fields_from_plain cur t s :
  plain_chars t = true → fields_from 0 cur (t +:+ s) = fields_from 0 (cur +:+ t) s.
Proof.
  revert cur. induction t as [|c t IH]; intros cur Ht.
  - by rewrite sapp_nil_r.
  - simpl in Ht. apply andb_true_iff in Ht as [Hc Ht]. rewrite sapp_cons.
    cbn [fields_from]. rewrite space_width_plain by done.
    by rewrite IH, <- sapp_cons_snoc by done.
Qed.

Lemma fields_space c s : Ascii.is_space c = true → fields (String c s) = fields s.
Proof. intros Hc. unfold fields. cbn [fields_from]. by rewrite space_width_space. Qed.

Lemma fields_token_app t c s :
  plain_token t = true → Ascii.is_space c = true →
  fields (t +:+ String c s) = t :: fields s.
Proof.
  intros [Hne Ht]%plain_token_spec Hc. unfold fields.
  rewrite fields_from_plain, sapp_nil_l by done. cbn [fields_from].
  rewrite space_width_space by done. by rewrite emit_nonempty.
Qed.

Lemma fields_token t : plain_token t = true → fields t = [t].
Proof.
  intros [Hne Ht]%plain_token_spec. unfold fields.
  rewrite <- (sapp_nil_r t) at 1. rewrite fields_from_plain by done.
  rewrite sapp_nil_l. simpl. by rewrite emit_nonempty.
Qed.

(** Tokens joined by blanks are what [fields] gives back. *)
Lemma fields_join l : Forall (λ t, plain_token t = true) l → fields (join " " l) = l.
Proof.
  induction 1 as [|t l Ht Hl IH]; [done|].
  destruct l as [|u l]; [by apply fields_token|].
  change (join " " (t :: u :: l)) with (t +:+ String " " (join " " (u :: l))).
  by rewrite fields_token_app, IH by done.
Qed.

Lemma fields_join_app l c s :
  l ≠ [] → Forall (λ t, plain_token t = true) l → Ascii.is_space c = true →
  fields (join " " l +:+ String c s) = l ++ fields s.
Proof.
  intros Hne Hl Hc. induction Hl as [|t l Ht Hl IH]; [done|].
  destruct l as [|u l]; [by apply fields_token_app|].
  change (join " " (t :: u :: l)) with (t +:+ String " " (join " " (u :: l))).
  rewrite sapp_assoc, sapp_cons. by rewrite fields_token_app, IH by done.
Qed.

Lemma fields_from_ne skip cur s : Forall (λ t, t ≠ "") (fields_from skip cur s).
Proof.
  revert skip cur. induction s as [|c s IH]; intros skip cur.
  - simpl. unfold emit. case_decide; eauto.
  - cbn [fields_from]. destruct skip; [|done].
    destruct (space_width _); [done|]. unfold emit. case_decide; eauto.
Qed.

Lemma fields_nonempty s : Forall (λ t, t ≠ "") (fields s).
Proof. apply fields_from_ne. Qed.

(** ** [trim_space] *)

Lemma all_space_from_plain c s : plain_char c = true → all_space_from 0 (String c s) = false.
Proof. intros. cbn [all_space_from]. by rewrite space_width_plain. Qed.

Lemma trim_right_plain t s :
  plain_chars t = true → all_space_from 0 s = true → trim_right (t +:+ s) = t.
Proof.
  intros Ht Hs. induction t as [|c t IH].
  - rewrite sapp_nil_l. destruct s; [done|]. cbn [trim_right]. by rewrite Hs.
  - simpl in Ht. apply andb_true_iff in Ht as [Hc Ht]. rewrite sapp_cons.
    cbn [trim_right]. by rewrite all_space_from_plain, IH.
Qed.

Lemma trim_left_space c s :
  Ascii.is_space c = true → trim_left_from 0 (String c s) = trim_left_from 0 s.
Proof. intros. cbn [trim_left_from]. by rewrite space_width_space. Qed.

Lemma trim_left_plain c s :
  plain_char c = true → trim_left_from 0 (String c s) = String c s.
Proof. intros. cbn [trim_left_from]. by rewrite space_width_plain. Qed.

Lemma trim_space_token t : plain_token t = true → trim_space t = t.
Proof.
  intros [Hne Ht]%plain_token_spec. unfold trim_space.
  destruct t as [|c t]; [done|].
  rewrite trim_left_plain by (simpl in Ht; by apply andb_true_iff in Ht as [? _]).
  rewrite <- (sapp_nil_r (String c t)) at 1. by apply trim_right_plain.
Qed.

Lemma trim_space_left c s : Ascii.is_space c = true → trim_space (String c s) = trim_space s.
Proof. intros. unfold trim_space. by rewrite trim_left_space. Qed.

(** Padding on both sides of a token disappears. *)
Lemma trim_space_pad pre t post :
  Forall (λ c, Ascii.is_space c = true) (chars pre) →
  Forall (λ c, Ascii.is_space c = true) (chars post) →
  plain_token t = true → trim_space (pre +:+ t +:+ post) = t.
Proof.
  intros Hpre Hpost [Hne Ht]%plain_token_spec.
  induction pre as [|c pre IH]; simpl in Hpre.
  - rewrite sapp_nil_l. unfold trim_space. destruct t as [|c t]; [done|].
    rewrite sapp_cons, trim_left_plain
      by (simpl in Ht; by apply andb_true_iff in Ht as [? _]).
    rewrite <- sapp_cons. apply trim_right_plain; [done|].
    clear -Hpost. induction post as [|c s IH]; [done|].
    apply Forall_cons in Hpost as [Hc Hs]. cbn [all_space_from].
    rewrite space_width_space by done. by apply IH.
  - apply Forall_cons in Hpre as [Hc Hpre]. rewrite sapp_cons.
    rewrite trim_space_left by done. by apply IH.
Qed.

Lemma all_space_join l :
  l ≠ [] → Forall (λ t, plain_token t = true) l → all_space_from 0 (join " " l) = false.
Proof.
  intros Hne Hl. destruct Hl as [|t l Ht Hl]; [done|].
  apply plain_token_spec in Ht as [Htne Ht]. destruct t as [|c t]; [done|].
  simpl in Ht. apply andb_true_iff in Ht as [Hc _].
  destruct l; [by apply all_space_from_plain|].
  change (join " " (String c t :: s :: l)) with (String c (t +:+ String " " (join " " (s :: l)))).
  by apply all_space_from_plain.
Qed.

Lemma trim_right_app t s :
  plain_chars t = true → all_space_from 0 s = false → trim_right (t +:+ s) = t +:+ trim_right s.
Proof.
  intros Ht Hs. induction t as [|c t IH]; [done|].
  simpl in Ht. apply andb_true_iff in Ht as [Hc Ht]. rewrite !sapp_cons.
  cbn [trim_right]. rewrite all_space_from_plain by done. by rewrite IH.
Qed.

(** A line of words has nothing to trim. *)
Lemma trim_space_join l :
  Forall (λ t, plain_token t = true) l → trim_space (join " " l) = join " " l.
Proof.
  intros Hl. unfold trim_space.
  assert (trim_left_from 0 (join " " l) = join " " l) as ->.
  { destruct Hl as [|t l Ht Hl]; [done|]. apply plain_token_spec in Ht as [Htne Ht].
    destruct t as [|c t]; [done|]. simpl in Ht. apply andb_true_iff in Ht as [Hc _].
    destruct l; [by apply trim_left_plain|].
    change (join " " (String c t :: s :: l)) with (String c (t +:+ String " " (join " " (s :: l)))).
    by apply trim_left_plain. }
  induction Hl as [|t l Ht Hl IH]; [done|]. apply plain_token_spec in Ht as [_ Ht].
  destruct l as [|u l].
  - simpl. rewrite <- (sapp_nil_r t) at 1. by apply trim_right_plain.
  - change (join " " (t :: u :: l)) with (t +:+ String " " (join " " (u :: l))).
    assert (all_space_from 0 (String " " (join " " (u :: l))) = false) as Hsp.
    { cbn [all_space_from]. rewrite space_width_space by done. by apply all_space_join. }
    rewrite trim_right_app by done. f_equal. cbn [trim_right]. rewrite Hsp. f_equal. exact IH.
Qed.

(** ** [split_char] and [join] *)

Lemma split_char_ne q s : split_char q s ≠ [].
Proof. destruct s; simpl; [done|]. repeat case_match; done. Qed.

Lemma split_char_lacks q s : Forall (λ w, lacks q w = true) (split_char q s).
Proof.
  induction s as [|c s IH]; simpl; [by constructor|]. case_decide as Hc.
  - by constructor.
  - destruct (split_char q s) as [|w ws]; constructor; rewrite ?lacks_cons; try done.
    + apply Forall_cons in IH as [Hw Hws]. done.
    + by apply Forall_cons in IH as [Hw Hws].
Qed.

Lemma join_cons2 sep w u l : join sep (w :: u :: l) = w +:+ sep +:+ join sep (u :: l).
Proof. done. Qed.

Lemma join_split q s : join (String q "") (split_char q s) = s.
Proof.
  induction s as [|c s IH]; [done|]. simpl split_char.
  pose proof (split_char_ne q s). case_decide as Hc.
  - destruct (split_char q s) as [|w ws]; [done|]. rewrite join_cons2, IH. by subst.
  - destruct (split_char q s) as [|w ws]; [done|].
    destruct ws as [|u ws]; [simpl in *; by rewrite IH|].
    rewrite join_cons2 in *. by rewrite sapp_cons, IH.
Qed.

Lemma split_char_token q w : lacks q w = true → split_char q w = [w].
Proof.
  induction w as [|c w IH]; [done|]. intros [Hc Hw]%lacks_cons. simpl.
  rewrite decide_False by done.
  by rewrite IH.
Qed.

Lemma split_char_app q w s :
  lacks q w = true → split_char q (w +:+ String q s) = w :: split_char q s.
Proof.
  induction w as [|c w IH].
  - intros _. rewrite sapp_nil_l. simpl. by rewrite decide_True.
  - rewrite sapp_cons. intros [Hc Hw]%lacks_cons. simpl.
    rewrite decide_False by done.
    by rewrite IH.
Qed.

Lemma split_join q l :
  l ≠ [] → Forall (λ w, lacks q w = true) l → split_char q (join (String q "") l) = l.
Proof.
  intros Hne Hl. induction Hl as [|w l Hw Hl IH]; [done|].
  destruct l as [|u l]; [by apply split_char_token|].
  rewrite join_cons2, sapp_cons, sapp_nil_l, split_char_app by done.
  by rewrite IH.
Qed.

(** ** Prefixes and search *)

Lemma has_prefix_app p s : has_prefix p (p +:+ s) = true.
Proof.
  unfold has_prefix. induction p as [|c p IH]; [by destruct s|].
  rewrite sapp_cons. simpl. rewrite IH.
  by destruct (Ascii.ascii_dec c c).
Qed.

Lemma has_prefix_spec p s : has_prefix p s = true ↔ ∃ t, s = p +:+ t.
Proof.
  split; [|intros [t ->]; apply has_prefix_app]. unfold has_prefix.
  revert s. induction p as [|c p IH]; intros s; [by exists s|].
  destruct s as [|d s]; simpl; [done|].
  destruct (Ascii.ascii_dec c d) as [->|]; [|done].
  intros [t ->]%IH. by exists t.
Qed.

Lemma drop_string_app s t : drop_string (String.length s) (s +:+ t) = t.
Proof. induction s as [|c s IH]; [by destruct t|]. rewrite sapp_cons. apply IH. Qed.

Lemma take_string_app s t : take_string (String.length s) (s +:+ t) = s.
Proof.
  induction s as [|c s IH]; [by destruct t|]. rewrite sapp_cons. simpl. by rewrite IH.
Qed.

Lemma trim_prefix_app p s : trim_prefix p (p +:+ s) = s.
Proof. unfold trim_prefix. by rewrite has_prefix_app, drop_string_app. Qed.

Lemma contains_spec sub s : contains sub s = true ↔ ∃ a b, s = a +:+ sub +:+ b.
Proof.
  split.
  - induction s as [|c s IH]; cbn [contains]; rewrite orb_true_iff.
    + intros [[t Ht]%has_prefix_spec|?]; [|done]. by exists "", t.
    + intros [[t Ht]%has_prefix_spec|H]; [by exists "", t|].
      apply IH in H as (a & b & ->). by exists (String c a), b.
  - intros (a & b & ->). induction a as [|c a IH].
    + rewrite sapp_nil_l. pose proof (has_prefix_app sub b) as H.
      destruct (sub +:+ b); cbn [contains]; by rewrite H.
    + rewrite sapp_cons. cbn [contains]. by rewrite IH, orb_true_r.
Qed.

Lemma index_byte_None q s : index_byte q s = None ↔ lacks q s = true.
Proof.
  induction s as [|c s IH]; simpl; [done|]. case_decide as Hc.
  - by rewrite bool_decide_eq_true_2.
  - rewrite bool_decide_eq_false_2, fmap_None by done. done.
Qed.

Lemma index_byte_app q a b :
  lacks q a = true → index_byte q (a +:+ String q b) = Some (String.length a).
Proof.
  induction a as [|c a IH].
  - intros _. rewrite sapp_nil_l. simpl. by rewrite decide_True.
  - rewrite sapp_cons. intros [Hc Ha]%lacks_cons. simpl.
    rewrite decide_False by done.
    by rewrite IH.
Qed.

Lemma last_index_None q s : lacks q s = true → last_index q s = None.
Proof.
  induction s as [|c s IH]; [done|]. intros [Hc Hs]%lacks_cons. simpl.
  rewrite IH, decide_False by done.
  done.
Qed.

Lemma last_index_app q a b :
  lacks q b = true → last_index q (a +:+ String q b) = Some (String.length a).
Proof.
  intros Hb. induction a as [|c a IH].
  - rewrite sapp_nil_l. simpl. rewrite last_index_None by done.
    by rewrite decide_True.
  - rewrite sapp_cons. simpl. by rewrite IH.
Qed.

(** ** [trim_char] *)

Lemma trim_right_char_lacks q s : lacks q s = true → trim_right_char q s = s.
Proof.
  induction s as [|c s IH]; [done|]. intros [Hc Hs]%lacks_cons. simpl.
  rewrite IH by done. destruct s; [|done].
  by rewrite decide_False by done.
Qed.

Lemma trim_left_char_lacks q s : lacks q s = true → trim_left_char q s = s.
Proof.
  destruct s as [|c s]; [done|]. intros [Hc Hs]%lacks_cons. simpl.
  by rewrite decide_False by done.
Qed.

Lemma trim_char_lacks q s : lacks q s = true → trim_char q s = s.
Proof.
  intros. unfold trim_char. by rewrite trim_left_char_lacks, trim_right_char_lacks.
Qed.

Lemma trim_right_char_snoc q s : trim_right_char q (s +:+ String q "") = trim_right_char q s.
Proof.
  induction s as [|c s IH].
  - rewrite sapp_nil_l. simpl. by rewrite decide_True.
  - rewrite sapp_cons. simpl. by rewrite IH.
Qed.

(** A text between quotes loses them. *)
Lemma trim_char_quoted q s :
  lacks q s = true → trim_char q (String q (s +:+ String q "")) = s.
Proof.
  intros Hs. unfold trim_char. simpl. rewrite decide_True by done.
  destruct s as [|c s].
  - rewrite sapp_nil_l. simpl. by rewrite decide_True.
  - pose proof Hs as [Hc _]%lacks_cons. rewrite sapp_cons. simpl.
    rewrite decide_False by done.
    rewrite <- sapp_cons, trim_right_char_snoc. by apply trim_right_char_lacks.
Qed.
