(* ===== verification/Effects.v ===== *)
(** * Effectful Go code as programs over an interface of external calls

    A handler or a method that talks to the operating system or to another
    package is a [prog E A]: a tree of the external calls [E] it makes, each
    followed by a continuation on the value the call returns.  What the outside
    world may answer is an [EffSpec]: the documented precondition and
    postcondition of every call.  [wp] says that a property holds of the
    program whatever the world answers within that contract; [run] executes
    the program against one concrete world. *)

From S2P Require Import Prelude.

Inductive prog (E : Type → Type) (A : Type) : Type :=
| Ret (a : A)
| Vis {X : Type} (e : E X) (k : X → prog E A).
Arguments Ret {E A} a.
Arguments Vis {E A X} e k.

(** One external call of a run: the call and its answer. *)
Inductive event (E : Type → Type) : Type :=
| Event {X : Type} (e : E X) (x : X).
Arguments Event {E X} e x.

Definition trigger {E X} (e : E X) : prog E X := Vis e Ret.

#[global] Instance prog_ret {E} : MRet (prog E) := λ A a, Ret a.

Fixpoint pbind {E A B} (f : A → prog E B) (p : prog E A) : prog E B :=
  match p with
  | Ret a => f a
  | Vis e k => Vis e (λ x, pbind f (k x))
  end.

#[global] Instance prog_bind {E} : MBind (prog E) := λ A B f p, pbind f p.

(** The documented contract of the external calls. *)
Class EffSpec (E : Type → Type) := {
  eff_pre : ∀ {X}, E X → Prop;
  eff_post : ∀ {X}, E X → X → Prop
}.

(** [wp p Q]: every call [p] makes meets its precondition, and in every world
    that keeps to the contract the run ends with a trace and a result in [Q]. *)
Definition wp {E} {sp : EffSpec E} {A} : prog E A → (list (event E) → A → Prop) → Prop :=
  fix wp (p : prog E A) (Q : list (event E) → A → Prop) : Prop :=
    match p with
    | Ret a => Q [] a
    | Vis e k =>
      eff_pre e ∧ ∀ x, eff_post e x → wp (k x) (λ tr a, Q (Event e x :: tr) a)
    end.

(** The runs of [p]: it can make the calls [tr] and end with [a]. *)
Definition runs {E} {sp : EffSpec E} {A} : prog E A → list (event E) → A → Prop :=
  fix runs (p : prog E A) (tr : list (event E)) (a : A) : Prop :=
    match p with
    | Ret a' => tr = [] ∧ a = a'
    | Vis e k => ∃ x tr', eff_post e x ∧ tr = Event e x :: tr' ∧ runs (k x) tr' a
    end.

(** A concrete world with state [S]; [None] is a run-time panic. *)
Definition world (E : Type → Type) (S : Type) : Type := ∀ X, E X → S → option (X * S).

Fixpoint run {E S A} (w : world E S) (p : prog E A) (s : S) : option (list (event E) * A * S) :=
  match p with
  | Ret a => Some ([], a, s)
  | Vis e k =>
    '(x, s') ← w _ e s;
    '(tr, a, s'') ← run w (k x) s';
    Some (Event e x :: tr, a, s'')
  end.

(** A world that keeps to the contract. *)
Definition world_ok {E S} {sp : EffSpec E} (w : world E S) : Prop :=
  ∀ X (e : E X) s,
    (∀ x s', w X e s = Some (x, s') → eff_post e x) ∧ (eff_pre e → is_Some (w X e s)).

(** ** Reasoning rules *)

Section wp.
Context {E : Type → Type} {sp : EffSpec E}.

Lemma wp_mono {A} (p : prog E A) (Q Q' : list (event E) → A → Prop) :
  (∀ tr a, Q tr a → Q' tr a) → wp p Q → wp p Q'.
Proof.
  revert Q Q'. induction p as [a|X e k IH]; intros Q Q' HQ; simpl; [by apply HQ|].
  intros [Hpre Hk]. split; [done|]. intros x Hx.
  apply (IH x (λ tr a, Q (Event e x :: tr) a)); eauto.
Qed.

Lemma wp_bind {A B} (p : prog E A) (f : A → prog E B) Q :
  wp p (λ tr a, wp (f a) (λ tr' b, Q (tr ++ tr') b)) → wp (p ≫= f) Q.
Proof.
  revert Q. induction p as [a|X e k IH]; intros Q; simpl; [done|].
  intros [Hpre Hk]. split; [done|]. intros x Hx.
  apply (IH x (λ tr a, Q (Event e x :: tr) a)). by apply Hk.
Qed.

Lemma wp_trigger {A X} (e : E X) (f : X → prog E A) Q :
  eff_pre e →
  (∀ x, eff_post e x → wp (f x) (λ tr a, Q (Event e x :: tr) a)) →
  wp (trigger e ≫= f) Q.
Proof. done. Qed.

Lemma wp_and {A} (p : prog E A) Q Q' :
  wp p Q → wp p Q' → wp p (λ tr a, Q tr a ∧ Q' tr a).
Proof.
  revert Q Q'. induction p as [a|X e k IH]; intros Q Q'; simpl; [done|].
  intros [Hpre Hk] [_ Hk']. split; [done|]. eauto.
Qed.

(** [wp] speaks of the runs, and of nothing else. *)
Lemma wp_runs {A} (p : prog E A) Q tr a : wp p Q → runs p tr a → Q tr a.
Proof.
  revert Q tr. induction p as [a'|X e k IH]; intros Q tr; simpl.
  - by intros HQ [-> ->].
  - intros [_ Hk] (x & tr' & Hx & -> & Hr). by apply (IH x _ tr' (Hk x Hx)).
Qed.

Lemma runs_bind {A B} (p : prog E A) (f : A → prog E B) tr b :
  runs (p ≫= f) tr b ↔ ∃ tr1 tr2 a, tr = tr1 ++ tr2 ∧ runs p tr1 a ∧ runs (f a) tr2 b.
Proof.
  revert tr. induction p as [a|X e k IH]; intros tr; simpl.
  - split; [intros Hf; by exists [], tr, a|]. by intros (? & ? & ? & -> & [-> ->] & Hf).
  - split.
    + intros (x & tr' & Hx & -> & (tr1 & tr2 & a & -> & Hk & Hf)%IH).
      exists (Event e x :: tr1), tr2, a. split; [done|]. split; [|done]. by exists x, tr1.
    + intros (? & tr2 & a & -> & (x & tr1 & Hx & -> & Hk) & Hf).
      exists x, (tr1 ++ tr2). split; [done|]. split; [done|]. apply IH. by exists tr1, tr2, a.
Qed.

Lemma runs_trigger {A X} (e : E X) (f : X → prog E A) tr a :
  runs (trigger e ≫= f) tr a ↔
  ∃ x tr', eff_post e x ∧ tr = Event e x :: tr' ∧ runs (f x) tr' a.
Proof. done. Qed.

Lemma wp_self {A} (p : prog E A) Q : wp p Q → wp p (λ tr a, runs p tr a ∧ Q tr a).
Proof.
  revert Q. induction p as [a|X e k IH]; intros Q; simpl; [done|].
  intros [Hpre Hk]. split; [done|]. intros x Hx.
  eapply wp_mono, IH, Hk, Hx. intros tr a [Hr HQ]. split; [|done]. by exists x, tr.
Qed.

(** A run in a world that keeps to the contract is one of the program's runs. *)
Lemma run_runs {A S} (w : world E S) (p : prog E A) s tr a s' :
  world_ok w → run w p s = Some (tr, a, s') → runs p tr a.
Proof.
  intros Hw. revert s tr. induction p as [a'|X e k IH]; intros s tr; simpl.
  - by intros [= <- <- <-].
  - destruct (w X e s) as [[x s1]|] eqn:Hx; simpl; [|done].
    destruct (run w (k x) s1) as [[[tr1 a1] s2]|] eqn:Hk; simpl; [|done].
    intros [= <- <- <-]. exists x, tr1. split; [by apply (Hw X e s) in Hx|].
    split; [done|]. by apply (IH x s1).
Qed.

(** A program with a [wp] runs to its end in such a world. *)
Lemma wp_run {A S} (w : world E S) (p : prog E A) Q s :
  world_ok w → wp p Q → ∃ tr a s', run w p s = Some (tr, a, s') ∧ Q tr a.
Proof.
  intros Hw. revert Q s. induction p as [a|X e k IH]; intros Q s; simpl; [by eexists _, _, _|].
  intros [Hpre Hk]. destruct (Hw X e s) as [Hpost Hsome].
  destruct (Hsome Hpre) as [[x s1] Hx]. rewrite Hx. simpl.
  destruct (IH x _ s1 (Hk x (Hpost _ _ Hx))) as (tr & a & s2 & -> & HQ).
  simpl. by exists (Event e x :: tr), a, s2.
Qed.

End wp.

(** Steps through the next external call of a [wp] goal. *)
Ltac wp_call x H := apply wp_trigger; [try done|intros x H].

(** Runs a [wp] goal to the end of every path: one goal per path is left, with
    the answers and their contracts as hypotheses. *)
Ltac wp_steps :=
  repeat (cbn beta zeta; match goal with
  | |- wp (Ret _) _ => simpl
  | |- wp (mret _) _ => simpl
  | |- wp (Vis _ _) _ => split; [try done|intros ? ?]
  | |- wp (trigger _ ≫= _) _ => apply wp_trigger; [try done|intros ? ?]
  | |- wp (trigger _) _ => split; [try done|intros ? ?]
  | |- wp (match ?x with _ => _ end) _ => destruct x eqn:?
  end).
