(* ===== verification/Net.v ===== *)
(** * The outside world of the two programs

    Connections, and the calls to the operating system and to other packages
    that the tunnel and the panel make, with the contracts their
    documentation gives. *)

From S2P Require Import Prelude Effects.

(** ** Configurations handed to other packages *)

Record ObfsConfig := {
  Enabled : bool;
  MinPadding : Z;
  MaxPadding : Z;
  MinDelay : Z;
  MaxDelay : Z
}.

Definition VersionTLS12 : Z := 771.
Definition VersionTLS13 : Z := 772.

(** The fields of [tls.Config] a client sets. *)
Record tls_config := {
  ServerName : string;
  InsecureSkipVerify : bool;
  MinVersion : Z;
  MaxVersion : Z
}.

(** The fields of [utls.Config] that are set; the hello is [HelloChrome_Auto]. *)
Record utls_config := {
  u_ServerName : string;
  u_InsecureSkipVerify : bool
}.

(** [smux.Config]. *)
Record smux_config := {
  Version : Z;
  KeepAliveDisabled : bool;
  KeepAliveInterval : Z;
  KeepAliveTimeout : Z;
  MaxFrameSize : Z;
  MaxReceiveBuffer : Z;
  MaxStreamBuffer : Z
}.

(** [net.Dialer]: the timeout, and the keep-alive period when one is set. *)
Record dialer := { Timeout : Z; KeepAlive : option Z }.

(** ** Connections

    A connection is a socket and the wrappers around it, outermost first. *)

Inductive layer :=
| LFrag (chunk : Z)
| LTls (cfg : tls_config)
| LUtls (cfg : utls_config)
| LWs
| LObfs (cfg : ObfsConfig).

Record conn := { cn_fd : nat; cn_layers : list layer }.

Definition wrap_conn (l : layer) (c : conn) : conn :=
  {| cn_fd := cn_fd c; cn_layers := l :: cn_layers c |}.

(** A [smux.Session] and a [smux.Stream] are known by their identity. *)
Definition session : Type := nat.
Definition stream : Type := nat.

(** [websocket.Dialer] as [dialWS] fills it: the handshake timeout, the
    dialer behind [NetDial], the TLS configuration, and the server name for
    the [dialTLS] callback behind [NetDialTLSContext]. *)
Record ws_dialer := {
  HandshakeTimeout : Z;
  NetDialer : dialer;
  TLSClientConfig : option tls_config;
  NetDialTLSContext : option string
}.

Record url := { Scheme : string; Host : string; Path : string }.

(** The fields of [x509.Certificate] that [generateSelfSignedCert] sets; the
    serial number is nil when there was no randomness for it. *)
Record x509_template := {
  SerialNumber : option Z;
  CommonName : string;
  NotBefore : Z;
  NotAfter : Z;
  KeyUsage : Z;
  ExtKeyUsage : list Z;
  BasicConstraintsValid : bool;
  DNSNames : list string
}.

(** A [tls.Certificate]: the DER encoding and the private key (by identity). *)
Record tls_certificate := { Certificate : list (list byte); PrivateKey : nat }.

(** The fields of [tls.Config] a server sets. *)
Record tls_server_config := {
  Certificates : list tls_certificate;
  srv_MinVersion : Z;
  srv_MaxVersion : Z;
  CipherSuites : list Z
}.

(** A [net.Listener], by identity. *)
Definition listener : Type := nat.

(** Settings of a [kcp.UDPSession]. *)
Inductive kcp_option :=
| SetStreamMode (enable : bool)
| SetWriteDelay (delay : bool)
| SetKcpNoDelay (nodelay interval resend nc : Z)
| SetWindowSize (sndwnd rcvwnd : Z)
| SetMtu (mtu : Z)
| SetACKNoDelay (nodelay : bool).

(** Options of a TCP socket. *)
Inductive tcp_option :=
| SetNoDelay (b : bool)
| SetKeepAlive (b : bool)
| SetKeepAlivePeriod (d : Z).

(** A TCP segment in an Ethernet frame, as the packet library serializes it. *)
Record tcp_packet := {
  eth_src : list byte;
  eth_dst : list byte;
  ip_ttl : Z;
  ip_src : option (list byte);
  ip_dst : option (list byte);
  tcp_sport : Z;
  tcp_dport : Z;
  tcp_psh : bool;
  tcp_ack : bool;
  tcp_window : Z;
  tcp_seq : Z;
  tcp_acknum : Z;
  tcp_payload : list byte
}.

(** The two kinds of ends that [pipe] joins. *)
Inductive pipe_end := PConn (c : conn) | PStream (s : stream).

(** ** The external calls *)

Inductive sysE : Type → Type :=
(* a run-time panic *)
| GoPanic (msg : string) : sysE Empty_set
(* time and randomness *)
| TimeNow : sysE Z
| TimeSleep (d : Z) : sysE unit
| RandIntn (n : Z) : sysE Z
| RandRead (n : nat) : sysE (list byte)
(* processes and files *)
| ExecRun (name : string) (args : list string) : sysE (option goerr)
| ExecOutput (name : string) (args : list string) : sysE (res string)
| ExecCombined (name : string) (args : list string) : sysE (string * option goerr)
| ReadFile (path : string) : sysE (res string)
| WriteFile (path content : string) (perm : Z) : sysE (option goerr)
| RemoveFile (path : string) : sysE (option goerr)
| StatFile (path : string) : sysE (option goerr)
(* keys and certificates *)
| EcdsaGenerateKey : sysE (res nat)
| RandInt (max : Z) : sysE (res Z)
| CreateCertificate (template parent : x509_template) (pub priv : nat) : sysE (res (list byte))
(* network *)
| NetListen (addr : string) : sysE (res listener)
| TlsListen (addr : string) (cfg : tls_server_config) : sysE (res listener)
| ListenerClose (l : listener) : sysE unit
| InterfaceByName (name : string) : sysE (res string)
| NetDial (d : dialer) (addr : string) : sysE (res conn)
| TcpOption (c : conn) (o : tcp_option) : sysE unit
| TlsDial (d : dialer) (addr : string) (cfg : tls_config) : sysE (res conn)
| TlsHandshake (c : conn) : sysE (option goerr)
| WsUpgrade (path : string) : sysE (res conn)
| WsWriteMessage (c : conn) (messageType : Z) (b : list byte) : sysE (option goerr)
| WsDial (d : ws_dialer) (u : url) (hdr : list (string * string)) : sysE (res conn)
| KcpDial (addr : string) (key : list byte) (dataShards parityShards : Z) : sysE (res conn)
| KcpOption (c : conn) (o : kcp_option) : sysE unit
| KcpNewConn3 (convid : Z) (ip : option (list byte)) (port : Z) (key : list byte)
    (dataShards parityShards : Z) (pconn : nat) : sysE (res conn)
| KcpListen (addr : string) (key : list byte) (dataShards parityShards : Z) : sysE (res listener)
| KcpServeConn (key : list byte) (dataShards parityShards : Z) (pconn : nat) : sysE (res listener)
| Accept (l : listener) : sysE (res conn)
| AESBlockCrypt (key : list byte) : sysE (res (list byte))
| ConnWrite (c : conn) (b : list byte) : sysE (Z * option goerr)
| ConnClose (c : conn) : sysE unit
| SmuxClient (c : conn) (cfg : smux_config) : sysE (res session)
| SmuxServer (c : conn) (cfg : smux_config) : sysE (res session)
| SmuxIsClosed (s : session) : sysE bool
| SmuxOpenStream (s : session) : sysE (res stream)
| SmuxAcceptStream (s : session) : sysE (res stream)
| SmuxClose (s : session) : sysE unit
| StreamClose (st : stream) : sysE unit
| Pipe (a b : pipe_end) : sysE unit
(* goroutines: one per accepted stream, one per accepted connection of a server
   and of a client, and the one that waits for the signal to exit *)
| GoStream (st : stream) (target : string) : sysE unit
| GoServe (c : conn) (target : string) : sysE unit
| GoClient (c : conn) : sysE unit
| GoOnSignal (port : Z) : sysE unit
(* packets *)
| ParseMAC (mac : string) : sysE (res (list byte))
| ParseIP4 (ip : string) : sysE (option (list byte))
| PcapOpenLive (iface : string) (snaplen : Z) (promisc : bool) : sysE (res nat)
| PcapSetFilter (h : nat) (filter : string) : sysE (option goerr)
| PcapClose (h : nat) : sysE unit
| SerializeTCP (p : tcp_packet) : sysE (res (list byte))
| PcapWrite (h : nat) (frame : list byte) : sysE (option goerr).

(** What the documentation of the callees asks for and promises.
    [math/rand.Intn] and [Int63n] panic unless the bound is positive;
    [RandRead] is the slice after [crypto/rand.Read], whose error the callers
    ignore: only its length is known; an [io.Writer] that writes less
    than it was given returns an error; a dialled connection is a bare
    socket, or a socket under TLS; AES takes keys of 16, 24 and 32 bytes. *)
#[global] Instance sys_spec : EffSpec sysE := {
  eff_pre X e :=
    match e with
    | GoPanic _ => False
    | RandIntn n => 0 < n
    | _ => True
    end;
  eff_post X e :=
    match e in sysE X return X → Prop with
    | RandIntn n => λ r, 0 <= r < n
    | RandRead n => λ bs, length bs = n
    | RandInt max => λ r, ∀ z, r = Ok z → 0 <= z < max
    | ConnWrite c b => λ r,
        0 <= r.1 <= Z.of_nat (length b) ∧ (r.2 = None → r.1 = Z.of_nat (length b))
    | NetDial d addr => λ r, ∀ c, r = Ok c → cn_layers c = []
    | AESBlockCrypt key => λ r, length key ∈ [16; 24; 32]%nat → r = Ok key
    | TlsDial d addr cfg => λ r, ∀ c, r = Ok c → cn_layers c = [LTls cfg]
    | _ => λ _, True
    end
}.

(** ** A world that keeps to the contracts

    The answers follow a script: the next boolean says whether the next call
    that can fail succeeds (they all do when the script is used up); the clock
    stands still, randomness is zero and new objects are numbered. *)
Record script := { sc_ok : list bool; sc_clock : Z; sc_next : nat }.

Definition sc_pop (s : script) : bool * script :=
  match sc_ok s with
  | [] => (true, s)
  | b :: bs => (b, {| sc_ok := bs; sc_clock := sc_clock s; sc_next := sc_next s |})
  end.

Definition sc_fails (s : script) : option (option goerr * script) :=
  let '(b, s') := sc_pop s in Some (if b then None else Some (ErrText "refused"), s').

Definition sc_gives {A} (f : nat → A) (s : script) : option (res A * script) :=
  let '(b, s') := sc_pop s in
  if b then Some (Ok (f (sc_next s')),
                  {| sc_ok := sc_ok s'; sc_clock := sc_clock s'; sc_next := S (sc_next s') |})
  else Some (Err (ErrText "refused"), s').

Definition sc_silent (s : script) : option (unit * script) := Some (tt, s).

Definition scripted : world sysE script := λ X e,
  match e in sysE X return script → option (X * script) with
  | GoPanic _ => λ _, None
  | TimeNow => λ s, Some (sc_clock s, s)
  | TimeSleep _ => sc_silent
  | RandIntn n => λ s, if 0 <? n then Some (0, s) else None
  | RandRead n => λ s, Some (repeat Byte.x00 n, s)
  | ExecRun _ _ => sc_fails
  | ExecOutput _ _ => sc_gives (λ _, "")
  | ExecCombined _ _ => λ s, '(e, s') ← sc_fails s; Some ((""%string, e), s')
  | ReadFile _ => sc_gives (λ _, "")
  | WriteFile _ _ _ => sc_fails
  | RemoveFile _ => sc_fails
  | StatFile _ => sc_fails
  | EcdsaGenerateKey => sc_gives (λ n, n)
  | RandInt max => λ s, if 0 <? max then sc_gives (λ _, 0) s else Some (Err (ErrText "empty range"), s)
  | CreateCertificate _ _ _ _ => sc_gives (λ _, [])
  | NetListen _ => sc_gives (λ n, n)
  | TlsListen _ _ => sc_gives (λ n, n)
  | ListenerClose _ => sc_silent
  | InterfaceByName _ => sc_gives (λ _, "")
  | NetDial _ _ => sc_gives (λ n, {| cn_fd := n; cn_layers := [] |})
  | TcpOption _ _ => sc_silent
  | TlsDial _ _ cfg => sc_gives (λ n, {| cn_fd := n; cn_layers := [LTls cfg] |})
  | TlsHandshake _ => sc_fails
  | WsUpgrade _ => sc_gives (λ n, {| cn_fd := n; cn_layers := [] |})
  | WsWriteMessage _ _ _ => sc_fails
  | WsDial _ _ _ => sc_gives (λ n, {| cn_fd := n; cn_layers := [] |})
  | KcpDial _ _ _ _ => sc_gives (λ n, {| cn_fd := n; cn_layers := [] |})
  | KcpOption _ _ => sc_silent
  | ConnWrite _ b => λ s,
      '(e, s') ← sc_fails s; Some ((if e is Some _ then 0 else Z.of_nat (length b), e), s')
  | ConnClose _ => sc_silent
  | SmuxClient _ _ => sc_gives (λ n, n)
  | SmuxServer _ _ => sc_gives (λ n, n)
  | SmuxIsClosed _ => λ s, let '(b, s') := sc_pop s in Some (negb b, s')
  | KcpListen _ _ _ _ => sc_gives (λ n, n)
  | KcpServeConn _ _ _ _ => sc_gives (λ n, n)
  | Accept _ => sc_gives (λ n, {| cn_fd := n; cn_layers := [] |})
  | GoServe _ _ => sc_silent
  | GoClient _ => sc_silent
  | GoOnSignal _ => sc_silent
  | KcpNewConn3 _ _ _ _ _ _ _ => sc_gives (λ n, {| cn_fd := n; cn_layers := [] |})
  | AESBlockCrypt key => λ s,
      Some (if decide (length key ∈ [16; 24; 32]%nat) then Ok key else Err (ErrText "key size"), s)
  | SmuxOpenStream _ => sc_gives (λ n, n)
  | SmuxAcceptStream _ => sc_gives (λ n, n)
  | SmuxClose _ => sc_silent
  | StreamClose _ => sc_silent
  | Pipe _ _ => sc_silent
  | GoStream _ _ => sc_silent
  | ParseMAC _ => sc_gives (λ _, repeat Byte.x00 6)
  | ParseIP4 _ => λ s, Some (Some (repeat Byte.x01 4), s)
  | PcapOpenLive _ _ _ => sc_gives (λ n, n)
  | PcapSetFilter _ _ => sc_fails
  | PcapClose _ => sc_silent
  | SerializeTCP p => sc_gives (λ _, tcp_payload p)
  | PcapWrite _ _ => sc_fails
  end.

(** The contracts can be kept, so what [wp] says of a program is not void. *)
Lemma scripted_ok : world_ok scripted.
Proof.
  intros X e s. unfold scripted, sc_fails, sc_gives, sc_silent, sc_pop, eff_pre, eff_post, sys_spec.
  split.
  - intros x s'. destruct e; go_cases; try done; zbool; intros; simplify_eq/=; try lia.
    all: try (split; [lia|done]); try apply repeat_length; naive_solver.
  - destruct e; go_cases; try done; intros; zbool; try lia; by eexists.
Qed.

(** [make([]byte, n)]: panics when [n] is negative. *)
Definition go_make (n : Z) : prog sysE nat :=
  if n <? 0 then Vis (GoPanic "makeslice: len out of range") (λ x : Empty_set, match x with end)
  else mret (Z.to_nat n).

(** ** Traces *)

(** The connection a call opens, and the one it closes. *)
Definition opens (ev : event sysE) : option conn :=
  match ev with
  | @Event _ _ e x =>
    match e in sysE X return X → option conn with
    | NetDial _ _ | TlsDial _ _ _ | WsDial _ _ _ | WsUpgrade _ | KcpDial _ _ _ _
    | KcpNewConn3 _ _ _ _ _ _ _ =>
      λ r, match r with Ok c => Some c | Err _ => None end
    | _ => λ _, None
    end x
  end.

Definition closes (ev : event sysE) : option conn :=
  match ev with
  | @Event _ _ e _ => match e with ConnClose c => Some c | _ => None end
  end.

Definition closed_fds (tr : list (event sysE)) : list nat := cn_fd <$> omap closes tr.

(** Every connection a trace opens is closed later in it, except those whose
    socket is [keep]. *)
Fixpoint no_leak (keep : option nat) (tr : list (event sysE)) : Prop :=
  match tr with
  | [] => True
  | ev :: tr' =>
    match opens ev with
    | Some c => keep = Some (cn_fd c) ∨ cn_fd c ∈ closed_fds tr'
    | None => True
    end ∧ no_leak keep tr'
  end.

(** What a trace wrote to connections, and how long it slept. *)
Definition wrote (ev : event sysE) : option (list byte) :=
  match ev with
  | @Event _ _ e _ => match e with ConnWrite _ b => Some b | _ => None end
  end.

Definition slept (ev : event sysE) : option Z :=
  match ev with
  | @Event _ _ e _ => match e with TimeSleep d => Some d | _ => None end
  end.

Definition conn_writes (tr : list (event sysE)) : list (list byte) := omap wrote tr.
Definition sleeps (tr : list (event sysE)) : list Z := omap slept tr.

Lemma conn_writes_cons ev tr :
  conn_writes (ev :: tr) =
    match wrote ev with Some b => b :: conn_writes tr | None => conn_writes tr end.
Proof. done. Qed.

Lemma conn_writes_app tr tr' : conn_writes (tr ++ tr') = conn_writes tr ++ conn_writes tr'.
Proof. apply omap_app. Qed.

Lemma sleeps_app tr tr' : sleeps (tr ++ tr') = sleeps tr ++ sleeps tr'.
Proof. apply omap_app. Qed.

Lemma no_leak_app keep tr tr' :
  no_leak keep tr → no_leak keep tr' → no_leak keep (tr ++ tr').
Proof.
  induction tr as [|ev tr IH]; simpl; [done|]. intros [Hev Htr] Htr'.
  split; [|by apply IH]. destruct (opens ev); [|done].
  destruct Hev as [?|Hc]; [by left|right]. unfold closed_fds in *.
  rewrite omap_app, fmap_app, elem_of_app. by left.
Qed.

Lemma no_leak_silent keep ev tr : opens ev = None → no_leak keep tr → no_leak keep (ev :: tr).
Proof. intros Hev Htr. simpl. by rewrite Hev. Qed.

Lemma no_leak_closed keep fd trd tr :
  no_leak (Some fd) trd → no_leak keep tr → fd ∈ closed_fds tr → no_leak keep (trd ++ tr).
Proof.
  intros Htrd Htr Hfd. induction trd as [|ev trd IH]; simpl in *; [done|].
  destruct Htrd as [Hev Htrd]. split; [|by apply IH].
  destruct (opens ev) as [c|]; [|done]. right. unfold closed_fds in *.
  rewrite omap_app, fmap_app, elem_of_app. destruct Hev as [[= <-]|Hev]; tauto.
Qed.

Lemma no_leak_weaken keep tr : no_leak None tr → no_leak keep tr.
Proof.
  induction tr as [|ev tr IH]; simpl; [done|]. intros [Hev Htr]. split; [|by apply IH].
  destruct (opens ev); [|done]. destruct Hev as [|]; [done|by right].
Qed.

(** What a dial leaves behind: the connection it returns, if any, and no other. *)
Definition dial_clean (tr : list (event sysE)) (r : res conn) : Prop :=
  match r with
  | Ok c => no_leak (Some (cn_fd c)) tr
  | Err _ => no_leak None tr
  end.

Lemma go_make_wp {A} n (f : nat → prog sysE A) Q :
  0 <= n → wp (f (Z.to_nat n)) Q → wp (go_make n ≫= f) Q.
Proof.
  intros Hn HQ. unfold go_make. destruct (Z.ltb_spec n 0); [lia|]. exact HQ.
Qed.
