(* ===== verification/Stream.v ===== *)
(** * Byte streams: the [io.Reader] interface

    What a wrapper around a connection promises to the code that reads from
    it.  [br_owes s bs err] says that the reader in state [s] will deliver the
    bytes [bs] and then fail with [err]; [br_size] bounds the reads this can
    take.  The padding layer is proved against this interface and is itself an
    instance of it, as is the WebSocket connection. *)

From S2P Require Import Prelude.

Class ByteReader (S : Type) := {
  br_read : nat → S → list byte * option goerr * S;
  br_owes : S → list byte → goerr → Prop;
  br_size : S → nat
}.

(** The law: a read into a nonempty buffer takes a prefix of what is owed and
    makes progress, or hands over what is left with the final error. *)
Class ByteReaderLaw (S : Type) `{ByteReader S} : Prop := {
  br_law n s bs err :
    br_owes s bs err → (0 < n)%nat →
    ∃ out e s', br_read n s = (out, e, s') ∧ (length out ≤ n)%nat ∧
      ((e = None ∧ ∃ rest, bs = out ++ rest ∧ br_owes s' rest err ∧
          (br_size s' + length out ≤ br_size s)%nat ∧ (br_size s' < br_size s)%nat) ∨
       (e = Some err ∧ out = bs ∧ br_owes s' [] err ∧
          (br_size s' + length out ≤ br_size s)%nat))
}.

Section readers.
Context {S : Type} `{ByteReader S}.

(** [io.ReadFull]: the loop of [io.ReadAtLeast], [n] bytes missing, [acc]
    read.  [fuel] counts the reads; [read_full] gives it one more than the
    reader can take. *)
Fixpoint read_at_least (fuel n : nat) (acc : list byte) (s : S)
    : list byte * option goerr * S :=
  if decide (n = 0%nat) then (acc, None, s)
  else match fuel with
  | O => (acc, Some (ErrText "fuel"), s)
  | Datatypes.S fuel' =>
    let '(out, e, s') := br_read n s in
    match e with
    | None => read_at_least fuel' (n - length out) (acc ++ out) s'
    | Some err =>
      if decide (n ≤ length out)%nat then (acc ++ out, None, s')
      else (acc ++ out,
            Some (if decide (acc ++ out ≠ [] ∧ err = EOF) then ErrUnexpectedEOF else err), s')
    end
  end.

Definition read_full (n : nat) (s : S) : list byte * option goerr * S :=
  read_at_least (1 + br_size s) n [] s.

(** Successive reads with buffers of the sizes [ns], until the first error. *)
Fixpoint reads (ns : list nat) (s : S) : list byte * option goerr * S :=
  match ns with
  | [] => ([], None, s)
  | n :: ns' =>
    let '(bs, e, s1) := br_read n s in
    match e with
    | Some err => (bs, Some err, s1)
    | None => let '(bs', e', s2) := reads ns' s1 in (bs ++ bs', e', s2)
    end
  end.

(** The error of [io.ReadFull] when only [got] bytes arrived before [err]. *)
Definition short_error (got : nat) (err : goerr) : goerr :=
  if decide (got ≠ 0%nat ∧ err = EOF) then ErrUnexpectedEOF else err.

Lemma short_error_EOF got :
  short_error got EOF = if decide (got = 0%nat) then EOF else ErrUnexpectedEOF.
Proof. unfold short_error. repeat case_decide; tauto. Qed.

Context {Hlaw : ByteReaderLaw S}.

Lemma read_at_least_enough fuel n acc s bs err :
  br_owes s bs err → (n ≤ length bs)%nat → (br_size s < fuel)%nat →
  ∃ s', read_at_least fuel n acc s = (acc ++ take n bs, None, s') ∧
    br_owes s' (drop n bs) err ∧ (br_size s' + n ≤ br_size s)%nat.
Proof.
  revert n acc s bs. induction fuel as [|fuel IH]; intros n acc s bs Ho Hn Hf; [lia|].
  simpl. case_decide as H0.
  { subst. exists s. rewrite take_0, app_nil_r. split_and!; [done|done|lia]. }
  destruct (br_law n s bs err Ho) as (out & e & s1 & -> & Hout & Hcase); [lia|].
  destruct Hcase as [(-> & rest & -> & Ho1 & Hs1 & Hs1')|(-> & -> & Ho1 & Hs1)].
  - rewrite length_app in Hn.
    destruct (IH (n - length out)%nat (acc ++ out) s1 rest Ho1) as (s' & -> & Ho' & Hs'); [lia..|].
    exists s'. rewrite take_app_ge, drop_app_ge, (assoc_L (++)) by lia.
    split_and!; [done|done|lia].
  - rewrite decide_True by done. exists s1. rewrite take_ge, drop_ge by lia.
    split_and!; [done|done|lia].
Qed.

Lemma read_at_least_short fuel n acc s bs err :
  br_owes s bs err → (length bs < n)%nat → (br_size s < fuel)%nat →
  ∃ s', read_at_least fuel n acc s =
    (acc ++ bs, Some (short_error (length (acc ++ bs)) err), s') ∧
    br_owes s' [] err ∧ (br_size s' ≤ br_size s)%nat.
Proof.
  revert n acc s bs. induction fuel as [|fuel IH]; intros n acc s bs Ho Hn Hf; [lia|].
  simpl. rewrite decide_False by lia.
  destruct (br_law n s bs err Ho) as (out & e & s1 & -> & Hout & Hcase); [lia|].
  destruct Hcase as [(-> & rest & -> & Ho1 & Hs1 & Hs1')|(-> & -> & Ho1 & Hs1)].
  - rewrite length_app in Hn. rewrite (assoc_L (++)).
    destruct (IH (n - length out)%nat (acc ++ out) s1 rest Ho1) as (s' & -> & Ho' & Hs'); [lia..|].
    exists s'. split_and!; [done|done|lia].
  - rewrite decide_False by lia. exists s1. split_and!; [|done|lia].
    do 3 f_equal. unfold short_error.
    apply decide_ext. destruct (acc ++ bs); simpl; naive_solver.
Qed.

Lemma read_full_enough n s bs tail err :
  br_owes s (bs ++ tail) err → length bs = n →
  ∃ s', read_full n s = (bs, None, s') ∧ br_owes s' tail err ∧
    (br_size s' + n ≤ br_size s)%nat.
Proof.
  intros Ho <-. unfold read_full.
  destruct (read_at_least_enough (1 + br_size s) (length bs) [] s _ err Ho)
    as (s' & -> & Ho' & Hs'); [rewrite length_app; lia|lia|].
  exists s'. rewrite take_app_length, drop_app_length in *. done.
Qed.

Lemma read_full_short n s bs err :
  br_owes s bs err → (length bs < n)%nat →
  ∃ s', read_full n s = (bs, Some (short_error (length bs) err), s') ∧
    br_owes s' [] err ∧ (br_size s' ≤ br_size s)%nat.
Proof.
  intros Ho Hn. unfold read_full.
  apply (read_at_least_short _ _ [] _ _ _ Ho); lia.
Qed.

(** Reading on and on hands over exactly what is owed, then the error. *)
Lemma reads_all ns s bs err :
  br_owes s bs err → Forall (λ n, (0 < n)%nat) ns → (br_size s < length ns)%nat →
  ∃ s', reads ns s = (bs, Some err, s').
Proof.
  revert s bs. induction ns as [|n ns IH]; intros s bs Ho Hns Hlen; simpl in *; [lia|].
  apply Forall_cons in Hns as [Hn Hns].
  destruct (br_law n s bs err Ho Hn) as (out & e & s1 & -> & Hout & Hcase).
  destruct Hcase as [(-> & rest & -> & Ho1 & Hs1 & Hs1')|(-> & -> & Ho1 & Hs1)]; [|by exists s1].
  destruct (IH s1 rest Ho1 Hns) as [s' ->]; [lia|]. by exists s'.
Qed.

(** Any number of reads hands over a prefix of it. *)
Lemma reads_prefix ns s bs err :
  br_owes s bs err → Forall (λ n, (0 < n)%nat) ns →
  ∃ rest, bs = (reads ns s).1.1 ++ rest.
Proof.
  revert s bs. induction ns as [|n ns IH]; intros s bs Ho Hns; simpl; [by exists bs|].
  apply Forall_cons in Hns as [Hn Hns].
  destruct (br_law n s bs err Ho Hn) as (out & e & s1 & -> & Hout & Hcase).
  destruct Hcase as [(-> & rest & -> & Ho1 & Hs1 & Hs1')|(-> & -> & Ho1 & Hs1)].
  - destruct (IH s1 rest Ho1 Hns) as [rest' Hr].
    destruct (reads ns s1) as [[bs' e'] s2]. simpl in *. exists rest'.
    by rewrite Hr at 1; rewrite (assoc_L (++)).
  - exists []. by rewrite app_nil_r.
Qed.

End readers.

(** ** A socket: chunks of any size, then an error *)

Record source := { src_chunks : list (list byte); src_err : goerr }.

Definition source_read (n : nat) (s : source) : list byte * option goerr * source :=
  match src_chunks s with
  | [] => ([], Some (src_err s), s)
  | ch :: rest =>
    if decide (length ch ≤ n)%nat
    then (ch, None, {| src_chunks := rest; src_err := src_err s |})
    else (take n ch, None, {| src_chunks := drop n ch :: rest; src_err := src_err s |})
  end.

#[export] Instance source_reader : ByteReader source := {
  br_read := source_read;
  br_owes s bs err := concat (src_chunks s) = bs ∧ src_err s = err;
  br_size s := sum_list (map (λ ch, 1 + length ch)%nat (src_chunks s))
}.

#[export] Instance source_law : ByteReaderLaw source.
Proof.
  constructor. intros n [chunks err0] bs err [Hbs Herr] Hn. simpl in *. subst.
  unfold source_read. simpl. destruct chunks as [|ch rest]; simpl.
  - eexists _, _, _. split; [done|]. split; [simpl; lia|]. right. by split_and!.
  - case_decide as Hch; eexists _, _, _; split_and!; try done.
    + left. split; [done|]. exists (concat rest). split_and!; [done..|simpl; lia|simpl; lia].
    + rewrite length_take. lia.
    + left. split; [done|]. exists (drop n ch ++ concat rest).
      rewrite (assoc_L (++)), take_drop.
      split_and!; try done; simpl; rewrite ?length_take, length_drop; lia.
Qed.

Lemma source_owes_one b err :
  br_owes {| src_chunks := [b]; src_err := err |} (b ++ []) err.
Proof. done. Qed.
