(* ===== verification/Obfs.v ===== *)
(** * obfs.go: the padding layer

    [obfsConn] frames every write as a 4-byte header (payload length and
    padding length, 16 bits each, big endian), the payload and random padding,
    after a random delay.  Its [Read] undoes the framing on a byte stream that
    arrives in chunks of any size. *)

From S2P Require Import Prelude Effects Net Stream.

(** ** Configuration *)

Definition DefaultObfsConfig : ObfsConfig := {|
  Enabled := true;
  MinPadding := 16;
  MaxPadding := 256;
  MinDelay := 0;
  MaxDelay := 3 * millisecond
|}.

Definition WrapObfs (c : conn) (cfg : ObfsConfig) : conn :=
  if negb (Enabled cfg) then c else wrap_conn (LObfs cfg) c.

(** ** Writing *)

Definition obfs_header (dataLen padLen : Z) : list byte :=
  be_put16 (uint16 dataLen) ++ be_put16 (uint16 padLen).

Definition obfs_frame (p pad : list byte) : list byte :=
  obfs_header (Z.of_nat (length p)) (Z.of_nat (length pad)) ++ p ++ pad.

Definition choose_padLen (cfg : ObfsConfig) : prog sysE Z :=
  if MaxPadding cfg >? MinPadding cfg then
    r ← trigger (RandIntn (MaxPadding cfg - MinPadding cfg));
    mret (MinPadding cfg + r)
  else mret (MinPadding cfg).

Definition applyJitter (cfg : ObfsConfig) : prog sysE unit :=
  if MaxDelay cfg <=? 0 then mret tt
  else
    let delta := MaxDelay cfg - MinDelay cfg in
    if delta <=? 0 then trigger (TimeSleep (MinDelay cfg))
    else
      r ← trigger (RandIntn delta);
      trigger (TimeSleep (MinDelay cfg + r)).

Definition obfsConn_Write (cfg : ObfsConfig) (inner : conn) (p : list byte)
    : prog sysE (Z * option goerr) :=
  padLen ← choose_padLen cfg;
  n ← go_make padLen;
  pad ← trigger (RandRead n);
  _ ← applyJitter cfg;
  r ← trigger (ConnWrite inner (obfs_frame p pad));
  mret match r.2 with
       | Some err => (0, Some err)
       | None => (Z.of_nat (length p), None)
       end.

(** ** Reading

    The reading half of an [obfsConn] around a reader in state [inner]. *)
Record obfs_reader (S : Type) := { readBuf : list byte; inner : S }.
Arguments readBuf {S} o.
Arguments inner {S} o.
Arguments Build_obfs_reader {S} _ _.

Section read.
Context {S : Type} `{ByteReader S}.

(** [Read] into a buffer of [n] bytes: the bytes copied, the error, and the
    state left behind. *)
Definition obfsConn_Read (n : nat) (o : obfs_reader S)
    : list byte * option goerr * obfs_reader S :=
  if decide (readBuf o ≠ []) then
    (take n (readBuf o), None, Build_obfs_reader (drop n (readBuf o)) (inner o))
  else
    let '(header, err, s1) := read_full 4 (inner o) in
    match err, header with
    | None, [h0; h1; h2; h3] =>
      let dataLen := be_uint16 h0 h1 in
      let padLen := be_uint16 h2 h3 in
      let '(data, err, s2) := read_full (Z.to_nat dataLen) s1 in
      match err with
      | Some e => ([], Some e, Build_obfs_reader (readBuf o) s2)
      | None =>
        let '(_, err, s3) :=
          if padLen >? 0 then read_full (Z.to_nat padLen) s2 else ([], None, s2) in
        match err with
        | Some e => ([], Some e, Build_obfs_reader (readBuf o) s3)
        | None =>
          let k := Nat.min n (length data) in
          (take k data, None,
           Build_obfs_reader (if decide (k < length data)%nat then drop k data else readBuf o) s3)
        end
      end
    | Some e, _ => ([], Some e, Build_obfs_reader (readBuf o) s1)
    | None, _ => ([], Some ErrUnexpectedEOF, Build_obfs_reader (readBuf o) s1)
    end.

End read.

(** ** Specification vocabulary *)

(** Frames as pairs (payload, padding); the bytes they make on the wire. *)
Definition frame_ok (f : list byte * list byte) : Prop :=
  Z.of_nat (length f.1) < 65536 ∧ Z.of_nat (length f.2) < 65536.

Definition wire (fs : list (list byte * list byte)) : list byte :=
  concat (map (λ f, obfs_frame f.1 f.2) fs).

Definition payloads (fs : list (list byte * list byte)) : list byte :=
  concat (map fst fs).

(** The reader has the frames [fs] in flight, and [err] after them. *)
Definition in_flight {S} `{ByteReader S} (o : obfs_reader S)
    (fs : list (list byte * list byte)) (err : goerr) : Prop :=
  Forall frame_ok fs ∧ br_owes (inner o) (wire fs) err.

(** The padding layer is a byte reader itself: it owes what is buffered and
    the payloads in flight. *)
#[export] Instance obfs_byte_reader {S} `{ByteReader S} : ByteReader (obfs_reader S) := {
  br_read := obfsConn_Read;
  br_owes o bs err := ∃ fs, in_flight o fs err ∧ bs = readBuf o ++ payloads fs;
  br_size o := (length (readBuf o) + br_size (inner o))%nat
}.

(** Several writes in a row, up to the first that fails. *)
Fixpoint obfs_writes (cfg : ObfsConfig) (c : conn) (ps : list (list byte))
    : prog sysE (option goerr) :=
  match ps with
  | [] => mret None
  | p :: ps' =>
    r ← obfsConn_Write cfg c p;
    match r.2 with
    | Some e => mret (Some e)
    | None => obfs_writes cfg c ps'
    end
  end.

Definition padding_ok (cfg : ObfsConfig) : Prop :=
  0 <= MinPadding cfg < 65536 ∧ MaxPadding cfg <= 65536.

(** ** Lemmas on frames *)

Lemma take_min_length {A} n (l : list A) : take (Nat.min n (length l)) l = take n l.
Proof. destruct (decide (n ≤ length l)%nat); [f_equal; lia|rewrite !take_ge; done || lia]. Qed.

Lemma drop_min_length {A} n (l : list A) : drop (Nat.min n (length l)) l = drop n l.
Proof. destruct (decide (n ≤ length l)%nat); [f_equal; lia|rewrite !drop_ge; done || lia]. Qed.


Lemma obfs_header_bytes dataLen padLen :
  obfs_header dataLen padLen =
    [byte_of_Z (Z.shiftr (uint16 dataLen) 8); byte_of_Z (uint16 dataLen);
     byte_of_Z (Z.shiftr (uint16 padLen) 8); byte_of_Z (uint16 padLen)].
Proof. done. Qed.

Lemma obfs_header_length dataLen padLen : length (obfs_header dataLen padLen) = 4%nat.
Proof. done. Qed.

Lemma uint16_idemp x : uint16 (uint16 x) = uint16 x.
Proof. apply uint16_small, uint16_range. Qed.

Lemma wire_cons f fs :
  wire (f :: fs) =
    obfs_header (Z.of_nat (length f.1)) (Z.of_nat (length f.2)) ++ f.1 ++ f.2 ++ wire fs.
Proof. unfold wire, obfs_frame. simpl. by rewrite <- !app_assoc. Qed.

Lemma payloads_cons f fs : payloads (f :: fs) = f.1 ++ payloads fs.
Proof. done. Qed.

Section read_lemmas.
Context {S : Type} `{ByteReaderLaw S}.

Lemma obfsConn_Read_buffered n (o : obfs_reader S) :
  readBuf o ≠ [] →
  obfsConn_Read n o =
    (take n (readBuf o), None, Build_obfs_reader (drop n (readBuf o)) (inner o)).
Proof. intros. unfold obfsConn_Read. by rewrite decide_True. Qed.

(** A frame whose header announces the lengths of [data] and [pad]; the header
    need not come from a write of just [data]. *)
Lemma obfsConn_Read_step n (o : obfs_reader S) dl pl data pad tail err :
  readBuf o = [] →
  br_owes (inner o) (obfs_header dl pl ++ data ++ pad ++ tail) err →
  Z.of_nat (length data) = uint16 dl → Z.of_nat (length pad) = uint16 pl →
  ∃ s', obfsConn_Read n o = (take n data, None, Build_obfs_reader (drop n data) s') ∧
    br_owes s' tail err ∧ (br_size s' + 4 + length data ≤ br_size (inner o))%nat.
Proof.
  intros Hbuf Hs Hd Hp. unfold obfsConn_Read. rewrite Hbuf, decide_False by auto.
  destruct (read_full_enough 4 _ _ _ _ Hs) as (s1 & -> & Hs1 & Hz1); [done|].
  rewrite obfs_header_bytes, !be_uint16_put, !uint16_idemp.
  destruct (read_full_enough (Z.to_nat (uint16 dl)) s1 _ _ _ Hs1) as (s2 & -> & Hs2 & Hz2); [lia|].
  assert (∃ s3 bs, (if uint16 pl >? 0 then read_full (Z.to_nat (uint16 pl)) s2
                    else ([], None, s2)) = (bs, None, s3) ∧
            br_owes s3 tail err ∧ (br_size s3 ≤ br_size s2)%nat) as (s3 & bs & -> & Hs3 & Hz3).
  { rewrite Z.gtb_ltb. destruct (Z.ltb_spec 0 (uint16 pl)) as [Hpl|Hpl].
    - destruct (read_full_enough (Z.to_nat (uint16 pl)) s2 _ _ _ Hs2) as (s3 & -> & ? & ?); [lia|].
      eexists _, _. split_and!; [done..|lia].
    - assert (pad = []) as -> by (destruct pad; [done|simpl in *; lia]).
      by exists s2, []. }
  exists s3. split_and!; [|done|lia].
  rewrite take_min_length, drop_min_length. do 2 f_equal.
  case_decide; [done|]. rewrite drop_ge by lia. done.
Qed.

Lemma obfsConn_Read_frame n (o : obfs_reader S) f fs err :
  readBuf o = [] → in_flight o (f :: fs) err →
  ∃ s', obfsConn_Read n o = (take n f.1, None, Build_obfs_reader (drop n f.1) s') ∧
    Forall frame_ok fs ∧ br_owes s' (wire fs) err ∧
    (br_size s' + 4 + length f.1 ≤ br_size (inner o))%nat.
Proof.
  intros Hbuf [[[Hd Hp] Hfs]%Forall_cons Hw]. rewrite wire_cons in Hw.
  destruct (obfsConn_Read_step n o _ _ f.1 f.2 (wire fs) err Hbuf Hw) as (s' & H1 & H2 & H3).
  - by rewrite uint16_small by lia.
  - by rewrite uint16_small by lia.
  - by exists s'.
Qed.

Lemma obfsConn_Read_end n (o : obfs_reader S) err :
  readBuf o = [] → in_flight o [] err →
  ∃ s', obfsConn_Read n o = ([], Some err, Build_obfs_reader [] s') ∧ br_owes s' [] err ∧
    (br_size s' ≤ br_size (inner o))%nat.
Proof.
  intros Hbuf [_ Hw]. unfold obfsConn_Read. rewrite Hbuf, decide_False by auto.
  destruct (read_full_short 4 (inner o) _ _ Hw) as (s1 & -> & Hs1 & Hz1); [simpl; lia|].
  exists s1. split_and!; [|done|done]. do 3 f_equal.
Qed.

End read_lemmas.

#[export] Instance obfs_reader_law {S} `{ByteReaderLaw S} : ByteReaderLaw (obfs_reader S).
Proof.
  constructor. intros n o bs err (fs & Hf & ->) Hn.
  destruct (decide (readBuf o = [])) as [Hbuf|Hbuf].
  - destruct fs as [|f fs].
    + destruct (obfsConn_Read_end n o err Hbuf Hf) as (s' & Hr & Ho & Hz).
      simpl. rewrite Hr, Hbuf. eexists _, _, _. split_and!; [done|simpl; lia|]. right.
      split_and!; [done..| |simpl; lia]. exists []. by split_and!.
    + destruct (obfsConn_Read_frame n o f fs err Hbuf Hf) as (s' & Hr & Hfs & Ho & Hz).
      simpl. rewrite Hr, Hbuf. eexists _, _, _. split_and!; [done|rewrite length_take; lia|].
      left. split; [done|]. exists (drop n f.1 ++ payloads fs). simpl. split_and!.
      * by rewrite payloads_cons, (assoc_L (++)), take_drop.
      * exists fs. by split_and!.
      * rewrite length_take, length_drop. lia.
      * rewrite length_drop. lia.
  - simpl. rewrite obfsConn_Read_buffered by done. eexists _, _, _.
    split_and!; [done|rewrite length_take; lia|]. left. split; [done|].
    exists (drop n (readBuf o) ++ payloads fs). simpl. split_and!.
    + by rewrite (assoc_L (++)), take_drop.
    + exists fs. by split_and!.
    + rewrite length_take, length_drop. lia.
    + rewrite length_drop. destruct (readBuf o); [done|simpl; lia].
Qed.

(** ** The program of a write *)

Lemma choose_padLen_wp cfg :
  wp (choose_padLen cfg) (λ tr n,
    conn_writes tr = [] ∧ sleeps tr = [] ∧ MinPadding cfg <= n ∧
    (n < MaxPadding cfg ∨ n = MinPadding cfg)).
Proof.
  unfold choose_padLen. destruct (Z.gtb_spec (MaxPadding cfg) (MinPadding cfg)).
  - wp_call r Hr; simpl in *; [lia|]. split_and!; [done|done|lia|lia].
  - simpl. split_and!; [done|done|lia|by right].
Qed.

Lemma applyJitter_wp cfg :
  wp (applyJitter cfg) (λ tr _,
    conn_writes tr = [] ∧
    sleeps tr = [] ∧ MaxDelay cfg <= 0 ∨
    conn_writes tr = [] ∧ ∃ d, sleeps tr = [d] ∧ 0 < MaxDelay cfg ∧
      MinDelay cfg <= d ∧ (d < MaxDelay cfg ∨ d = MinDelay cfg)).
Proof.
  unfold applyJitter. destruct (Z.leb_spec (MaxDelay cfg) 0); [by left|].
  destruct (Z.leb_spec (MaxDelay cfg - MinDelay cfg) 0).
  - simpl. split; [done|]. intros _ _. right. split; [done|]. eexists. split_and!; [done|lia..].
  - wp_call r Hr; simpl in *. split; [done|]. intros _ _. right. split; [done|].
    eexists. split_and!; [done|lia..].
Qed.

Lemma obfsConn_Write_wp cfg c p :
  padding_ok cfg →
  wp (obfsConn_Write cfg c p) (λ tr r, ∃ pad,
    conn_writes tr = [obfs_frame p pad] ∧
    MinPadding cfg <= Z.of_nat (length pad) ∧
    (Z.of_nat (length pad) < MaxPadding cfg ∨ Z.of_nat (length pad) = MinPadding cfg) ∧
    (r = (Z.of_nat (length p), None) ∨ ∃ e, r = (0, Some e)) ∧
    (sleeps tr = [] ∧ MaxDelay cfg <= 0 ∨
     ∃ d, sleeps tr = [d] ∧ 0 < MaxDelay cfg ∧ MinDelay cfg <= d ∧
       (d < MaxDelay cfg ∨ d = MinDelay cfg))).
Proof.
  intros [Hmin Hmax]. apply wp_bind. eapply wp_mono, choose_padLen_wp.
  intros tr1 n (Hw1 & Hs1 & Hn & Hn'). apply go_make_wp; [lia|].
  wp_call pad Hpad. simpl in Hpad. apply wp_bind. eapply wp_mono, applyJitter_wp.
  intros tr2 [] Hj. wp_call r Hr. simpl. exists pad.
  rewrite conn_writes_app, sleeps_app, Hw1, Hs1. simpl.
  rewrite conn_writes_app, sleeps_app. simpl. rewrite app_nil_r.
  split_and!; [|lia|lia| |].
  - by destruct Hj as [(-> & _)|(-> & _)].
  - destruct (r.2) as [e|]; [right; by exists e|by left].
  - destruct Hj as [(_ & -> & ?)|(_ & d & -> & ?)]; [by left|right; by exists d].
Qed.

Lemma obfs_writes_wp cfg c ps :
  padding_ok cfg → Forall (λ p, Z.of_nat (length p) < 65536) ps →
  wp (obfs_writes cfg c ps) (λ tr e, e = None →
    ∃ fs, Forall frame_ok fs ∧ map fst fs = ps ∧ concat (conn_writes tr) = wire fs).
Proof.
  intros Hcfg. induction 1 as [|p ps Hp Hps IH]; simpl.
  - intros _. exists []. by split_and!.
  - apply wp_bind. eapply wp_mono, obfsConn_Write_wp; [|done].
    intros tr r (pad & Hw & Hl & Hl' & Hr & _).
    destruct (r.2) as [e|] eqn:Hr2; simpl; [done|].
    eapply wp_mono, IH. intros tr' e' HQ He. destruct (HQ He) as (fs & Hfs & Hps' & Hw').
    exists ((p, pad) :: fs). rewrite conn_writes_app, Hw, concat_app. split_and!.
    + constructor; [|done]. destruct Hcfg. split; simpl; lia.
    + simpl. by rewrite Hps'.
    + simpl. rewrite Hw', app_nil_r. done.
Qed.

Lemma padding_ok_default : padding_ok DefaultObfsConfig.
Proof. done. Qed.

#[export] Hint Resolve padding_ok_default : go.

(** ** Truncated streams *)

(** Which of the three [ReadFull]s of a [Read] runs dry when a frame with a
    payload of [dl] bytes is cut after [m] bytes, and how many bytes it got. *)
Definition cut_got (m dl : nat) : nat :=
  if decide (m < 4)%nat then m
  else if decide (m - 4 < dl)%nat then (m - 4)%nat
  else (m - 4 - dl)%nat.

Lemma obfsConn_Read_cut {S} `{ByteReaderLaw S} n (o : obfs_reader S) f m err :
  readBuf o = [] → frame_ok f → (m < length (obfs_frame f.1 f.2))%nat →
  br_owes (inner o) (take m (obfs_frame f.1 f.2)) err →
  ∃ o', obfsConn_Read n o = ([], Some (short_error (cut_got m (length f.1)) err), o').
Proof.
  intros Hbuf [Hd Hp] Hm Hs. unfold obfs_frame, cut_got in *.
  set (h := obfs_header _ _) in *. assert (length h = 4%nat) as Hh by done.
  rewrite !length_app, Hh in Hm. unfold obfsConn_Read. rewrite Hbuf, decide_False by auto.
  destruct (decide (m < 4)%nat) as [H4|H4].
  { destruct (read_full_short 4 (inner o) _ _ Hs) as (s1 & -> & _);
      rewrite length_take, !length_app, Hh; [lia|].
    eexists. do 4 f_equal. lia. }
  rewrite take_app_ge, Hh in Hs by lia.
  destruct (read_full_enough 4 _ _ _ _ Hs) as (s1 & -> & Hs1 & _); [done|].
  unfold h. rewrite obfs_header_bytes, !be_uint16_put, !uint16_idemp, !uint16_small by lia.
  rewrite !Nat2Z.id. destruct (decide (m - 4 < length f.1)%nat) as [Hdm|Hdm].
  { destruct (read_full_short (length f.1) s1 _ _ Hs1) as (s2 & -> & _);
      rewrite length_take, length_app; [lia|].
    eexists. do 4 f_equal. lia. }
  rewrite take_app_ge in Hs1 by lia.
  destruct (read_full_enough (length f.1) _ _ _ _ Hs1) as (s2 & -> & Hs2 & _); [done|].
  assert ((Z.of_nat (length f.2) >? 0) = true) as -> by (rewrite Z.gtb_ltb; apply Z.ltb_lt; lia).
  destruct (read_full_short (length f.2) s2 _ _ Hs2) as (s3 & -> & _); rewrite length_take; [lia|].
  eexists. do 4 f_equal. lia.
Qed.

(** ** Oversized payloads *)

(** The frame of a payload of 64 KiB or more announces [len(p) mod 65536]
    bytes, and that is what [Read] takes as its data. *)
Lemma obfsConn_Read_oversized {S} `{ByteReaderLaw S} n (s : S) p pad tail err :
  65536 <= Z.of_nat (length p) → Z.of_nat (length pad) < 65536 →
  br_owes s (obfs_frame p pad ++ tail) err →
  (length p ≤ n)%nat →
  ∃ o', obfsConn_Read n (Build_obfs_reader [] s) =
    (take (Z.to_nat (Z.of_nat (length p) `mod` 65536)) p, None, o').
Proof.
  intros Hp Hpad Hs Hn. pose proof (Z.mod_pos_bound (Z.of_nat (length p)) 65536 ltac:(lia)).
  set (k := Z.to_nat (Z.of_nat (length p) `mod` 65536)) in *.
  unfold obfs_frame in Hs. set (rest := drop k p ++ pad ++ tail).
  assert (k + length pad ≤ length p)%nat by (unfold k; zmod).
  replace ((obfs_header _ _ ++ p ++ pad) ++ tail) with
    (obfs_header (Z.of_nat (length p)) (Z.of_nat (length pad)) ++
       take k p ++ take (length pad) rest ++ drop (length pad) rest) in Hs.
  2:{ rewrite take_drop. unfold rest. by rewrite <- !(assoc_L (++)), take_drop_app. }
  destruct (obfsConn_Read_step n (Build_obfs_reader [] s) _ _ _ _ _ err eq_refl Hs)
    as (s' & -> & _).
  - rewrite length_take_le by lia. unfold uint16, wrap_u, k. rewrite Z2Nat.id by lia. done.
  - rewrite length_take_le, uint16_small; [done|lia|].
    unfold rest. rewrite length_app, length_drop. lia.
  - eexists. rewrite take_ge by (rewrite length_take_le by lia; lia). done.
Qed.

(** [Write] ends in its only write to the inner connection, whose error is the
    one it returns. *)
Lemma obfsConn_Write_last cfg c p :
  padding_ok cfg →
  wp (obfsConn_Write cfg c p) (λ tr r, ∃ pad tr' k e,
    tr = tr' ++ [Event (ConnWrite c (obfs_frame p pad)) (k, e)] ∧ conn_writes tr' = [] ∧
    Z.of_nat (length pad) < 65536 ∧
    r = match e with None => (Z.of_nat (length p), None) | Some err => (0, Some err) end).
Proof.
  intros [Hmin Hmax]. apply wp_bind. eapply wp_mono, choose_padLen_wp.
  intros tr1 n (Hw1 & _ & Hn & Hn'). apply go_make_wp; [lia|].
  wp_call pad Hpad. simpl in Hpad. apply wp_bind. eapply wp_mono, applyJitter_wp.
  intros tr2 [] Hj. wp_call r Hr. destruct r as [k e]. simpl.
  exists pad, (tr1 ++ Event (RandRead (Z.to_nat n)) pad :: tr2), k, e. split_and!.
  - by rewrite <- (assoc_L (++)).
  - rewrite conn_writes_app, Hw1. by destruct Hj as [(Hj & _)|(Hj & _)].
  - lia.
  - by destruct e.
Qed.

(** ** Properties *)

(** C1. The padding layer is transparent: if every write succeeds, a peer that
    receives the written bytes over any byte stream, in chunks of any size and
    with buffers of any positive sizes, reads exactly the concatenation of the
    written payloads and then the stream's error.  The payloads are below 64 KiB. *)
Theorem obfs_roundtrip {S} `{ByteReaderLaw S} cfg c ps :
  padding_ok cfg → Forall (λ p, Z.of_nat (length p) < 65536) ps →
  wp (obfs_writes cfg c ps) (λ tr e, e = None →
    ∀ (s : S) err ns, br_owes s (concat (conn_writes tr)) err →
      Forall (λ n, (0 < n)%nat) ns → (br_size s < length ns)%nat →
      ∃ o', reads ns (Build_obfs_reader [] s) = (concat ps, Some err, o')).
Proof.
  intros Hcfg Hps. eapply wp_mono, obfs_writes_wp; [|done..].
  intros tr e HQ He s err ns Ho Hns Hlen.
  destruct (HQ He) as (fs & Hfs & <- & Hw). rewrite Hw in Ho.
  apply reads_all; [|done|simpl; lia]. by exists fs.
Qed.

Lemma obfs_roundtrip_witness :
  wp (obfs_writes DefaultObfsConfig {| cn_fd := 3; cn_layers := [] |}
        [[Byte.x01; Byte.x02]; []; [Byte.x03]])
     (λ tr e, e = None →
       ∀ (s : source) err ns, br_owes s (concat (conn_writes tr)) err →
         Forall (λ n, (0 < n)%nat) ns → (br_size s < length ns)%nat →
         ∃ o', reads ns (Build_obfs_reader [] s) =
           ([Byte.x01; Byte.x02; Byte.x03], Some err, o')).
Proof.
  apply (obfs_roundtrip (S := source) DefaultObfsConfig _ [[Byte.x01; Byte.x02]; []; [Byte.x03]]).
  - split; vm_compute; [split|]; discriminate || reflexivity.
  - repeat constructor.
Defined.

(** C6. [Read] refines a byte queue: with the frames [fs] in flight it delivers
    a prefix of the pending bytes (the buffered rest of a frame, then the
    payloads), at most as many as the buffer holds, keeps the rest pending and
    makes progress; when nothing is pending it returns the error of the inner
    connection and no bytes. *)
Theorem obfsConn_Read_refines_queue {S} `{ByteReaderLaw S} n (o : obfs_reader S) fs err :
  in_flight o fs err → (0 < n)%nat →
  ∃ out e o', obfsConn_Read n o = (out, e, o') ∧ (length out ≤ n)%nat ∧
    ((e = None ∧ ∃ fs', in_flight o' fs' err ∧
        readBuf o ++ payloads fs = out ++ readBuf o' ++ payloads fs' ∧
        (br_size o' < br_size o)%nat) ∨
     (e = Some err ∧ out = [] ∧ readBuf o ++ payloads fs = [])).
Proof.
  intros Hf Hn. destruct (decide (readBuf o = [])) as [Hbuf|Hbuf]; [destruct fs as [|f fs]|].
  - destruct (obfsConn_Read_end n o err Hbuf Hf) as (s' & -> & _).
    eexists _, _, _. rewrite Hbuf. split_and!; [done|simpl; lia|by right].
  - destruct (br_law n o (readBuf o ++ payloads (f :: fs)) err) as (out & e & o' & Hr & Hl & Hc);
      [by exists (f :: fs)|done|].
    exists out, e, o'. split_and!; [done|done|].
    destruct Hc as [(-> & rest & Heq & (fs' & Hf' & ->) & _ & Hz)|(-> & _)]; [left; eauto 10|].
    destruct (obfsConn_Read_frame n o f fs err Hbuf Hf) as (s' & Hr' & _).
    simpl in Hr. rewrite Hr' in Hr. simplify_eq.
  - rewrite obfsConn_Read_buffered by done. eexists _, _, _.
    split_and!; [done|rewrite length_take; lia|]. left. split; [done|]. exists fs. simpl.
    split_and!; [done|by rewrite (assoc_L (++)), take_drop|].
    rewrite length_drop. destruct (readBuf o); [done|simpl; lia].
Qed.

Lemma obfsConn_Read_refines_queue_witness :
  let o := Build_obfs_reader []
    {| src_chunks := [obfs_frame [Byte.x07; Byte.x08] [Byte.x00]]; src_err := EOF |} in
  ∃ out e o', obfsConn_Read 1 o = (out, e, o') ∧ (length out ≤ 1)%nat ∧
    ((e = None ∧ ∃ fs', in_flight o' fs' EOF ∧
        readBuf o ++ payloads [([Byte.x07; Byte.x08], [Byte.x00])] =
          out ++ readBuf o' ++ payloads fs' ∧ (br_size o' < br_size o)%nat) ∨
     (e = Some EOF ∧ out = [] ∧
      readBuf o ++ payloads [([Byte.x07; Byte.x08], [Byte.x00])] = [])).
Proof.
  intros o. apply (obfsConn_Read_refines_queue 1 o [([Byte.x07; Byte.x08], [Byte.x00])] EOF).
  - split; [repeat constructor|]. split; reflexivity.
  - lia.
Defined.

(** Under [DefaultObfsConfig], [Write] never panics, sleeps once for at
    least 0 and less than 3 ms, writes one frame whose padding has 16 to 255
    bytes, and reports either all of [p] written or the error with 0 bytes. *)
Theorem obfsConn_Write_default c p :
  wp (obfsConn_Write DefaultObfsConfig c p) (λ tr r, ∃ pad d,
    conn_writes tr = [obfs_frame p pad] ∧ 16 <= Z.of_nat (length pad) < 256 ∧
    sleeps tr = [d] ∧ 0 <= d < 3 * millisecond ∧
    (r = (Z.of_nat (length p), None) ∨ ∃ e, r = (0, Some e))).
Proof.
  eapply wp_mono, obfsConn_Write_wp; [|apply padding_ok_default].
  intros tr r (pad & Hw & Hl & Hl' & Hr & Hs). exists pad.
  cbn [MinPadding MaxPadding MinDelay MaxDelay DefaultObfsConfig] in *.
  destruct Hs as [(_ & Hm)|(d & Hs & _ & Hd)]; [done|].
  unfold millisecond in *. exists d. split_and!; [done|lia|lia|done|lia|lia|done].
Qed.

(** C37. A stream cut inside a frame makes [Read] fail without delivering any
    byte of it.  The error is [io.ErrUnexpectedEOF] for a clean end of the
    stream, except when the cut falls exactly behind the header or behind the
    payload: then it is the clean [io.EOF]. *)
Theorem obfsConn_Read_truncated {S} `{ByteReaderLaw S} n (s : S) p pad m :
  frame_ok (p, pad) → (0 < m < length (obfs_frame p pad))%nat →
  br_owes s (take m (obfs_frame p pad)) EOF →
  ∃ e o', obfsConn_Read n (Build_obfs_reader [] s) = ([], Some e, o') ∧
    (e = EOF ↔ m = 4%nat ∨ m = (4 + length p)%nat) ∧
    (e = EOF ∨ e = ErrUnexpectedEOF).
Proof.
  intros Hf [Hm0 Hm] Hs.
  destruct (obfsConn_Read_cut n (Build_obfs_reader [] s) (p, pad) m EOF) as [o' Ho']; [done..|].
  eexists _, o'. split; [exact Ho'|]. rewrite short_error_EOF. unfold cut_got. simpl.
  split; [split|]; repeat case_decide; done || lia || by (left + right).
Qed.

Lemma obfsConn_Read_truncated_witness :
  ∃ e o', obfsConn_Read 10 (Build_obfs_reader []
      {| src_chunks := [take 4 (obfs_frame [Byte.x01] [Byte.x00])]; src_err := EOF |})
    = ([], Some e, o') ∧
    (e = EOF ↔ 4%nat = 4%nat ∨ 4%nat = (4 + length [Byte.x01])%nat) ∧
    (e = EOF ∨ e = ErrUnexpectedEOF).
Proof.
  apply (obfsConn_Read_truncated (S := source) 10 _ [Byte.x01] [Byte.x00] 4).
  - split; simpl; lia.
  - simpl; lia.
  - split; reflexivity.
Defined.

(** C38. The 16-bit length field overflows: a [Write] of a payload [p] of 64 KiB
    or more writes once to the inner connection and reports all of [p] written
    when that write succeeds; but a peer whose stream brings the written bytes,
    with anything behind them, gets only the first [len(p) mod 65536] bytes
    from its [Read], into a buffer that has room for all of [p]. *)
Theorem obfsConn_Write_oversized {S} `{ByteReaderLaw S} cfg c p :
  padding_ok cfg → 65536 <= Z.of_nat (length p) →
  wp (obfsConn_Write cfg c p) (λ tr r,
    (∃ tr' w k e, tr = tr' ++ [Event (ConnWrite c w) (k, e)] ∧ conn_writes tr = [w] ∧
       r = match e with None => (Z.of_nat (length p), None) | Some err => (0, Some err) end) ∧
    ∀ n (s : S) tail err,
      (length p ≤ n)%nat → br_owes s (concat (conn_writes tr) ++ tail) err →
      ∃ o', obfsConn_Read n (Build_obfs_reader [] s) =
        (take (Z.to_nat (Z.of_nat (length p) `mod` 65536)) p, None, o')).
Proof.
  intros Hcfg Hp. eapply wp_mono, obfsConn_Write_last; [|done].
  intros tr r (pad & tr' & k & e & -> & Hw & Hpad & ->).
  rewrite conn_writes_app, Hw. simpl. split; [by eexists _, _, _, _|].
  intros n s tail err Hn. rewrite app_nil_r. intros Hs.
  exact (obfsConn_Read_oversized n s p pad tail err Hp Hpad Hs Hn).
Qed.

Lemma obfsConn_Write_oversized_witness :
  let p := replicate (Z.to_nat 65538) Byte.x41 in
  let c := {| cn_fd := 3; cn_layers := [] |} in
  65536 <= Z.of_nat (length p) ∧
  wp (obfsConn_Write DefaultObfsConfig c p) (λ tr r,
    (∃ tr' w k e, tr = tr' ++ [Event (ConnWrite c w) (k, e)] ∧ conn_writes tr = [w] ∧
       r = match e with None => (Z.of_nat (length p), None) | Some err => (0, Some err) end) ∧
    ∀ n (s : source) tail err,
      (length p ≤ n)%nat → br_owes s (concat (conn_writes tr) ++ tail) err →
      ∃ o', obfsConn_Read n (Build_obfs_reader [] s) =
        (take (Z.to_nat (Z.of_nat (length p) `mod` 65536)) p, None, o')).
Proof.
  intros p c. assert (65536 <= Z.of_nat (length p)) as Hp.
  { unfold p. rewrite length_replicate, Z2Nat.id by lia. lia. }
  split; [exact Hp|].
  apply (obfsConn_Write_oversized (S := source) DefaultObfsConfig c p padding_ok_default Hp).
Defined.
