(* ===== verification/TlsTransport.v ===== *)
(** * net.go and tls_transport.go: dialling, fragmentation, TLS

    [fragConn] cuts the first write of a connection (the TLS ClientHello) into
    small writes; [dialTLS] chooses between plain TLS, uTLS and fragmentation;
    [generateSelfSignedCert] and [NewTLSListener] are the server side. *)

From S2P Require Import Prelude Effects Net.

(** ** net.go *)

Definition dialTCP (addr : string) : prog sysE (res conn) :=
  r ← trigger (NetDial {| Timeout := 10 * second; KeepAlive := Some (15 * second) |} addr);
  match r with
  | Err e => mret (Err e)
  | Ok c => _ ← trigger (TcpOption c (SetNoDelay true)); mret (Ok c)
  end.

Definition listenTCP (addr : string) : prog sysE (res listener) := trigger (NetListen addr).

(** ** [fragConn] *)

Record fragConn := { firstDone : bool; chunk : Z }.

(** [b[i:j]]: panics outside the bounds of [b]. *)
Definition go_slice (b : list byte) (i j : Z) : prog sysE (list byte) :=
  if (0 <=? i) && (i <=? j) && (j <=? Z.of_nat (length b))
  then mret (take (Z.to_nat (j - i)) (drop (Z.to_nat i) b))
  else Vis (GoPanic "slice bounds out of range") (λ x : Empty_set, match x with end).

(** The loop of [Write]; [fuel] bounds its rounds. *)
Fixpoint frag_loop (fuel : nat) (c : conn) (chunk : Z) (b : list byte) (i total : Z)
    : prog sysE (Z * option goerr) :=
  match fuel with
  | O => mret (total, Some (ErrText "fuel"))
  | S fuel' =>
    if i <? Z.of_nat (length b) then
      let end0 := int64 (i + chunk) in
      let end1 := if end0 >? Z.of_nat (length b) then Z.of_nat (length b) else end0 in
      piece ← go_slice b i end1;
      r ← trigger (ConnWrite c piece);
      let total' := int64 (total + r.1) in
      match r.2 with
      | Some err => mret (total', Some err)
      | None => frag_loop fuel' c chunk b (int64 (i + chunk)) total'
      end
    else mret (total, None)
  end.

Definition fragConn_Write (f : fragConn) (c : conn) (b : list byte)
    : prog sysE (Z * option goerr * fragConn) :=
  if firstDone f || (chunk f <=? 0) then
    r ← trigger (ConnWrite c b); mret (r, f)
  else
    r ← frag_loop (1 + length b) c (chunk f) b 0 0;
    mret (r, {| firstDone := true; chunk := chunk f |}).

(** ** Certificates and the listener *)

Definition KeyUsageDigitalSignature : Z := 1.
Definition KeyUsageKeyEncipherment : Z := 4.
Definition ExtKeyUsageServerAuth : Z := 1.

Definition generateSelfSignedCert (sni : string) : prog sysE (res tls_certificate) :=
  k ← trigger EcdsaGenerateKey;
  match k with
  | Err e => mret (Err e)
  | Ok priv =>
    n ← trigger (RandInt (Z.shiftl 1 128));
    t1 ← trigger TimeNow;
    t2 ← trigger TimeNow;
    let template := {|
      SerialNumber := match n with Ok z => Some z | Err _ => None end;
      CommonName := sni;
      NotBefore := t1 - 24 * hour;
      NotAfter := t2 + 365 * 24 * hour;
      KeyUsage := Z.lor KeyUsageDigitalSignature KeyUsageKeyEncipherment;
      ExtKeyUsage := [ExtKeyUsageServerAuth];
      BasicConstraintsValid := true;
      DNSNames := [sni]
    |} in
    d ← trigger (CreateCertificate template template priv priv);
    mret match d with
         | Err e => Err e
         | Ok der => Ok {| Certificate := [der]; PrivateKey := priv |}
         end
  end.

(** The cipher suites, in the order of the source: ECDHE with AES-128-GCM
    (ECDSA, RSA), AES-256-GCM (ECDSA, RSA), ChaCha20-Poly1305 (ECDSA, RSA). *)
Definition server_cipher_suites : list Z :=
  [49195; 49199; 49196; 49200; 52393; 52392].

Definition NewTLSListener (addr sni : string) : prog sysE (res listener) :=
  c ← generateSelfSignedCert sni;
  match c with
  | Err e => mret (Err (ErrWrap "cert" e))
  | Ok cert =>
    trigger (TlsListen addr {|
      Certificates := [cert];
      srv_MinVersion := VersionTLS12;
      srv_MaxVersion := VersionTLS13;
      CipherSuites := server_cipher_suites
    |})
  end.

(** ** [dialTLS]

    The package variables [useUTLS] and [fragSize]. *)
Record tls_globals := { useUTLS : bool; fragSize : Z }.

Definition client_tls_config (sni : string) : tls_config := {|
  ServerName := sni;
  InsecureSkipVerify := true;
  MinVersion := VersionTLS12;
  MaxVersion := VersionTLS13
|}.

Definition dialTLS (g : tls_globals) (addr sni : string) : prog sysE (res conn) :=
  if negb (useUTLS g) && (fragSize g <=? 0) then
    trigger (TlsDial {| Timeout := 10 * second; KeepAlive := Some (15 * second) |}
               addr (client_tls_config sni))
  else
    r ← trigger (NetDial {| Timeout := 10 * second; KeepAlive := None |} addr);
    match r with
    | Err e => mret (Err e)
    | Ok raw =>
      _ ← trigger (TcpOption raw (SetNoDelay true));
      _ ← trigger (TcpOption raw (SetKeepAlive true));
      _ ← trigger (TcpOption raw (SetKeepAlivePeriod (15 * second)));
      let under := if fragSize g >? 0 then wrap_conn (LFrag (fragSize g)) raw else raw in
      if useUTLS g then
        let uconn := wrap_conn
          (LUtls {| u_ServerName := sni; u_InsecureSkipVerify := true |}) under in
        h ← trigger (TlsHandshake uconn);
        match h with
        | Some e => _ ← trigger (ConnClose raw); mret (Err (ErrWrap "uTLS handshake" e))
        | None => mret (Ok uconn)
        end
      else
        let tconn := wrap_conn (LTls (client_tls_config sni)) under in
        h ← trigger (TlsHandshake tconn);
        match h with
        | Some e => _ ← trigger (ConnClose raw); mret (Err e)
        | None => mret (Ok tconn)
        end
    end.

(** ** Specification vocabulary *)

(** The dials of a trace: time limit and address. *)
Definition dialled_addr (ev : event sysE) : option (Z * string) :=
  match ev with
  | Event (NetDial d addr) _ => Some (Timeout d, addr)
  | Event (TlsDial d addr _) _ => Some (Timeout d, addr)
  | _ => None
  end.

(** The trace has the handshake of [c], done by [c] itself or by the dial. *)
Definition shaken (tr : list (event sysE)) (c : conn) : Prop :=
  Event (TlsHandshake c) None ∈ tr ∨
  ∃ d addr cfg, Event (TlsDial d addr cfg) (Ok c) ∈ tr.

(** [b] cut into pieces of [n] bytes, the last one possibly shorter. *)
Fixpoint pieces_from (fuel n : nat) (b : list byte) : list (list byte) :=
  match fuel, b with
  | S fuel', _ :: _ => take n b :: pieces_from fuel' n (drop n b)
  | _, _ => []
  end.

Definition pieces (n : nat) (b : list byte) : list (list byte) := pieces_from (length b) n b.

(** Several writes in a row, up to the first that fails. *)
Fixpoint frag_writes (f : fragConn) (c : conn) (bs : list (list byte))
    : prog sysE (option goerr) :=
  match bs with
  | [] => mret None
  | b :: bs' =>
    '(r, f') ← fragConn_Write f c b;
    match r.2 with
    | Some e => mret (Some e)
    | None => frag_writes f' c bs'
    end
  end.

(** ** Lemmas on [pieces] *)

Lemma pieces_from_fuel f1 f2 n b :
  (0 < n)%nat → (length b ≤ f1)%nat → (length b ≤ f2)%nat →
  pieces_from f1 n b = pieces_from f2 n b.
Proof.
  intros Hn. revert f2 b. induction f1 as [|f1 IH]; intros [|f2] [|x b] H1 H2;
    simpl in *; try done; try lia.
  f_equal. apply IH; rewrite length_drop; simpl; lia.
Qed.

Lemma pieces_nil n : pieces n [] = [].
Proof. done. Qed.

Lemma pieces_step n b :
  (0 < n)%nat → b ≠ [] → pieces n b = take n b :: pieces n (drop n b).
Proof.
  intros Hn Hb. destruct b as [|x b]; [done|]. unfold pieces at 1. simpl. f_equal.
  apply pieces_from_fuel; [done|rewrite length_drop; simpl; lia|done].
Qed.

(** Induction along the pieces. *)
Lemma pieces_ind n (P : list byte → Prop) :
  (0 < n)%nat → P [] → (∀ b, b ≠ [] → P (drop n b) → P b) → ∀ b, P b.
Proof.
  intros Hn H0 HS b. remember (length b) as k eqn:Hk. revert b Hk.
  induction (lt_wf k) as [k _ IH]. intros b ->.
  destruct b as [|x b]; [done|]. apply HS; [done|].
  eapply IH; [|done]. rewrite length_drop. simpl. lia.
Qed.

Lemma pieces_concat n b : (0 < n)%nat → concat (pieces n b) = b.
Proof.
  intros Hn. revert b. apply (pieces_ind n); [done|done|].
  intros b Hb IH. rewrite pieces_step by done. simpl. by rewrite IH, take_drop.
Qed.

Lemma pieces_bounds n b :
  (0 < n)%nat → Forall (λ p, 0 < length p ≤ n)%nat (pieces n b).
Proof.
  intros Hn. revert b. apply (pieces_ind n); [done|constructor|].
  intros b Hb IH. rewrite pieces_step by done. constructor; [|done].
  rewrite length_take. destruct b; [done|simpl; lia].
Qed.

Lemma pieces_full n b k p :
  (0 < n)%nat → pieces n b !! k = Some p → (S k < length (pieces n b))%nat → length p = n.
Proof.
  intros Hn. revert b k p. apply (pieces_ind n (λ b, ∀ k p, _ → _ → _)); [done|done|].
  intros b Hb IH k p. rewrite pieces_step by done. destruct k as [|k]; simpl.
  - intros [= <-] Hlen. rewrite length_take.
    destruct (decide (n ≤ length b)%nat); [lia|].
    rewrite drop_ge, pieces_nil in Hlen by lia. simpl in Hlen. lia.
  - intros Hk Hlen. apply (IH k p Hk). lia.
Qed.

(** ** The loop *)

(** What the loop did from offset [i] on: all pieces, or the pieces up to one
    whose write failed after [m] more bytes. *)
Definition frag_outcome (ps : list (list byte)) (done_ : Z)
    (tr : list (event sysE)) (r : Z * option goerr) : Prop :=
  (r = (done_ + Z.of_nat (length (concat ps)), None) ∧ conn_writes tr = ps) ∨
  (∃ k p m e, ps !! k = Some p ∧ 0 <= m <= Z.of_nat (length p) ∧
     r = (done_ + Z.of_nat (length (concat (take k ps))) + m, Some e) ∧
     conn_writes tr = take (S k) ps).

Lemma frag_outcome_cons p ps done_ tr ev r :
  wrote ev = Some p →
  frag_outcome ps (done_ + Z.of_nat (length p)) tr r →
  frag_outcome (p :: ps) done_ (ev :: tr) r.
Proof.
  intros Hev [[-> Hw]|(k & q & m & e & Hk & Hm & -> & Hw)].
  - left. rewrite conn_writes_cons, Hev, Hw. simpl. rewrite length_app.
    split; [|done]. f_equal. lia.
  - right. exists (S k), q, m, e. rewrite conn_writes_cons, Hev, Hw. simpl.
    rewrite length_app. split_and!; [done|lia|lia| |done]. f_equal. lia.
Qed.

Lemma go_slice_wp {A} b i j (f : list byte → prog sysE A) Q :
  0 <= i <= j → j <= Z.of_nat (length b) →
  wp (f (take (Z.to_nat (j - i)) (drop (Z.to_nat i) b))) Q → wp (go_slice b i j ≫= f) Q.
Proof.
  intros Hij Hj HQ. unfold go_slice.
  assert ((0 <=? i) && (i <=? j) && (j <=? Z.of_nat (length b)) = true) as ->; [|exact HQ].
  rewrite !andb_true_iff, !Z.leb_le. lia.
Qed.

Lemma frag_loop_wp fuel c ch b i :
  0 < ch < 2 ^ 63 → Z.of_nat (length b) < 2 ^ 62 →
  0 <= i → (i = 0 ∨ ch <= i) → (length b - Z.to_nat i < fuel)%nat →
  wp (frag_loop fuel c ch b i (Z.min i (Z.of_nat (length b))))
     (frag_outcome (pieces (Z.to_nat ch) (drop (Z.to_nat i) b))
        (Z.min i (Z.of_nat (length b)))).
Proof.
  intros Hch Hb. revert i. induction fuel as [|fuel IH]; intros i Hi Hi' Hf; [lia|].
  cbn [frag_loop]. destruct (Z.ltb_spec i (Z.of_nat (length b))) as [Hlt|Hge].
  2:{ left. rewrite drop_ge by lia. simpl. by rewrite Z.add_0_r. }
  rewrite !int64_small by (unfold in_int64; lia). rewrite Z.gtb_ltb.
  set (j := if Z.of_nat (length b) <? i + ch then Z.of_nat (length b) else i + ch).
  assert (j = Z.min (i + ch) (Z.of_nat (length b))) as Hj.
  { unfold j. destruct (Z.ltb_spec (Z.of_nat (length b)) (i + ch)); lia. }
  apply go_slice_wp; [lia|lia|].
  assert (take (Z.to_nat (j - i)) (drop (Z.to_nat i) b) =
          take (Z.to_nat ch) (drop (Z.to_nat i) b)) as ->.
  { destruct (decide (i + ch <= Z.of_nat (length b))); [f_equal; lia|].
    rewrite !take_ge; rewrite ?length_drop; done || lia. }
  set (piece := take _ _). assert (length piece = Z.to_nat (j - i)) as Hlen.
  { unfold piece. rewrite length_take, length_drop. lia. }
  rewrite pieces_step by (lia || (intros H; apply (f_equal length) in H;
    rewrite length_drop in H; simpl in H; lia)). fold piece.
  wp_call r Hr. destruct Hr as [Hr Hr']. rewrite Z.min_l by lia.
  rewrite int64_small by (unfold in_int64; lia).
  destruct (r.2) as [e|] eqn:He.
  - right. exists 0%nat, piece, r.1, e. simpl. split_and!; [done|lia|lia| |done]. f_equal. lia.
  - apply (wp_mono _ (frag_outcome (pieces (Z.to_nat ch) (drop (Z.to_nat (i + ch)) b))
        (Z.min (i + ch) (Z.of_nat (length b))))).
    + intros tr a Ha. apply frag_outcome_cons; [done|]. rewrite drop_drop.
      replace (Z.to_nat i + Z.to_nat ch)%nat with (Z.to_nat (i + ch)) by lia.
      replace (i + Z.of_nat (length piece)) with (Z.min (i + ch) (Z.of_nat (length b))) by lia.
      done.
    + replace (i + r.1) with (Z.min (i + ch) (Z.of_nat (length b))).
      * apply IH; lia.
      * specialize (Hr' eq_refl). lia.
Qed.

Lemma fragConn_Write_first_wp f c b :
  firstDone f = false → 0 < chunk f < 2 ^ 63 → Z.of_nat (length b) < 2 ^ 62 →
  wp (fragConn_Write f c b) (λ tr '(r, f'),
    f' = {| firstDone := true; chunk := chunk f |} ∧
    frag_outcome (pieces (Z.to_nat (chunk f)) b) 0 tr r).
Proof.
  intros Hf Hch Hb. unfold fragConn_Write.
  rewrite Hf, (proj2 (Z.leb_gt (chunk f) 0)) by lia. cbn [orb].
  pose proof (frag_loop_wp (1 + length b) c (chunk f) b 0 Hch Hb) as HL.
  rewrite Z.min_l in HL by lia.
  apply wp_bind. eapply wp_mono, HL; [|lia..].
  intros tr r Hr. simpl. by rewrite app_nil_r.
Qed.

Lemma fragConn_Write_rest_wp f c b :
  firstDone f = true →
  wp (fragConn_Write f c b) (λ tr '(r, f'), f' = f ∧ conn_writes tr = [b] ∧
    (r.2 = None → r.1 = Z.of_nat (length b))).
Proof.
  intros Hf. unfold fragConn_Write. rewrite Hf. simpl. split; [done|].
  intros r [_ Hr]. by split_and!.
Qed.

Lemma frag_writes_rest_wp f c bs :
  firstDone f = true →
  wp (frag_writes f c bs) (λ tr e, e = None → conn_writes tr = bs).
Proof.
  revert f. induction bs as [|b bs IH]; intros f Hf; [done|]. cbn [frag_writes].
  apply wp_bind. eapply wp_mono, fragConn_Write_rest_wp; [|done].
  intros tr [r f'] (-> & Hw & _). destruct (r.2); simpl; [done|].
  eapply wp_mono, IH; [|done]. intros tr' e HQ He.
  by rewrite conn_writes_app, Hw, HQ.
Qed.

(** ** Dialling *)

Lemma dialTLS_wp g addr sni :
  wp (dialTLS g addr sni) (λ tr r,
    match r with
    | Ok c =>
      no_leak (Some (cn_fd c)) tr ∧
      cn_layers c =
        (if useUTLS g then LUtls {| u_ServerName := sni; u_InsecureSkipVerify := true |}
         else LTls (client_tls_config sni)) ::
        (if 0 <? fragSize g then [LFrag (fragSize g)] else []) ∧
      shaken tr c
    | Err _ => no_leak None tr
    end ∧ (length (omap opens tr) ≤ 1)%nat ∧
    Forall (λ d, d = (10000000000, addr)) (omap dialled_addr tr)).
Proof.
  unfold dialTLS. rewrite Z.gtb_ltb.
  destruct (Z.leb_spec (fragSize g) 0) as [Hf|Hf];
    [rewrite (proj2 (Z.ltb_ge _ _)) by lia|rewrite (proj2 (Z.ltb_lt _ _)) by lia];
    destruct (useUTLS g) eqn:Hu; cbn [negb andb]; wp_steps; simpl in *.
  all: go_cases; split_and!; try done; try (by left); try lia.
  all: try (by right; apply list_elem_of_here).
  all: try (by rewrite (H _ eq_refl)).
  all: try (by repeat constructor).
  all: try solve [left; repeat (apply list_elem_of_here || apply list_elem_of_further)].
  all: right; eexists _, _, _; apply list_elem_of_here.
Qed.

(** ** Properties *)

(** The first write of a [fragConn] goes out in pieces: each is nonempty and
    at most [chunk] bytes long, all but the last have exactly [chunk] bytes,
    together they are the data, and the write returns its length.  If the
    write of one piece fails, the earlier pieces went out in full, the count
    returned is what was accepted, and nothing is written after it.  The
    64-bit index arithmetic of the loop never wraps, no slice is out of range,
    and the loop ends. *)
Theorem fragConn_Write_first f c b :
  firstDone f = false → 0 < chunk f < 2 ^ 63 → Z.of_nat (length b) < 2 ^ 62 →
  wp (fragConn_Write f c b) (λ tr '(r, f'),
    firstDone f' = true ∧ chunk f' = chunk f ∧
    Forall (λ p, 0 < Z.of_nat (length p) <= chunk f) (conn_writes tr) ∧
    (∀ k p, conn_writes tr !! k = Some p → (S k < length (conn_writes tr))%nat →
       Z.of_nat (length p) = chunk f) ∧
    match r with
    | (n, None) => n = Z.of_nat (length b) ∧ concat (conn_writes tr) = b
    | (n, Some e) => concat (conn_writes tr) `prefix_of` b ∧
        ∃ sent p m, conn_writes tr = sent ++ [p] ∧ 0 <= m <= Z.of_nat (length p) ∧
          n = Z.of_nat (length (concat sent)) + m
    end).
Proof.
  intros Hf Hch Hb. eapply wp_mono, fragConn_Write_first_wp; [|done..].
  set (n := Z.to_nat (chunk f)). assert (0 < n)%nat as Hn by lia.
  pose proof (pieces_bounds n b Hn) as Hbd. pose proof (pieces_concat n b Hn) as Hcc.
  intros tr [r f'] [-> [[-> Hw]|(k & p & m & e & Hk & Hm & -> & Hw)]]; rewrite Hw; simpl;
    (split; [done|]); (split; [done|]).
  - split_and!; [|intros k p Hk Hlen; rewrite (pieces_full n b k p); lia || done| |done].
    + eapply Forall_impl; [exact Hbd|]. simpl. lia.
    + by rewrite Hcc.
  - pose proof (take_S_r _ _ _ Hk) as HS. split_and!.
    + apply Forall_take. eapply Forall_impl; [exact Hbd|]. simpl. lia.
    + intros j q Hq Hlen. rewrite lookup_take_Some in Hq. destruct Hq as [Hq Hj].
      rewrite length_take in Hlen. rewrite (pieces_full n b j q); lia || done.
    + exists (concat (drop (S k) (pieces n b))). by rewrite concat_take_drop, Hcc.
    + rewrite HS. eauto 10.
Qed.

Lemma fragConn_Write_first_witness :
  wp (fragConn_Write {| firstDone := false; chunk := 2 |} {| cn_fd := 3; cn_layers := [] |}
        [Byte.x16; Byte.x03; Byte.x01])
    (λ tr '(r, f'),
    firstDone f' = true ∧ chunk f' = 2 ∧
    Forall (λ p, 0 < Z.of_nat (length p) <= 2) (conn_writes tr) ∧
    (∀ k p, conn_writes tr !! k = Some p → (S k < length (conn_writes tr))%nat →
       Z.of_nat (length p) = 2) ∧
    match r with
    | (n, None) => n = 3 ∧ concat (conn_writes tr) = [Byte.x16; Byte.x03; Byte.x01]
    | (n, Some e) => concat (conn_writes tr) `prefix_of` [Byte.x16; Byte.x03; Byte.x01] ∧
        ∃ sent p m, conn_writes tr = sent ++ [p] ∧ 0 <= m <= Z.of_nat (length p) ∧
          n = Z.of_nat (length (concat sent)) + m
    end).
Proof.
  apply (fragConn_Write_first {| firstDone := false; chunk := 2 |} _
           [Byte.x16; Byte.x03; Byte.x01]); simpl; lia || done.
Defined.

(** C16. Fragmentation only re-cuts the stream: if every write succeeds, the inner
    connection got the first write in pieces and every later write as it was
    given, so the bytes on the wire are the bytes written. *)
Theorem frag_writes_transparent ch c b bs :
  0 < ch < 2 ^ 63 → Z.of_nat (length b) < 2 ^ 62 →
  wp (frag_writes {| firstDone := false; chunk := ch |} c (b :: bs)) (λ tr e, e = None →
    conn_writes tr = pieces (Z.to_nat ch) b ++ bs ∧
    concat (conn_writes tr) = concat (b :: bs)).
Proof.
  intros Hch Hb. cbn [frag_writes]. apply wp_bind.
  eapply wp_mono, fragConn_Write_first_wp; [|done..].
  intros tr [r f'] [-> [[-> Hw]|(k & p & m & e & _ & _ & -> & _)]]; simpl; [|done].
  eapply wp_mono, frag_writes_rest_wp; [|done]. intros tr' e HQ He.
  simpl in Hw. rewrite conn_writes_app, Hw, HQ, concat_app by done.
  by rewrite pieces_concat by lia.
Qed.

Lemma frag_writes_transparent_witness :
  wp (frag_writes {| firstDone := false; chunk := 4 |} {| cn_fd := 3; cn_layers := [] |}
        [[Byte.x01; Byte.x02; Byte.x03; Byte.x04; Byte.x05]; [Byte.x06]])
    (λ tr e, e = None →
      conn_writes tr = pieces 4 [Byte.x01; Byte.x02; Byte.x03; Byte.x04; Byte.x05] ++ [[Byte.x06]] ∧
      concat (conn_writes tr) =
        concat [[Byte.x01; Byte.x02; Byte.x03; Byte.x04; Byte.x05]; [Byte.x06]]).
Proof. apply (frag_writes_transparent 4); simpl; lia. Defined.

(** C26. [dialTLS] opens at most one connection, dialling [addr] with a limit of
    10 seconds, and closes it again when the handshake fails.  A connection it
    returns has finished its TLS handshake and has the layers the flags ask
    for: TLS 1.2 to 1.3 (or uTLS with [-utls]) on the outside, over the
    fragmenting layer when [-frag] is positive.  [sni] is only the name sent to
    the server: with [InsecureSkipVerify] neither the certificate nor the host
    name is verified. *)
Theorem dialTLS_layers g addr sni :
  wp (dialTLS g addr sni) (λ tr r,
    match r with
    | Ok c =>
      no_leak (Some (cn_fd c)) tr ∧
      cn_layers c =
        (if useUTLS g then LUtls {| u_ServerName := sni; u_InsecureSkipVerify := true |}
         else LTls {| ServerName := sni; InsecureSkipVerify := true;
                      MinVersion := 0x0303; MaxVersion := 0x0304 |}) ::
        (if 0 <? fragSize g then [LFrag (fragSize g)] else []) ∧
      shaken tr c
    | Err _ => no_leak None tr
    end ∧ (length (omap opens tr) ≤ 1)%nat ∧
    Forall (λ d, d = (10000000000, addr)) (omap dialled_addr tr)).
Proof. apply dialTLS_wp. Qed.

(** [generateSelfSignedCert] signs its own template: a certificate for
    exactly [sni], for server authentication, whose validity runs from 24 hours
    before to 365 days after its creation, with a serial number below 2^128;
    what it returns is the DER encoding it got, with the key it generated. *)
Theorem generateSelfSignedCert_template sni :
  wp (generateSelfSignedCert sni) (λ tr r, ∀ cert, r = Ok cert →
    ∃ k z t1 t2 der tmpl,
      tr = [Event EcdsaGenerateKey (Ok k); Event (RandInt (2 ^ 128)) z;
            Event TimeNow t1; Event TimeNow t2;
            Event (CreateCertificate tmpl tmpl k k) (Ok der)] ∧
      cert = {| Certificate := [der]; PrivateKey := k |} ∧
      DNSNames tmpl = [sni] ∧ CommonName tmpl = sni ∧
      ExtKeyUsage tmpl = [ExtKeyUsageServerAuth] ∧
      NotBefore tmpl = t1 - 86400 * second ∧ NotAfter tmpl = t2 + 31536000 * second ∧
      (∀ n, SerialNumber tmpl = Some n → 0 <= n < 2 ^ 128)).
Proof.
  unfold generateSelfSignedCert. wp_steps; simpl in *; [|done].
  intros cert Hc. destruct x3 as [der|]; simplify_eq/=.
  eexists _, x0, x1, x2, der, _. split; [done|]. simpl. split_and!; try done.
  intros n Hn. destruct x0; simplify_eq. by apply H0.
Qed.
