(* ===== verification/WsTransport.v ===== *)
(** * ws_transport.go: the WebSocket transport

    [wsConn] makes a byte stream of the binary messages of a WebSocket;
    [WSListener] serves a decoy page to everything but WebSocket upgrades on
    the right path and queues the upgraded connections for [Accept];
    [dialWS] is the client side. *)

From S2P Require Import Prelude Effects Net Stream Obfs TlsTransport.

(** ** The messages of a [websocket.Conn]

    What the code relies on of the WebSocket package: [NextReader] moves to
    the next message, dropping what is left of the current one, and the
    reader it returns yields that message's bytes and then [io.EOF].  A
    message is its type, its bytes and whether it arrived whole. *)

Definition TextMessage : Z := 1.
Definition BinaryMessage : Z := 2.

Record ws_message := { m_type : Z; m_bytes : list byte; m_whole : bool }.

(** The messages [NextReader] still finds: none behind a broken one. *)
Definition next_msgs (cur : option (list byte * bool)) (ms : list ws_message)
    : list ws_message :=
  match cur with Some (_, false) => [] | _ => ms end.

Class WebSocket (G : Type) := {
  NextReader : G → res Z * G;
  ReaderRead : nat → G → list byte * option goerr * G;
  ws_holds : G → option (list byte * bool) → list ws_message → goerr → Prop;
  ws_size : G → nat
}.

Class WebSocketLaw (G : Type) `{WebSocket G} : Prop := {
  next_reader_law g cur ms err :
    ws_holds g cur ms err →
    match next_msgs cur ms with
    | [] =>
      ∃ g', NextReader g = (Err err, g') ∧ ws_holds g' None [] err ∧
        (ws_size g' ≤ ws_size g)%nat
    | m :: ms' =>
      ∃ g', NextReader g = (Ok (m_type m), g') ∧
        ws_holds g' (Some (m_bytes m, m_whole m)) ms' err ∧ (ws_size g' < ws_size g)%nat
    end;
  reader_read_law g n b whole ms err :
    ws_holds g (Some (b, whole)) ms err → (0 < n)%nat →
    ∃ out e g', ReaderRead n g = (out, e, g') ∧ (length out ≤ n)%nat ∧
      (ws_size g' + length out ≤ ws_size g)%nat ∧
      ((e = None ∧ ∃ rest, b = out ++ rest ∧ ws_holds g' (Some (rest, whole)) ms err ∧
          (ws_size g' < ws_size g)%nat) ∨
       (e = Some EOF ∧ whole = true ∧ out = b ∧ ws_holds g' None ms err ∧
          (ws_size g' < ws_size g)%nat) ∨
       (e = Some err ∧ err ≠ EOF ∧ whole = false ∧ out = b ∧
          ws_holds g' (Some ([], false)) ms err))
}.

(** ** [wsConn] *)

(** The connection and whether [w.r] holds a reader. *)
Record wsConn (G : Type) := { ws_c : G; ws_r : bool }.
Arguments ws_c {G} w.
Arguments ws_r {G} w.
Arguments Build_wsConn {G} _ _.

Definition newWSConn {G} (c : G) : wsConn G := Build_wsConn c false.

Section read.
Context {G : Type} `{WebSocket G}.

(** The loop of [Read]; [fuel] bounds its rounds. *)
Fixpoint wsConn_Read_loop (fuel n : nat) (w : wsConn G)
    : list byte * option goerr * wsConn G :=
  match fuel with
  | O => ([], Some (ErrText "fuel"), w)
  | S fuel' =>
    let read (c : G) :=
      let '(bs, err, c') := ReaderRead n c in
      match err with
      | Some EOF =>
        if decide (bs ≠ []) then (bs, None, Build_wsConn c' false)
        else wsConn_Read_loop fuel' n (Build_wsConn c' false)
      | _ => (bs, err, Build_wsConn c' true)
      end in
    if ws_r w then read (ws_c w)
    else
      match NextReader (ws_c w) with
      | (Err err, c') => ([], Some err, Build_wsConn c' false)
      | (Ok mt, c') =>
        if decide (mt ≠ BinaryMessage) then wsConn_Read_loop fuel' n (Build_wsConn c' false)
        else read c'
      end
  end.

Definition wsConn_Read (n : nat) (w : wsConn G) : list byte * option goerr * wsConn G :=
  wsConn_Read_loop (1 + ws_size (ws_c w)) n w.

End read.

Definition wsConn_Write (c : conn) (p : list byte) : prog sysE (Z * option goerr) :=
  err ← trigger (WsWriteMessage c BinaryMessage p);
  mret match err with
       | Some e => (0, Some e)
       | None => (Z.of_nat (length p), None)
       end.

(** ** The listener *)

Definition fakePage : string := "<!DOCTYPE html><html><head><title>Welcome to nginx!</title></head><body><h1>Welcome to nginx!</h1><p>If you see this page, the nginx web server is working.</p></body></html>".

(** What the handler looks at in a request: the path, and whether the package
    recognises a WebSocket upgrade. *)
Record http_request := { URLPath : string; IsWebSocketUpgrade : bool }.

Record http_response := {
  StatusCode : Z;
  Header : list (string * string);
  Body : string
}.

(** The outcome of one request: a response, an upgraded connection for the
    accept queue, or a failed upgrade (the package has answered). *)
Inductive ws_handled :=
| Responded (r : http_response)
| Upgraded (c : conn)
| UpgradeFailed.

Definition ws_handler (path : string) (r : http_request) : prog sysE ws_handled :=
  if bool_decide (URLPath r = path) && IsWebSocketUpgrade r then
    u ← trigger (WsUpgrade (URLPath r));
    mret match u with
         | Err _ => UpgradeFailed
         | Ok c => Upgraded (wrap_conn LWs c)
         end
  else
    mret (Responded {|
      StatusCode := 200;
      Header := [("Server", "nginx"); ("Content-Type", "text/html");
                 ("Content-Length", pretty (String.length fakePage))];
      Body := fakePage
    |}).

(** The accept channel ([make(chan net.Conn, 64)]) and whether [closer] is
    closed. *)
Record WSListener := { accept : list conn; closer_closed : bool }.

Definition accept_cap : nat := 64.

Definition ws_init : WSListener := {| accept := []; closer_closed := false |}.

Definition default_path (path : string) : string := if decide (path = "") then "/" else path.

(** [NewWSListener] up to the start of the server: the path it serves, the
    socket, and the certificate when TLS is on.  The goroutine that runs
    [Serve] or [ServeTLS] on these is net/http's; what it calls is [ws_handler]. *)
Definition NewWSListener (addr path sni : string) (useTLS : bool)
    : prog sysE (res (string * listener * option tls_server_config * WSListener)) :=
  let path := default_path path in
  let l := ws_init in
  r ← trigger (NetListen addr);
  match r with
  | Err e => mret (Err e)
  | Ok ln =>
    if useTLS then
      c ← generateSelfSignedCert sni;
      match c with
      | Err e => _ ← trigger (ListenerClose ln); mret (Err (ErrWrap "cert" e))
      | Ok cert =>
        mret (Ok (path, ln,
          Some {| Certificates := [cert]; srv_MinVersion := VersionTLS12;
                  srv_MaxVersion := VersionTLS13; CipherSuites := [] |}, l))
      end
    else mret (Ok (path, ln, None, l))
  end.

(** The channel operations: the handler's [select] of an upgraded connection
    puts it in the queue or, once [closer] is closed, gives it up; [Accept]
    takes a connection or fails; [Close] closes [closer].  A [select] with
    several ready cases takes any of them, so the steps are a relation.  Its
    state is that of the two channels: the [Close] of a connection that is
    given up and the [Shutdown] of the HTTP server change neither of them. *)
Inductive ws_label :=
| Enqueue (c : conn)
| Refuse (c : conn)
| AcceptConn (c : conn)
| AcceptErr (e : goerr)
| CloseListener.

Inductive ws_step : WSListener → ws_label → WSListener → Prop :=
| step_enqueue l c :
    (length (accept l) < accept_cap)%nat →
    ws_step l (Enqueue c)
      {| accept := accept l ++ [c]; closer_closed := closer_closed l |}
| step_refuse l c :
    closer_closed l = true → ws_step l (Refuse c) l
| step_accept l c cs :
    accept l = c :: cs →
    ws_step l (AcceptConn c) {| accept := cs; closer_closed := closer_closed l |}
| step_accept_closed l :
    closer_closed l = true → ws_step l (AcceptErr ErrClosed) l
| step_close l :
    ws_step l CloseListener {| accept := accept l; closer_closed := true |}.

(** Executions, with their labels in order. *)
Inductive ws_steps : WSListener → list ws_label → WSListener → Prop :=
| steps_nil l : ws_steps l [] l
| steps_snoc l ls l1 lb l2 :
    ws_steps l ls l1 → ws_step l1 lb l2 → ws_steps l (ls ++ [lb]) l2.

(** ** Dialling *)

Definition dialWS (g : tls_globals) (remote host path sni : string) (useTLS : bool)
    : prog sysE (res conn) :=
  let path := default_path path in
  let scheme := if useTLS then "wss" else "ws" in
  let u := {| Scheme := scheme; Host := remote; Path := path |} in
  let d := {|
    HandshakeTimeout := 12 * second;
    NetDialer := {| Timeout := 10 * second; KeepAlive := Some (15 * second) |};
    TLSClientConfig := if useTLS then Some (client_tls_config sni) else None;
    NetDialTLSContext :=
      if useTLS && (useUTLS g || (fragSize g >? 0)) then Some sni else None
  |} in
  let hdr := if decide (host ≠ "") then [("Host", host)] else [] in
  r ← trigger (WsDial d u hdr);
  mret match r with
       | Err e => Err e
       | Ok c => Ok (wrap_conn LWs c)
       end.

(** ** [wsConn] as a byte reader *)

(** The bytes a sequence of messages contributes to the stream: those of the
    binary ones, up to a message that did not arrive whole. *)
Fixpoint binary_stream (ms : list ws_message) : list byte :=
  match ms with
  | [] => []
  | m :: ms' =>
    (if decide (m_type m = BinaryMessage) then m_bytes m else []) ++
    (if m_whole m then binary_stream ms' else [])
  end.

(** What [w] owes when the connection holds [cur] and [ms]; without a reader
    the rest of the current message is dropped. *)
Definition ws_owed (r : bool) (cur : option (list byte * bool)) (ms : list ws_message)
    : option (list byte) :=
  match r, cur with
  | true, Some (b, whole) => Some (b ++ if whole : bool then binary_stream ms else [])
  | true, None => None
  | false, _ => Some (binary_stream (next_msgs cur ms))
  end.

#[export] Instance wsConn_reader {G} `{WebSocket G} : ByteReader (wsConn G) := {
  br_read := wsConn_Read;
  br_owes w bs err :=
    ∃ cur ms, ws_holds (ws_c w) cur ms err ∧ ws_owed (ws_r w) cur ms = Some bs;
  br_size w := ws_size (ws_c w)
}.

(** The outcome of a read, as the law of byte readers states it. *)
Definition read_outcome {S} `{ByteReader S} (n : nat) (bs : list byte) (err : goerr) (size : nat)
    (r : list byte * option goerr * S) : Prop :=
  let '(out, e, s') := r in
  (length out ≤ n)%nat ∧
  ((e = None ∧ ∃ rest, bs = out ++ rest ∧ br_owes s' rest err ∧
      (br_size s' + length out ≤ size)%nat ∧ (br_size s' < size)%nat) ∨
   (e = Some err ∧ out = bs ∧ br_owes s' [] err ∧ (br_size s' + length out ≤ size)%nat)).

Lemma read_outcome_le {S} `{ByteReader S} n bs err size size' r :
  (size ≤ size')%nat → read_outcome n bs err size r → read_outcome n bs err size' r.
Proof.
  destruct r as [[out e] s']. intros Hle [Hl [(He & rest & ? & ? & ? & ?)|(He & ? & ? & ?)]];
    (split; [done|]).
  - left. split; [done|]. exists rest. split_and!; [done|done|lia|lia].
  - right. split_and!; [done|done|done|lia].
Qed.

Section loop.
Context {G : Type} `{WebSocketLaw G}.

(** The part of a round that reads from the current reader, given the rounds
    after it. *)
Lemma ws_read_part n (c : G) b whole ms err (next : wsConn G → list byte * option goerr * wsConn G) :
  ws_holds c (Some (b, whole)) ms err → (0 < n)%nat →
  (∀ c', ws_holds c' None ms err → (ws_size c' < ws_size c)%nat →
     read_outcome n (binary_stream ms) err (ws_size c') (next (Build_wsConn c' false))) →
  read_outcome n (b ++ if whole then binary_stream ms else []) err (ws_size c)
    (let '(bs, e, c') := ReaderRead n c in
     match e with
     | Some EOF =>
       if decide (bs ≠ []) then (bs, None, Build_wsConn c' false)
       else next (Build_wsConn c' false)
     | _ => (bs, e, Build_wsConn c' true)
     end).
Proof.
  intros Hh Hn Hnext.
  destruct (reader_read_law c n b whole ms err Hh Hn) as (out & e & c' & -> & Hl & Hz & Hcase).
  destruct Hcase as [(-> & rest & -> & Hh' & Hz')|[(-> & -> & -> & Hh' & Hz')|
    (-> & Herr & -> & -> & Hh')]].
  - split; [done|]. left. split; [done|].
    exists (rest ++ if whole then binary_stream ms else []). rewrite (assoc_L (++)).
    split_and!; [done| |done|done]. by exists (Some (rest, whole)), ms.
  - case_decide as Hb.
    + split; [done|]. left. split; [done|]. exists (binary_stream ms).
      split_and!; [done| |done|done]. by exists None, ms.
    + subst. simpl.
      eapply read_outcome_le, Hnext; [lia|done|done].
  - rewrite app_nil_r.
    assert (read_outcome n b err (ws_size c) (b, Some err, Build_wsConn c' true)) as Hout.
    { split; [done|]. right. split_and!; [done|done| |done].
      exists (Some ([], false)), ms. by split. }
    by destruct err.
Qed.

Lemma wsConn_Read_loop_outcome fuel n (w : wsConn G) bs err :
  br_owes w bs err → (0 < n)%nat → (br_size w < fuel)%nat →
  read_outcome n bs err (br_size w) (wsConn_Read_loop fuel n w).
Proof.
  revert w bs. induction fuel as [|fuel IH]; intros [c r] bs (cur & ms & Hh & Ho) Hn Hf;
    [lia|]. simpl in Hh, Ho, Hf. cbn [wsConn_Read_loop ws_r ws_c].
  assert (∀ c' ms', ws_holds c' None ms' err → (ws_size c' < fuel)%nat →
     read_outcome n (binary_stream ms') err (ws_size c')
       (wsConn_Read_loop fuel n (Build_wsConn c' false))) as Hnext.
  { intros c' ms' Hh' Hz'. apply IH; [by exists None, ms'|done|done]. }
  destruct r.
  { destruct cur as [[b whole]|]; [|done]. injection Ho as <-.
    apply ws_read_part; [done|done|]. intros; apply Hnext; [done|lia]. }
  pose proof (next_reader_law c cur ms err Hh) as HN. injection Ho as <-.
  destruct (next_msgs cur ms) as [|m ms'].
  { destruct HN as (c' & -> & Hh' & Hz'). split; [simpl; lia|]. right.
    split_and!; [done|done| |simpl; lia]. by exists None, []. }
  destruct HN as (c' & -> & Hh' & Hz'). cbn [binary_stream].
  destruct (decide (m_type m = BinaryMessage)) as [Hm|Hm].
  - rewrite decide_False by tauto.
    eapply read_outcome_le; [|by apply ws_read_part; [..|intros; apply Hnext; [done|lia]]].
    simpl. lia.
  - rewrite decide_True by done. eapply read_outcome_le, IH; simpl; [lia| |done|lia].
    exists (Some (m_bytes m, m_whole m)), ms'. split; [done|]. by destruct (m_whole m).
Qed.

End loop.

#[export] Instance wsConn_reader_law {G} `{WebSocketLaw G} : ByteReaderLaw (wsConn G).
Proof.
  constructor. intros n w bs err Ho Hn.
  assert (read_outcome n bs err (br_size w) (br_read n w)) as Hout.
  { apply wsConn_Read_loop_outcome; [done|done|simpl; lia]. }
  destruct (br_read n w) as [[out e] w']. destruct Hout as [Hl Hc].
  exists out, e, w'. by split_and!.
Qed.

(** ** A concrete connection

    Messages in a queue, behind them an error: shows that the interface can be
    implemented, and lets the theorems be run. *)

Record ws_queue := {
  q_cur : option (list byte * bool);
  q_msgs : list ws_message;
  q_err : goerr
}.

Definition queue_next_reader (q : ws_queue) : res Z * ws_queue :=
  match next_msgs (q_cur q) (q_msgs q) with
  | [] => (Err (q_err q), {| q_cur := None; q_msgs := []; q_err := q_err q |})
  | m :: ms =>
    (Ok (m_type m),
     {| q_cur := Some (m_bytes m, m_whole m); q_msgs := ms; q_err := q_err q |})
  end.

Definition queue_read (n : nat) (q : ws_queue) : list byte * option goerr * ws_queue :=
  match q_cur q with
  | None => ([], Some EOF, q)
  | Some ([], true) =>
    ([], Some EOF, {| q_cur := None; q_msgs := q_msgs q; q_err := q_err q |})
  | Some ([], false) => ([], Some (q_err q), q)
  | Some (b, whole) =>
    (take n b, None,
     {| q_cur := Some (drop n b, whole); q_msgs := q_msgs q; q_err := q_err q |})
  end.

(** A broken message ends with an error other than [io.EOF]. *)
Definition broken_ok (cur : option (list byte * bool)) (ms : list ws_message) (err : goerr)
    : Prop :=
  (∀ b, cur = Some (b, false) → err ≠ EOF) ∧
  Forall (λ m, m_whole m = false → err ≠ EOF) ms.

#[export] Instance queue_websocket : WebSocket ws_queue := {
  NextReader := queue_next_reader;
  ReaderRead := queue_read;
  ws_holds q cur ms err :=
    q_cur q = cur ∧ q_msgs q = ms ∧ q_err q = err ∧ broken_ok cur ms err;
  ws_size q :=
    (sum_list (map (λ m, 2 + length (m_bytes m)) (q_msgs q)) +
     from_option (λ c, 1 + length c.1) 0 (q_cur q))%nat
}.

#[export] Instance queue_websocket_law : WebSocketLaw ws_queue.
Proof.
  constructor.
  - intros [c ms0 e] cur ms err (<- & <- & <- & Hb1 & Hb2). simpl in *.
    unfold queue_next_reader. simpl.
    assert (Forall (λ m, m_whole m = false → e ≠ EOF) (next_msgs c ms0)) as Hn
      by (destruct c as [[? []]|]; done || constructor).
    assert (sum_list (map (λ m, 2 + length (m_bytes m)) (next_msgs c ms0)) ≤
            sum_list (map (λ m, 2 + length (m_bytes m)) ms0))%nat as Hz
      by (destruct c as [[? []]|]; simpl; lia).
    destruct (next_msgs c ms0) as [|m ms]; eexists; (split; [done|]); simpl in *.
    + split_and!; try done; lia.
    + apply Forall_cons in Hn as [Hm Hms]. split_and!; try done; try lia.
      split; [|done]. intros b [= _ Hw]. by apply Hm.
  - intros [c ms0 e] n b whole ms err (Hc & <- & <- & Hb1 & Hb2) Hn. simpl in *. subst c.
    unfold queue_read. simpl. destruct b as [|x b]; [destruct whole|].
    + eexists _, _, _. split_and!; [done|simpl; lia|simpl; lia|]. right; left.
      simpl. split_and!; try done; try lia.
    + eexists _, _, _. split_and!; [done|simpl; lia|simpl; lia|]. right; right.
      split_and!; try done. by apply (Hb1 []).
    + eexists _, _, _. split_and!; [done|rewrite length_take; lia| |].
      { simpl. rewrite length_take, length_drop. simpl. lia. }
      left. split; [done|]. exists (drop n (x :: b)). rewrite take_drop.
      split_and!; try done; simpl.
      * split; [|done]. intros b' [= _ ->]. by apply (Hb1 (x :: b)).
      * rewrite length_drop. simpl. lia.
Qed.

(** ** Properties *)

(** C8. A [wsConn] is the stream of the binary messages: reading on with buffers
    of any positive sizes hands over the concatenation of the binary messages
    (those of other types are skipped, a message cut short ends the stream),
    then the error of the connection; every single read returns. *)
Theorem wsConn_delivers_binary {G} `{WebSocketLaw G} (g : G) ms err ns :
  ws_holds g None ms err → Forall (λ n, (0 < n)%nat) ns → (ws_size g < length ns)%nat →
  ∃ w', reads ns (newWSConn g) = (binary_stream ms, Some err, w').
Proof. intros Hh Hns Hlen. apply reads_all; [by exists None, ms|done|done]. Qed.

Definition demo_msgs : list ws_message := [
  {| m_type := BinaryMessage; m_bytes := [Byte.x01; Byte.x02]; m_whole := true |};
  {| m_type := TextMessage; m_bytes := [Byte.x41]; m_whole := true |};
  {| m_type := BinaryMessage; m_bytes := []; m_whole := true |};
  {| m_type := BinaryMessage; m_bytes := [Byte.x03]; m_whole := true |}].

Lemma wsConn_delivers_binary_witness :
  ∃ w', reads (replicate 20 1%nat)
      (newWSConn {| q_cur := None; q_msgs := demo_msgs; q_err := ErrClosed |})
    = ([Byte.x01; Byte.x02; Byte.x03], Some ErrClosed, w').
Proof.
  apply (wsConn_delivers_binary
    {| q_cur := None; q_msgs := demo_msgs; q_err := ErrClosed |} demo_msgs ErrClosed).
  - split_and!; [done..|]. split; [done|]. repeat constructor; discriminate.
  - repeat constructor.
  - simpl. lia.
Defined.

(** C19. The padding layer over a WebSocket: whatever other messages are mixed in
    and however the frames are spread over binary messages, the reader of the
    [obfsConn] around the [wsConn] gets the payloads of the frames. *)
Theorem obfs_over_ws_roundtrip {G} `{WebSocketLaw G} (g : G) ms err ns fs :
  ws_holds g None ms err → Forall frame_ok fs → binary_stream ms = wire fs →
  Forall (λ n, (0 < n)%nat) ns → (ws_size g < length ns)%nat →
  ∃ o', reads ns (Build_obfs_reader [] (newWSConn g)) = (payloads fs, Some err, o').
Proof.
  intros Hh Hfs Hw Hns Hlen. apply reads_all; [|done|done].
  exists fs. split; [|done]. split; [done|]. exists None, ms. split; [done|].
  simpl. by rewrite Hw.
Qed.

Lemma obfs_over_ws_roundtrip_witness :
  let fs := [([Byte.x07], [Byte.x00]); ([Byte.x08; Byte.x09], [])] in
  let ms := {| m_type := TextMessage; m_bytes := [Byte.x41]; m_whole := true |} ::
    map (λ f, {| m_type := BinaryMessage; m_bytes := obfs_frame f.1 f.2; m_whole := true |}) fs in
  ∃ o', reads (replicate 40 3%nat)
      (Build_obfs_reader [] (newWSConn {| q_cur := None; q_msgs := ms; q_err := EOF |}))
    = ([Byte.x07; Byte.x08; Byte.x09], Some EOF, o').
Proof.
  intros fs ms.
  apply (obfs_over_ws_roundtrip {| q_cur := None; q_msgs := ms; q_err := EOF |} ms EOF _ fs).
  - split_and!; [done..|]. split; [done|]. repeat constructor; discriminate.
  - repeat constructor.
  - reflexivity.
  - repeat constructor.
  - simpl. lia.
Defined.

(** C20. The server hides behind the decoy page: a request is upgraded only if it
    asks for a WebSocket upgrade on exactly the configured path; every other
    request gets, without any other effect, a 200 response with the headers of
    nginx and a [Content-Length] that is the length of the page sent. *)
Theorem ws_handler_decoy path r :
  wp (ws_handler path r) (λ tr h,
    match h with
    | Responded resp =>
      tr = [] ∧ ¬ (URLPath r = path ∧ IsWebSocketUpgrade r = true) ∧
      StatusCode resp = 200 ∧ Body resp = fakePage ∧
      ("Server", "nginx") ∈ Header resp ∧
      ("Content-Length", pretty (String.length (Body resp))) ∈ Header resp
    | Upgraded c =>
      URLPath r = path ∧ IsWebSocketUpgrade r = true ∧
      ∃ c0, tr = [Event (WsUpgrade path) (Ok c0)] ∧ c = wrap_conn LWs c0
    | UpgradeFailed =>
      URLPath r = path ∧ IsWebSocketUpgrade r = true ∧
      ∃ e, tr = [Event (WsUpgrade path) (Err e)]
    end).
Proof.
  unfold ws_handler. destruct (decide (URLPath r = path)) as [Hp|Hp].
  - rewrite bool_decide_eq_true_2 by done. destruct (IsWebSocketUpgrade r) eqn:Hu; simpl.
    + split; [done|]. intros [c|e] _; rewrite Hp; eauto.
    + split_and!; try done; [naive_solver|set_solver..].
  - rewrite bool_decide_eq_false_2 by done. simpl.
    split_and!; try done; [naive_solver|set_solver..].
Qed.

(** What was put into the accept queue and what [Accept] returned. *)
Definition enqueued (ls : list ws_label) : list conn :=
  omap (λ lb, match lb with Enqueue c => Some c | _ => None end) ls.
Definition accepted (ls : list ws_label) : list conn :=
  omap (λ lb, match lb with AcceptConn c => Some c | _ => None end) ls.

Definition closes_listener (lb : ws_label) : bool :=
  match lb with CloseListener => true | _ => false end.

Lemma ws_steps_fifo ls l :
  ws_steps ws_init ls l →
  (length (accept l) ≤ accept_cap)%nat ∧ enqueued ls = accepted ls ++ accept l ∧
  (closer_closed l = true ↔ CloseListener ∈ ls).
Proof.
  remember ws_init as l0 eqn:Hl0. intros Hsteps. revert Hl0.
  induction Hsteps as [l0|l0 ls l1 lb l2 Hsteps IH Hstep]; intros ->.
  { split_and!; [simpl; unfold accept_cap; lia|done|]. simpl. set_solver. }
  destruct (IH eq_refl) as (Hcap & Hfifo & Hclosed). clear IH.
  unfold enqueued, accepted in *. rewrite !omap_app, Hfifo, elem_of_app, list_elem_of_singleton.
  destruct Hstep; simpl in *; rewrite ?app_nil_r.
  - rewrite length_app, <- (assoc_L (++)). split_and!; [simpl; lia|done|naive_solver].
  - split_and!; [done|done|naive_solver].
  - match goal with H : accept _ = _ |- _ => rewrite H in * end.
    rewrite <- (assoc_L (++)). simpl in *. split_and!; [lia|done|naive_solver].
  - split_and!; [done|done|naive_solver].
  - split_and!; [done|done|naive_solver].
Qed.

Lemma ws_steps_snoc_inv l0 ls lb l2 :
  ws_steps l0 (ls ++ [lb]) l2 → ∃ l1, ws_steps l0 ls l1 ∧ ws_step l1 lb l2.
Proof.
  intros Hsteps. inversion Hsteps as [|? ls' l1 lb' ? Hs Hst Heq]; [by destruct ls|].
  simplify_list_eq. by exists l1.
Qed.

Lemma ws_steps_app_inv l0 ls ls' l2 :
  ws_steps l0 (ls ++ ls') l2 → ∃ l1, ws_steps l0 ls l1.
Proof.
  revert l2. induction ls' as [|lb ls' IH] using rev_ind; intros l2.
  - rewrite app_nil_r. eauto.
  - rewrite (assoc_L (++)). intros (l1 & Hs & _)%ws_steps_snoc_inv. eauto.
Qed.

(** C13. The accept queue of a [WSListener]: it never holds more than 64
    connections, [Accept] returns the queued connections in order, each exactly
    once, and a connection is refused or [Accept] fails only after [Close]. *)
Theorem ws_listener_queue ls l :
  ws_steps ws_init ls l →
  (length (accept l) ≤ 64)%nat ∧
  enqueued ls = accepted ls ++ accept l ∧
  (∀ ls1 lb ls2, ls = ls1 ++ lb :: ls2 →
     match lb with Refuse _ | AcceptErr _ => CloseListener ∈ ls1 | _ => True end).
Proof.
  intros Hs. destruct (ws_steps_fifo ls l Hs) as (Hcap & Hfifo & _).
  split_and!; [done|done|]. intros ls1 lb ls2 ->.
  replace (ls1 ++ lb :: ls2) with ((ls1 ++ [lb]) ++ ls2) in Hs by by simplify_list_eq.
  apply ws_steps_app_inv in Hs as [l1 (l0 & Hs0 & Hst)%ws_steps_snoc_inv].
  apply ws_steps_fifo in Hs0 as (_ & _ & Hc).
  destruct Hst; try done; by apply Hc.
Qed.

Lemma ws_listener_queue_witness :
  let c1 := {| cn_fd := 5; cn_layers := [LWs] |} in
  let ls := [Enqueue c1; CloseListener; AcceptConn c1; AcceptErr ErrClosed] in
  (length (accept {| accept := []; closer_closed := true |}) ≤ 64)%nat ∧
  enqueued ls = accepted ls ++ [] ∧
  (∀ ls1 lb ls2, ls = ls1 ++ lb :: ls2 →
     match lb with Refuse _ | AcceptErr _ => CloseListener ∈ ls1 | _ => True end).
Proof.
  intros c1 ls. apply (ws_listener_queue ls {| accept := []; closer_closed := true |}).
  change ls with ((([] ++ [Enqueue c1]) ++ [CloseListener]) ++ [AcceptConn c1] ++ [AcceptErr ErrClosed]).
  rewrite app_assoc.
  eapply steps_snoc; [|by apply step_accept_closed].
  eapply steps_snoc; [|by apply (step_accept {| accept := [c1]; closer_closed := true |})].
  eapply steps_snoc; [|apply (step_close {| accept := [c1]; closer_closed := false |})].
  eapply steps_snoc; [apply steps_nil|].
  apply (step_enqueue ws_init c1). unfold accept_cap. simpl. lia.
Defined.
