(* ===== verification/TunnelConfig.v ===== *)
(** * engine.go: the parameters of the KCP and smux layers, the key *)

From S2P Require Import Prelude Effects Net Stream Obfs.

Definition kcpDataShards : Z := 10.
Definition kcpParityShards : Z := 3.
Definition kcpMTU : Z := 1350.
Definition kcpSndWnd : Z := 512.
Definition kcpRcvWnd : Z := 512.
Definition kcpNoDelay : Z := 1.
Definition kcpInterval : Z := 20.
Definition kcpResend : Z := 2.
Definition kcpNoCongestion : Z := 1.

Definition applyKCP (c : conn) : prog sysE unit :=
  _ ← trigger (KcpOption c (SetStreamMode true));
  _ ← trigger (KcpOption c (SetWriteDelay false));
  _ ← trigger (KcpOption c (SetKcpNoDelay kcpNoDelay kcpInterval kcpResend kcpNoCongestion));
  _ ← trigger (KcpOption c (SetWindowSize kcpSndWnd kcpRcvWnd));
  _ ← trigger (KcpOption c (SetMtu kcpMTU));
  trigger (KcpOption c (SetACKNoDelay true)).

(** [smuxConfig] overwrites six fields of [smux.DefaultConfig()], here [c]. *)
Definition smuxConfig (c : smux_config) : smux_config := {|
  Version := 2;
  KeepAliveDisabled := KeepAliveDisabled c;
  KeepAliveInterval := 8 * second;
  KeepAliveTimeout := 24 * second;
  MaxFrameSize := 32768;
  MaxReceiveBuffer := 8 * 1024 * 1024;
  MaxStreamBuffer := 4 * 1024 * 1024
|}.

(** [pad32]: [copy] of the key into 32 zero bytes. *)
Definition pad32 (k : list byte) : list byte :=
  let out := replicate 32 Byte.x00 in
  let n := Nat.min (length out) (length k) in
  take n k ++ drop n out.

(** ** Lemmas *)

Lemma pad32_eq k : pad32 k = take 32 k ++ replicate (32 - length k) Byte.x00.
Proof.
  unfold pad32. rewrite length_replicate, drop_replicate.
  destruct (decide (length k ≤ 32)%nat).
  - rewrite Nat.min_r, !take_ge by lia. done.
  - rewrite Nat.min_l by lia. do 2 f_equal. lia.
Qed.

Lemma pad32_length k : length (pad32 k) = 32%nat.
Proof. rewrite pad32_eq, length_app, length_take, length_replicate. lia. Qed.

Lemma pad_zeros_inj (k1 k2 : list byte) n1 n2 :
  Byte.x00 ∉ k1 → Byte.x00 ∉ k2 →
  k1 ++ replicate n1 Byte.x00 = k2 ++ replicate n2 Byte.x00 → k1 = k2.
Proof.
  revert k2. induction k1 as [|b k1 IH]; intros [|c k2] H1 H2 Heq; simpl in *; [done|..].
  - destruct n1; simplify_eq/=. set_solver.
  - destruct n2; simplify_eq/=. set_solver.
  - simplify_eq/=. f_equal. apply IH; [set_solver..|done].
Qed.

(** ** Properties *)

(** [pad32] always yields an AES-256 key of 32 bytes, and for keys without
    NUL bytes (all a command line can carry) two keys give the same AES key
    exactly when their first 32 bytes agree. *)
Theorem pad32_identifies k1 k2 :
  Byte.x00 ∉ k1 → Byte.x00 ∉ k2 →
  length (pad32 k1) = 32%nat ∧ (pad32 k1 = pad32 k2 ↔ take 32 k1 = take 32 k2).
Proof.
  intros H1 H2. rewrite !pad32_eq. split.
  { rewrite length_app, length_take, length_replicate. lia. }
  split.
  - apply pad_zeros_inj; intros (i & Hi%list_elem_of_lookup_2 & _)%elem_of_take; done.
  - intros Heq. rewrite Heq. do 2 f_equal. apply (f_equal length) in Heq.
    rewrite !length_take in Heq. lia.
Qed.

Lemma pad32_identifies_witness :
  length (pad32 (bytes_of_string "key-a")) = 32%nat ∧
  (pad32 (bytes_of_string "key-a") = pad32 (bytes_of_string "key-b") ↔
   take 32 (bytes_of_string "key-a") = take 32 (bytes_of_string "key-b")).
Proof.
  apply pad32_identifies; vm_compute; intros Hin;
    repeat (apply elem_of_cons in Hin as [Hin|Hin]; [discriminate|]);
    by apply elem_of_nil in Hin.
Defined.

(** C39. What smux writes fits the frames of the padding layer: a write of at most
    one smux frame ([MaxFrameSize] of payload and a header of up to 32 767
    bytes) together with any padding of the default configuration keeps both
    16-bit lengths exact, so the peer's [Read] delivers exactly that write and
    leaves the rest of the stream in place. *)
Theorem smux_writes_fit {S} `{ByteReaderLaw S} d n (s : S) p pad tail err :
  Z.of_nat (length p) <= 32767 + MaxFrameSize (smuxConfig d) →
  Z.of_nat (length pad) < MaxPadding DefaultObfsConfig →
  br_owes s (obfs_frame p pad ++ tail) err → (length p ≤ n)%nat →
  ∃ s', obfsConn_Read n (Build_obfs_reader [] s) = (p, None, Build_obfs_reader [] s') ∧
    br_owes s' tail err.
Proof.
  cbn [MaxFrameSize smuxConfig MaxPadding DefaultObfsConfig]. intros Hp Hpad Hs Hn.
  unfold obfs_frame in Hs. rewrite <- !(assoc_L (++)) in Hs.
  destruct (obfsConn_Read_step n (Build_obfs_reader [] s) _ _ _ _ _ err eq_refl Hs)
    as (s' & -> & Hs' & _); [by rewrite uint16_small by lia..|].
  exists s'. by rewrite take_ge, drop_ge by lia.
Qed.

Lemma smux_writes_fit_witness :
  let d := {| Version := 1; KeepAliveDisabled := false; KeepAliveInterval := 10 * second;
    KeepAliveTimeout := 30 * second; MaxFrameSize := 32768; MaxReceiveBuffer := 4194304;
    MaxStreamBuffer := 65536 |} in
  ∃ s', obfsConn_Read 8 (Build_obfs_reader []
     {| src_chunks := [obfs_frame [Byte.x02; Byte.x00] [Byte.x55]]; src_err := EOF |}) =
     ([Byte.x02; Byte.x00], None, Build_obfs_reader [] s') ∧ br_owes s' [] EOF.
Proof.
  intros d. apply (smux_writes_fit (S := source) d 8 _ _ [Byte.x55] [] EOF).
  - simpl. lia.
  - simpl. lia.
  - apply source_owes_one.
  - simpl. lia.
Defined.
