(* ===== verification/MultiPath.v ===== *)
(** * multipath.go: the failover client

    A [MultiPathClient] keeps one smux session to one of several servers and
    reconnects, in cyclic order from the last server that worked, when the
    session is gone.  A server that failed three times is left alone for 30
    seconds after its last failure.  The servers are shared by pointer; the
    model keeps them in a store of endpoints. *)

From S2P Require Import Prelude Effects Net Stream Obfs TlsTransport WsTransport TunnelConfig.

Record ServerEndpoint := {
  Address : string;
  SNI : string;
  Transport : string;
  WSPath : string;
  WSHost : string;
  WSTLS : bool;
  failCount : Z;
  lastFail : Z
}.

(** A pointer to a [ServerEndpoint]. *)
Abbreviation loc := nat (only parsing).

Record MultiPathClient := {
  servers : list loc;
  current : Z;
  mp_listen : string;
  mp_session : option session;
  sessionSrv : option loc;
  endpoints : gmap loc ServerEndpoint
}.

Definition NewMultiPathClient (listen : string) (servers : list loc)
    (endpoints : gmap loc ServerEndpoint) : MultiPathClient := {|
  servers := servers; current := 0; mp_listen := listen;
  mp_session := None; sessionSrv := None; endpoints := endpoints
|}.

(** ** Access to the servers

    [m.servers[idx]] and the endpoint behind a pointer; both can panic. *)
Definition server_at (m : MultiPathClient) (idx : Z) : prog sysE loc :=
  match (if idx <? 0 then None else servers m !! Z.to_nat idx) with
  | Some l => mret l
  | None => Vis (GoPanic "index out of range") (λ x : Empty_set, match x with end)
  end.

Definition deref (m : MultiPathClient) (l : loc) : prog sysE ServerEndpoint :=
  match endpoints m !! l with
  | Some e => mret e
  | None => Vis (GoPanic "nil pointer dereference") (λ x : Empty_set, match x with end)
  end.

Definition set_endpoint (m : MultiPathClient) (l : loc) (e : ServerEndpoint) : MultiPathClient := {|
  servers := servers m; current := current m; mp_listen := mp_listen m;
  mp_session := mp_session m; sessionSrv := sessionSrv m;
  endpoints := <[l := e]> (endpoints m)
|}.

Definition set_fail (e : ServerEndpoint) (count last : Z) : ServerEndpoint := {|
  Address := Address e; SNI := SNI e; Transport := Transport e; WSPath := WSPath e;
  WSHost := WSHost e; WSTLS := WSTLS e; failCount := count; lastFail := last
|}.

Definition set_session (m : MultiPathClient) (s : option session) : MultiPathClient := {|
  servers := servers m; current := current m; mp_listen := mp_listen m;
  mp_session := s; sessionSrv := sessionSrv m; endpoints := endpoints m
|}.

(** ** Failures *)

Definition markFailedLocked (m : MultiPathClient) (srv : loc) : prog sysE MultiPathClient :=
  e ← deref m srv;
  t ← trigger TimeNow;
  mret (set_endpoint m srv (set_fail e (int32 (failCount e + 1)) t)).

Definition markFailed (m : MultiPathClient) (srv : loc) : prog sysE MultiPathClient :=
  m ← markFailedLocked m srv;
  match mp_session m with
  | Some s => _ ← trigger (SmuxClose s); mret (set_session m None)
  | None => mret m
  end.

(** ** [getSession] *)

Section getSession.
(** The package variables of tls_transport.go and [smux.DefaultConfig()]. *)
Context (g : tls_globals) (smux_default : smux_config).

(** The test that leaves a server alone, at time [t]. *)
Definition blacklisted (e : ServerEndpoint) (t : Z) : bool :=
  (time_sub t (lastFail e) <? 30 * second) && (failCount e >=? 3).

Definition dial_server (e : ServerEndpoint) : prog sysE (res conn) :=
  if decide (Transport e = "ws")
  then dialWS g (Address e) (WSHost e) (WSPath e) (SNI e) (WSTLS e)
  else dialTLS g (Address e) (SNI e).

(** The state after server [idx] at [l] gave the session [s]. *)
Definition connected (m : MultiPathClient) (idx : Z) (l : loc) (s : session) : MultiPathClient :=
  {| servers := servers m; current := int32 idx; mp_listen := mp_listen m;
     mp_session := Some s; sessionSrv := Some l;
     endpoints := alter (λ e, set_fail e 0 (lastFail e)) l (endpoints m) |}.

(** The loop over the offsets [offs] from [start]. *)
Fixpoint try_servers (m : MultiPathClient) (start : Z) (offs : list Z)
    : prog sysE (res (session * option loc) * MultiPathClient) :=
  match offs with
  | [] => mret (Err ErrAllServersDown, m)
  | i :: offs' =>
    let idx := Z.rem (start + i) (Z.of_nat (length (servers m))) in
    srv ← server_at m idx;
    e ← deref m srv;
    t ← trigger TimeNow;
    if blacklisted e t then try_servers m start offs'
    else
      r ← dial_server e;
      match r with
      | Err _ =>
        m' ← markFailedLocked m srv;
        try_servers m' start offs'
      | Ok c =>
        let obfsed := WrapObfs c DefaultObfsConfig in
        sess ← trigger (SmuxClient obfsed (smuxConfig smux_default));
        match sess with
        | Err _ =>
          _ ← trigger (ConnClose c);
          m' ← markFailedLocked m srv;
          try_servers m' start offs'
        | Ok s => mret (Ok (s, Some srv), connected m idx srv s)
        end
      end
  end.

(** The offsets [0 .. n-1]. *)
Definition offsets (n : nat) : list Z := Z.of_nat <$> seq 0 n.

Definition getSession (m : MultiPathClient)
    : prog sysE (res (session * option loc) * MultiPathClient) :=
  match mp_session m with
  | Some s =>
    closed ← trigger (SmuxIsClosed s);
    if negb closed then mret (Ok (s, sessionSrv m), m)
    else try_servers m (current m) (offsets (length (servers m)))
  | None => try_servers m (current m) (offsets (length (servers m)))
  end.

(** One accepted connection, run by itself. *)
Definition handleConn (m : MultiPathClient) (client : conn) : prog sysE MultiPathClient :=
  '(r, m) ← getSession m;
  match r with
  | Err _ => _ ← trigger (ConnClose client); mret m
  | Ok (s, srv) =>
    st ← trigger (SmuxOpenStream s);
    match st with
    | Err _ =>
      match srv with
      | Some l => m ← markFailed m l; _ ← trigger (ConnClose client); mret m
      | None => Vis (GoPanic "nil pointer dereference") (λ x : Empty_set, match x with end)
      end
    | Ok stream => _ ← trigger (Pipe (PConn client) (PStream stream)); mret m
    end
  end.

End getSession.

(** ** What [getSession] does, as a relation

    [srv_of m start i] is the server at offset [i]; [tried m start offs tr r m']
    says that the loop over [offs] in state [m] can make the external calls
    [tr], return [r] and leave [m']. *)

Definition srv_of (m : MultiPathClient) (start i : Z) : option loc :=
  servers m !! Z.to_nat (Z.rem (start + i) (Z.of_nat (length (servers m)))).

(** Server [l] failed at time [t]. *)
Definition failed (m : MultiPathClient) (l : loc) (e : ServerEndpoint) (t : Z) : MultiPathClient :=
  set_endpoint m l (set_fail e (int32 (failCount e + 1)) t).

Section tried.
Context (g : tls_globals) (smux_default : smux_config).

Inductive tried : MultiPathClient → Z → list Z → list (event sysE) →
    res (session * option loc) → MultiPathClient → Prop :=
| tried_nil m start : tried m start [] [] (Err ErrAllServersDown) m
| tried_skip m start i offs l e t tr r m' :
    srv_of m start i = Some l → endpoints m !! l = Some e → blacklisted e t = true →
    tried m start offs tr r m' →
    tried m start (i :: offs) (Event TimeNow t :: tr) r m'
| tried_dial_failed m start i offs l e t trd err t' tr r m' :
    srv_of m start i = Some l → endpoints m !! l = Some e → blacklisted e t = false →
    runs (dial_server g e) trd (Err err) →
    tried (failed m l e t') start offs tr r m' →
    tried m start (i :: offs)
      (Event TimeNow t :: trd ++ Event TimeNow t' :: tr) r m'
| tried_smux_failed m start i offs l e t trd c err t' tr r m' :
    srv_of m start i = Some l → endpoints m !! l = Some e → blacklisted e t = false →
    runs (dial_server g e) trd (Ok c) →
    tried (failed m l e t') start offs tr r m' →
    tried m start (i :: offs)
      (Event TimeNow t :: trd ++
       Event (SmuxClient (WrapObfs c DefaultObfsConfig) (smuxConfig smux_default)) (Err err) ::
       Event (ConnClose c) tt :: Event TimeNow t' :: tr) r m'
| tried_connected m start i offs l e t trd c s :
    srv_of m start i = Some l → endpoints m !! l = Some e → blacklisted e t = false →
    runs (dial_server g e) trd (Ok c) →
    tried m start (i :: offs)
      (Event TimeNow t :: trd ++
       [Event (SmuxClient (WrapObfs c DefaultObfsConfig) (smuxConfig smux_default)) (Ok s)])
      (Ok (s, Some l))
      (connected m (Z.rem (start + i) (Z.of_nat (length (servers m)))) l s).

(** All servers can be dereferenced. *)
Definition servers_ok (m : MultiPathClient) : Prop :=
  ∀ l, l ∈ servers m → is_Some (endpoints m !! l).

Lemma servers_ok_failed m l e t : servers_ok m → servers_ok (failed m l e t).
Proof.
  intros Hm l' Hl'. simpl. destruct (decide (l = l')) as [->|].
  - rewrite lookup_insert_eq. eauto.
  - rewrite lookup_insert_ne by done. by apply Hm.
Qed.

Lemma dial_server_wp e : wp (dial_server g e) dial_clean.
Proof.
  unfold dial_server. case_decide.
  - unfold dialWS. wp_call r Hr. destruct r as [c|]; simpl; [|done]. split; [|done]. by left.
  - eapply wp_mono, dialTLS_wp. intros tr r [Hr _]. destruct r; [apply Hr|done].
Qed.

Lemma dial_server_clean e trd r : runs (dial_server g e) trd r → dial_clean trd r.
Proof. apply wp_runs, dial_server_wp. Qed.

Lemma server_at_wp {A} m idx l (f : loc → prog sysE A) Q :
  0 <= idx → servers m !! Z.to_nat idx = Some l → wp (f l) Q → wp (server_at m idx ≫= f) Q.
Proof.
  intros Hi Hl HQ. unfold server_at. rewrite (proj2 (Z.ltb_ge idx 0)) by lia.
  by rewrite Hl.
Qed.

Lemma deref_wp {A} m l e (f : ServerEndpoint → prog sysE A) Q :
  endpoints m !! l = Some e → wp (f e) Q → wp (deref m l ≫= f) Q.
Proof. intros He HQ. unfold deref. by rewrite He. Qed.

Lemma markFailedLocked_wp {A} m l e (f : MultiPathClient → prog sysE A) Q :
  endpoints m !! l = Some e →
  (∀ t, wp (f (failed m l e t)) (λ tr a, Q (Event TimeNow t :: tr) a)) →
  wp (markFailedLocked m l ≫= f) Q.
Proof.
  intros He HQ. apply wp_bind. unfold markFailedLocked.
  apply (deref_wp _ _ e); [done|]. wp_call t Ht. apply HQ.
Qed.

Lemma try_servers_wp m start offs :
  servers_ok m → 0 <= start → Forall (λ i, 0 <= i) offs → servers m ≠ [] →
  wp (try_servers g smux_default m start offs)
     (λ tr '(r, m'), tried m start offs tr r m').
Proof.
  intros Hm Hstart Hoffs Hne. revert m Hm Hne.
  induction Hoffs as [|i offs Hi Hoffs IH]; intros m Hm Hne; [constructor|].
  cbn [try_servers]. set (n := Z.of_nat (length (servers m))).
  assert (0 < n) as Hn by (unfold n; destruct (servers m); [done|simpl; lia]).
  pose proof (Z.rem_bound_pos (start + i) n ltac:(lia) Hn) as Hidx.
  destruct (lookup_lt_is_Some_2 (servers m) (Z.to_nat (Z.rem (start + i) n))) as [l Hl]; [lia|].
  destruct (Hm l) as [e He]; [by eapply list_elem_of_lookup_2|].
  apply (server_at_wp _ _ l); [lia|done|]. apply (deref_wp _ _ e); [done|].
  wp_call t Ht. destruct (blacklisted e t) eqn:Hb.
  { eapply wp_mono, IH; [|done..]. intros tr [r m'] Htr. by eapply tried_skip. }
  apply wp_bind. eapply wp_mono, wp_self, dial_server_wp. intros trd r [Hd _].
  destruct r as [c|err]; [wp_call sess Hs; destruct sess as [s|err]|].
  - by apply (tried_connected _ _ _ _ _ e).
  - wp_call u Hu. destruct u. apply (markFailedLocked_wp _ _ e); [done|]. intros t'.
    eapply wp_mono, IH; [|by apply servers_ok_failed|done].
    intros tr [r m'] Htr. by eapply (tried_smux_failed _ _ _ _ _ _ _ _ _ err).
  - apply (markFailedLocked_wp _ _ e); [done|]. intros t'.
    eapply wp_mono, IH; [|by apply servers_ok_failed|done].
    intros tr [r m'] Htr. by eapply (tried_dial_failed _ _ _ _ _ _ _ _ err).
Qed.

(** ** Consequences

    What a run changes: only endpoints, until a server is connected. *)
Lemma tried_err m start offs tr e m' :
  tried m start offs tr (Err e) m' →
  e = ErrAllServersDown ∧ servers m' = servers m ∧ current m' = current m ∧
  mp_listen m' = mp_listen m ∧ mp_session m' = mp_session m ∧ sessionSrv m' = sessionSrv m.
Proof.
  remember (Err e) as r eqn:Hr. intros Ht. induction Ht; simplify_eq; naive_solver.
Qed.

(** The specification of one attempt, in its own words.  A server is left alone
    for 30 seconds after its third failure. *)
Definition left_alone (e : ServerEndpoint) (t : Z) : Prop :=
  time_sub t (lastFail e) < 30 * second ∧ 3 <= failCount e.

(** It is dialled with its own parameters, over WebSocket or TLS. *)
Definition dialled (e : ServerEndpoint) (trd : list (event sysE)) (r : res conn) : Prop :=
  (Transport e = "ws" ∧ runs (dialWS g (Address e) (WSHost e) (WSPath e) (SNI e) (WSTLS e)) trd r) ∨
  (Transport e ≠ "ws" ∧ runs (dialTLS g (Address e) (SNI e)) trd r).

(** A session is started on the padded connection. *)
Definition starts_session (c : conn) (r : res session) : event sysE :=
  Event (SmuxClient (WrapObfs c DefaultObfsConfig) (smuxConfig smux_default)) r.

(** The calls that connect to the server [e] and start the session [s]. *)
Definition connects (e : ServerEndpoint) (s : session) (tr : list (event sysE)) : Prop :=
  ∃ t trd c, ¬ left_alone e t ∧ dialled e trd (Ok c) ∧
    tr = Event TimeNow t :: trd ++ [starts_session c (Ok s)].

(** The calls of an attempt at [e] that gives up, and the endpoint after it: the
    server is left alone, or it cannot be dialled, or no session can be started
    and the connection is closed; the last two count as a failure at the time
    then read. *)
Inductive attempt (e : ServerEndpoint) : list (event sysE) → ServerEndpoint → Prop :=
| attempt_skipped t :
    left_alone e t → attempt e [Event TimeNow t] e
| attempt_undialled t trd err t' :
    ¬ left_alone e t → dialled e trd (Err err) →
    attempt e (Event TimeNow t :: trd ++ [Event TimeNow t'])
      (set_fail e (int32 (failCount e + 1)) t')
| attempt_unstarted t trd c err t' :
    ¬ left_alone e t → dialled e trd (Ok c) →
    attempt e (Event TimeNow t :: trd ++
        [starts_session c (Err err); Event (ConnClose c) tt; Event TimeNow t'])
      (set_fail e (int32 (failCount e + 1)) t').

Lemma blacklisted_spec e t : blacklisted e t = true ↔ left_alone e t.
Proof. unfold blacklisted, left_alone. rewrite andb_true_iff, Z.ltb_lt, Z.geb_le. done. Qed.

Lemma not_blacklisted e t : blacklisted e t = false → ¬ left_alone e t.
Proof. intros Hb Hl%blacklisted_spec. congruence. Qed.

Lemma dial_server_dialled e trd r : runs (dial_server g e) trd r → dialled e trd r.
Proof. unfold dial_server, dialled. case_decide; auto. Qed.

(** A run that connects is a run over the offsets before that gave up on all
    of them, and then the connection. *)
Definition connected_at (m : MultiPathClient) (start : Z) (offs : list Z) (tr : list (event sysE))
    (s : session) (srv : option loc) (m' : MultiPathClient) : Prop :=
  ∃ pre i post m1 tr1 tr2 l e, offs = pre ++ i :: post ∧
    tried m start pre tr1 (Err ErrAllServersDown) m1 ∧
    srv_of m start i = Some l ∧ srv = Some l ∧ endpoints m1 !! l = Some e ∧
    connects e s tr2 ∧ tr = tr1 ++ tr2 ∧
    m' = connected m1 (Z.rem (start + i) (Z.of_nat (length (servers m)))) l s.

Lemma connected_at_cons m m0 start j offs ev tr s srv m' :
  servers m = servers m0 →
  (∀ pre tr1 m1, tried m0 start pre tr1 (Err ErrAllServersDown) m1 →
     tried m start (j :: pre) (ev ++ tr1) (Err ErrAllServersDown) m1) →
  connected_at m0 start offs tr s srv m' →
  connected_at m start (j :: offs) (ev ++ tr) s srv m'.
Proof.
  intros Hm Hcons (pre & i & post & m1 & tr1 & tr2 & l & e & -> & Ht & Hi & -> & He & Hc & -> & ->).
  exists (j :: pre), i, post, m1, (ev ++ tr1), tr2, l, e. unfold srv_of in *. rewrite Hm.
  split_and!; [done|by apply Hcons|done..|by rewrite app_assoc|done].
Qed.

Lemma tried_ok_inv m start offs tr s srv m' :
  tried m start offs tr (Ok (s, srv)) m' → connected_at m start offs tr s srv m'.
Proof.
  remember (Ok (s, srv)) as r eqn:Hr. intros Ht.
  induction Ht as [|m start i offs l e t tr r m' Hs He Hb Ht IH
    |m start i offs l e t trd err t' tr r m' Hs He Hb Hd Ht IH
    |m start i offs l e t trd c err t' tr r m' Hs He Hb Hd Ht IH
    |m start i offs l e t trd c s' Hs He Hb Hd]; simplify_eq.
  - apply (connected_at_cons _ m _ _ _ [Event TimeNow t]); [done| |by apply IH].
    intros. by eapply tried_skip.
  - rewrite (app_assoc trd [_] tr : trd ++ _ :: tr = _). rewrite app_comm_cons.
    eapply connected_at_cons; [|intros pre tr1 m1 Ht1|by apply IH]; [done|]. cbn.
    rewrite <- app_assoc. by eapply (tried_dial_failed _ _ _ _ _ _ _ _ err).
  - rewrite (app_assoc trd [_; _; _] tr : trd ++ _ :: _ :: _ :: tr = _). rewrite app_comm_cons.
    eapply connected_at_cons; [|intros pre tr1 m1 Ht1|by apply IH]; [done|]. cbn.
    rewrite <- app_assoc. by eapply (tried_smux_failed _ _ _ _ _ _ _ _ _ err).
  - eexists [], i, offs, m, [], _, l, e. split_and!; [done|constructor|done..| |done|done].
    exists t, trd, c. split_and!; [by apply not_blacklisted|by apply dial_server_dialled|done].
Qed.

(** The calls [tr] are an attempt at the server [l] that gave up on it. *)
Definition given_up (m m' : MultiPathClient) (l : loc) (tr : list (event sysE)) : Prop :=
  ∃ e e', endpoints m !! l = Some e ∧ endpoints m' !! l = Some e' ∧ attempt e tr e'.

Lemma given_up_same m m1 m' m1' l tr :
  endpoints m !! l = endpoints m1 !! l → endpoints m' !! l = endpoints m1' !! l →
  given_up m1 m1' l tr → given_up m m' l tr.
Proof. intros Hm Hm' (e & e' & He & He' & Ha). exists e, e'. by rewrite Hm, Hm'. Qed.

Lemma given_up_failed m m' l e t tr :
  endpoints m !! l = Some e → attempt e tr (set_fail e (int32 (failCount e + 1)) t) →
  endpoints m' !! l = endpoints (failed m l e t) !! l → given_up m m' l tr.
Proof.
  intros He Ha Hm'. simpl in Hm'. rewrite lookup_insert_eq in Hm'. by eexists _, _.
Qed.

Lemma endpoints_failed_ne m l l' e t :
  l ≠ l' → endpoints (failed m l e t) !! l' = endpoints m !! l'.
Proof. apply lookup_insert_ne. Qed.

Lemma tried_unvisited m start offs tr e m' l :
  tried m start offs tr (Err e) m' →
  (∀ i, i ∈ offs → srv_of m start i ≠ Some l) → endpoints m' !! l = endpoints m !! l.
Proof.
  remember (Err e) as r eqn:Hr. intros Ht.
  induction Ht as [|????????????? Ht IH|????????????????? Ht IH|?????????????????? Ht IH|];
    intros Hi; simplify_eq; [done|..].
  - apply IH; [done|]. set_solver.
  - rewrite IH; [|done|set_solver]. apply endpoints_failed_ne. set_solver.
  - rewrite IH; [|done|set_solver]. apply endpoints_failed_ne. set_solver.
Qed.

(** The offsets visit pairwise different servers. *)
Definition offsets_ok (m : MultiPathClient) (start : Z) (offs : list Z) : Prop :=
  NoDup offs ∧ ∀ i j l, i ∈ offs → j ∈ offs →
    srv_of m start i = Some l → srv_of m start j = Some l → i = j.

Lemma offsets_ok_cons m start i offs :
  offsets_ok m start (i :: offs) → offsets_ok m start offs ∧
  ∀ l, srv_of m start i = Some l → ∀ j, j ∈ offs → srv_of m start j ≠ Some l.
Proof.
  intros [[Hi Hnd]%NoDup_cons Hinj]. split.
  - split; [done|]. intros j k l Hj Hk. apply Hinj; set_solver.
  - intros l Hl j Hj Hl'. assert (i = j) as -> by (eapply Hinj; [set_solver..|done|done]). done.
Qed.

(** The attempts [trs] at the servers at [offs], one after the other. *)
Definition attempts (m m' : MultiPathClient) (start : Z) (offs : list Z)
    (trs : list (list (event sysE))) : Prop :=
  Forall2 (λ i tr, ∃ l, srv_of m start i = Some l ∧ given_up m m' l tr) offs trs.

(** The attempts of a later state are those of the earlier one, when the server
    the step is about is not visited again. *)
Lemma attempts_later m m1 m' start l offs trs :
  servers m = servers m1 → (∀ l', l' ≠ l → endpoints m !! l' = endpoints m1 !! l') →
  (∀ j, j ∈ offs → srv_of m start j ≠ Some l) →
  attempts m1 m' start offs trs → attempts m m' start offs trs.
Proof.
  intros Hs He Hfresh Ha. induction Ha as [|j tr offs trs (l' & Hl' & Hg) Ha IH]; [constructor|].
  assert (srv_of m start j = Some l') as Hj by (unfold srv_of in *; by rewrite Hs).
  constructor; [|apply IH; intros j' Hj'; apply Hfresh; by right].
  exists l'. split; [done|]. eapply given_up_same; [|done|exact Hg].
  apply He. intros ->. by apply (Hfresh j); [left|].
Qed.

Lemma tried_attempts m start offs tr e m' :
  tried m start offs tr (Err e) m' → offsets_ok m start offs →
  ∃ trs, tr = concat trs ∧ attempts m m' start offs trs.
Proof.
  remember (Err e) as r eqn:Hr. intros Ht.
  induction Ht as [|m start j offs l0 e0 t tr r m' Hs He Hb Ht IH
    |m start j offs l0 e0 t trd err t' tr r m' Hs He Hb Hd Ht IH
    |m start j offs l0 e0 t trd c err t' tr r m' Hs He Hb Hd Ht IH
    |m start j offs l0 e0 t trd c s Hs He Hb Hd];
    intros Hok; simplify_eq; [by exists []; split; [|constructor]|..];
    apply offsets_ok_cons in Hok as [Hok Hfresh]; specialize (Hfresh _ Hs);
    apply (tried_unvisited _ _ _ _ _ _ l0) in Ht as Hm';
    destruct (IH eq_refl Hok) as (trs & -> & Ha); try exact Hfresh;
    try apply not_blacklisted in Hb; try apply dial_server_dialled in Hd.
  - exists ([Event TimeNow t] :: trs). split; [done|]. constructor; [|exact Ha].
    exists l0. split; [done|]. exists e0, e0. rewrite Hm'.
    split_and!; [done..|]. by apply attempt_skipped, blacklisted_spec.
  - exists ((Event TimeNow t :: trd ++ [Event TimeNow t']) :: trs).
    split; [cbn; by rewrite <- app_assoc|]. constructor.
    + exists l0. split; [done|]. eapply given_up_failed; [done|by apply (attempt_undialled _ _ _ err)|done].
    + eapply attempts_later; [|intros l' Hl'; by rewrite endpoints_failed_ne|exact Hfresh|exact Ha]. done.
  - exists ((Event TimeNow t :: trd ++
      [starts_session c (Err err); Event (ConnClose c) tt; Event TimeNow t']) :: trs).
    split; [cbn; by rewrite <- app_assoc|]. constructor.
    + exists l0. split; [done|]. eapply given_up_failed; [done|by apply attempt_unstarted|done].
    + eapply attempts_later; [|intros l' Hl'; by rewrite endpoints_failed_ne|exact Hfresh|exact Ha]. done.
Qed.

(** No call of a run leaks a connection: what it opened is closed again, or
    carries the session it returns.

    The connection that carries the session a trace ends with. *)
Definition carries (tr : list (event sysE)) (s : session) (c : conn) : Prop :=
  Event (SmuxClient (WrapObfs c DefaultObfsConfig) (smuxConfig smux_default)) (Ok s) ∈ tr.

Lemma tried_no_leak m start offs tr r m' :
  tried m start offs tr r m' →
  match r with
  | Err _ => no_leak None tr
  | Ok (s, _) => ∃ c, no_leak (Some (cn_fd c)) tr ∧ carries tr s c
  end.
Proof.
  unfold carries.
  induction 1 as [|m start j offs l0 e0 t tr r m' Hs He Hb Ht IH
    |m start j offs l0 e0 t trd err t' tr r m' Hs He Hb Hd Ht IH
    |m start j offs l0 e0 t trd c err t' tr r m' Hs He Hb Hd Ht IH
    |m start j offs l0 e0 t trd c s Hs He Hb Hd]; [done|..];
    try apply dial_server_clean in Hd.
  - destruct r as [[s srv]|]; [|by apply no_leak_silent].
    destruct IH as (c & Hc & Hin). exists c. split; [by apply no_leak_silent|set_solver].
  - destruct r as [[s srv]|].
    + destruct IH as (c & Hc & Hin). exists c. split; [|set_solver].
      apply no_leak_silent, no_leak_app; [done|by apply no_leak_weaken|by apply no_leak_silent].
    + by apply no_leak_silent, no_leak_app; [|done|apply no_leak_silent].
  - assert (∀ tr', cn_fd c ∈ closed_fds (Event (SmuxClient (WrapObfs c DefaultObfsConfig)
       (smuxConfig smux_default)) (Err err) :: Event (ConnClose c) tt :: tr')) as Hcl
      by (intros; apply list_elem_of_here).
    destruct r as [[s srv]|].
    + destruct IH as (c' & Hc & Hin). exists c'. split; [|set_solver].
      apply no_leak_silent; [done|]. by eapply no_leak_closed; [|repeat apply no_leak_silent|].
    + apply no_leak_silent; [done|]. by eapply no_leak_closed; [|repeat apply no_leak_silent|].
  - exists c. split; [|set_solver]. by apply no_leak_silent, no_leak_app.
Qed.

End tried.

(** ** The invariant *)

Record mp_wf (m : MultiPathClient) : Prop := {
  wf_nodup : NoDup (servers m);
  wf_some : servers m ≠ [];
  wf_len : Z.of_nat (length (servers m)) < 2 ^ 31;
  wf_cur : 0 <= current m < Z.of_nat (length (servers m));
  wf_servers : servers_ok m;
  wf_fail : ∀ l e, endpoints m !! l = Some e → in_int32 (failCount e);
  wf_sess : mp_session m ≠ None → ∃ l, sessionSrv m = Some l ∧ l ∈ servers m
}.

Lemma srv_of_spec m start i l :
  0 <= start + i → servers m ≠ [] → srv_of m start i = Some l →
  servers m !! Z.to_nat ((start + i) `mod` Z.of_nat (length (servers m))) = Some l.
Proof.
  intros Hi Hne Hl. unfold srv_of in Hl. rewrite Z.rem_mod_nonneg in Hl; [done|done|].
  destruct (servers m); [done|simpl; lia].
Qed.

Lemma srv_of_in m start i l : srv_of m start i = Some l → l ∈ servers m.
Proof. apply list_elem_of_lookup_2. Qed.

Lemma elem_of_offsets i n : i ∈ offsets n ↔ 0 <= i < Z.of_nat n.
Proof.
  unfold offsets. rewrite list_elem_of_fmap. split.
  - intros (k & -> & Hk%elem_of_seq). lia.
  - intros Hi. exists (Z.to_nat i). rewrite elem_of_seq. lia.
Qed.

Lemma offsets_sorted n i pre post :
  offsets n = pre ++ i :: post → pre = offsets (length pre) ∧ i = Z.of_nat (length pre).
Proof.
  intros Heq.
  assert (∀ k, (k < n)%nat → offsets n !! k = Some (Z.of_nat k)) as Hlk.
  { intros k Hk. unfold offsets. by rewrite list_lookup_fmap, lookup_seq_lt. }
  assert (length pre < n)%nat as Hlen.
  { apply (f_equal length) in Heq. unfold offsets in Heq.
    rewrite length_fmap, length_seq, length_app in Heq. simpl in Heq. lia. }
  split.
  - apply list_eq. intros k. destruct (decide (k < length pre)%nat) as [Hk|Hk].
    + specialize (Hlk k ltac:(lia)). rewrite Heq, lookup_app_l in Hlk by done.
      rewrite Hlk. unfold offsets. by rewrite list_lookup_fmap, lookup_seq_lt.
    + rewrite !lookup_ge_None_2; [done| |lia].
      unfold offsets. rewrite length_fmap, length_seq. lia.
  - specialize (Hlk (length pre) Hlen).
    rewrite Heq, list_lookup_middle in Hlk by done. by simplify_eq.
Qed.

(** Going round once from [start] visits every server exactly once. *)
Lemma srv_of_inj m start i j l :
  mp_wf m → 0 <= start < Z.of_nat (length (servers m)) →
  0 <= i < Z.of_nat (length (servers m)) → 0 <= j < Z.of_nat (length (servers m)) →
  srv_of m start i = Some l → srv_of m start j = Some l → i = j.
Proof.
  intros Hwf Hs Hi Hj Hli%srv_of_spec Hlj%srv_of_spec; try lia; try apply Hwf.
  pose proof (NoDup_lookup _ _ _ _ (wf_nodup m Hwf) Hli Hlj) as Hij.
  set (n := Z.of_nat (length (servers m))) in *.
  pose proof (Z.mod_pos_bound (start + i) n). pose proof (Z.mod_pos_bound (start + j) n).
  apply Z2Nat.inj in Hij; [|lia..].
  pose proof (Z.div_mod (start + i) n). pose proof (Z.div_mod (start + j) n).
  assert ((start + i) / n = (start + j) / n ∨ (start + i) / n ≠ (start + j) / n) as [Hq|Hq] by lia.
  - rewrite Hq in *. lia.
  - nia.
Qed.

Lemma srv_of_surj m start l :
  mp_wf m → 0 <= start < Z.of_nat (length (servers m)) → l ∈ servers m →
  ∃ i, 0 <= i < Z.of_nat (length (servers m)) ∧ srv_of m start i = Some l.
Proof.
  intros Hwf Hs [k Hk]%list_elem_of_lookup. pose proof (lookup_lt_Some _ _ _ Hk).
  set (n := Z.of_nat (length (servers m))) in *.
  assert (∃ i, 0 <= i < n ∧ (start + i) `mod` n = Z.of_nat k) as (i & Hi & Hik).
  { destruct (decide (start <= Z.of_nat k)).
    - exists (Z.of_nat k - start). split; [lia|].
      replace (start + _) with (Z.of_nat k) by lia. apply Z.mod_small. lia.
    - exists (Z.of_nat k - start + n). split; [lia|].
      replace (start + _) with (Z.of_nat k + 1 * n) by lia.
      rewrite Z.mod_add by lia. apply Z.mod_small. lia. }
  exists i. split; [done|]. unfold srv_of. fold n.
  rewrite Z.rem_mod_nonneg, Hik, Nat2Z.id by lia. done.
Qed.

Lemma offsets_ok_wf m : mp_wf m → offsets_ok m (current m) (offsets (length (servers m))).
Proof.
  intros Hwf. split.
  - unfold offsets. apply NoDup_fmap_2; [apply _|]. apply NoDup_seq.
  - intros i j l Hi%elem_of_offsets Hj%elem_of_offsets. apply srv_of_inj; [done|apply Hwf|done|done].
Qed.

Lemma mp_wf_failed m l e t :
  mp_wf m → endpoints m !! l = Some e → mp_wf (failed m l e t).
Proof.
  intros Hwf He. destruct Hwf. constructor; try done.
  - by apply servers_ok_failed.
  - intros l' e'. simpl. rewrite lookup_insert. case_decide; [|by apply wf_fail0].
    intros [= <-]. apply int32_range.
Qed.

Lemma mp_wf_connected m idx l s :
  mp_wf m → 0 <= idx < Z.of_nat (length (servers m)) → l ∈ servers m →
  mp_wf (connected m idx l s).
Proof.
  intros Hwf Hidx Hl. destruct Hwf. constructor; simpl; try done.
  - rewrite int32_small; [done|]. unfold in_int32. lia.
  - intros l' Hl'. simpl. rewrite lookup_alter. case_decide.
    + destruct (wf_servers0 l') as [e He]; [done|]. subst. rewrite He. by eexists.
    + by apply wf_servers0.
  - intros l' e'. rewrite lookup_alter. case_decide; [|by apply wf_fail0].
    intros (e0 & _ & ->)%fmap_Some. unfold in_int32. simpl. lia.
  - by exists l.
Qed.

Lemma mp_wf_no_session m : mp_wf m → mp_wf (set_session m None).
Proof. intros []. by constructor. Qed.

Lemma rem_range a n : 0 <= a → 0 < n → 0 <= Z.rem a n < n.
Proof. apply Z.rem_bound_pos. Qed.

Lemma tried_wf g d m start offs tr r m' :
  tried g d m start offs tr r m' → mp_wf m → 0 <= start → Forall (λ i, 0 <= i) offs → mp_wf m'.
Proof.
  induction 1 as [| | | |m start i offs l e t trd c s Hs He Hb Hd];
    intros Hwf Hst Hoffs; try apply Forall_cons in Hoffs as [Hi Hoffs];
    eauto using mp_wf_failed.
  apply mp_wf_connected; [done| |by eapply srv_of_in].
  apply rem_range; [lia|]. pose proof (wf_cur m Hwf). lia.
Qed.

(** [getSession] is one [SmuxIsClosed] on a live session, or a run of the loop. *)
Definition session_check (m : MultiPathClient) : list (event sysE) :=
  match mp_session m with Some s => [Event (SmuxIsClosed s) true] | None => [] end.

Lemma getSession_wp g d m :
  mp_wf m →
  wp (getSession g d m) (λ tr '(r, m'),
    (∃ s, mp_session m = Some s ∧ tr = [Event (SmuxIsClosed s) false] ∧
       r = Ok (s, sessionSrv m) ∧ m' = m) ∨
    (∃ tr', tr = session_check m ++ tr' ∧
       tried g d m (current m) (offsets (length (servers m))) tr' r m')).
Proof.
  intros Hwf. unfold getSession, session_check.
  pose proof (try_servers_wp g d m (current m) (offsets (length (servers m)))
    (wf_servers m Hwf) ltac:(apply Hwf)) as Ht.
  specialize (Ht ltac:(apply Forall_forall; intros i Hi%elem_of_offsets; lia) (wf_some m Hwf)).
  destruct (mp_session m) as [s|] eqn:Hs.
  - wp_call closed Hc. destruct closed; simpl; [|by left; exists s].
    eapply wp_mono, Ht. intros tr [r m'] Htr. right. by exists tr.
  - eapply wp_mono, Ht. intros tr [r m'] Htr. right. by exists tr.
Qed.

Lemma offsets_nonneg n : Forall (λ i, 0 <= i) (offsets n).
Proof. apply Forall_forall. intros i Hi%elem_of_offsets. lia. Qed.

Lemma getSession_wf g d m :
  mp_wf m → wp (getSession g d m) (λ tr '(r, m'), mp_wf m' ∧
    match r with
    | Ok (s, srv) => mp_session m' = Some s ∧ sessionSrv m' = srv
    | Err e => mp_session m' = mp_session m
    end).
Proof.
  intros Hwf. eapply wp_mono, getSession_wp; [|done].
  intros tr [r m'] [(s & Hs & -> & -> & ->)|(tr' & _ & Ht)]; [done|]. split.
  - eapply tried_wf; [done|done|apply Hwf|apply offsets_nonneg].
  - destruct r as [[s srv]|e]; [|apply tried_err in Ht; tauto].
    by apply tried_ok_inv in Ht as (? & ? & ? & ? & ? & ? & ? & ? & _ & _ & _ & -> & _ & _ & _ & ->).
Qed.

(** ** The contract of [getSession] *)

Section contract.
Context (g : tls_globals) (d : smux_config).

(** [m'] is [m] but for the endpoints. *)
Definition same_but_endpoints (m m' : MultiPathClient) : Prop :=
  servers m' = servers m ∧ current m' = current m ∧ mp_listen m' = mp_listen m ∧
  mp_session m' = mp_session m ∧ sessionSrv m' = sessionSrv m.

(** [l] is the server [k] places after the last good one, going round. *)
Definition server_after (m : MultiPathClient) (k : nat) (l : loc) : Prop :=
  servers m !! ((Z.to_nat (current m) + k) `mod` length (servers m))%nat = Some l.

(** The calls [tr] are attempts at the [n] servers from the last good one on, one
    after the other, which all gave up. *)
Definition round (m m' : MultiPathClient) (n : nat) (tr : list (event sysE)) : Prop :=
  ∃ trs, length trs = n ∧ tr = concat trs ∧
    ∀ k trk, trs !! k = Some trk → ∃ l, server_after m k l ∧ given_up g d m m' l trk.

(** A new session: on the server [k] places after the last good one, after
    attempts at the [k] servers before it that gave up. *)
Definition failed_over (tr : list (event sysE)) (m : MultiPathClient) (s : session)
    (l : loc) (m' : MultiPathClient) : Prop :=
  ∃ k e tr1 tr2, (k < length (servers m))%nat ∧
    server_after m k l ∧ endpoints m !! l = Some e ∧
    tr = tr1 ++ tr2 ∧ round m m' k tr1 ∧ connects g d e s tr2 ∧
    (∀ j l', (k < j < length (servers m))%nat → server_after m j l' →
       endpoints m' !! l' = endpoints m !! l') ∧
    endpoints m' !! l = Some (set_fail e 0 (lastFail e)) ∧
    mp_session m' = Some s ∧ sessionSrv m' = Some l ∧
    current m' = (current m + Z.of_nat k) `mod` Z.of_nat (length (servers m)) ∧
    servers m' = servers m ∧ mp_listen m' = mp_listen m.

Lemma server_after_srv_of m k l :
  mp_wf m → srv_of m (current m) (Z.of_nat k) = Some l ↔ server_after m k l.
Proof.
  intros Hwf. pose proof (wf_cur m Hwf). unfold srv_of, server_after.
  rewrite Z.rem_mod_nonneg by lia. rewrite Z2Nat.inj_mod, Z2Nat.inj_add, !Nat2Z.id by lia. done.
Qed.

Lemma attempts_round m m' n trs :
  mp_wf m → attempts g d m m' (current m) (offsets n) trs → round m m' n (concat trs).
Proof.
  intros Hwf Ha. exists trs. split_and!; [|done|].
  - apply Forall2_length in Ha as <-. unfold offsets. by rewrite length_fmap, length_seq.
  - intros k trk Hk. destruct (Forall2_lookup_r _ _ _ _ _ Ha Hk) as (i & Hi & l & Hl & Hg).
    apply list_lookup_fmap_Some in Hi as (j & -> & [-> _]%lookup_seq).
    exists l. split; [by apply server_after_srv_of|done].
Qed.

Lemma round_same m m1 m2 n tr :
  (∀ k l, (k < n)%nat → server_after m k l → endpoints m1 !! l = endpoints m2 !! l) →
  round m m1 n tr → round m m2 n tr.
Proof.
  intros He (trs & Hlen & -> & Ha). exists trs. split_and!; [done..|]. intros k trk Hk.
  destruct (Ha k trk Hk) as (l & Hl & Hg). exists l. split; [done|].
  eapply given_up_same; [done| |exact Hg]. symmetry. apply (He k); [|done].
  rewrite <- Hlen. by eapply lookup_lt_Some.
Qed.

Lemma connected_at_failed_over m tr s srv m' :
  mp_wf m → connected_at g d m (current m) (offsets (length (servers m))) tr s srv m' →
  ∃ l, srv = Some l ∧ failed_over tr m s l m'.
Proof.
  intros Hwf (pre & i & post & m1 & tr1 & tr2 & l & e & Hoffs & Ht & Hi & -> & He & Hc & -> & ->).
  pose proof (offsets_ok_wf m Hwf) as Hok. rewrite Hoffs in Hok.
  pose proof (offsets_sorted _ _ _ _ Hoffs) as [Hpre ->]. set (k := length pre) in *.
  assert (k < length (servers m))%nat as Hin.
  { enough (Z.of_nat k ∈ offsets (length (servers m))) by (apply elem_of_offsets in H; lia).
    rewrite Hoffs. set_solver. }
  pose proof (wf_cur m Hwf) as Hcur. pose proof (wf_len m Hwf) as Hlen.
  assert (offsets_ok m (current m) pre) as Hokpre.
  { destruct Hok as [Hnd Hinj]. split; [apply NoDup_app in Hnd; tauto|].
    intros j j' l' Hj Hj'. apply Hinj; set_solver. }
  assert (∀ j l', srv_of m (current m) (Z.of_nat j) = Some l' → (j < length (servers m))%nat →
    j ≠ k → l' ≠ l) as Hne
    by (intros j l' Hj Hjr Hjk ->; apply Hjk, Nat2Z.inj; by eapply (srv_of_inj m (current m)); [done|lia..| |]).
  assert (∀ j l', srv_of m (current m) (Z.of_nat j) = Some l' → (k <= j < length (servers m))%nat →
    endpoints m1 !! l' = endpoints m !! l') as Hlater.
  { intros j l' Hj Hjr. apply (tried_unvisited _ _ _ _ _ _ _ _ _ Ht).
    intros j' Hj' Hl'. rewrite Hpre, elem_of_offsets in Hj'.
    enough (Z.of_nat j = j') by lia. by eapply (srv_of_inj m (current m)); [done|lia..| |]. }
  apply (tried_err g d) in Ht as Hsame. destruct Hsame as (_ & Hsrv & Hcu & Hli & Hse & Hss).
  destruct (tried_attempts _ _ _ _ _ _ _ _ Ht Hokpre) as (trs & -> & Ha).
  exists l. split; [done|]. exists k, e, (concat trs), tr2.
  rewrite <- (Hlater k l) by (done || lia).
  split_and!; try done; try lia; simpl.
  - by apply server_after_srv_of.
  - apply (round_same _ m1); [|rewrite Hpre in Ha; by apply attempts_round].
    intros j l' Hj Hl'%server_after_srv_of; [|done]. cbn.
    rewrite lookup_alter_ne; [done|]. intros <-. apply (Hne j l); [done|lia|lia|done].
  - intros j l' Hj Hl'%server_after_srv_of; [|done].
    rewrite lookup_alter_ne by (intros <-; eapply (Hne j); [done|lia..|done]).
    apply (Hlater j); [done|lia].
  - by rewrite lookup_alter_eq, He.
  - rewrite Z.rem_mod_nonneg by lia. apply int32_small.
    pose proof (Z.mod_pos_bound (current m + Z.of_nat k) (Z.of_nat (length (servers m)))).
    unfold in_int32. lia.
Qed.

(** C2. Failover: a session that is open is handed out, without any other call.
    When there is none, or it is found closed, the servers are tried one after
    the other, each once, cyclically from the last good one.  A server is left
    alone when its last failure, the third at least, is less than 30 seconds
    ago; otherwise it is dialled with its own parameters and a session started
    on the padded connection; when either fails the failure is counted and its
    time kept, and a connection is closed.  The first server with a session
    becomes the current one, with its failure count cleared; the servers after
    it are not touched.  When all have been given up on, and only then, the
    call fails, with [errAllServersDown], and has changed nothing but the
    endpoints.  It never indexes out of range. *)
Theorem getSession_failover m :
  mp_wf m → wp (getSession g d m) (λ tr '(r, m'),
    match r with
    | Ok (s, srv) =>
      (mp_session m = Some s ∧ srv = sessionSrv m ∧ m' = m ∧
       tr = [Event (SmuxIsClosed s) false]) ∨
      (∃ l tr', srv = Some l ∧ tr = session_check m ++ tr' ∧ failed_over tr' m s l m')
    | Err e =>
      e = ErrAllServersDown ∧ same_but_endpoints m m' ∧
      ∃ tr', tr = session_check m ++ tr' ∧ round m m' (length (servers m)) tr'
    end).
Proof.
  intros Hwf. eapply wp_mono, getSession_wp; [|done].
  intros tr [r m'] [(s & Hs & -> & -> & ->)|(tr' & -> & Ht)]; [by left|].
  destruct r as [[s srv]|e].
  - right. apply tried_ok_inv, connected_at_failed_over in Ht as (l & -> & Ht); [|done].
    by exists l, tr'.
  - pose proof (tried_err _ _ _ _ _ _ _ _ Ht) as [-> Hsame].
    split; [done|]. split; [done|]. exists tr'. split; [done|].
    destruct (tried_attempts _ _ _ _ _ _ _ _ Ht (offsets_ok_wf m Hwf)) as (trs & -> & Ha).
    by apply attempts_round.
Qed.

(** C25. No connection leaks: every connection [getSession] opens to a server
    is closed again before it returns, except the one that carries the
    session it hands out. *)
Theorem getSession_no_leak m :
  mp_wf m → wp (getSession g d m) (λ tr '(r, m'),
    match r with
    | Ok (s, _) => no_leak None tr ∨ ∃ c, no_leak (Some (cn_fd c)) tr ∧ carries d tr s c
    | Err _ => no_leak None tr
    end).
Proof.
  intros Hwf. eapply wp_mono, getSession_wp; [|done].
  intros tr [r m'] [(s & Hs & -> & -> & ->)|(tr' & -> & Ht)]; [by left|].
  assert (∀ keep, no_leak keep tr' → no_leak keep (session_check m ++ tr')) as Hcheck
    by (intros; unfold session_check; destruct (mp_session m); [by apply no_leak_silent|done]).
  apply tried_no_leak in Ht. destruct r as [[s srv]|]; [|by apply Hcheck].
  destruct Ht as (c & Hc & Hin). right. exists c. split; [by apply Hcheck|].
  unfold carries in *. set_solver.
Qed.

(** The circuit breaker keeps a run from dialling. *)
Lemma tried_breaker m start offs tr r m' T :
  tried g d m start offs tr r m' →
  (∀ l e, l ∈ servers m → endpoints m !! l = Some e → 3 <= failCount e ∧ T <= lastFail e) →
  (∀ t, Event TimeNow t ∈ tr → t < T + 30 * second) →
  r = Err ErrAllServersDown ∧ m' = m ∧ Forall (λ ev, ∃ t, ev = Event TimeNow t) tr.
Proof.
  intros Ht Hcount Htime.
  assert (∀ l e t, l ∈ servers m → endpoints m !! l = Some e → t < T + 30 * second →
    blacklisted e t = true) as Hb.
  { intros l e t Hl He Hlt. destruct (Hcount l e Hl He). unfold blacklisted.
    apply andb_true_iff. split; [|lia]. apply Z.ltb_lt, time_sub_lt; [|lia].
    unfold second, millisecond. lia. }
  induction Ht as [|m start i offs l e t tr r m' Hs He Hbl Ht IH|m start i offs l e t|
    m start i offs l e t|m start i offs l e t]; [done|..].
  - destruct IH as (-> & -> & Htr); [done| |done|].
    { intros t' Ht'. apply Htime. by right. }
    split_and!; [done..|]. constructor; [by exists t|done].
  - specialize (Hb l e t). rewrite Hb in *; [done|by eapply srv_of_in|done|].
    apply Htime. left.
  - specialize (Hb l e t). rewrite Hb in *; [done|by eapply srv_of_in|done|].
    apply Htime. left.
  - specialize (Hb l e t). rewrite Hb in *; [done|by eapply srv_of_in|done|].
    apply Htime. left.
Qed.

(** C24. Circuit breaker: when every server has failed at least three times and
    none of the last failures is older than 30 seconds on any clock reading of
    the call, [getSession] without a session fails with [errAllServersDown]
    after reading the clock only: it dials nobody and changes nothing. *)
Theorem getSession_breaker m T :
  mp_wf m → mp_session m = None →
  (∀ l e, l ∈ servers m → endpoints m !! l = Some e → 3 <= failCount e ∧ T <= lastFail e) →
  wp (getSession g d m) (λ tr '(r, m'),
    (∀ t, Event TimeNow t ∈ tr → t < T + 30 * second) →
    r = Err ErrAllServersDown ∧ m' = m ∧ Forall (λ ev, ∃ t, ev = Event TimeNow t) tr).
Proof.
  intros Hwf Hs Hcount. eapply wp_mono, getSession_wp; [|done].
  intros tr [r m'] [(s & Hs' & _)|(tr' & -> & Ht)] Htime; [congruence|].
  unfold session_check in *. rewrite Hs in *. by eapply tried_breaker.
Qed.

(** ** One connection *)

Lemma markFailed_wp m l :
  mp_wf m → l ∈ servers m →
  wp (markFailed m l) (λ tr m', ∃ e t, endpoints m !! l = Some e ∧
    m' = set_session (failed m l e t) None ∧
    tr = Event TimeNow t ::
      match mp_session m with Some s => [Event (SmuxClose s) tt] | None => [] end).
Proof.
  intros Hm Hl. destruct (wf_servers m Hm l Hl) as [e He]. unfold markFailed.
  apply (markFailedLocked_wp _ _ e); [done|]. intros t. simpl.
  destruct (mp_session m) as [s|] eqn:Hs; [wp_call u Hu; destruct u|];
    (exists e, t; split_and!; [done| |done]); [done|].
  unfold set_session, failed, set_endpoint. simpl. by rewrite Hs.
Qed.

(** How a connection ends that has been given the session [s] of the server [l]:
    on a stream of the session, or closed, the session with it, and the failure
    counted. *)
Definition conn_ends (client : conn) (s : session) (l : loc) (m1 : MultiPathClient)
    (tr : list (event sysE)) (m' : MultiPathClient) : Prop :=
  (∃ st, tr = [Event (SmuxOpenStream s) (Ok st); Event (Pipe (PConn client) (PStream st)) tt] ∧ m' = m1) ∨
  (∃ err t e, tr = [Event (SmuxOpenStream s) (Err err); Event TimeNow t; Event (SmuxClose s) tt;
                    Event (ConnClose client) tt] ∧
     endpoints m1 !! l = Some e ∧
     endpoints m' = <[l := set_fail e (int32 (failCount e + 1)) t]> (endpoints m1) ∧
     mp_session m' = None ∧ servers m' = servers m1 ∧ current m' = current m1).

(** C12. Every local connection is carried or closed: [handleConn] asks for a
    session; without one it closes the connection; with one it opens a stream
    on exactly that session, and carries the connection on it; when there is no
    stream, it counts a failure of the server of that session at the time then
    read, closes the session, so that the next connection dials again, and
    closes the connection.  It never panics, and these are its last calls. *)
Theorem handleConn_serves m client :
  mp_wf m → wp (handleConn g d m client) (λ tr m',
    (∃ tr0 e, runs (getSession g d m) tr0 (Err e, m') ∧
       tr = tr0 ++ [Event (ConnClose client) tt]) ∨
    (∃ tr0 s l m1 tr1, runs (getSession g d m) tr0 (Ok (s, Some l), m1) ∧ l ∈ servers m1 ∧
       tr = tr0 ++ tr1 ∧ conn_ends client s l m1 tr1 m')).
Proof.
  intros Hwf. unfold handleConn. apply wp_bind.
  eapply wp_mono, wp_self, getSession_wf; [|done]. intros tr0 [r m1] [Hr [Hwf1 Hsess]].
  destruct r as [[s srv]|e]; [|wp_call u Hu; destruct u; left; by exists tr0, e].
  destruct Hsess as [Hs <-]. destruct (wf_sess m1 Hwf1) as (l & Hl & Hin); [by rewrite Hs|].
  rewrite Hl in *. apply (wp_mono _ (λ tr1 m', conn_ends client s l m1 tr1 m')).
  { intros tr1 m' He. right. by exists tr0, s, l, m1, tr1. }
  wp_call st Hst. destruct st as [st|err]; [wp_call u Hu; destruct u; left; by exists st|].
  apply wp_bind. eapply wp_mono, markFailed_wp; [|done..].
  intros tr m' (e & t & He & -> & ->). rewrite Hs. wp_call u Hu. destruct u. right. by exists err, t, e.
Qed.

End contract.

(** ** Examples *)

Definition demo_endpoint (addr : string) (n : Z) : ServerEndpoint := {|
  Address := addr; SNI := "example.com"; Transport := ""; WSPath := "/"; WSHost := "";
  WSTLS := true; failCount := n; lastFail := 100 * second
|}.

Definition demo_client (n : Z) : MultiPathClient :=
  NewMultiPathClient "127.0.0.1:1080" [0%nat; 1%nat]
    {[0%nat := demo_endpoint "10.0.0.1:443" n; 1%nat := demo_endpoint "10.0.0.2:443" n]}.

Definition demo_globals : tls_globals := {| useUTLS := false; fragSize := 0 |}.

Definition demo_smux : smux_config := {|
  Version := 1; KeepAliveDisabled := false; KeepAliveInterval := 10 * second;
  KeepAliveTimeout := 30 * second; MaxFrameSize := 32768; MaxReceiveBuffer := 4194304;
  MaxStreamBuffer := 65536
|}.

Lemma demo_endpoints n l e :
  endpoints (demo_client n) !! l = Some e → failCount e = n ∧ lastFail e = 100 * second.
Proof.
  simpl. rewrite lookup_insert_Some, lookup_singleton_Some.
  by intros [[_ <-]|[_ [_ <-]]].
Qed.

Lemma demo_wf n : in_int32 n → mp_wf (demo_client n).
Proof.
  intros Hn. constructor; simpl; try done.
  - apply (bool_decide_unpack _). by vm_compute.
  - intros l Hl. apply elem_of_cons in Hl as [->|Hl]; [by eexists|].
    apply list_elem_of_singleton in Hl as ->. by eexists.
  - intros l e He. by apply (demo_endpoints n) in He as [-> _].
Qed.

Lemma getSession_failover_witness :
  mp_wf (demo_client 0) ∧ wp (getSession demo_globals demo_smux (demo_client 0)) (λ tr '(r, m'),
    match r with
    | Ok (s, srv) =>
      (mp_session (demo_client 0) = Some s ∧ srv = sessionSrv (demo_client 0) ∧
       m' = demo_client 0 ∧ tr = [Event (SmuxIsClosed s) false]) ∨
      (∃ l tr', srv = Some l ∧ tr = session_check (demo_client 0) ++ tr' ∧
        failed_over demo_globals demo_smux tr' (demo_client 0) s l m')
    | Err e =>
      e = ErrAllServersDown ∧ same_but_endpoints (demo_client 0) m' ∧
      ∃ tr', tr = session_check (demo_client 0) ++ tr' ∧
        round demo_globals demo_smux (demo_client 0) m' 2 tr'
    end).
Proof.
  split; [by apply demo_wf|]. apply (getSession_failover demo_globals demo_smux), demo_wf. done.
Defined.

Lemma getSession_no_leak_witness :
  mp_wf (demo_client 0) ∧ wp (getSession demo_globals demo_smux (demo_client 0)) (λ tr '(r, m'),
    match r with
    | Ok (s, _) => no_leak None tr ∨ ∃ c, no_leak (Some (cn_fd c)) tr ∧ carries demo_smux tr s c
    | Err _ => no_leak None tr
    end).
Proof.
  split; [by apply demo_wf|]. apply (getSession_no_leak demo_globals demo_smux), demo_wf. done.
Defined.

Lemma handleConn_serves_witness :
  let m := demo_client 0 in
  let client := {| cn_fd := 9; cn_layers := [] |} in
  mp_wf m ∧ wp (handleConn demo_globals demo_smux m client) (λ tr m',
    (∃ tr0 e, runs (getSession demo_globals demo_smux m) tr0 (Err e, m') ∧
       tr = tr0 ++ [Event (ConnClose client) tt]) ∨
    (∃ tr0 s l m1 tr1, runs (getSession demo_globals demo_smux m) tr0 (Ok (s, Some l), m1) ∧
       l ∈ servers m1 ∧ tr = tr0 ++ tr1 ∧ conn_ends client s l m1 tr1 m')).
Proof.
  intros m client. split; [by apply demo_wf|].
  apply (handleConn_serves demo_globals demo_smux), demo_wf. done.
Defined.

Lemma getSession_breaker_witness :
  mp_wf (demo_client 3) ∧ mp_session (demo_client 3) = None ∧
  wp (getSession demo_globals demo_smux (demo_client 3)) (λ tr '(r, m'),
    (∀ t, Event TimeNow t ∈ tr → t < 100 * second + 30 * second) →
    r = Err ErrAllServersDown ∧ m' = demo_client 3 ∧
    Forall (λ ev, ∃ t, ev = Event TimeNow t) tr).
Proof.
  split; [by apply demo_wf|]. split; [done|].
  apply (getSession_breaker demo_globals demo_smux _ (100 * second)); [by apply demo_wf|done|].
  intros l e _ [-> ->]%demo_endpoints. lia.
Defined.
