(* ===== verification/MultiPathRun.v ===== *)
(** * multipath.go: the running client

    [Run] starts one goroutine per accepted connection, and all of them share
    the [MultiPathClient].  [getSession] and [markFailed] hold its mutex, so
    an execution is an interleaving of those two operations and of the calls
    the goroutines make between them.  The step relation below has one
    transition for each. *)

From S2P Require Import Prelude Effects Net Stream Obfs TlsTransport WsTransport TunnelConfig MultiPath.

(** Where the goroutine of an accepted connection is. *)
Inductive handler :=
| HNew (client : conn)
| HSession (client : conn) (s : session) (srv : option loc)
| HFailed (client : conn) (srv : option loc)
| HStream (client : conn) (st : stream)
| HDone.

Record proxy := {
  px_client : MultiPathClient;
  px_handlers : gmap nat handler
}.

Section run.
Context (g : tls_globals) (d : smux_config).

Definition set_handler (p : proxy) (h : nat) (st : handler) : proxy :=
  {| px_client := px_client p; px_handlers := <[h := st]> (px_handlers p) |}.

Inductive px_step : proxy → list (event sysE) → proxy → Prop :=
| px_accept p h client :
    px_handlers p !! h = None →
    px_step p [] (set_handler p h (HNew client))
| px_session p h client tr s srv m' :
    px_handlers p !! h = Some (HNew client) →
    runs (getSession g d (px_client p)) tr (Ok (s, srv), m') →
    px_step p tr (set_handler {| px_client := m'; px_handlers := px_handlers p |} h
                    (HSession client s srv))
| px_no_session p h client tr e m' :
    px_handlers p !! h = Some (HNew client) →
    runs (getSession g d (px_client p)) tr (Err e, m') →
    px_step p (tr ++ [Event (ConnClose client) tt])
      (set_handler {| px_client := m'; px_handlers := px_handlers p |} h HDone)
| px_stream p h client s srv st :
    px_handlers p !! h = Some (HSession client s srv) →
    px_step p [Event (SmuxOpenStream s) (Ok st)] (set_handler p h (HStream client st))
| px_no_stream p h client s srv e :
    px_handlers p !! h = Some (HSession client s srv) →
    px_step p [Event (SmuxOpenStream s) (Err e)] (set_handler p h (HFailed client srv))
| px_mark p h client l tr m' :
    px_handlers p !! h = Some (HFailed client (Some l)) →
    runs (markFailed (px_client p) l) tr m' →
    px_step p (tr ++ [Event (ConnClose client) tt])
      (set_handler {| px_client := m'; px_handlers := px_handlers p |} h HDone)
| px_pipe p h client st :
    px_handlers p !! h = Some (HStream client st) →
    px_step p [Event (Pipe (PConn client) (PStream st)) tt] (set_handler p h HDone).

Inductive px_steps : proxy → list (event sysE) → proxy → Prop :=
| px_refl p : px_steps p [] p
| px_trans p p' p'' tr tr' : px_step p tr p' → px_steps p' tr' p'' → px_steps p (tr ++ tr') p''.

Lemma px_one p tr p' : px_step p tr p' → px_steps p tr p'.
Proof. intros Hp. rewrite <- (app_nil_r tr). by eapply px_trans; [|apply px_refl]. Qed.

Lemma px_two p tr p' tr' p'' : px_step p tr p' → px_step p' tr' p'' → px_steps p (tr ++ tr') p''.
Proof. intros Hp Hp'. by eapply px_trans, px_one. Qed.

(** What a goroutine holds on to. *)
Definition handler_ok (m : MultiPathClient) (st : handler) : Prop :=
  match st with
  | HSession _ _ srv | HFailed _ srv => ∃ l, srv = Some l ∧ l ∈ servers m
  | _ => True
  end.

Definition px_ok (p : proxy) : Prop :=
  mp_wf (px_client p) ∧ map_Forall (λ _ st, handler_ok (px_client p) st) (px_handlers p).

Lemma handler_ok_servers m m' st : servers m' = servers m → handler_ok m st → handler_ok m' st.
Proof. intros Hm. destruct st; simpl; by rewrite ?Hm. Qed.

Lemma px_ok_set p m h st :
  px_ok p → mp_wf m → servers m = servers (px_client p) → handler_ok m st →
  px_ok (set_handler {| px_client := m; px_handlers := px_handlers p |} h st).
Proof.
  intros [_ Hh] Hm Hs Hst. split; [done|]. apply map_Forall_insert_2; [done|].
  intros k st' Hk. by eapply handler_ok_servers, (Hh k).
Qed.

Lemma tried_servers m start offs tr r m' :
  tried g d m start offs tr r m' → servers m' = servers m.
Proof. by induction 1. Qed.

Lemma getSession_ok m :
  mp_wf m → wp (getSession g d m) (λ _ '(r, m'), mp_wf m' ∧ servers m' = servers m ∧
    match r with Ok (s, srv) => ∃ l, srv = Some l ∧ l ∈ servers m' | Err _ => True end).
Proof.
  intros Hm. eapply wp_mono, wp_and; [|by apply getSession_wp|by apply getSession_wf].
  intros tr [r m'] [Hr [Hwf Hs]].
  assert (servers m' = servers m) as Hsrv
    by (destruct Hr as [(s & _ & _ & _ & ->)|(tr' & _ & Ht)]; [done|by eapply tried_servers]).
  split_and!; [done..|]. destruct r as [[s srv]|]; [|done]. destruct Hs as [Hs <-].
  apply (wf_sess m' Hwf). by rewrite Hs.
Qed.

Lemma mp_wf_marked m l e t :
  mp_wf m → endpoints m !! l = Some e → mp_wf (set_session (failed m l e t) None).
Proof. intros. by apply mp_wf_no_session, mp_wf_failed. Qed.

Lemma px_step_ok p tr p' :
  px_ok p → px_step p tr p' → px_ok p' ∧ servers (px_client p') = servers (px_client p).
Proof.
  intros Hp Hstep. pose proof Hp as [Hm Hh]. destruct Hstep as
    [p h client Hnew|p h client tr s srv m' Hst Hr|p h client tr e m' Hst Hr
    |p h client s srv st Hst|p h client s srv e Hst|p h client l tr m' Hst Hr|p h client st Hst];
    destruct p as [m hs]; simpl in *.
  - split; [|done]. by apply (px_ok_set {| px_client := m; px_handlers := hs |}).
  - apply (wp_runs _ _ _ _ (getSession_ok m Hm)) in Hr as (Hwf & Hs & l & -> & Hl).
    split; [|done]. apply (px_ok_set {| px_client := m; px_handlers := hs |}); [done..|]. by exists l.
  - apply (wp_runs _ _ _ _ (getSession_ok m Hm)) in Hr as (Hwf & Hs & _).
    split; [|done]. by apply (px_ok_set {| px_client := m; px_handlers := hs |}).
  - split; [|done]. by apply (px_ok_set {| px_client := m; px_handlers := hs |}).
  - split; [|done]. apply (px_ok_set {| px_client := m; px_handlers := hs |}); [done..|].
    apply (Hh _ _ Hst).
  - destruct (Hh _ _ Hst) as (l' & [= <-] & Hl).
    apply (wp_runs _ _ _ _ (markFailed_wp m l Hm Hl)) in Hr as (e & t & He & -> & _).
    split; [|done]. apply (px_ok_set {| px_client := m; px_handlers := hs |}); [done| |done..].
    by apply mp_wf_marked.
  - split; [|done]. by apply (px_ok_set {| px_client := m; px_handlers := hs |}).
Qed.

Lemma px_steps_ok p tr p' :
  px_steps p tr p' → px_ok p → px_ok p' ∧ servers (px_client p') = servers (px_client p).
Proof.
  induction 1 as [|p p' p'' tr tr' Hs Hss IH]; intros Hp; [done|].
  apply px_step_ok in Hs as [Hp' Heq]; [|done]. rewrite <- Heq. by apply IH.
Qed.

(** The client as [NewMultiPathClient] makes it, before any connection. *)
Definition px_init (listen : string) (servers : list loc)
    (endpoints : gmap loc ServerEndpoint) : proxy :=
  {| px_client := NewMultiPathClient listen servers endpoints; px_handlers := ∅ |}.

(** What the goroutine does next, when it uses the client. *)
Definition next_op (p : proxy) (st : handler) : prog sysE unit :=
  match st with
  | HNew _ => _ ← getSession g d (px_client p); mret tt
  | HFailed _ (Some l) => _ ← markFailed (px_client p) l; mret tt
  | HFailed _ None => Vis (GoPanic "nil pointer dereference") (λ x : Empty_set, match x with end)
  | _ => mret tt
  end.

Lemma next_op_wp p h st :
  px_ok p → px_handlers p !! h = Some st → wp (next_op p st) (λ _ _, True).
Proof.
  intros [Hm Hh] Hst. specialize (Hh _ _ Hst). destruct st as [c| |c srv| |]; simpl; try done.
  - apply wp_bind. by eapply wp_mono, getSession_wp.
  - destruct Hh as (l & -> & Hl). apply wp_bind. by eapply wp_mono, markFailed_wp.
Qed.

(** C3. Whatever connections arrive and however their goroutines interleave,
    the client stays well formed: the current index stays in range, the list
    of servers never changes, every session has its server, and no goroutine
    can panic in [getSession] or [markFailed] or on the server it reports. *)
Theorem px_invariant listen srvs eps tr p :
  mp_wf (NewMultiPathClient listen srvs eps) → px_steps (px_init listen srvs eps) tr p →
  mp_wf (px_client p) ∧ servers (px_client p) = srvs ∧
  ∀ h st, px_handlers p !! h = Some st →
    handler_ok (px_client p) st ∧ wp (next_op p st) (λ _ _, True).
Proof.
  intros Hwf Hs. apply px_steps_ok in Hs as [Hp Heq].
  - split; [apply Hp|]. split; [done|]. intros h st Hst.
    split; [by apply Hp in Hst|by eapply next_op_wp].
  - split; [done|]. apply map_Forall_empty.
Qed.

(** The system in which goroutine [h] is at [st] and the others at [hs]. *)
Definition at_handler (m : MultiPathClient) (hs : gmap nat handler) (h : nat) (st : handler) : proxy :=
  {| px_client := m; px_handlers := <[h := st]> hs |}.

Lemma at_set m hs h st st' :
  set_handler {| px_client := m; px_handlers := <[h := st']> hs |} h st = at_handler m hs h st.
Proof. unfold set_handler, at_handler. simpl. by rewrite insert_insert_eq. Qed.

(** [handleConn], run without interruption, is an execution of the step
    relation that takes the goroutine from its start to its end: the sequential
    code refines the interleaved system. *)
Theorem handleConn_refines m hs h client tr m' :
  runs (handleConn g d m client) tr m' →
  px_steps (at_handler m hs h (HNew client)) tr (at_handler m' hs h HDone).
Proof.
  unfold handleConn. intros (trg & tr2 & [r m1] & -> & Hg & Hr)%runs_bind.
  destruct r as [[s srv]|e].
  2:{ apply runs_trigger in Hr as ([] & ? & _ & -> & [-> ->]). rewrite <- (at_set m1 hs h _ (HNew client)).
      apply px_one, (px_no_session (at_handler m hs h (HNew client)) h client _ e);
        [apply lookup_insert_eq|done]. }
  apply runs_trigger in Hr as (st & tr3 & _ & -> & Hr).
  apply (px_trans _ (at_handler m1 hs h (HSession client s srv))).
  { rewrite <- (at_set m1 hs h _ (HNew client)).
    apply (px_session (at_handler m hs h (HNew client))); [apply lookup_insert_eq|done]. }
  change (Event (SmuxOpenStream s) st :: tr3) with ([Event (SmuxOpenStream s) st] ++ tr3).
  destruct st as [st|e].
  - apply runs_trigger in Hr as ([] & ? & _ & -> & [-> ->]).
    rewrite <- (at_set m1 hs h HDone (HStream client st)).
    eapply px_two; [|apply (px_pipe (at_handler m1 hs h (HStream client st))), lookup_insert_eq].
    rewrite <- (at_set m1 hs h (HStream client st) (HSession client s srv)).
    apply (px_stream (at_handler m1 hs h (HSession client s srv)) h client s srv), lookup_insert_eq.
  - destruct srv as [l|]; [|by destruct Hr as ([] & _)].
    change (runs (markFailed m1 l ≫= λ m2, _ ← trigger (ConnClose client); mret m2) tr3 m') in Hr.
    apply runs_bind in Hr as (trm & tr4 & m2 & -> & Hmark & Hr).
    apply runs_trigger in Hr as ([] & ? & _ & -> & [-> ->]).
    rewrite <- (at_set m2 hs h HDone (HFailed client (Some l))).
    eapply px_two;
      [|apply (px_mark (at_handler m1 hs h (HFailed client (Some l))) h client l); [apply lookup_insert_eq|done]].
    rewrite <- (at_set m1 hs h (HFailed client (Some l)) (HSession client s (Some l))).
    apply (px_no_stream (at_handler m1 hs h (HSession client s (Some l))) h client s (Some l)),
      lookup_insert_eq.
Qed.

(** A run of a program in the scripted world is one of its runs. *)
Lemma scripted_run {A} (p : prog sysE A) s tr a s' :
  run scripted p s = Some (tr, a, s') → runs p tr a.
Proof. apply run_runs, scripted_ok. Qed.

Definition demo_script (bs : list bool) (n : nat) : script :=
  {| sc_ok := bs; sc_clock := 1000 * second; sc_next := n |}.

(** ** Executions

    A schedule says which goroutine moves next; the scripted world answers. *)
Inductive action :=
| Accept (h : nat) (client : conn)
| Advance (h : nat).

Definition px_exec1 (a : action) (p : proxy) (w : script)
    : option (list (event sysE) * proxy * script) :=
  match a with
  | Accept h client =>
    match px_handlers p !! h with
    | None => Some ([], set_handler p h (HNew client), w)
    | Some _ => None
    end
  | Advance h =>
    match px_handlers p !! h with
    | Some (HNew client) =>
      '(tr, (r, m'), w') ← run scripted (getSession g d (px_client p)) w;
      let p' := {| px_client := m'; px_handlers := px_handlers p |} in
      match r with
      | Ok (s, srv) => Some (tr, set_handler p' h (HSession client s srv), w')
      | Err _ => Some (tr ++ [Event (ConnClose client) tt], set_handler p' h HDone, w')
      end
    | Some (HSession client s srv) =>
      '(r, w') ← scripted _ (SmuxOpenStream s) w;
      Some ([Event (SmuxOpenStream s) r],
        set_handler p h (match r with Ok st => HStream client st | Err _ => HFailed client srv end), w')
    | Some (HFailed client (Some l)) =>
      '(tr, m', w') ← run scripted (markFailed (px_client p) l) w;
      Some (tr ++ [Event (ConnClose client) tt],
        set_handler {| px_client := m'; px_handlers := px_handlers p |} h HDone, w')
    | Some (HStream client st) => Some ([Event (Pipe (PConn client) (PStream st)) tt], set_handler p h HDone, w)
    | _ => None
    end
  end.

Fixpoint px_exec (sched : list action) (p : proxy) (w : script)
    : option (list (event sysE) * proxy * script) :=
  match sched with
  | [] => Some ([], p, w)
  | a :: sched' =>
    '(tr, p', w') ← px_exec1 a p w;
    '(tr', p'', w'') ← px_exec sched' p' w';
    Some (tr ++ tr', p'', w'')
  end.

Lemma px_exec1_sound a p w tr p' w' : px_exec1 a p w = Some (tr, p', w') → px_step p tr p'.
Proof.
  destruct a as [h client|h]; simpl.
  - destruct (px_handlers p !! h) eqn:Hh; [done|]. intros [= <- <- <-]. by constructor.
  - destruct (px_handlers p !! h) as [[client|client s srv|client [l|]|client st|]|] eqn:Hh; try done.
    + destruct (run _ _ _) as [[[tr1 [[[s srv]|e] m']] w1]|] eqn:Hr; simpl; try done;
        intros [= <- <- <-]; apply scripted_run in Hr; by econstructor.
    + unfold sc_gives. destruct (sc_pop w) as [[|] w1]; simpl; intros [= <- <- <-]; by econstructor.
    + destruct (run _ _ _) as [[[tr1 m'] w1]|] eqn:Hr; simpl; try done.
      intros [= <- <- <-]. apply scripted_run in Hr. by econstructor.
    + intros [= <- <- <-]. by constructor.
Qed.

Lemma px_exec_sound sched p w tr p' w' : px_exec sched p w = Some (tr, p', w') → px_steps p tr p'.
Proof.
  revert p w tr. induction sched as [|a sched IH]; intros p w tr; simpl.
  - intros [= <- <- <-]. constructor.
  - destruct (px_exec1 a p w) as [[[tr1 p1] w1]|] eqn:H1; simpl; [|done].
    destruct (px_exec sched p1 w1) as [[[tr2 p2] w2]|] eqn:H2; simpl; [|done].
    intros [= <- <- <-]. apply px_exec1_sound in H1. by eapply px_trans, IH.
Qed.

End run.

(** ** Examples *)

Definition demo_conn (n : nat) : conn := {| cn_fd := n; cn_layers := [] |}.

Lemma handleConn_refines_witness :
  ∃ tr m', runs (handleConn demo_globals demo_smux (demo_client 0) (demo_conn 7)) tr m' ∧
    px_steps demo_globals demo_smux (at_handler (demo_client 0) ∅ 0 (HNew (demo_conn 7))) tr
      (at_handler m' ∅ 0 HDone) ∧ current m' = 1.
Proof.
  assert (∃ tr m' s', run scripted (handleConn demo_globals demo_smux (demo_client 0) (demo_conn 7))
    (demo_script [false; true] 50) = Some (tr, m', s') ∧ current m' = 1)
    as (tr & m' & s' & Hr & Hc) by (vm_compute; by eexists _, _, _).
  apply scripted_run in Hr. exists tr, m'. split; [done|]. split; [|done].
  by apply (handleConn_refines demo_globals demo_smux).
Defined.

(** Two goroutines get the session of the first server and fail to open a
    stream on it; the first of them reports it, and a third one connects to
    the second server. *)
Definition stale_schedule : list action :=
  [Accept 0 (demo_conn 7); Advance 0; Accept 1 (demo_conn 8); Advance 1; Advance 0; Advance 1;
   Advance 0; Accept 2 (demo_conn 9); Advance 2].

Definition stale_script : script := demo_script [true; true; true; false; false; false; true; true] 50.

(** What the goroutines of a state have, and the state of its client. *)
Definition px_view (p : proxy) : list (option (option session * option loc)) :=
  (λ h, match px_handlers p !! h with
        | Some (HSession _ s srv) => Some (Some s, srv)
        | Some (HFailed _ srv) => Some (None, srv)
        | _ => None
        end) <$> [0; 1; 2]%nat.

(** Three connections, of which one waits to report a failed server and one has a
    session on the other. *)
Lemma px_invariant_witness :
  mp_wf (NewMultiPathClient "127.0.0.1:1080" [0%nat; 1%nat] (endpoints (demo_client 0))) ∧
  ∃ tr p s,
    px_steps demo_globals demo_smux
      (px_init "127.0.0.1:1080" [0%nat; 1%nat] (endpoints (demo_client 0))) tr p ∧
    px_view p = [None; Some (None, Some 0%nat); Some (Some s, Some 1%nat)] ∧
    mp_wf (px_client p) ∧ servers (px_client p) = [0%nat; 1%nat] ∧
    ∀ h st, px_handlers p !! h = Some st → handler_ok (px_client p) st ∧
      wp (next_op demo_globals demo_smux p st) (λ _ _, True).
Proof.
  split; [by apply demo_wf|].
  assert (∃ tr p w s,
    px_exec demo_globals demo_smux stale_schedule
      (px_init "127.0.0.1:1080" [0%nat; 1%nat] (endpoints (demo_client 0))) stale_script
      = Some (tr, p, w) ∧
    px_view p = [None; Some (None, Some 0%nat); Some (Some s, Some 1%nat)])
    as (tr & p & w & s & Hex & Hv) by (do 4 eexists; split; vm_compute; reflexivity).
  apply px_exec_sound in Hex. exists tr, p, s. split; [exact Hex|]. split; [exact Hv|].
  apply (px_invariant demo_globals demo_smux "127.0.0.1:1080" [0%nat; 1%nat]
    (endpoints (demo_client 0)) tr p); [by apply demo_wf|exact Hex].
Defined.

(** A late report of a failure closes the session of another server: an
    execution reaches a state in which goroutine 2 has just been given a new
    session on server 1, and goroutine 1 still has to report that its old
    session, on server 0, failed; when it does, [markFailed] counts the failure
    against server 0 but closes the session on server 1 and forgets it. *)
Theorem markFailed_closes_new_session :
  ∃ tr p s tr' p',
    px_steps demo_globals demo_smux
      (px_init "127.0.0.1:1080" [0%nat; 1%nat] (endpoints (demo_client 0))) tr p ∧
    mp_session (px_client p) = Some s ∧ sessionSrv (px_client p) = Some 1%nat ∧
    px_view p = [None; Some (None, Some 0%nat); Some (Some s, Some 1%nat)] ∧
    px_step demo_globals demo_smux p tr' p' ∧
    Event (SmuxClose s) tt ∈ tr' ∧ mp_session (px_client p') = None ∧
    failCount <$> (endpoints (px_client p') !! 1%nat) = Some 0.
Proof.
  assert (∃ tr p w s tr' p' w',
    px_exec demo_globals demo_smux stale_schedule
      (px_init "127.0.0.1:1080" [0%nat; 1%nat] (endpoints (demo_client 0))) stale_script
      = Some (tr, p, w) ∧
    mp_session (px_client p) = Some s ∧ sessionSrv (px_client p) = Some 1%nat ∧
    px_view p = [None; Some (None, Some 0%nat); Some (Some s, Some 1%nat)] ∧
    px_exec1 demo_globals demo_smux (Advance 1) p w = Some (tr', p', w') ∧
    Event (SmuxClose s) tt ∈ tr' ∧ mp_session (px_client p') = None ∧
    failCount <$> (endpoints (px_client p') !! 1%nat) = Some 0)
    as (tr & p & w & s & tr' & p' & w' & Hex & Hs & Hsrv & Hv & Hex' & Hin & Hs' & Hf).
  { do 7 eexists. split; [vm_compute; reflexivity|].
    do 3 (split; [vm_compute; reflexivity|]). split; [vm_compute; reflexivity|].
    split; [right; left|]. split; vm_compute; reflexivity. }
  apply px_exec_sound in Hex. apply px_exec1_sound in Hex'.
  exists tr, p, s, tr', p'. by split_and!.
Qed.
