(* ===== verification/IPTables.v ===== *)
(** * iptables.go: the firewall rules of the raw transport

    The kernel would answer the peer's raw segments with RST and track them,
    so three rules are added for the local port and deleted at exit.  The
    [iptables] program is an interface with the laws its manual gives. *)

From S2P Require Import Prelude Effects Net.

Record iptablesRule := { table : string; args : list string }.

#[global] Instance iptablesRule_eq_dec : EqDecision iptablesRule.
Proof. solve_decision. Defined.

Record IPTablesManager := { rules : list iptablesRule }.

Definition NewIPTablesManager (port : Z) : IPTablesManager :=
  let p := pretty port in {|
    rules := [
      {| table := "filter";
         args := ["OUTPUT"; "-p"; "tcp"; "--sport"; p; "--tcp-flags"; "RST"; "RST"; "-j"; "DROP"] |};
      {| table := "raw"; args := ["OUTPUT"; "-p"; "tcp"; "--sport"; p; "-j"; "NOTRACK"] |};
      {| table := "raw"; args := ["PREROUTING"; "-p"; "tcp"; "--dport"; p; "-j"; "NOTRACK"] |}
    ]
  |}.

(** The arguments of one call. *)
Definition rule_args (op : string) (r : iptablesRule) : list string :=
  ["-t"; table r; op]%string ++ args r.

Fixpoint apply_rules (rs : list iptablesRule) : prog sysE (option goerr) :=
  match rs with
  | [] => mret None
  | r :: rs' =>
    e ← trigger (ExecRun "iptables" (rule_args "-C" r));
    match e with
    | None => apply_rules rs'
    | Some _ =>
      out ← trigger (ExecCombined "iptables" (rule_args "-A" r));
      match out.2 with
      | Some err =>
        mret (Some (ErrWrap ("خطا در افزودن قانون iptables: (" +:+ out.1 +:+ ")") err))
      | None => apply_rules rs'
      end
    end
  end.

Definition Apply (m : IPTablesManager) : prog sysE (option goerr) := apply_rules (rules m).

Fixpoint cleanup_rules (rs : list iptablesRule) : prog sysE unit :=
  match rs with
  | [] => mret tt
  | r :: rs' => _ ← trigger (ExecRun "iptables" (rule_args "-D" r)); cleanup_rules rs'
  end.

Definition Cleanup (m : IPTablesManager) : prog sysE unit := cleanup_rules (rules m).

(** ** The iptables program

    The rules of a table are listed in order, each as its chain and its
    matches.  [-C] looks for a rule, [-A] appends one, [-D] deletes the first
    copy; all three fail, and change nothing, without the permission to use
    the table. *)

Fixpoint remove_first {A} `{EqDecision A} (a : A) (l : list A) : list A :=
  match l with
  | [] => []
  | b :: l' => if decide (a = b) then l' else b :: remove_first a l'
  end.

Class Iptables (K : Type) := {
  ipt_exec : list string → K → string * option goerr * K;
  ipt_rules : K → string → list (list string);
  ipt_allowed : K → bool
}.

Definition ipt_run {K} `{Iptables K} (op : string) (r : iptablesRule) (k : K) :
    string * option goerr * K := ipt_exec (rule_args op r) k.

Class IptablesLaw (K : Type) `{Iptables K} : Prop := {
  ipt_check : ∀ (k : K) r,
    (ipt_run "-C" r k).2 = k ∧
    ((ipt_run "-C" r k).1.2 = None ↔ ipt_allowed k = true ∧ args r ∈ ipt_rules k (table r));
  ipt_add : ∀ (k : K) r,
    if ipt_allowed k then
      (ipt_run "-A" r k).1.2 = None ∧ ipt_allowed (ipt_run "-A" r k).2 = true ∧
      ∀ t, ipt_rules (ipt_run "-A" r k).2 t =
             ipt_rules k t ++ (if decide (table r = t) then [args r] else [])
    else (ipt_run "-A" r k).1.2 ≠ None ∧ (ipt_run "-A" r k).2 = k;
  ipt_delete : ∀ (k : K) r, ipt_allowed k = true →
    ipt_allowed (ipt_run "-D" r k).2 = true ∧
    ∀ t, ipt_rules (ipt_run "-D" r k).2 t =
           if decide (table r = t) then remove_first (args r) (ipt_rules k t) else ipt_rules k t
}.

(** The manager's calls, answered by [iptables]; it makes no others. *)
Definition ipt_world {K} `{Iptables K} : world sysE K := λ X e,
  match e in sysE X return K → option (X * K) with
  | ExecRun name a => λ k, if decide (name = "iptables"%string)
      then let '(_, err, k') := ipt_exec a k in Some (err, k') else None
  | ExecCombined name a => λ k, if decide (name = "iptables"%string)
      then let '(out, err, k') := ipt_exec a k in Some ((out, err), k') else None
  | _ => λ _, None
  end.

(** ** Properties *)

Section iptables.
Context {K : Type} `{IptablesLaw K}.

(** The arguments of the rules of [rs] for table [t], those [l] has left out. *)
Definition wanted (rs : list iptablesRule) (t : string) : list (list string) :=
  args <$> filter (λ r, table r = t) rs.

Definition missing (rs : list iptablesRule) (t : string) (l : list (list string)) :
    list (list string) := filter (λ a, a ∉ l) (wanted rs t).

Definition removed (rs : list iptablesRule) (t : string) (l : list (list string)) :
    list (list string) := foldl (λ l a, remove_first a l) l (wanted rs t).

Lemma wanted_cons r rs t :
  wanted (r :: rs) t = (if decide (table r = t) then [args r] else []) ++ wanted rs t.
Proof. unfold wanted. rewrite filter_cons. by case_decide. Qed.

Lemma wanted_in rs t a : a ∈ wanted rs t ↔ ∃ r, r ∈ rs ∧ table r = t ∧ args r = a.
Proof.
  unfold wanted. rewrite list_elem_of_fmap. setoid_rewrite list_elem_of_filter. naive_solver.
Qed.

Lemma wanted_nodup rs t : NoDup rs → NoDup (wanted rs t).
Proof.
  induction 1 as [|r rs Hr _ IH]; [constructor|]. rewrite wanted_cons.
  case_decide; simpl; [|done]. constructor; [|done].
  rewrite wanted_in. intros ([t' a'] & Hin & Ht & Ha). apply Hr. destruct r; naive_solver.
Qed.

Lemma missing_snoc rs t l l' :
  (∀ a, a ∈ l' → a ∉ wanted rs t) → missing rs t (l ++ l') = missing rs t l.
Proof.
  unfold missing. intros Hl'. apply filter_ext_in. intros a Ha.
  rewrite not_elem_of_app. split; [tauto|]. intros ?. split; [done|]. intros Hin. by eapply Hl'.
Qed.

Lemma run_apply rs (k : K) :
  NoDup rs → ipt_allowed k = true →
  ∃ tr k', run ipt_world (apply_rules rs) k = Some (tr, None, k') ∧ ipt_allowed k' = true ∧
    ∀ t, ipt_rules k' t = ipt_rules k t ++ missing rs t (ipt_rules k t).
Proof.
  intros Hnd. revert k. induction Hnd as [|r rs Hr Hnd IH]; intros k Hk.
  { exists [], k. split_and!; [done..|]. intros t. by rewrite app_nil_r. }
  simpl. destruct (ipt_check k r) as [Hsame Hc]. unfold ipt_run in *.
  destruct (ipt_exec (rule_args "-C" r) k) as [[out e] k1] eqn:Hex. simpl in *. subst k1.
  destruct e as [err|]; simpl.
  - assert (args r ∉ ipt_rules k (table r)) as Hin by (intros Hin; by assert (Some err = None) by tauto).
    pose proof (ipt_add k r) as Ha. unfold ipt_run in Ha. rewrite Hk in Ha.
    destruct (ipt_exec (rule_args "-A" r) k) as [[out' e'] k1]. simpl in *.
    destruct Ha as (-> & Hk1 & Hrules). destruct (IH k1 Hk1) as (tr & k' & Hrun & Hk' & Hr').
    simpl. unfold mbind, prog_bind in Hrun. rewrite Hrun. simpl. eexists _, k'. split; [done|].
    split; [done|]. intros t. rewrite Hr', Hrules. unfold missing at 2. rewrite wanted_cons.
    case_decide as Ht; [|by rewrite app_nil_r].
    rewrite missing_snoc; [|].
    + subst t. rewrite filter_app. rewrite <- app_assoc. f_equal.
      simpl. by rewrite filter_cons_True by done.
    + intros a Ha%list_elem_of_singleton (r' & Hr1 & Hr2 & Hr3)%wanted_in.
      apply Hr. destruct r, r'; naive_solver.
  - destruct (proj1 Hc eq_refl) as [_ Hin]. destruct (IH k Hk) as (tr & k' & Hrun & Hk' & Hr').
    rewrite Hrun. simpl. eexists _, k'. split; [done|]. split; [done|]. intros t.
    rewrite Hr'. unfold missing. rewrite wanted_cons. case_decide as Ht; [|done].
    subst t. simpl. by rewrite filter_cons_False by tauto.
Qed.

Lemma run_cleanup rs (k : K) :
  ipt_allowed k = true →
  ∃ tr k', run ipt_world (cleanup_rules rs) k = Some (tr, tt, k') ∧ ipt_allowed k' = true ∧
    ∀ t, ipt_rules k' t = removed rs t (ipt_rules k t).
Proof.
  revert k. induction rs as [|r rs IH]; intros k Hk; [by exists [], k|].
  simpl. pose proof (ipt_delete k r Hk) as [Hk1 Hrules]. unfold ipt_run in *.
  destruct (ipt_exec (rule_args "-D" r) k) as [[out e] k1]. simpl in *.
  destruct (IH k1 Hk1) as (tr & k' & Hrun & Hk' & Hr'). rewrite Hrun. simpl.
  eexists _, k'. split_and!; [done..|]. intros t. rewrite Hr', Hrules.
  unfold removed. rewrite wanted_cons. by case_decide.
Qed.

Lemma remove_first_app {A} `{EqDecision A} (a : A) l l' :
  a ∉ l → remove_first a (l ++ a :: l') = l ++ l'.
Proof.
  induction l as [|b l IH]; intros Ha; simpl; [by rewrite decide_True|].
  apply not_elem_of_cons in Ha as [Hab Ha]. rewrite decide_False by done. f_equal. by apply IH.
Qed.

Lemma remove_first_nodup {A} `{EqDecision A} (a : A) l :
  NoDup l → NoDup (remove_first a l) ∧ ∀ b, b ∈ remove_first a l ↔ b ∈ l ∧ b ≠ a.
Proof.
  induction 1 as [|b l Hb Hl [IH IH']]; simpl.
  { split; [constructor|]. intros b. split; [by intros ?%elem_of_nil|by intros [?%elem_of_nil]]. }
  case_decide as Hab; [subst|].
  - split; [done|]. intros c. rewrite elem_of_cons. naive_solver.
  - split.
    + constructor; [|done]. rewrite IH'. tauto.
    + intros c. rewrite !elem_of_cons, IH'. naive_solver.
Qed.

Lemma removed_missing_fresh rs t l :
  (∀ a, a ∈ wanted rs t → a ∉ l) → removed rs t (l ++ missing rs t l) = l.
Proof.
  intros Hfresh. unfold removed, missing. rewrite filter_all by done.
  revert Hfresh. generalize (wanted rs t) as ws.
  induction ws as [|w ws IH]; intros Hfresh; simpl; [apply app_nil_r|].
  rewrite remove_first_app by (apply Hfresh; left). apply IH. intros a Ha. apply Hfresh. by right.
Qed.

Lemma removed_nodup rs t l :
  NoDup l → ∀ a, a ∈ removed rs t l ↔ a ∈ l ∧ a ∉ wanted rs t.
Proof.
  unfold removed. generalize (wanted rs t) as ws. intros ws. revert l.
  induction ws as [|w ws IH]; intros l Hl a; simpl.
  { split; [|tauto]. intros Ha. split; [done|]. by intros ?%elem_of_nil. }
  destruct (remove_first_nodup w l Hl) as [Hnd Hw].
  rewrite IH by done. rewrite Hw, not_elem_of_cons. tauto.
Qed.

Lemma NewIPTablesManager_nodup port : NoDup (rules (NewIPTablesManager port)).
Proof.
  simpl. repeat apply NoDup_cons_2; [| | |apply NoDup_nil_2];
    rewrite ?not_elem_of_cons; split_and?; try done; by apply not_elem_of_nil.
Qed.

(** C27. [Apply] installs what is missing, once: run with the permission to use
    the tables it succeeds and appends to every table exactly the rules of the
    port that are not in it yet, leaving the other rules as they are; run again
    it changes nothing. *)
Theorem Apply_idempotent port (k : K) :
  ipt_allowed k = true →
  let m := NewIPTablesManager port in
  ∃ tr k1 tr' k2,
    run ipt_world (Apply m) k = Some (tr, None, k1) ∧
    run ipt_world (Apply m) k1 = Some (tr', None, k2) ∧
    (∀ t, ipt_rules k1 t = ipt_rules k t ++ missing (rules m) t (ipt_rules k t)) ∧
    (∀ r, r ∈ rules m → args r ∈ ipt_rules k1 (table r)) ∧
    ∀ t, ipt_rules k2 t = ipt_rules k1 t.
Proof.
  intros Hk m. pose proof (NewIPTablesManager_nodup port) as Hnd.
  destruct (run_apply _ k Hnd Hk) as (tr & k1 & Hrun1 & Hk1 & Hr1).
  destruct (run_apply _ k1 Hnd Hk1) as (tr' & k2 & Hrun2 & Hk2 & Hr2).
  exists tr, k1, tr', k2. unfold Apply.
  assert (∀ t a, a ∈ wanted (rules m) t → a ∈ ipt_rules k1 t) as Hin.
  { intros t a Ha. rewrite Hr1, elem_of_app. unfold missing. rewrite list_elem_of_filter.
    destruct (decide (a ∈ ipt_rules k t)); tauto. }
  split_and!; [done..| |].
  - intros r Hr. apply Hin, wanted_in. by exists r.
  - intros t. rewrite Hr2. unfold missing. rewrite filter_none; [apply app_nil_r|].
    intros a Ha Hna. by apply Hna, Hin.
Qed.

(** C10. Clean exit: if none of the port's rules was there before, [Cleanup]
    after [Apply] leaves every table exactly as it was. *)
Theorem Cleanup_undoes_Apply port (k : K) :
  ipt_allowed k = true →
  (∀ r, r ∈ rules (NewIPTablesManager port) → args r ∉ ipt_rules k (table r)) →
  ∃ tr k1 tr' k2,
    run ipt_world (Apply (NewIPTablesManager port)) k = Some (tr, None, k1) ∧
    run ipt_world (Cleanup (NewIPTablesManager port)) k1 = Some (tr', tt, k2) ∧
    ∀ t, ipt_rules k2 t = ipt_rules k t.
Proof.
  intros Hk Hfresh. destruct (run_apply _ k (NewIPTablesManager_nodup port) Hk)
    as (tr & k1 & Hrun1 & Hk1 & Hr1).
  destruct (run_cleanup (rules (NewIPTablesManager port)) k1 Hk1) as (tr' & k2 & Hrun2 & _ & Hr2).
  exists tr, k1, tr', k2. split_and!; [done..|]. intros t. rewrite Hr2, Hr1.
  apply removed_missing_fresh. intros a (r & Hr & <- & <-)%wanted_in. by apply Hfresh.
Qed.

(** After a run of the tunnel no rule of the port is left, whoever had
    installed it: [Apply] leaves a rule that is already there alone, but
    [Cleanup] deletes it with the others; all rules that are not the port's
    survive. *)
Theorem Cleanup_deletes_all port (k : K) :
  ipt_allowed k = true → (∀ t, NoDup (ipt_rules k t)) →
  ∃ tr k1 tr' k2,
    run ipt_world (Apply (NewIPTablesManager port)) k = Some (tr, None, k1) ∧
    run ipt_world (Cleanup (NewIPTablesManager port)) k1 = Some (tr', tt, k2) ∧
    ∀ t a, a ∈ ipt_rules k2 t ↔
      a ∈ ipt_rules k t ∧ a ∉ wanted (rules (NewIPTablesManager port)) t.
Proof.
  intros Hk Hnd. pose proof (NewIPTablesManager_nodup port) as Hrs.
  destruct (run_apply _ k Hrs Hk) as (tr & k1 & Hrun1 & Hk1 & Hr1).
  destruct (run_cleanup (rules (NewIPTablesManager port)) k1 Hk1) as (tr' & k2 & Hrun2 & _ & Hr2).
  exists tr, k1, tr', k2. split_and!; [done..|]. intros t a. rewrite Hr2, removed_nodup, Hr1.
  - rewrite elem_of_app. unfold missing. rewrite list_elem_of_filter. tauto.
  - rewrite Hr1. apply NoDup_app. split_and!; [done| |by apply NoDup_filter, wanted_nodup].
    intros b Hb. unfold missing. rewrite list_elem_of_filter. tauto.
Qed.

(** Without the permission to use the tables [Apply] reports an error at
    the first rule and changes nothing. *)
Theorem Apply_not_allowed port (k : K) :
  ipt_allowed k = false →
  ∃ tr err, run ipt_world (Apply (NewIPTablesManager port)) k = Some (tr, Some err, k).
Proof.
  intros Hk. unfold Apply, NewIPTablesManager. cbn [rules apply_rules].
  set (r := {| table := "filter"; args := _ |}). simpl.
  destruct (ipt_check k r) as [Hsame Hc]. pose proof (ipt_add k r) as Ha. rewrite Hk in Ha, Hc.
  unfold ipt_run in *. destruct (ipt_exec (rule_args "-C" r) k) as [[out e] k1]. simpl in *. subst k1.
  destruct e as [err|]; [|by destruct (proj1 Hc eq_refl)]. simpl.
  destruct (ipt_exec (rule_args "-A" r) k) as [[out' [e'|]] k1]; simpl in *; [|by destruct Ha].
  destruct Ha as [_ ->]. by eexists _, _.
Qed.

End iptables.

(** ** A kernel with tables *)

Record kernel := { allowed : bool; tables : gmap string (list (list string)) }.

Definition kernel_exec (a : list string) (k : kernel) : string * option goerr * kernel :=
  match a with
  | _ :: t :: op :: rule =>
    let rs := default [] (tables k !! t) in
    let set rs' := {| allowed := allowed k; tables := <[t := rs']> (tables k) |} in
    if negb (allowed k) then ("Permission denied"%string, Some (ErrText "exit status 4"), k)
    else if decide (op = "-A"%string) then (""%string, None, set (rs ++ [rule]))
    else if decide (rule ∈ rs) then
      (""%string, None, if decide (op = "-D"%string) then set (remove_first rule rs) else k)
    else ("Bad rule"%string, Some (ErrText "exit status 1"), k)
  | _ => (""%string, Some (ErrText "exit status 2"), k)
  end.

#[global] Instance kernel_iptables : Iptables kernel := {
  ipt_exec := kernel_exec;
  ipt_rules k t := default [] (tables k !! t);
  ipt_allowed := allowed
}.

Lemma remove_first_absent {A} `{EqDecision A} (a : A) l : a ∉ l → remove_first a l = l.
Proof.
  induction l as [|b l IH]; intros Ha; simpl; [done|]. apply not_elem_of_cons in Ha as [Hab Ha].
  rewrite decide_False by done. f_equal. by apply IH.
Qed.

#[global] Instance kernel_iptables_law : IptablesLaw kernel.
Proof.
  split.
  - intros k r. unfold ipt_run, ipt_exec. cbn.
    destruct (allowed k); cbn; [|split; [done|]; split; [done|by intros []]].
    repeat case_decide; cbn; try done; split; try done; split; try done; by intros [].
  - intros k r. unfold ipt_run, ipt_exec. cbn.
    destruct (allowed k); cbn; [|done]. case_decide; cbn; [|done]. split_and!; [done..|]. intros t. rewrite lookup_insert.
    case_decide; [by subst|]. by rewrite app_nil_r.
  - intros k r Hk. unfold ipt_run, ipt_exec, ipt_allowed in *. cbn in *. rewrite Hk. cbn.
    case_decide; [done|]. case_decide as Hin; cbn.
    + case_decide; cbn; [|done]. split; [done|]. intros t. rewrite lookup_insert.
      case_decide; [by subst|done].
    + split; [done|]. intros t. case_decide; [subst|done]. by rewrite remove_first_absent.
Qed.

(** ** Examples *)

(** A kernel in which the administrator already drops the RST segments of
    port 4000. *)
Definition drop_rst : list string :=
  ["OUTPUT"; "-p"; "tcp"; "--sport"; "4000"; "--tcp-flags"; "RST"; "RST"; "-j"; "DROP"].

Definition demo_kernel (ok : bool) : kernel :=
  {| allowed := ok; tables := {["filter" := [["INPUT"; "-j"; "ACCEPT"]; drop_rst]]} |}.

Lemma demo_kernel_nodup ok t : NoDup (ipt_rules (demo_kernel ok) t).
Proof.
  simpl. destruct (decide (t = "filter")) as [->|Ht].
  - rewrite lookup_singleton_eq. apply (bool_decide_unpack _). by vm_compute.
  - rewrite lookup_singleton_ne by done. constructor.
Qed.

Lemma Apply_idempotent_witness :
  ipt_allowed (demo_kernel true) = true ∧
  let m := NewIPTablesManager 4000 in
  ∃ tr k1 tr' k2,
    run ipt_world (Apply m) (demo_kernel true) = Some (tr, None, k1) ∧
    run ipt_world (Apply m) k1 = Some (tr', None, k2) ∧
    (∀ t, ipt_rules k1 t = ipt_rules (demo_kernel true) t ++
            missing (rules m) t (ipt_rules (demo_kernel true) t)) ∧
    (∀ r, r ∈ rules m → args r ∈ ipt_rules k1 (table r)) ∧
    ∀ t, ipt_rules k2 t = ipt_rules k1 t.
Proof. split; [done|]. exact (Apply_idempotent 4000 (demo_kernel true) eq_refl). Defined.

Lemma Cleanup_undoes_Apply_witness :
  ∃ tr k1 tr' k2,
    run ipt_world (Apply (NewIPTablesManager 4001)) (demo_kernel true) = Some (tr, None, k1) ∧
    run ipt_world (Cleanup (NewIPTablesManager 4001)) k1 = Some (tr', tt, k2) ∧
    ∀ t, ipt_rules k2 t = ipt_rules (demo_kernel true) t.
Proof.
  apply (Cleanup_undoes_Apply 4001 (demo_kernel true)); [done|].
  intros r Hr. apply (bool_decide_unpack _). revert r Hr. apply Forall_forall.
  repeat constructor.
Defined.

Lemma Cleanup_deletes_all_witness :
  drop_rst ∈ ipt_rules (demo_kernel true) "filter" ∧
  drop_rst ∈ wanted (rules (NewIPTablesManager 4000)) "filter" ∧
  ∃ tr k1 tr' k2,
    run ipt_world (Apply (NewIPTablesManager 4000)) (demo_kernel true) = Some (tr, None, k1) ∧
    run ipt_world (Cleanup (NewIPTablesManager 4000)) k1 = Some (tr', tt, k2) ∧
    ∀ t a, a ∈ ipt_rules k2 t ↔
      a ∈ ipt_rules (demo_kernel true) t ∧ a ∉ wanted (rules (NewIPTablesManager 4000)) t.
Proof.
  split; [right; left|]. split; [left|].
  apply (Cleanup_deletes_all 4000 (demo_kernel true)); [done|]. apply demo_kernel_nodup.
Defined.

Lemma Apply_not_allowed_witness :
  ipt_allowed (demo_kernel false) = false ∧
  ∃ tr err, run ipt_world (Apply (NewIPTablesManager 4000)) (demo_kernel false) =
    Some (tr, Some err, demo_kernel false).
Proof. split; [done|]. exact (Apply_not_allowed 4000 (demo_kernel false) eq_refl). Defined.
