(* ===== verification/AutoDiscover.v ===== *)
(** * autodiscover.go: interface, addresses and gateway MAC

    [AutoDiscover] reads the route towards the peer from [ip route get], the
    MAC address of the interface from the system, and the gateway's MAC from
    the neighbour table, after a ping when it is not there yet. *)

From S2P Require Import Prelude GoStrings Effects Net.

Record AutoNetInfo := {
  Iface : string;
  LocalIP : string;
  LocalMAC : string;
  GatewayIP : string;
  GatewayMAC : string
}.

Definition no_info : AutoNetInfo :=
  {| Iface := ""; LocalIP := ""; LocalMAC := ""; GatewayIP := ""; GatewayMAC := "" |}.

(** The switch of the loop over the fields, when the next field is [v]. *)
Definition route_field (f v : string) (ni : AutoNetInfo) : AutoNetInfo :=
  if decide (f = "via") then
    {| Iface := Iface ni; LocalIP := LocalIP ni; LocalMAC := LocalMAC ni; GatewayIP := v;
       GatewayMAC := GatewayMAC ni |}
  else if decide (f = "dev") then
    {| Iface := v; LocalIP := LocalIP ni; LocalMAC := LocalMAC ni; GatewayIP := GatewayIP ni;
       GatewayMAC := GatewayMAC ni |}
  else if decide (f = "src") then
    {| Iface := Iface ni; LocalIP := v; LocalMAC := LocalMAC ni; GatewayIP := GatewayIP ni;
       GatewayMAC := GatewayMAC ni |}
  else ni.

Fixpoint scan_route (fs : list string) (ni : AutoNetInfo) : AutoNetInfo :=
  match fs with
  | f :: (v :: _) as fs' => scan_route fs' (route_field f v ni)
  | _ => ni
  end.

(** ** [readNeighMAC] *)

(** The field after the first [lladdr] that has one. *)
Fixpoint after_lladdr (fs : list string) : option string :=
  match fs with
  | f :: (v :: _) as fs' => if decide (f = "lladdr") then Some v else after_lladdr fs'
  | _ => None
  end.

(** [bufio.ScanLines]: a line loses one carriage return at its end, and what
    follows the last newline is a line when it is not empty. *)
Fixpoint drop_cr (s : string) : string :=
  match s with
  | EmptyString => EmptyString
  | String c EmptyString => if decide (c = "013"%char) then EmptyString else s
  | String c s' => String c (drop_cr s')
  end.

Fixpoint raw_lines (parts : list string) : list string :=
  match parts with
  | [] => []
  | [l] => if decide (l = "") then [] else [l]
  | l :: parts' => l :: raw_lines parts'
  end.

(** A [bufio.Scanner] stops at a line that does not fit its buffer of 64 KiB. *)
Fixpoint fitting (ls : list string) : list string :=
  match ls with
  | [] => []
  | l :: ls' => if Z.of_nat (String.length l) <? 65536 then l :: fitting ls' else []
  end.

Definition scan_lines (s : string) : list string :=
  drop_cr <$> fitting (raw_lines (split_char "010"%char s)).

Definition zero_mac : string := "00:00:00:00:00:00".

(** The loop over the lines of the ARP table. *)
Fixpoint arp_mac (ip : string) (lines : list string) : string :=
  match lines with
  | [] => ""
  | l :: lines' =>
    match fields l with
    | f0 :: _ :: _ :: mac :: _ =>
      if decide (f0 = ip ∧ mac ≠ zero_mac) then mac else arp_mac ip lines'
    | _ => arp_mac ip lines'
    end
  end.

Definition readNeighMAC (ip : string) : prog sysE string :=
  out ← trigger (ExecOutput "ip" ["neigh"; "show"; ip]);
  let arp :=
    f ← trigger (ReadFile "/proc/net/arp");
    match f with
    | Err _ => mret ""
    | Ok text => mret (arp_mac ip (tail (scan_lines text)))
    end in
  match out with
  | Ok text => match after_lladdr (fields text) with Some mac => mret mac | None => arp end
  | Err _ => arp
  end.

Definition findGatewayMAC (gwIP iface : string) : prog sysE (res string) :=
  mac ← readNeighMAC gwIP;
  if decide (mac ≠ "") then mret (Ok mac)
  else
    _ ← trigger (ExecRun "ping" ["-c"; "1"; "-W"; "1"; gwIP]);
    mac ← readNeighMAC gwIP;
    if decide (mac ≠ "") then mret (Ok mac)
    else mret (Err (ErrText ("MAC برای gateway " +:+ gwIP +:+ " پیدا نشد"))).

Definition AutoDiscover (towardIP : string) : prog sysE (res AutoNetInfo) :=
  out ← trigger (ExecOutput "ip" ["route"; "get"; towardIP]);
  match out with
  | Err e => mret (Err (ErrWrap "خطا در ip route get" e))
  | Ok text =>
    let info := scan_route (fields text) no_info in
    if decide (Iface info = "" ∨ LocalIP info = "") then
      mret (Err (ErrText "نتونستم اینترفیس یا آی‌پی محلی رو پیدا کنم"))
    else if decide (GatewayIP info = "") then
      mret (Err (ErrText "gateway پیدا نشد (مقصد ممکنه محلی باشه)"))
    else
      iface ← trigger (InterfaceByName (Iface info));
      match iface with
      | Err e => mret (Err (ErrWrap ("خطا در یافتن اینترفیس " +:+ Iface info) e))
      | Ok hw =>
        gwMAC ← findGatewayMAC (GatewayIP info) (Iface info);
        match gwMAC with
        | Err e => mret (Err (ErrWrap "خطا در یافتن MAC gateway" e))
        | Ok gwMAC =>
          mret (Ok {| Iface := Iface info; LocalIP := LocalIP info; LocalMAC := hw;
                      GatewayIP := GatewayIP info; GatewayMAC := gwMAC |})
        end
      end
  end.

(** ** The route *)

(** The fields that follow an occurrence of [k]. *)
Fixpoint values_after (k : string) (fs : list string) : list string :=
  match fs with
  | f :: (v :: _) as fs' => if decide (f = k) then v :: values_after k fs' else values_after k fs'
  | _ => []
  end.

Definition last_or (d : string) (l : list string) : string := default d (last l).

Lemma last_or_cons d v l : last_or d (v :: l) = last_or v l.
Proof. unfold last_or. destruct l as [|w l]; [done|]. rewrite last_cons_cons. by destruct (last (w :: l)) eqn:H; [|apply last_None in H]. Qed.

Lemma values_after_cons k f v fs :
  values_after k (f :: v :: fs) =
    if decide (f = k) then v :: values_after k (v :: fs) else values_after k (v :: fs).
Proof. done. Qed.

Lemma scan_route_last fs ni :
  let ni' := scan_route fs ni in
  GatewayIP ni' = last_or (GatewayIP ni) (values_after "via" fs) ∧
  Iface ni' = last_or (Iface ni) (values_after "dev" fs) ∧
  LocalIP ni' = last_or (LocalIP ni) (values_after "src" fs).
Proof.
  revert ni. induction fs as [|f [|v fs] IH]; intros ni; [done..|].
  change (scan_route (f :: v :: fs) ni) with (scan_route (v :: fs) (route_field f v ni)).
  rewrite !values_after_cons. cbv zeta.
  destruct (IH (route_field f v ni)) as (-> & -> & ->). unfold route_field.
  repeat case_decide; simplify_eq; try done; by rewrite last_or_cons.
Qed.

Lemma arp_mac_cases ip lines :
  arp_mac ip lines = "" ∨ arp_mac ip lines ≠ zero_mac ∧
    ∃ l f1 f2 rest, l ∈ lines ∧ fields l = ip :: f1 :: f2 :: arp_mac ip lines :: rest.
Proof.
  induction lines as [|l lines IH]; simpl; [by left|].
  destruct (fields l) as [|f0 [|f1 [|f2 [|mac rest]]]] eqn:Hf;
    try (destruct IH as [|(? & l' & ? & ? & ? & ? & ?)]; [by left|right; set_solver]).
  case_decide as Hd; [right|].
  - destruct Hd as [-> Hm]. split; [done|]. exists l, f1, f2, rest. split; [left|done].
  - destruct IH as [|(? & l' & ? & ? & ? & ? & ?)]; [by left|right]. set_solver.
Qed.

(** ** Properties *)

Definition keyword (s : string) : Prop := s ∈ ["via"; "dev"; "src"]%string.

Lemma not_keyword s : ¬ keyword s → s ≠ "via" ∧ s ≠ "dev" ∧ s ≠ "src".
Proof. unfold keyword. rewrite !not_elem_of_cons. tauto. Qed.

Lemma route_field_other f v ni : ¬ keyword f → route_field f v ni = ni.
Proof. intros (H1 & H2 & H3)%not_keyword. unfold route_field. by rewrite !decide_False. Qed.

(** The output of [ip route get] for a destination behind a gateway. *)
Definition route_text (dst gw dev src uid : string) : string :=
  join " " [dst; "via"; gw; "dev"; dev; "src"; src; "uid"; uid]%string +:+
  " " +:+ String "010" ("    cache " +:+ String "010" "").

(** The route is read back: for an output of [ip route get] with any
    destination, gateway, interface, source address and uid that are single
    words and not keywords, the scan finds exactly that gateway, interface and
    source address. *)
Theorem scan_route_text dst gw dev src uid :
  Forall (λ t, plain_token t = true ∧ ¬ keyword t) [dst; gw; dev; src; uid] →
  scan_route (fields (route_text dst gw dev src uid)) no_info =
    {| Iface := dev; LocalIP := src; LocalMAC := ""; GatewayIP := gw; GatewayMAC := "" |}.
Proof.
  rewrite !Forall_cons.
  intros ([Hd Kd] & [Hg Kg] & [Hv Kv] & [Hs Ks] & [Hu Ku] & _).
  unfold route_text. change (" " +:+ ?s) with (String " " s).
  rewrite fields_join_app; [|done|by repeat constructor|done].
  assert (¬ keyword "uid") as Kuid by (unfold keyword; rewrite !not_elem_of_cons; split_and!; try done; by intros ?%elem_of_nil).
  change (fields _) with ["cache"%string]. cbn [app scan_route].
  rewrite (route_field_other dst), (route_field_other gw), (route_field_other dev),
    (route_field_other src), (route_field_other "uid"), (route_field_other uid) by done.
  reflexivity.
Qed.

Lemma scan_route_text_witness :
  Forall (λ t, plain_token t = true ∧ ¬ keyword t)
    ["8.8.8.8"; "192.168.1.1"; "eth0"; "192.168.1.5"; "0"]%string ∧
  scan_route (fields (route_text "8.8.8.8" "192.168.1.1" "eth0" "192.168.1.5" "0")) no_info =
    {| Iface := "eth0"; LocalIP := "192.168.1.5"; LocalMAC := ""; GatewayIP := "192.168.1.1";
       GatewayMAC := "" |}.
Proof.
  assert (Forall (λ t, plain_token t = true ∧ ¬ keyword t)
    ["8.8.8.8"; "192.168.1.1"; "eth0"; "192.168.1.5"; "0"]%string) as Hall.
  { repeat constructor; apply (bool_decide_unpack _); by vm_compute. }
  split; [exact Hall|]. by apply scan_route_text.
Defined.

(** Where a gateway's MAC address comes from: the neighbour table or, in the
    ARP table, the line of the gateway. *)
Definition mac_source (tr : list (event sysE)) (ip mac : string) : Prop :=
  (∃ text, Event (ExecOutput "ip" ["neigh"; "show"; ip]%string) (Ok text) ∈ tr ∧
     after_lladdr (fields text) = Some mac) ∨
  (mac ≠ zero_mac ∧ ∃ text l f1 f2 rest, Event (ReadFile "/proc/net/arp") (Ok text) ∈ tr ∧
     l ∈ tail (scan_lines text) ∧ fields l = ip :: f1 :: f2 :: mac :: rest).

(** The calls [AutoDiscover] makes, and the pings among them. *)
Definition looks_up (ev : event sysE) : Prop :=
  match ev with
  | @Event _ _ e _ =>
    match e with
    | ExecOutput name args => name = "ip"%string
    | ReadFile path => path = "/proc/net/arp"%string
    | InterfaceByName _ => True
    | _ => False
    end
  end.

Definition pings (ip : string) (tr : list (event sysE)) : Prop :=
  ∃ tr1 tr2, Forall looks_up tr1 ∧ Forall looks_up tr2 ∧
    (tr = tr1 ∨ ∃ x, tr = tr1 ++ Event (ExecRun "ping" ["-c"; "1"; "-W"; "1"; ip]%string) x :: tr2).

Lemma mac_source_mono tr tr' ip mac :
  (∀ ev, ev ∈ tr → ev ∈ tr') → mac_source tr ip mac → mac_source tr' ip mac.
Proof.
  intros Hsub [(text & Hin & Hl)|(Hz & text & l & f1 & f2 & rest & Hin & Hl)].
  - left. exists text. auto.
  - right. split; [done|]. exists text, l, f1, f2, rest. auto.
Qed.

Lemma readNeighMAC_wp ip :
  wp (readNeighMAC ip) (λ tr mac, Forall looks_up tr ∧ (mac = "" ∨ mac_source tr ip mac)).
Proof.
  unfold readNeighMAC. wp_call out Hout.
  assert (wp (f ← trigger (ReadFile "/proc/net/arp");
    match f with
    | Err _ => mret ""
    | Ok text => mret (arp_mac ip (tail (scan_lines text)))
    end) (λ tr mac, Forall looks_up tr ∧ (mac = "" ∨ mac_source tr ip mac))) as Harp.
  { wp_call f Hf. destruct f as [text|]; simpl; [|by split; [repeat constructor|left]].
    split; [by repeat constructor|].
    destruct (arp_mac_cases ip (tail (scan_lines text))) as [->|(Hz & l & f1 & f2 & rest & Hl & Hf1)];
      [by left|]. right. right. split; [done|]. exists text, l, f1, f2, rest. split; [left|done]. }
  assert (∀ e, Forall looks_up [Event (ExecOutput "ip" ["neigh"; "show"; ip]) e]) as Hone
    by (intros; by repeat constructor).
  destruct out as [text|e]; [destruct (after_lladdr (fields text)) as [mac|] eqn:Hl|].
  - simpl. split; [apply Hone|]. right. left. exists text. split; [left|done].
  - eapply wp_mono, Harp. intros tr mac [Htr Hmac]. split; [by constructor|].
    destruct Hmac as [->|Hmac]; [by left|right]. eapply mac_source_mono, Hmac. by right.
  - eapply wp_mono, Harp. intros tr mac [Htr Hmac]. split; [by constructor|].
    destruct Hmac as [->|Hmac]; [by left|right]. eapply mac_source_mono, Hmac. by right.
Qed.

Lemma findGatewayMAC_wp ip iface :
  wp (findGatewayMAC ip iface) (λ tr r, pings ip tr ∧
    match r with Ok mac => mac ≠ "" ∧ mac_source tr ip mac | Err _ => True end).
Proof.
  unfold findGatewayMAC. apply wp_bind. eapply wp_mono, readNeighMAC_wp.
  intros tr mac [Htr Hmac]. case_decide as Hne.
  - simpl. rewrite app_nil_r. split; [by exists tr, []; split_and!; [..|left]|].
    by destruct Hmac.
  - wp_call x Hx. apply wp_bind. eapply wp_mono, readNeighMAC_wp.
    intros tr' mac' [Htr' Hmac']. case_decide as Hne'; simpl; rewrite app_nil_r.
    + split; [exists tr, tr'; split_and!; [done..|right; by exists x]|].
      split; [done|]. destruct Hmac' as [|Hm]; [done|].
      eapply mac_source_mono, Hm. set_solver.
    + split; [|done]. exists tr, tr'. split_and!; [done..|right; by exists x].
Qed.

(** An interface is always found. *)
Lemma AutoDiscover_iface ip :
  wp (AutoDiscover ip) (λ _ r, ∀ ni, r = Ok ni → Iface ni ≠ "").
Proof.
  unfold AutoDiscover. wp_call out Hout. destruct out as [text|e]; [|done].
  case_decide as H1; [done|]. case_decide as H2; [done|].
  wp_call hw Hhw. destruct hw as [hw|e]; [|done].
  apply wp_bind. eapply wp_mono, findGatewayMAC_wp. intros tr r _.
  destruct r as [mac|e]; [|done]. intros ni [= <-]. simpl. tauto.
Qed.

(** C28. What [AutoDiscover] reports is what the system said: the gateway,
    interface and source address are the last ones in the route towards the
    peer, none of them empty; the local MAC is the interface's; the gateway's
    MAC is not empty and comes from the neighbour table or from the gateway's
    line of the ARP table.  It runs nothing but look-ups and at most one ping
    of the gateway. *)
Theorem AutoDiscover_sound ip :
  wp (AutoDiscover ip) (λ tr r, ∃ gw, pings gw tr ∧
    match r with
    | Ok ni => ∃ text,
        Event (ExecOutput "ip" ["route"; "get"; ip]) (Ok text) ∈ tr ∧
        gw = GatewayIP ni ∧
        GatewayIP ni = last_or "" (values_after "via" (fields text)) ∧ GatewayIP ni ≠ "" ∧
        Iface ni = last_or "" (values_after "dev" (fields text)) ∧ Iface ni ≠ "" ∧
        LocalIP ni = last_or "" (values_after "src" (fields text)) ∧ LocalIP ni ≠ "" ∧
        Event (InterfaceByName (Iface ni)) (Ok (LocalMAC ni)) ∈ tr ∧
        GatewayMAC ni ≠ "" ∧ mac_source tr (GatewayIP ni) (GatewayMAC ni)
    | Err _ => True
    end).
Proof.
  unfold AutoDiscover.
  assert (∀ tr, Forall looks_up tr → ∃ gw, pings gw tr ∧ True) as Hlook.
  { intros tr Htr. exists ""%string. split; [|done]. exists tr, []. split_and!; [done..|by left]. }
  wp_call out Hout. destruct out as [text|e]; [|by apply Hlook; repeat constructor].
  destruct (scan_route_last (fields text) no_info) as (Hgw & Hif & Hip).
  case_decide as H1; [by apply Hlook; repeat constructor|].
  case_decide as H2; [by apply Hlook; repeat constructor|].
  wp_call hw Hhw. destruct hw as [hw|e]; [|by apply Hlook; repeat constructor].
  apply wp_bind. eapply wp_mono, findGatewayMAC_wp. intros tr r [Hp Hr].
  assert (∀ ev1 ev2, looks_up ev1 → looks_up ev2 →
    pings (GatewayIP (scan_route (fields text) no_info)) (ev1 :: ev2 :: tr)) as Hp2.
  { intros ev1 ev2 Hev1 Hev2. destruct Hp as (tr1 & tr2 & Ht1 & Ht2 & Hc).
    exists (ev1 :: ev2 :: tr1), tr2. split_and!; [by repeat constructor|done|].
    destruct Hc as [->|[x ->]]; [by left|right; by exists x]. }
  destruct r as [mac|e]; simpl; rewrite app_nil_r;
    exists (GatewayIP (scan_route (fields text) no_info)); (split; [by apply Hp2|]); [|done].
  destruct Hr as [Hne Hsrc]. exists text. simpl in *.
  split_and!; try done; try tauto; [left|right; left|].
  eapply mac_source_mono, Hsrc. set_solver.
Qed.
