(* ===== verification/RawPacketConn.v ===== *)
(** * rawpacketconn.go: datagrams in forged TCP segments

    A [rawPacketConn] sends each datagram as the payload of one TCP segment and
    receives datagrams from a capture filtered to the peer's segments.  The
    reader goroutine, [ReadFrom] and [Close] meet on channels, so they are a
    step relation; [WriteTo] and the constructor are programs. *)

From S2P Require Import Prelude GoStrings Effects Net.

(** ** [itoa] *)

(** [byte('0' + n%10)]. *)
Definition digit (n : Z) : ascii := Ascii.ascii_of_N (Z.to_N ((48 + Z.rem n 10) `mod` 256)).

(** The loop over the digits, on the buffer and the index; [None] is an index
    out of range. *)
Fixpoint itoa_loop (fuel : nat) (buf : list ascii) (i n : Z) : option (list ascii * Z) :=
  if n >? 0 then
    match fuel with
    | O => None
    | S fuel' =>
      let i := i - 1 in
      if i <? 0 then None
      else itoa_loop fuel' (<[Z.to_nat i := digit n]> buf) i (Z.quot n 10)
    end
  else Some (buf, i).

Definition itoa (n : Z) : option string :=
  if n =? 0 then Some "0"%string
  else
    let neg := n <? 0 in
    let n := if neg then int64 (- n) else n in
    '(buf, i) ← itoa_loop 64 (replicate 20 "000"%char) 20 n;
    if neg then
      let i := i - 1 in
      if i <? 0 then None
      else Some (String.string_of_list_ascii (drop (Z.to_nat i) (<[Z.to_nat i := "-"%char]> buf)))
    else Some (String.string_of_list_ascii (drop (Z.to_nat i) buf)).

(** [itoa(int(p))] for a port. *)
Definition port_string (p : Z) : string := default ""%string (itoa p).

(** ** The connection *)

Record rawAddr := { ip : option (list byte); port : Z }.

(** [net.IP.String] of the result of [To4], which is nil or four bytes. *)
Definition ip_string (a : option (list byte)) : string :=
  match a with
  | None => "<nil>"
  | Some bs => join "." ((λ b, pretty (Z_of_byte b)) <$> bs)
  end.

Definition rawAddr_String (a : rawAddr) : string := ip_string (ip a) +:+ ":" +:+ port_string (port a).

Record rawPacketConn := {
  handle : nat;
  srcMAC : list byte;
  dstMAC : list byte;
  srcIP : option (list byte);
  dstIP : option (list byte);
  srcPort : Z;
  dstPort : Z;
  peerAddr : rawAddr;
  recvCh : list (list byte);
  closeCh : bool;
  readDeadline : Z;
  seqNum : Z;
  (* whether the goroutine of [readLoop] runs *)
  reading : bool
}.

Definition recv_cap : nat := 1024.

(** The capture filter: the peer's segments to our port. *)
Definition raw_filter (dstIP : string) (srcPort dstPort : Z) : string :=
  "tcp and src host " +:+ dstIP +:+ " and src port " +:+ port_string dstPort +:+
  " and dst port " +:+ port_string srcPort.

Definition NewRawPacketConn (iface srcMAC dstMAC srcIP dstIP : string) (srcPort dstPort : Z)
    : prog sysE (res rawPacketConn) :=
  sMAC ← trigger (ParseMAC srcMAC);
  match sMAC with
  | Err e => mret (Err e)
  | Ok sMAC =>
    dMAC ← trigger (ParseMAC dstMAC);
    match dMAC with
    | Err e => mret (Err e)
    | Ok dMAC =>
      h ← trigger (PcapOpenLive iface 65536 true);
      match h with
      | Err e => mret (Err e)
      | Ok h =>
        ferr ← trigger (PcapSetFilter h (raw_filter dstIP srcPort dstPort));
        match ferr with
        | Some e => _ ← trigger (PcapClose h); mret (Err e)
        | None =>
          sip ← trigger (ParseIP4 srcIP);
          dip ← trigger (ParseIP4 dstIP);
          pip ← trigger (ParseIP4 dstIP);
          mret (Ok {|
            handle := h; srcMAC := sMAC; dstMAC := dMAC; srcIP := sip; dstIP := dip;
            srcPort := srcPort; dstPort := dstPort;
            peerAddr := {| ip := pip; port := dstPort |};
            recvCh := []; closeCh := false; readDeadline := zero_time; seqNum := 1000;
            reading := true |})
        end
      end
    end
  end.

(** ** Writing *)

Definition raw_packet (c : rawPacketConn) (p : list byte) : tcp_packet := {|
  eth_src := srcMAC c; eth_dst := dstMAC c; ip_ttl := 64; ip_src := srcIP c; ip_dst := dstIP c;
  tcp_sport := srcPort c; tcp_dport := dstPort c; tcp_psh := true; tcp_ack := true;
  tcp_window := 64240; tcp_seq := seqNum c; tcp_acknum := 1; tcp_payload := p
|}.

Definition set_seq (c : rawPacketConn) (n : Z) : rawPacketConn := {|
  handle := handle c; srcMAC := srcMAC c; dstMAC := dstMAC c; srcIP := srcIP c; dstIP := dstIP c;
  srcPort := srcPort c; dstPort := dstPort c; peerAddr := peerAddr c; recvCh := recvCh c;
  closeCh := closeCh c; readDeadline := readDeadline c; seqNum := n; reading := reading c
|}.

Definition WriteTo (c : rawPacketConn) (p : list byte)
    : prog sysE (Z * option goerr * rawPacketConn) :=
  r ← trigger (SerializeTCP (raw_packet c p));
  match r with
  | Err e => mret (0, Some e, c)
  | Ok frame =>
    let c := set_seq c (uint32 (seqNum c + uint32 (Z.of_nat (length p)))) in
    werr ← trigger (PcapWrite (handle c) frame);
    match werr with
    | Some e => mret (0, Some e, c)
    | None => mret (Z.of_nat (length p), None, c)
    end
  end.

Definition SetReadDeadline (c : rawPacketConn) (t : Z) : rawPacketConn := {|
  handle := handle c; srcMAC := srcMAC c; dstMAC := dstMAC c; srcIP := srcIP c; dstIP := dstIP c;
  srcPort := srcPort c; dstPort := dstPort c; peerAddr := peerAddr c; recvCh := recvCh c;
  closeCh := closeCh c; readDeadline := t; seqNum := seqNum c; reading := reading c
|}.

Definition SetDeadline (c : rawPacketConn) (t : Z) : rawPacketConn := SetReadDeadline c t.

Definition SetWriteDeadline (c : rawPacketConn) (t : Z) : rawPacketConn := c.

Definition LocalAddr (c : rawPacketConn) : rawAddr := {| ip := srcIP c; port := srcPort c |}.

Definition set_recv (c : rawPacketConn) (q : list (list byte)) (closed loop : bool) : rawPacketConn := {|
  handle := handle c; srcMAC := srcMAC c; dstMAC := dstMAC c; srcIP := srcIP c; dstIP := dstIP c;
  srcPort := srcPort c; dstPort := dstPort c; peerAddr := peerAddr c; recvCh := q;
  closeCh := closed; readDeadline := readDeadline c; seqNum := seqNum c; reading := loop
|}.

(** [Close]: the [sync.Once] has run when the channel is closed. *)
Definition Close (c : rawPacketConn) : prog sysE rawPacketConn :=
  if closeCh c then mret c
  else
    let c := set_recv c (recvCh c) true (reading c) in
    _ ← trigger (PcapClose (handle c));
    mret c.

(** ** Reading

    [ReadFrom] at time [now] into a buffer of [n] bytes.  A [select] takes any
    branch that is ready; no transition means that the call blocks. *)
Inductive raw_read (n : nat) (now : Z) (c : rawPacketConn)
    : res (list byte * rawAddr) → rawPacketConn → Prop :=
| read_expired :
    readDeadline c ≠ zero_time → time_sub (readDeadline c) now <= 0 →
    raw_read n now c (Err ErrTimeout) c
| read_closed :
    (readDeadline c = zero_time ∨ 0 < time_sub (readDeadline c) now) → closeCh c = true →
    raw_read n now c (Err ErrClosed) c
| read_data d q :
    (readDeadline c = zero_time ∨ 0 < time_sub (readDeadline c) now) → recvCh c = d :: q →
    raw_read n now c (Ok (take n d, peerAddr c)) (set_recv c q (closeCh c) (reading c))
| read_timeout :
    readDeadline c ≠ zero_time → 0 < time_sub (readDeadline c) now →
    raw_read n now c (Err ErrTimeout) c.

(** The goroutine of [readLoop] takes a packet, of which [app] is the payload
    of the application layer, if there is one. *)
Inductive raw_receive (c : rawPacketConn) : option (list byte) → rawPacketConn → Prop :=
| recv_none : raw_receive c None c
| recv_empty : raw_receive c (Some []) c
| recv_push d :
    d ≠ [] → (length (recvCh c) < recv_cap)%nat →
    raw_receive c (Some d) (set_recv c (recvCh c ++ [d]) (closeCh c) (reading c))
| recv_closed d :
    d ≠ [] → closeCh c = true →
    raw_receive c (Some d) (set_recv c (recvCh c) (closeCh c) false)
| recv_drop d :
    d ≠ [] → length (recvCh c) = recv_cap → closeCh c = false →
    raw_receive c (Some d) c.

Inductive raw_label :=
| LPacket (app : option (list byte))
| LLoopEnd
| LRead (n : nat) (now : Z) (r : res (list byte * rawAddr))
| LDeadline (t : Z)
| LWrite (tr : list (event sysE)) (p : list byte) (r : Z * option goerr)
| LClose (tr : list (event sysE)).

Inductive raw_step : rawPacketConn → raw_label → rawPacketConn → Prop :=
| step_packet c app c' :
    reading c = true → raw_receive c app c' → raw_step c (LPacket app) c'
| step_loop_end c :
    reading c = true → raw_step c LLoopEnd (set_recv c (recvCh c) (closeCh c) false)
| step_read c n now r c' :
    raw_read n now c r c' → raw_step c (LRead n now r) c'
| step_deadline c t : raw_step c (LDeadline t) (SetReadDeadline c t)
| step_write c p tr r e c' :
    runs (WriteTo c p) tr (r, e, c') → raw_step c (LWrite tr p (r, e)) c'
| step_close c tr c' :
    runs (Close c) tr c' → raw_step c (LClose tr) c'.

Inductive raw_steps : rawPacketConn → list raw_label → rawPacketConn → Prop :=
| raw_refl c : raw_steps c [] c
| raw_snoc c ls c' l c'' :
    raw_steps c ls c' → raw_step c' l c'' → raw_steps c (ls ++ [l]) c''.

(** ** [itoa] prints decimals *)

Lemma digit_char n : 0 <= n → digit n = pretty_N_char (Z.to_N n `mod` 10)%N.
Proof.
  intros Hn. unfold digit. rewrite Z.rem_mod_nonneg by lia.
  assert (Z.to_N n `mod` 10 = Z.to_N (n `mod` 10))%N as -> by (rewrite Z2N.inj_mod by lia; done).
  pose proof (Z.mod_pos_bound n 10 ltac:(lia)) as Hr.
  assert (n `mod` 10 ∈ [0; 1; 2; 3; 4; 5; 6; 7; 8; 9]) as Hin
    by (rewrite !elem_of_cons; lia).
  revert Hin. generalize (n `mod` 10) as r. apply Forall_forall. repeat constructor.
Qed.

(** The loop writes the digits of [n] to the left of [i], provided there is
    room for them. *)
Lemma itoa_loop_spec fuel buf i n s :
  0 <= n < 10 ^ (i - 1) → 1 <= i <= Z.of_nat (length buf) → i <= Z.of_nat fuel →
  String.string_of_list_ascii (drop (Z.to_nat i) buf) = s →
  ∃ buf' i', itoa_loop fuel buf i n = Some (buf', i') ∧ 1 <= i' ∧ length buf' = length buf ∧
    i' <= Z.of_nat (length buf) ∧
    String.string_of_list_ascii (drop (Z.to_nat i') buf') = pretty_N_go (Z.to_N n) s.
Proof.
  revert buf i n s. induction fuel as [|fuel IH]; intros buf i n s Hn Hi Hf Hs; [lia|].
  cbn [itoa_loop]. destruct (Z.gtb_spec n 0) as [Hpos|Hpos].
  2:{ assert (n = 0) as -> by lia. exists buf, i. rewrite pretty_N_go_0. split_and!; [done|lia|done|lia|done]. }
  assert (2 <= i) by (destruct (decide (i = 1)) as [->|]; [simpl in Hn; lia|lia]).
  cbv zeta. rewrite (proj2 (Z.ltb_ge (i - 1) 0)) by lia.
  destruct (IH (<[Z.to_nat (i - 1):=digit n]> buf) (i - 1) (Z.quot n 10) (String (digit n) s))
    as (buf' & i' & -> & Hi' & Hlen & Hle & Heq).
  - rewrite Z.quot_div_nonneg by lia. split; [apply Z.div_pos; lia|].
    apply Z.div_lt_upper_bound; [lia|].
    replace (10 * 10 ^ (i - 1 - 1)) with (10 ^ (i - 1)); [lia|].
    rewrite <- Z.pow_succ_r by lia. f_equal. lia.
  - rewrite length_insert. lia.
  - lia.
  - rewrite (drop_S _ (digit n)).
    + simpl. rewrite drop_insert_lt by lia. replace (S (Z.to_nat (i - 1))) with (Z.to_nat i) by lia.
      by rewrite Hs.
    + apply list_lookup_insert_eq. lia.
  - exists buf', i'. rewrite length_insert in *. split_and!; [done..|].
    rewrite Heq, (pretty_N_go_step (Z.to_N n)) by lia.
    rewrite Z.quot_div_nonneg, Z2N.inj_div by lia. by rewrite digit_char by lia.
Qed.

Lemma itoa_digits n :
  0 < n < 2 ^ 63 → ∃ buf i, itoa_loop 64 (replicate 20 "000"%char) 20 n = Some (buf, i) ∧
    1 <= i <= Z.of_nat (length buf) ∧
    String.string_of_list_ascii (drop (Z.to_nat i) buf) = pretty n.
Proof.
  intros Hn. destruct (itoa_loop_spec 64 (replicate 20 "000"%char) 20 n "") as
    (buf & i & -> & Hi & Hlen & Hle & Heq); [lia|simpl; lia|lia|done|].
  exists buf, i. rewrite Hlen. split_and!; [done..|].
  rewrite Heq. destruct n as [|p|]; [lia|done|lia].
Qed.

(** C40. [itoa] is the decimal notation: for every 64-bit integer but the
    smallest it never leaves its 20-byte buffer and returns the decimal digits,
    with a minus sign for negative numbers. *)
Theorem itoa_decimal n : in_int64 n → n ≠ min_int64 → itoa n = Some (pretty n).
Proof.
  unfold in_int64, min_int64. intros Hn Hmin. unfold itoa.
  destruct (Z.eqb_spec n 0) as [->|H0]; [done|]. cbv zeta.
  destruct (Z.ltb_spec n 0) as [Hneg|Hpos].
  - rewrite int64_small by (unfold in_int64; lia).
    destruct (itoa_digits (- n)) as (buf & i & -> & Hi & Heq); [lia|]. simpl.
    rewrite (proj2 (Z.ltb_ge (i - 1) 0)) by lia. f_equal.
    rewrite (drop_S _ "-"%char) by (apply list_lookup_insert_eq; lia). simpl.
    rewrite drop_insert_lt by lia. replace (S (Z.to_nat (i - 1))) with (Z.to_nat i) by lia.
    rewrite Heq. destruct n; [lia|lia|done].
  - destruct (itoa_digits n) as (buf & i & -> & Hi & Heq); [lia|]. simpl. by rewrite Heq.
Qed.

Lemma itoa_decimal_witness :
  in_int64 (-9223372036854775807) ∧ itoa (-9223372036854775807) = Some (pretty (-9223372036854775807)).
Proof.
  split; [unfold in_int64; lia|]. apply itoa_decimal; unfold in_int64, min_int64; lia.
Defined.

(** The smallest integer is its own negation, and loses its digits. *)
Lemma itoa_min_int : itoa min_int64 = Some "-"%string.
Proof. reflexivity. Qed.

Lemma port_string_pretty p : 0 <= p < 65536 → port_string p = pretty p.
Proof.
  intros Hp. unfold port_string, itoa. destruct (Z.eqb_spec p 0) as [->|H0]; [done|]. cbv zeta.
  destruct (Z.ltb_spec p 0); [lia|].
  destruct (itoa_digits p) as (buf & i & -> & Hi & Heq); [lia|]. simpl. by rewrite Heq.
Qed.

(** ** The constructor *)

(** The capture handles a trace opens and closes. *)
Definition pcap_opened (ev : event sysE) : option nat :=
  match ev with
  | @Event _ _ e x =>
    match e in sysE X return X → option nat with
    | PcapOpenLive _ _ _ => λ r, match r with Ok h => Some h | Err _ => None end
    | _ => λ _, None
    end x
  end.

Definition pcap_closed (ev : event sysE) : option nat :=
  match ev with
  | @Event _ _ e _ => match e with PcapClose h => Some h | _ => None end
  end.

(** C22. [NewRawPacketConn] captures exactly the peer's segments: when it
    succeeds, it has opened one handle, on the given interface, promiscuously
    and for whole packets, which is open and filtered to the TCP segments from
    the peer's address and port to our port, in decimal; the connection has
    the MAC addresses, the addresses and the ports it was given, the peer that
    [ReadFrom] reports being the destination; it starts empty, without a
    deadline and at sequence number 1000.  When it fails, no handle is left
    open. *)
Theorem NewRawPacketConn_filters iface smac dmac sip dip sport dport :
  0 <= sport < 65536 → 0 <= dport < 65536 →
  wp (NewRawPacketConn iface smac dmac sip dip sport dport) (λ tr r,
    match r with
    | Ok c =>
      omap pcap_opened tr = [handle c] ∧ omap pcap_closed tr = [] ∧
      Event (PcapOpenLive iface 65536 true) (Ok (handle c)) ∈ tr ∧
      Event (PcapSetFilter (handle c) ("tcp and src host " +:+ dip +:+ " and src port " +:+
        pretty dport +:+ " and dst port " +:+ pretty sport)) None ∈ tr ∧
      Event (ParseMAC smac) (Ok (srcMAC c)) ∈ tr ∧ Event (ParseMAC dmac) (Ok (dstMAC c)) ∈ tr ∧
      Event (ParseIP4 sip) (srcIP c) ∈ tr ∧ Event (ParseIP4 dip) (dstIP c) ∈ tr ∧
      Event (ParseIP4 dip) (ip (peerAddr c)) ∈ tr ∧
      srcPort c = sport ∧ dstPort c = dport ∧ port (peerAddr c) = dport ∧
      recvCh c = [] ∧ closeCh c = false ∧ readDeadline c = zero_time ∧ seqNum c = 1000
    | Err _ => omap pcap_opened tr = omap pcap_closed tr
    end).
Proof.
  intros Hs Hd. unfold NewRawPacketConn, raw_filter.
  wp_call r1 H1. destruct r1 as [m1|]; [|done]. wp_call r2 H2. destruct r2 as [m2|]; [|done].
  wp_call r3 H3. destruct r3 as [h|]; [|done]. wp_call r4 H4. destruct r4 as [e|].
  - wp_call u Hu. done.
  - wp_call i1 Hi1. wp_call i2 Hi2. wp_call i3 Hi3. simpl.
    rewrite !port_string_pretty by done. split_and!; try done; set_solver.
Qed.

Lemma NewRawPacketConn_filters_witness :
  0 <= 4000 < 65536 ∧
  wp (NewRawPacketConn "eth0" "aa" "bb" "10.0.0.1" "10.0.0.2" 4000 443) (λ tr r,
    match r with
    | Ok c =>
      omap pcap_opened tr = [handle c] ∧ omap pcap_closed tr = [] ∧
      Event (PcapOpenLive "eth0" 65536 true) (Ok (handle c)) ∈ tr ∧
      Event (PcapSetFilter (handle c) ("tcp and src host " +:+ "10.0.0.2" +:+ " and src port " +:+
        pretty 443 +:+ " and dst port " +:+ pretty 4000)) None ∈ tr ∧
      Event (ParseMAC "aa") (Ok (srcMAC c)) ∈ tr ∧ Event (ParseMAC "bb") (Ok (dstMAC c)) ∈ tr ∧
      Event (ParseIP4 "10.0.0.1") (srcIP c) ∈ tr ∧ Event (ParseIP4 "10.0.0.2") (dstIP c) ∈ tr ∧
      Event (ParseIP4 "10.0.0.2") (ip (peerAddr c)) ∈ tr ∧
      srcPort c = 4000 ∧ dstPort c = 443 ∧ port (peerAddr c) = 443 ∧
      recvCh c = [] ∧ closeCh c = false ∧ readDeadline c = zero_time ∧ seqNum c = 1000
    | Err _ => omap pcap_opened tr = omap pcap_closed tr
    end).
Proof. split; [lia|]. apply NewRawPacketConn_filters; lia. Defined.

(** ** Sequence numbers *)

(** A series of writes, whatever their results. *)
Fixpoint raw_writes (c : rawPacketConn) (ps : list (list byte)) : prog sysE rawPacketConn :=
  match ps with
  | [] => mret c
  | p :: ps' => '(_, c') ← WriteTo c p; raw_writes c' ps'
  end.

(** The segments a trace asks to be serialized, the frames it gets of them, and
    the frames it transmits, with the handle. *)
Definition asked (ev : event sysE) : option tcp_packet :=
  match ev with
  | @Event _ _ e _ => match e with SerializeTCP p => Some p | _ => None end
  end.

Definition framed (ev : event sysE) : option (tcp_packet * list byte) :=
  match ev with
  | @Event _ _ e x =>
    match e in sysE X return X → option (tcp_packet * list byte) with
    | SerializeTCP p => λ r, match r with Ok frame => Some (p, frame) | Err _ => None end
    | _ => λ _, None
    end x
  end.

Definition transmitted (ev : event sysE) : option (nat * list byte) :=
  match ev with
  | @Event _ _ e _ => match e with PcapWrite h frame => Some (h, frame) | _ => None end
  end.

(** The addresses and flags of a segment of the connection. *)
Definition segment_of (c : rawPacketConn) (s : tcp_packet) : Prop :=
  eth_src s = srcMAC c ∧ eth_dst s = dstMAC c ∧ ip_src s = srcIP c ∧ ip_dst s = dstIP c ∧
  tcp_sport s = srcPort c ∧ tcp_dport s = dstPort c ∧ tcp_psh s = true ∧ tcp_ack s = true ∧
  ip_ttl s = 64 ∧ tcp_window s = 64240 ∧ tcp_acknum s = 1.

Definition total (l : list tcp_packet) : Z := Z.of_nat (length (concat (tcp_payload <$> l))).

Lemma total_cons p l : total (p :: l) = Z.of_nat (length (tcp_payload p)) + total l.
Proof. unfold total. rewrite fmap_cons. cbn [concat]. rewrite length_app. lia. Qed.

(** The numbers of a series of segments that starts at [start]. *)
Definition numbered (start : Z) (l : list tcp_packet) : Prop :=
  ∀ pre p post, l = pre ++ p :: post → tcp_seq p = uint32 (start + total pre).

Lemma numbered_nil start : numbered start [].
Proof. intros [|? pre] p post; simpl; congruence. Qed.

Lemma numbered_cons start p l :
  tcp_seq p = uint32 start →
  numbered (uint32 (start + Z.of_nat (length (tcp_payload p)))) l → numbered start (p :: l).
Proof.
  intros Hp Hl [|p' pre] q post [= <- Heq].
  - by rewrite Hp, Z.add_0_r.
  - rewrite (Hl _ _ _ Heq), uint32_add_l, total_cons. f_equal. lia.
Qed.

Lemma WriteTo_wp c p :
  wp (WriteTo c p) (λ tr '(n, e, c'),
    (∃ err, tr = [Event (SerializeTCP (raw_packet c p)) (Err err)] ∧ c' = c ∧ n = 0 ∧ e = Some err) ∨
    (∃ frame, tr = [Event (SerializeTCP (raw_packet c p)) (Ok frame);
                    Event (PcapWrite (handle c) frame) e] ∧
       c' = set_seq c (uint32 (seqNum c + Z.of_nat (length p))) ∧
       n = match e with None => Z.of_nat (length p) | Some _ => 0 end)).
Proof.
  unfold WriteTo. wp_call r Hr. destruct r as [f|e]; [|by left; exists e].
  assert (uint32 (seqNum c + uint32 (Z.of_nat (length p))) =
    uint32 (seqNum c + Z.of_nat (length p))) as Hseq
    by (rewrite (Z.add_comm (seqNum c) (uint32 _)), uint32_add_l; f_equal; lia).
  wp_call w Hw. destruct w as [e|]; right; exists f; by rewrite Hseq.
Qed.

(** What a series of writes on [c] does. *)
Definition wrote (c : rawPacketConn) (ps : list (list byte)) (tr : list (event sysE))
    (c' : rawPacketConn) : Prop :=
  (tcp_payload <$> omap asked tr) = ps ∧ Forall (segment_of c) (omap asked tr) ∧
  omap transmitted tr = (λ sf, (handle c, sf.2)) <$> omap framed tr ∧
  numbered (seqNum c) (fst <$> omap framed tr) ∧
  c' = set_seq c (uint32 (seqNum c + total (fst <$> omap framed tr))).

Lemma wrote_refused c p ps err tr c' :
  wrote c ps tr c' → wrote c (p :: ps) (Event (SerializeTCP (raw_packet c p)) (Err err) :: tr) c'.
Proof.
  intros (<- & Hall & Htr & Hnum & Hc). split_and!; [done|by constructor|done..].
Qed.

Lemma wrote_sent c p ps frame e tr c' :
  0 <= seqNum c < 2 ^ 32 →
  wrote (set_seq c (uint32 (seqNum c + Z.of_nat (length p)))) ps tr c' →
  wrote c (p :: ps) (Event (SerializeTCP (raw_packet c p)) (Ok frame) ::
    Event (PcapWrite (handle c) frame) e :: tr) c'.
Proof.
  intros Hseq (<- & Hall & Htr & Hnum & ->). split_and!; [done|by constructor| | |].
  - simpl. change (list_omap _ _ ?f ?l) with (omap f l). by rewrite Htr.
  - apply numbered_cons; [by rewrite uint32_small|done].
  - change (omap framed (_ :: _ :: tr)) with ((raw_packet c p, frame) :: omap framed tr).
    rewrite fmap_cons, total_cons. unfold set_seq. cbn. f_equal. rewrite uint32_add_l.
    f_equal. lia.
Qed.

(** C21. The segments of a connection look like one TCP stream: in any series of
    writes every payload is put in one segment, in order, which goes from our
    MAC address, address and port to the peer's with the flags of data; each
    segment that can be serialized is transmitted, as serialized, once and on
    the handle of the connection, and nothing else is; it carries, modulo 2^32,
    the sequence number that follows the bytes of all the segments before it,
    also those whose transmission failed; nothing else of the connection
    changes, and after the series the next number follows the last byte. *)
Theorem raw_writes_sequence c ps :
  0 <= seqNum c < 2 ^ 32 → wp (raw_writes c ps) (λ tr c', wrote c ps tr c').
Proof.
  intros Hseq. revert c Hseq. induction ps as [|p ps IH]; intros c Hseq; cbn [raw_writes].
  - split_and!; [done|constructor|done|apply numbered_nil|]. unfold total. simpl.
    rewrite Z.add_0_r, uint32_small by done. by destruct c.
  - apply wp_bind. eapply wp_mono, WriteTo_wp.
    intros tr [[n e] c'] [(err & -> & -> & _)|(frame & -> & -> & _)].
    + eapply wp_mono, IH; [|done]. intros tr' c''. apply wrote_refused.
    + eapply wp_mono, IH; [|apply uint32_range]. intros tr' c''. by apply wrote_sent.
Qed.

Definition demo_raw (seq : Z) : rawPacketConn := {|
  handle := 3; srcMAC := []; dstMAC := []; srcIP := None; dstIP := None; srcPort := 4000;
  dstPort := 443; peerAddr := {| ip := None; port := 443 |}; recvCh := []; closeCh := false;
  readDeadline := zero_time; seqNum := seq; reading := true
|}.

Lemma raw_writes_sequence_witness :
  0 <= 4294967295 < 2 ^ 32 ∧
  wp (raw_writes (demo_raw 4294967295) [[Byte.x01; Byte.x02]; [Byte.x03]]) (λ tr c',
    wrote (demo_raw 4294967295) [[Byte.x01; Byte.x02]; [Byte.x03]] tr c').
Proof. split; [lia|]. apply raw_writes_sequence. simpl. lia. Defined.

(** ** The receive queue *)

Definition arrival (l : raw_label) : option (list byte) :=
  match l with LPacket (Some (b :: d)) => Some (b :: d) | _ => None end.

Definition arrived (ls : list raw_label) : list (list byte) := omap arrival ls.

Definition delivery (l : raw_label) : option (nat * list byte) :=
  match l with LRead n _ (Ok (bs, _)) => Some (n, bs) | _ => None end.

Definition delivered (ls : list raw_label) : list (nat * list byte) := omap delivery ls.

Definition label_trace (l : raw_label) : list (event sysE) :=
  match l with LWrite tr _ _ | LClose tr => tr | _ => [] end.

(** What is kept of the arrivals: first the datagrams the readers took, then
    the queue. *)
Definition kept_by (c : rawPacketConn) (ls : list raw_label) (kept : list (list byte)) : Prop :=
  ∃ taken, kept = taken ++ recvCh c ∧
    Forall2 (λ r d, r.2 = take r.1 d) (delivered ls) taken ∧
    kept `sublist_of` arrived ls ∧ (length (recvCh c) <= recv_cap)%nat ∧
    (closeCh c = false → (length (arrived ls) <= recv_cap)%nat → kept = arrived ls).

Lemma WriteTo_queue c p tr n e c' :
  runs (WriteTo c p) tr (n, e, c') → recvCh c' = recvCh c ∧ closeCh c' = closeCh c ∧
    omap pcap_closed tr = [].
Proof.
  intros Hr. pose proof (wp_runs (WriteTo c p) (λ tr '(n, e, c'), recvCh c' = recvCh c ∧
    closeCh c' = closeCh c ∧ omap pcap_closed tr = []) tr (n, e, c')) as Hwp.
  apply Hwp; [|done]. unfold WriteTo. wp_call r Hr'. destruct r; [|done].
  wp_call w Hw. by destruct w.
Qed.

Lemma Close_wp c :
  wp (Close c) (λ tr c', c' = set_recv c (recvCh c) true (reading c) ∧
    omap pcap_closed tr = if closeCh c then [] else [handle c]).
Proof.
  unfold Close. destruct (closeCh c) eqn:Hc.
  - split; [|done]. rewrite <- Hc. by destruct c.
  - wp_call u Hu. done.
Qed.

(** A step without an arrival or a delivery. *)
Lemma kept_by_quiet c ls kept l c' :
  kept_by c ls kept → recvCh c' = recvCh c → (closeCh c' = false → closeCh c = false) →
  arrival l = None → delivery l = None → kept_by c' (ls ++ [l]) kept.
Proof.
  intros (taken & Hk & Htk & Hsub & Hlen & Hall) Hq Hc Ha Hd. exists taken.
  unfold arrived, delivered in *. rewrite !omap_app, Hq. simpl. rewrite Ha, Hd, !app_nil_r.
  split_and!; auto.
Qed.

Lemma kept_by_receive c ls kept app c' :
  kept_by c ls kept → raw_receive c app c' → ∃ kept', kept_by c' (ls ++ [LPacket app]) kept'.
Proof.
  intros Hkb Hr. pose proof Hkb as (taken & Hk & Htk & Hsub & Hlen & Hall).
  destruct Hr as [| |d Hd Hroom|d Hd Hclosed|d Hd Hfull Hopen].
  - exists kept. by eapply kept_by_quiet.
  - exists kept. by eapply kept_by_quiet.
  - exists (kept ++ [d]), taken. unfold arrived, delivered in *. rewrite !omap_app. simpl.
    destruct d as [|b d]; [done|]. rewrite app_nil_r. split_and!.
    + by rewrite Hk, <- app_assoc.
    + done.
    + by apply sublist_app.
    + rewrite length_app. simpl. lia.
    + rewrite length_app. simpl. intros Hcl Hle. rewrite Hall by (done || lia). done.
  - exists kept, taken. unfold arrived, delivered in *. rewrite !omap_app. simpl.
    destruct d as [|b d]; [done|]. rewrite app_nil_r. split_and!; [done..| |done|congruence].
    by apply sublist_inserts_r.
  - exists kept, taken. unfold arrived, delivered in *. rewrite !omap_app. simpl.
    destruct d as [|b d]; [done|]. rewrite app_nil_r. split_and!; [done..| |done|].
    + by apply sublist_inserts_r.
    + rewrite length_app. simpl. intros _ Hle.
      apply sublist_length in Hsub. rewrite Hk, length_app in Hsub. lia.
Qed.

Lemma kept_by_read c ls kept n now r c' :
  kept_by c ls kept → raw_read n now c r c' → kept_by c' (ls ++ [LRead n now r]) kept.
Proof.
  intros Hkb Hr. destruct Hr as [| |d q Hdl Hq|]; try by eapply kept_by_quiet.
  destruct Hkb as (taken & Hk & Htk & Hsub & Hlen & Hall). exists (taken ++ [d]).
  unfold arrived, delivered in *. rewrite !omap_app. simpl. rewrite app_nil_r.
  rewrite Hq in *. simpl in Hlen. split_and!; [by rewrite <- app_assoc| |done|lia|done].
  apply Forall2_app; [done|]. by constructor.
Qed.

Lemma kept_by_step c ls kept l c' :
  kept_by c ls kept → raw_step c l c' → ∃ kept', kept_by c' (ls ++ [l]) kept'.
Proof.
  intros Hkb Hs.
  destruct Hs as [c1 app c1' _ Hr|c1 _|c1 n now r c1' Hr|c1 t|c1 p tr r e c1' Hr|c1 tr c1' Hr].
  - by eapply kept_by_receive.
  - exists kept. by eapply kept_by_quiet.
  - exists kept. by eapply kept_by_read.
  - exists kept. by eapply kept_by_quiet.
  - apply WriteTo_queue in Hr as (Hq & Hc & _). exists kept.
    eapply kept_by_quiet; [done|done| |done|done]. by rewrite Hc.
  - apply (wp_runs _ _ _ _ (Close_wp c1)) in Hr as [-> _]. exists kept. by eapply kept_by_quiet.
Qed.

(** C9. The receive queue of a connection: however packets, reads, writes and
    [Close] interleave, it holds at most 1024 datagrams; the datagrams come out
    in the order in which they arrived, each at most once and each cut to the
    reader's buffer; and as long as the connection is open and no more than
    1024 datagrams have arrived, none is lost. *)
Theorem raw_queue_fifo c0 ls c :
  recvCh c0 = [] → raw_steps c0 ls c → ∃ kept, kept_by c ls kept.
Proof.
  intros H0. induction 1 as [c|c ls c' l c'' Hss IH Hs].
  - exists [], []. rewrite H0. split_and!; [done|constructor|done|simpl; lia|done].
  - destruct (IH H0) as [kept Hk]. by eapply kept_by_step.
Qed.

(** [Close] is idempotent: in every execution from an open connection the
    capture handle is closed exactly once if [Close] was called at all, and
    never otherwise. *)
Theorem raw_close_once c0 ls c :
  closeCh c0 = false → raw_steps c0 ls c →
  omap pcap_closed (concat (label_trace <$> ls)) = (if closeCh c then [handle c0] else []) ∧
  (closeCh c = true ↔ Exists (λ l, ∃ tr, l = LClose tr) ls).
Proof.
  intros H0 Hss.
  enough (handle c = handle c0 ∧
    omap pcap_closed (concat (label_trace <$> ls)) = (if closeCh c then [handle c0] else []) ∧
    (closeCh c = true ↔ Exists (λ l, ∃ tr, l = LClose tr) ls)) by tauto.
  induction Hss as [c|c ls c' l c'' Hss IH Hs].
  { rewrite H0, Exists_nil. done. }
  destruct (IH H0) as (Hh & Htr & Hcl).
  rewrite fmap_app, concat_app, omap_app, Htr, Exists_app, Exists_cons, Exists_nil, <- Hcl. simpl.
  rewrite app_nil_r.
  assert (∀ ev, ¬ (∃ tr, l = LClose tr) → handle c'' = handle c' → closeCh c'' = closeCh c' →
    omap pcap_closed ev = [] → handle c'' = handle c ∧
    (if closeCh c' then [handle c] else []) ++ omap pcap_closed ev =
      (if closeCh c'' then [handle c] else []) ∧
    (closeCh c'' = true ↔ closeCh c' = true ∨ (∃ tr, l = LClose tr) ∨ False)) as Hquiet
    by (intros ev Hn -> -> ->; rewrite app_nil_r; tauto).
  destruct Hs as [c1 app c1' _ Hr|c1 _|c1 n now r c1' Hr|c1 t|c1 p tr r e c1' Hr|c1 tr c1' Hr];
    try (apply Hquiet; [by intros [? ?]|by destruct Hr|by destruct Hr|done]).
  - by apply Hquiet; [intros [? ?]|..].
  - by apply Hquiet; [intros [? ?]|..].
  - pose proof (WriteTo_wp c1 p) as Hwp. apply (wp_runs _ _ _ _ Hwp) in Hr as Hr'.
    apply WriteTo_queue in Hr as (_ & Hc & Hev). apply Hquiet; [by intros [? ?]| |done|done].
    by destruct Hr' as [(? & _ & -> & _)|(? & _ & -> & _)].
  - apply (wp_runs _ _ _ _ (Close_wp c1)) in Hr as [-> Hev]. simpl. rewrite Hev.
    destruct (closeCh c1); simpl; rewrite ?Hh; split_and!; try done; split; eauto.
Qed.

(** A datagram of two bytes arrives and is read into a buffer of one. *)
Definition demo_labels : list raw_label :=
  [LPacket (Some [Byte.x41; Byte.x42]);
   LRead 1 0 (Ok ([Byte.x41], {| ip := None; port := 443 |}));
   LClose [Event (PcapClose 3) tt]].

Lemma demo_steps : raw_steps (demo_raw 1000) demo_labels (set_recv (demo_raw 1000) [] true true).
Proof.
  apply (raw_snoc _ (take 2 demo_labels) (set_recv (demo_raw 1000) [] false true)).
  - apply (raw_snoc _ (take 1 demo_labels)
      (set_recv (demo_raw 1000) [[Byte.x41; Byte.x42]] false true)).
    + apply (raw_snoc _ [] (demo_raw 1000)); [constructor|].
      apply step_packet; [done|]. apply (recv_push (demo_raw 1000)); [done|]. simpl. unfold recv_cap. lia.
    + apply step_read. apply (read_data 1 0 (set_recv (demo_raw 1000) [[Byte.x41; Byte.x42]] false true)
        [Byte.x41; Byte.x42] []); [by left|done].
  - apply step_close. exists tt, []. by split_and!.
Qed.

Lemma raw_queue_fifo_witness :
  recvCh (demo_raw 1000) = [] ∧
  ∃ kept, kept_by (set_recv (demo_raw 1000) [] true true) demo_labels kept.
Proof. split; [done|]. exact (raw_queue_fifo (demo_raw 1000) demo_labels _ eq_refl demo_steps). Defined.

Lemma raw_close_once_witness :
  omap pcap_closed (concat (label_trace <$> demo_labels)) =
    (if closeCh (set_recv (demo_raw 1000) [] true true) then [handle (demo_raw 1000)] else []) ∧
  (closeCh (set_recv (demo_raw 1000) [] true true) = true ↔
   Exists (λ l, ∃ tr, l = LClose tr) demo_labels).
Proof. exact (raw_close_once (demo_raw 1000) demo_labels _ eq_refl demo_steps). Defined.
