(* ===== verification/Pipe.v ===== *)
(** * engine.go: [pipe]

    Two goroutines copy in the two directions; the one whose copy ends first
    closes both ends, through a [sync.Once], so that the other's copy ends too;
    [pipe] returns when both are done. *)

From S2P Require Import Prelude.

(** A goroutine: copying; at [once.Do]; inside [closeBoth], before each of the
    two calls; done. *)
Inductive copier := Copying | AtOnce | ClosingA | ClosingB | Finished.

(** The [sync.Once]: another goroutine's [Do] waits while it is running. *)
Inductive once := NotRun | Running | HasRun.

Record pipe := {
  first : copier;
  second : copier;
  once_state : once;
  closedA : nat;
  closedB : nat;
  returned : bool
}.

Definition pipe_start : pipe := {|
  first := Copying; second := Copying; once_state := NotRun; closedA := 0; closedB := 0;
  returned := false
|}.

Inductive who := First | Second.

Definition at_who (w : who) (p : pipe) : copier :=
  match w with First => first p | Second => second p end.

Definition set_who (w : who) (c : copier) (o : once) (a b : nat) (p : pipe) : pipe :=
  match w with
  | First => {| first := c; second := second p; once_state := o; closedA := a; closedB := b;
                returned := returned p |}
  | Second => {| first := first p; second := c; once_state := o; closedA := a; closedB := b;
                 returned := returned p |}
  end.

Inductive pipe_step : pipe → pipe → Prop :=
| copy_ends p w :
    at_who w p = Copying →
    pipe_step p (set_who w AtOnce (once_state p) (closedA p) (closedB p) p)
| once_runs p w :
    at_who w p = AtOnce → once_state p = NotRun →
    pipe_step p (set_who w ClosingA Running (closedA p) (closedB p) p)
| once_ran p w :
    at_who w p = AtOnce → once_state p = HasRun →
    pipe_step p (set_who w Finished HasRun (closedA p) (closedB p) p)
| close_a p w :
    at_who w p = ClosingA →
    pipe_step p (set_who w ClosingB (once_state p) (S (closedA p)) (closedB p) p)
| close_b p w :
    at_who w p = ClosingB →
    pipe_step p (set_who w Finished HasRun (closedA p) (S (closedB p)) p)
| wait_returns p :
    first p = Finished → second p = Finished → returned p = false →
    pipe_step p {| first := first p; second := second p; once_state := once_state p;
                   closedA := closedA p; closedB := closedB p; returned := true |}.

Inductive pipe_steps : pipe → nat → pipe → Prop :=
| pipe_refl p : pipe_steps p 0 p
| pipe_next p n p' p'' : pipe_steps p n p' → pipe_step p' p'' → pipe_steps p (S n) p''.

(** ** The invariant *)

(** How often each end has been closed, and whether [pipe] has returned, from
    where the goroutines are. *)
Definition pipe_ok (p : pipe) : Prop :=
  let st := (closedA p, closedB p, returned p) in
  match once_state p, first p, second p with
  | NotRun, (Copying | AtOnce), (Copying | AtOnce) => st = (0, 0, false)%nat
  | Running, ClosingA, (Copying | AtOnce) | Running, (Copying | AtOnce), ClosingA =>
      st = (0, 0, false)%nat
  | Running, ClosingB, (Copying | AtOnce) | Running, (Copying | AtOnce), ClosingB =>
      st = (1, 0, false)%nat
  | HasRun, Finished, (Copying | AtOnce) | HasRun, (Copying | AtOnce), Finished =>
      st = (1, 1, false)%nat
  | HasRun, Finished, Finished => (closedA p, closedB p) = (1, 1)%nat
  | _, _, _ => False
  end.

Lemma pipe_ok_step p p' : pipe_ok p → pipe_step p p' → pipe_ok p'.
Proof.
  intros Hp Hs. destruct Hs as [p w Hw|p w Hw Ho|p w Hw Ho|p w Hw|p w Hw|p H1 H2 Hr];
    destruct p as [c1 c2 o a b r]; try destruct w; simpl in *; subst; unfold pipe_ok in *;
    simpl in *; repeat case_match; simplify_eq; try done.
Qed.

Lemma pipe_ok_steps p n p' : pipe_steps p n p' → pipe_ok p → pipe_ok p'.
Proof. induction 1; eauto using pipe_ok_step. Qed.

(** The steps a goroutine has left at most. *)
Definition left_to_do (c : copier) : nat :=
  match c with Copying => 4 | AtOnce => 3 | ClosingA => 2 | ClosingB => 1 | Finished => 0 end.

Definition pipe_measure (p : pipe) : nat :=
  left_to_do (first p) + left_to_do (second p) + (if returned p then 0 else 1).

Lemma pipe_step_measure p p' : pipe_step p p' → (pipe_measure p' < pipe_measure p)%nat.
Proof.
  intros Hs. unfold pipe_measure.
  destruct Hs as [p w Hw|p w Hw Ho|p w Hw Ho|p w Hw|p w Hw|p H1 H2 Hr];
    try destruct w; simpl in *; rewrite ?Hw, ?H1, ?H2, ?Hr; simpl; lia.
Qed.

Lemma pipe_steps_measure p n p' : pipe_steps p n p' → (n + pipe_measure p' <= pipe_measure p)%nat.
Proof. induction 1 as [|p n p' p'' _ IH Hs%pipe_step_measure]; lia. Qed.

(** ** Properties *)

(** C14. [pipe] closes each of its two ends exactly once: however the two
    goroutines interleave, no end is closed while both still copy or more than
    once, and when [pipe] returns both are closed and both goroutines are
    done. *)
Theorem pipe_closes_once n p :
  pipe_steps pipe_start n p →
  (closedA p <= 1)%nat ∧ (closedB p <= closedA p)%nat ∧
  (first p = Copying → second p = Copying → closedA p = 0%nat) ∧
  (returned p = true → closedA p = 1%nat ∧ closedB p = 1%nat ∧
     first p = Finished ∧ second p = Finished).
Proof.
  intros Hs%pipe_ok_steps; [|done]. destruct p as [c1 c2 o a b r].
  unfold pipe_ok in Hs. simpl in *. repeat case_match; simplify_eq; split_and!; try done; lia.
Qed.

(** C23. [pipe] returns: the copies having ended, the two goroutines never wait
    for each other forever; every execution has at most nine steps, and one
    that cannot go on has returned. *)
Theorem pipe_returns n p :
  pipe_steps pipe_start n p →
  (n <= 9)%nat ∧ ((∀ p', ¬ pipe_step p p') → returned p = true).
Proof.
  intros Hs. split; [pose proof (pipe_steps_measure _ _ _ Hs) as Hm; cbn in Hm; lia|].
  intros Hstuck. apply pipe_ok_steps in Hs; [|done].
  destruct (returned p) eqn:Hr; [done|]. exfalso.
  assert (∀ w, at_who w p ≠ Copying ∧ at_who w p ≠ ClosingA ∧ at_who w p ≠ ClosingB) as Hgo.
  { intros w. split_and!; intros Hw; eapply Hstuck; by econstructor. }
  pose proof (Hgo First) as (? & ? & ?). pose proof (Hgo Second) as (? & ? & ?).
  assert (∀ w, at_who w p = AtOnce → once_state p = Running) as Hwait.
  { intros w Hw. destruct (once_state p) eqn:Ho; [|done|]; exfalso; eapply Hstuck;
      [by apply (once_runs p w)|by apply (once_ran p w)]. }
  pose proof (Hwait First). pose proof (Hwait Second).
  destruct p as [c1 c2 o a b r]. unfold pipe_ok in Hs. simpl in *.
  repeat case_match; simplify_eq/=; try done; naive_solver eauto using wait_returns.
Qed.

(** The first copy ends, its goroutine closes both ends, and then the second. *)
Lemma pipe_run : pipe_steps pipe_start 7
  {| first := Finished; second := Finished; once_state := HasRun; closedA := 1; closedB := 1;
     returned := true |}.
Proof.
  eapply pipe_next; [eapply pipe_next; [eapply pipe_next; [eapply pipe_next; [eapply pipe_next;
    [eapply pipe_next; [eapply pipe_next; [apply pipe_refl|]|]|]|]|]|]|].
  - by apply (copy_ends _ First).
  - by apply (once_runs _ First).
  - by apply (close_a _ First).
  - by apply (close_b _ First).
  - by apply (copy_ends _ Second).
  - by apply (once_ran _ Second).
  - by apply wait_returns.
Qed.

Lemma pipe_closes_once_witness :
  (1 <= 1)%nat ∧ (1 <= 1)%nat ∧ (Finished = Copying → Finished = Copying → 1 = 0)%nat ∧
  (true = true → 1 = 1 ∧ 1 = 1 ∧ Finished = Finished ∧ Finished = Finished)%nat.
Proof. exact (pipe_closes_once 7 _ pipe_run). Defined.

Lemma pipe_returns_witness :
  let p := {| first := Finished; second := Finished; once_state := HasRun; closedA := 1;
              closedB := 1; returned := true |} in
  (7 <= 9)%nat ∧ ((∀ p', ¬ pipe_step p p') → returned p = true).
Proof. exact (pipe_returns 7 _ pipe_run). Defined.
