(* ===== verification/Tunnel.v ===== *)
(** * engine.go, engine_tls.go, engine_ws.go, engine_raw.go: sessions

    The client of each transport caches one smux session and opens a stream on
    it for every local connection; the server accepts sessions and serves every
    stream from a goroutine of its own. *)

From S2P Require Import Prelude Effects Net Stream Obfs TlsTransport WsTransport TunnelConfig RawPacketConn.

Record RawParams := {
  rp_Iface : string;
  rp_SrcMAC : string;
  rp_GwMAC : string;
  rp_SrcIP : string;
  rp_DstIP : string;
  rp_SrcPort : Z;
  rp_DstPort : Z
}.

Section client.
(** The package variables of tls_transport.go, [smux.DefaultConfig()] and the
    key of the block cipher. *)
Context (g : tls_globals) (d : smux_config) (key : list byte).

(** ** The four ways to reach the server *)

Definition dial_udp (remote : string) : prog sysE (res conn) :=
  r ← trigger (KcpDial remote key kcpDataShards kcpParityShards);
  match r with
  | Err e => mret (Err e)
  | Ok c => _ ← applyKCP c; mret (Ok c)
  end.

Definition dial_raw (rp : RawParams) (peer : rawAddr) : prog sysE (res conn) :=
  p ← NewRawPacketConn (rp_Iface rp) (rp_SrcMAC rp) (rp_GwMAC rp) (rp_SrcIP rp) (rp_DstIP rp)
        (rp_SrcPort rp) (rp_DstPort rp);
  match p with
  | Err e => mret (Err e)
  | Ok pconn =>
    r ← trigger (KcpNewConn3 1 (ip peer) (port peer) key kcpDataShards kcpParityShards (handle pconn));
    match r with
    | Err e => _ ← Close pconn; mret (Err e)
    | Ok c => _ ← applyKCP c; mret (Ok c)
    end
  end.

(** ** [getSession]

    What the closures of the four clients do after the test of the cached
    session: dial, wrap, start the session and store it. *)
Definition new_session (dial : prog sysE (res conn)) (cached : option session)
    : prog sysE (res session * option session) :=
  r ← dial;
  match r with
  | Err e => mret (Err e, cached)
  | Ok c =>
    let obfsed := WrapObfs c DefaultObfsConfig in
    s ← trigger (SmuxClient obfsed (smuxConfig d));
    match s with
    | Err e => _ ← trigger (ConnClose c); mret (Err e, cached)
    | Ok s => mret (Ok s, Some s)
    end
  end.

Definition cached_session (dial : prog sysE (res conn)) (cached : option session)
    : prog sysE (res session * option session) :=
  match cached with
  | Some s =>
    closed ← trigger (SmuxIsClosed s);
    if negb closed then mret (Ok s, cached) else new_session dial cached
  | None => new_session dial cached
  end.

Definition udp_getSession (remote : string) := cached_session (dial_udp remote).
Definition tls_getSession (remote sni : string) := cached_session (dialTLS g remote sni).
Definition ws_getSession (remote host path sni : string) (useTLS : bool) :=
  cached_session (dialWS g remote host path sni useTLS).
Definition raw_getSession (rp : RawParams) (peer : rawAddr) := cached_session (dial_raw rp peer).

(** The goroutine of one local connection. *)
Definition serve_client (getSession : option session → prog sysE (res session * option session))
    (client : conn) (cached : option session) : prog sysE (option session) :=
  '(r, cached) ← getSession cached;
  match r with
  | Err _ => _ ← trigger (ConnClose client); mret cached
  | Ok s =>
    st ← trigger (SmuxOpenStream s);
    match st with
    | Err _ => _ ← trigger (ConnClose client); mret cached
    | Ok st => _ ← trigger (Pipe (PConn client) (PStream st)); mret cached
    end
  end.

(** ** The server *)

(** The loop over the streams of a session; [None] when the fuel runs out,
    that is, while the session still serves. *)
Fixpoint accept_streams (fuel : nat) (s : session) (target : string) : prog sysE (option unit) :=
  match fuel with
  | O => mret None
  | S fuel' =>
    st ← trigger (SmuxAcceptStream s);
    match st with
    | Err _ => mret (Some tt)
    | Ok st => _ ← trigger (GoStream st target); accept_streams fuel' s target
    end
  end.

(** [handleServerSession], with its deferred calls. *)
Definition handleServerSession (fuel : nat) (c : conn) (target : string) : prog sysE (option unit) :=
  let obfsed := WrapObfs c DefaultObfsConfig in
  s ← trigger (SmuxServer obfsed (smuxConfig d));
  match s with
  | Err _ => _ ← trigger (ConnClose c); mret (Some tt)
  | Ok s =>
    r ← accept_streams fuel s target;
    match r with
    | None => mret None
    | Some _ => _ ← trigger (SmuxClose s); _ ← trigger (ConnClose c); mret (Some tt)
    end
  end.

Definition handleTLSServerSession (fuel : nat) (c : conn) (target : string)
    : prog sysE (option unit) := handleServerSession fuel c target.

(** The goroutine of one stream. *)
Definition serve_stream (st : stream) (target : string) : prog sysE unit :=
  out ← dialTCP target;
  match out with
  | Err _ => trigger (StreamClose st)
  | Ok out => _ ← trigger (Pipe (PStream st) (PConn out)); trigger (StreamClose st)
  end.

(** ** The accept loops

    [retry] is whether the loop goes on after an error of [Accept] and [kcp]
    whether the connection is tuned; [None] when the fuel runs out. *)
Fixpoint accept_loop (fuel : nat) (retry kcp : bool) (l : listener) (target : string)
    : prog sysE (option unit) :=
  match fuel with
  | O => mret None
  | S fuel' =>
    r ← trigger (Accept l);
    match r with
    | Err _ => if retry then accept_loop fuel' retry kcp l target else mret (Some tt)
    | Ok c =>
      _ ← (if kcp then applyKCP c else mret tt);
      _ ← trigger (GoServe c target);
      accept_loop fuel' retry kcp l target
    end
  end.

(** The servers; an error is a [log.Fatalf]. *)
Definition runServer (fuel : nat) (listen target : string) : prog sysE (res (option unit)) :=
  lis ← trigger (KcpListen listen key kcpDataShards kcpParityShards);
  match lis with
  | Err e => mret (Err e)
  | Ok lis => r ← accept_loop fuel true true lis target; mret (Ok r)
  end.

Definition runServerTLS (fuel : nat) (listen target sni : string) : prog sysE (res (option unit)) :=
  ln ← NewTLSListener listen sni;
  match ln with
  | Err e => mret (Err e)
  | Ok ln => r ← accept_loop fuel true false ln target; mret (Ok r)
  end.

Definition runServerWS (fuel : nat) (listen target path sni : string) (useTLS : bool)
    : prog sysE (res (option unit)) :=
  ln ← NewWSListener listen path sni useTLS;
  match ln with
  | Err e => mret (Err e)
  | Ok (_, ln, _, _) => r ← accept_loop fuel false false ln target; mret (Ok r)
  end.

Definition runServerRaw (fuel : nat) (target : string) (rp : RawParams)
    : prog sysE (res (option unit)) :=
  p ← NewRawPacketConn (rp_Iface rp) (rp_SrcMAC rp) (rp_GwMAC rp) (rp_SrcIP rp) (rp_DstIP rp)
        (rp_SrcPort rp) (rp_DstPort rp);
  match p with
  | Err e => mret (Err e)
  | Ok pconn =>
    lis ← trigger (KcpServeConn key kcpDataShards kcpParityShards (handle pconn));
    match lis with
    | Err e => mret (Err e)
    | Ok lis =>
      r ← accept_loop fuel false true lis target;
      match r with
      | None => mret (Ok None)
      | Some _ => _ ← Close pconn; mret (Ok r)
      end
    end
  end.

End client.

(** The settings of the tunnel have been made on [c]. *)
Definition tuned (tr : list (event sysE)) (c : conn) : Prop :=
  Event (KcpOption c (SetMtu 1350)) tt ∈ tr ∧
  Event (KcpOption c (SetWindowSize 512 512)) tt ∈ tr ∧
  Event (KcpOption c (SetKcpNoDelay 1 20 2 1)) tt ∈ tr.

Lemma tuned_app_l tr tr' c : tuned tr c → tuned (tr ++ tr') c.
Proof. intros (? & ? & ?). unfold tuned. rewrite !elem_of_app. auto. Qed.

Lemma tuned_app_r tr tr' c : tuned tr' c → tuned (tr ++ tr') c.
Proof. intros (? & ? & ?). unfold tuned. rewrite !elem_of_app. auto. Qed.

Lemma applyKCP_tunes c : wp (applyKCP c) (λ tr _, tuned tr c).
Proof.
  unfold applyKCP. wp_steps. repeat match goal with u : unit |- _ => destruct u end.
  unfold tuned. rewrite !elem_of_cons. tauto.
Qed.

(** ** The clients as one family *)

Inductive transport :=
| TUdp (remote : string)
| TTls (remote sni : string)
| TWs (remote host path sni : string) (useTLS : bool)
| TRaw (rp : RawParams) (peer : rawAddr).

Section spec.
Context (g : tls_globals) (d : smux_config) (key : list byte).

Definition dial_of (t : transport) : prog sysE (res conn) :=
  match t with
  | TUdp remote => dial_udp key remote
  | TTls remote sni => dialTLS g remote sni
  | TWs remote host path sni useTLS => dialWS g remote host path sni useTLS
  | TRaw rp peer => dial_raw key rp peer
  end.

Definition getSession (t : transport) : option session → prog sysE (res session * option session) :=
  match t with
  | TUdp remote => udp_getSession d key remote
  | TTls remote sni => tls_getSession g d remote sni
  | TWs remote host path sni useTLS => ws_getSession g d remote host path sni useTLS
  | TRaw rp peer => raw_getSession d key rp peer
  end.

Lemma getSession_eq t : getSession t = cached_session d (dial_of t).
Proof. by destruct t. Qed.

(** ** Dialling leaves nothing behind

    The session a call starts, and the one it finds closed. *)
Definition started (ev : event sysE) : option session :=
  match ev with
  | @Event _ _ e x =>
    match e in sysE X return X → option session with
    | SmuxClient _ _ => λ r, match r with Ok s => Some s | Err _ => None end
    | _ => λ _, None
    end x
  end.

Definition found_closed (ev : event sysE) : option session :=
  match ev with
  | @Event _ _ e x =>
    match e in sysE X return X → option session with
    | SmuxIsClosed s => λ b, if b : bool then Some s else None
    | _ => λ _, None
    end x
  end.

(** Calls that neither open a connection, nor start a session or look at one. *)
Definition quiet (tr : list (event sysE)) : Prop :=
  Forall (λ ev, opens ev = None ∧ started ev = None ∧ found_closed ev = None) tr.

(** Calls that neither start a session nor look at one. *)
Definition unrelated (tr : list (event sysE)) : Prop :=
  Forall (λ ev, started ev = None ∧ found_closed ev = None) tr.

Lemma quiet_no_leak keep tr : quiet tr → no_leak keep tr.
Proof. induction 1 as [|ev tr [Hev _] _ IH]; [done|by apply no_leak_silent]. Qed.

Lemma quiet_unrelated tr : quiet tr → unrelated tr.
Proof. intros Htr. eapply Forall_impl; [done|]. by intros ev [_ Hev]. Qed.

Lemma applyKCP_quiet c : wp (applyKCP c) (λ tr _, quiet tr).
Proof. unfold applyKCP. wp_steps. by repeat constructor. Qed.

Lemma NewRawPacketConn_quiet iface smac dmac sip dip sport dport :
  wp (NewRawPacketConn iface smac dmac sip dip sport dport) (λ tr _, quiet tr).
Proof. unfold NewRawPacketConn. wp_steps; by repeat constructor. Qed.

Lemma Close_quiet c : wp (Close c) (λ tr _, quiet tr).
Proof. unfold Close. destruct (closeCh c); [constructor|]. wp_steps. by repeat constructor. Qed.

(** A connection that was just opened, and tuned. *)
Lemma tuned_clean c (ev : event sysE) (tr0 : list (event sysE)) :
  opens ev = Some c → quiet tr0 →
  wp (_ ← applyKCP c; mret (Ok c)) (λ tr r, dial_clean (tr0 ++ ev :: tr) r).
Proof.
  intros Hev H0. apply wp_bind. eapply wp_mono, applyKCP_quiet. intros tr u Htr. simpl.
  rewrite app_nil_r. apply no_leak_app; [by apply quiet_no_leak|].
  simpl. rewrite Hev. split; [by left|by apply quiet_no_leak].
Qed.

Lemma dial_of_clean t : wp (dial_of t) dial_clean.
Proof.
  destruct t as [remote|remote sni|remote host path sni useTLS|rp peer]; cbn [dial_of].
  - unfold dial_udp. wp_call r Hr. destruct r as [c|e]; [|by split].
    apply (tuned_clean c _ []); [done|constructor].
  - eapply wp_mono, dialTLS_wp. intros tr r [Hr _]. destruct r; [apply Hr|done].
  - unfold dialWS. wp_call r Hr. destruct r as [c|]; simpl; [|done]. split; [by left|done].
  - unfold dial_raw. apply wp_bind. eapply wp_mono, NewRawPacketConn_quiet.
    intros tr p Htr. destruct p as [pconn|e]; [|simpl; rewrite app_nil_r; by apply quiet_no_leak].
    wp_call r Hr. destruct r as [c|e]; [by apply tuned_clean|].
    apply wp_bind. eapply wp_mono, Close_quiet. intros tr' u Htr'. simpl. rewrite app_nil_r.
    apply quiet_no_leak, Forall_app. split; [done|by constructor].
Qed.

(** ** [getSession]

    Whom a call dials, and whom the client of a transport is to dial. *)
Inductive peer := PAddr (addr : string) | PRaw (ip : option (list byte)) (port : Z).

Definition dial_target (ev : event sysE) : option peer :=
  match ev with
  | @Event _ _ e _ =>
    match e with
    | KcpDial addr _ _ _ | NetDial _ addr | TlsDial _ addr _ => Some (PAddr addr)
    | WsDial _ u _ => Some (PAddr (Host u))
    | KcpNewConn3 _ ip port _ _ _ _ => Some (PRaw ip port)
    | _ => None
    end
  end.

Definition target_of (t : transport) : peer :=
  match t with
  | TUdp remote | TTls remote _ | TWs remote _ _ _ _ => PAddr remote
  | TRaw _ peer => PRaw (ip peer) (port peer)
  end.

(** The server is dialled once; the raw client may fail before that. *)
Definition dialled_once (t : transport) (trd : list (event sysE)) (r : res conn) : Prop :=
  omap dial_target trd = [target_of t] ∨
  (omap dial_target trd = [] ∧ (∃ rp peer, t = TRaw rp peer) ∧ ∃ e, r = Err e).

(** How the server was reached.  A KCP connection is encrypted with the key, has
    10 data and 3 parity shards, and is tuned; a TLS connection has finished
    its handshake; a WebSocket is the connection the dial gave. *)
Definition reached (t : transport) (trd : list (event sysE)) (c : conn) : Prop :=
  match t with
  | TUdp remote => Event (KcpDial remote key 10 3) (Ok c) ∈ trd ∧ tuned trd c
  | TTls _ _ => shaken trd c
  | TWs _ _ _ _ _ => ∃ dl u hdr c0, Event (WsDial dl u hdr) (Ok c0) ∈ trd ∧ c = wrap_conn LWs c0
  | TRaw _ peer =>
    (∃ h, Event (KcpNewConn3 1 (ip peer) (port peer) key 10 3 h) (Ok c) ∈ trd) ∧ tuned trd c
  end.

(** Why it was not: the dial, the handshake or the packet connection failed,
    with the error that is returned. *)
Definition unreached (t : transport) (trd : list (event sysE)) (e : goerr) : Prop :=
  match t with
  | TUdp remote => Event (KcpDial remote key 10 3) (Err e) ∈ trd
  | TTls _ _ =>
    (∃ dl addr, Event (NetDial dl addr) (Err e) ∈ trd) ∨
    (∃ dl addr cfg, Event (TlsDial dl addr cfg) (Err e) ∈ trd) ∨
    (∃ c e', Event (TlsHandshake c) (Some e') ∈ trd ∧ (e = e' ∨ e = ErrWrap "uTLS handshake" e'))
  | TWs _ _ _ _ _ => ∃ dl u hdr, Event (WsDial dl u hdr) (Err e) ∈ trd
  | TRaw rp peer =>
    (∃ h, Event (KcpNewConn3 1 (ip peer) (port peer) key 10 3 h) (Err e) ∈ trd) ∨
    runs (NewRawPacketConn (rp_Iface rp) (rp_SrcMAC rp) (rp_GwMAC rp) (rp_SrcIP rp) (rp_DstIP rp)
      (rp_SrcPort rp) (rp_DstPort rp)) trd (Err e)
  end.

Definition dial_spec (t : transport) (trd : list (event sysE)) (r : res conn) : Prop :=
  dialled_once t trd r ∧
  match r with
  | Ok c => no_leak (Some (cn_fd c)) trd ∧ reached t trd c
  | Err e => no_leak None trd ∧ unreached t trd e
  end.

Lemma applyKCP_no_target c : wp (applyKCP c) (λ tr _, omap dial_target tr = [] ∧ tuned tr c).
Proof. apply wp_and; [unfold applyKCP; by wp_steps|apply applyKCP_tunes]. Qed.

Lemma tuned_then {A} (Q : list (event sysE) → A → Prop) c (a : A) :
  (∀ tr, omap dial_target tr = [] → tuned tr c → Q tr a) → wp (_ ← applyKCP c; mret a) Q.
Proof.
  intros HQ. apply wp_bind. eapply wp_mono, applyKCP_no_target. intros tr u [Ht Hc].
  cbn [wp mret prog_ret]. rewrite app_nil_r. by apply HQ.
Qed.

Lemma NewRawPacketConn_no_target iface smac dmac sip dip sport dport :
  wp (NewRawPacketConn iface smac dmac sip dip sport dport) (λ tr _, omap dial_target tr = []).
Proof. unfold NewRawPacketConn. by wp_steps. Qed.

Lemma Close_no_target c : wp (Close c) (λ tr _, omap dial_target tr = []).
Proof. unfold Close. destruct (closeCh c); [done|]. by wp_steps. Qed.

Ltac in_trace := repeat (apply list_elem_of_here || apply list_elem_of_further).

Lemma dialTLS_ends addr sni :
  wp (dialTLS g addr sni) (λ trd r, omap dial_target trd = [PAddr addr] ∧
    match r with
    | Ok c => reached (TTls addr sni) trd c
    | Err e => unreached (TTls addr sni) trd e
    end).
Proof.
  unfold dialTLS. wp_steps; (split; [done|]); try case_match;
    cbn [reached unreached]; try unfold shaken.
  all: try solve [left; in_trace | right; eexists _, _, _; in_trace | left; eexists _, _; in_trace
                 |right; left; eexists _, _, _; in_trace].
  all: right; right; eexists _, _; split; [in_trace|auto].
Qed.

Lemma dial_of_targets t :
  wp (dial_of t) (λ trd r, dialled_once t trd r ∧
    match r with Ok c => reached t trd c | Err e => unreached t trd e end).
Proof.
  unfold dialled_once.
  destruct t as [remote|remote sni|remote host path sni useTLS|rp peer];
    cbn [dial_of target_of reached unreached].
  - unfold dial_udp. wp_call r Hr. destruct r as [c|e]; [|split; [by left|in_trace]].
    apply tuned_then. intros tr Ht Hc. split; [left; by f_equal/=|].
    split; [left|]. by apply (tuned_app_r [_]).
  - eapply wp_mono, dialTLS_ends. intros tr r [Ht Hr]. by split; [left|].
  - unfold dialWS. wp_call r Hr. destruct r as [c|e]; (split; [by left|]);
      repeat eexists; in_trace.
  - unfold dial_raw. apply wp_bind.
    eapply wp_mono, wp_self, NewRawPacketConn_no_target.
    intros trp p [Hruns Hp]. destruct p as [pconn|e].
    + wp_call r Hr. destruct r as [c|e].
      * apply tuned_then. intros tr Ht Hc. rewrite omap_app, Hp. split; [left; by f_equal/=|].
        split; [exists (handle pconn); apply elem_of_app; right; left|].
        by apply tuned_app_r, (tuned_app_r [_]).
      * apply wp_bind. eapply wp_mono, Close_no_target. intros tr u Htr.
        cbn [wp mret prog_ret]. rewrite app_nil_r, omap_app, Hp. split; [left; by f_equal/=|].
        left. exists (handle pconn). apply elem_of_app. right. left.
    + cbn [wp mret prog_ret]. rewrite app_nil_r. split; [right; split_and!; eauto|by right].
Qed.

Lemma dial_of_spec t : wp (dial_of t) (λ trd r, runs (dial_of t) trd r ∧ dial_spec t trd r).
Proof.
  apply wp_self. eapply wp_mono, wp_and; [|apply dial_of_clean|apply dial_of_targets].
  intros trd r [Hc [Ho Hr]]. split; [done|]. by destruct r.
Qed.

Definition session_test (cached : option session) : list (event sysE) :=
  match cached with Some s => [Event (SmuxIsClosed s) true] | None => [] end.

(** The calls of a session started on the connection [c], dialled by [trd]. *)
Definition starts (trd : list (event sysE)) (c : conn) (r : res session) : list (event sysE) :=
  trd ++ [Event (SmuxClient (WrapObfs c DefaultObfsConfig) (smuxConfig d)) r].

(** How a new session can turn out: the server cannot be dialled; a session
    cannot be started and the connection is closed; or it is started. *)
Inductive new_session_runs (t : transport) (cached : option session) :
    list (event sysE) → res session → option session → Prop :=
| dial_fails trd e :
    runs (dial_of t) trd (Err e) → dial_spec t trd (Err e) →
    new_session_runs t cached trd (Err e) cached
| smux_fails trd c e :
    runs (dial_of t) trd (Ok c) → dial_spec t trd (Ok c) →
    new_session_runs t cached (starts trd c (Err e) ++ [Event (ConnClose c) tt]) (Err e) cached
| smux_starts trd c s :
    runs (dial_of t) trd (Ok c) → dial_spec t trd (Ok c) →
    new_session_runs t cached (starts trd c (Ok s)) (Ok s) (Some s).

Lemma new_session_wp t cached :
  wp (new_session d (dial_of t) cached) (λ tr '(r, cached'), new_session_runs t cached tr r cached').
Proof.
  unfold new_session. apply wp_bind. eapply wp_mono, dial_of_spec.
  intros trd r [Hd Hs]. destruct r as [c|e]; [|simpl; rewrite app_nil_r; by constructor].
  wp_call s Hc. destruct s as [s|e].
  - by apply smux_starts.
  - wp_call u Hu. destruct u. pose proof (smux_fails t cached trd c e Hd Hs) as Hf.
    unfold starts in Hf. by rewrite <- app_assoc in Hf.
Qed.

Lemma new_session_no_leak t cached tr r cached' :
  new_session_runs t cached tr r cached' →
  match r with
  | Ok s => ∃ c, no_leak (Some (cn_fd c)) tr ∧
      Event (SmuxClient (WrapObfs c DefaultObfsConfig) (smuxConfig d)) (Ok s) ∈ tr
  | Err _ => no_leak None tr
  end.
Proof.
  intros [trd e _ [_ [Hd _]]|trd c e _ [_ [Hd _]]|trd c s _ [_ [Hd _]]].
  - done.
  - unfold starts. rewrite <- app_assoc. eapply no_leak_closed; [done| |].
    + by repeat apply no_leak_silent.
    + apply list_elem_of_here.
  - exists c. split; [by apply no_leak_app|]. unfold starts. set_solver.
Qed.

Lemma cached_session_wp t cached :
  wp (getSession t cached) (λ tr '(r, cached'),
    (∃ s, cached = Some s ∧ r = Ok s ∧ cached' = cached ∧ tr = [Event (SmuxIsClosed s) false]) ∨
    (∃ tr', tr = session_test cached ++ tr' ∧ new_session_runs t cached tr' r cached')).
Proof.
  rewrite getSession_eq. unfold cached_session, session_test. destruct cached as [s|].
  - wp_call closed Hc. destruct closed; simpl; [|by left; exists s].
    eapply wp_mono, new_session_wp. intros tr [r cached'] Hr. right. by exists tr.
  - eapply wp_mono, new_session_wp. intros tr [r cached'] Hr. right. by exists tr.
Qed.


(** ** One session at a time

    The closures of the udp, tls and ws clients hold a mutex, so their calls
    happen one after the other. *)

Fixpoint get_sessions (n : nat) (t : transport) (cached : option session)
    : prog sysE (list (res session) * option session) :=
  match n with
  | O => mret ([], cached)
  | S n' =>
    '(r, cached) ← getSession t cached;
    '(rs, cached) ← get_sessions n' t cached;
    mret (r :: rs, cached)
  end.

(** No session is started while the one before, [cur] at first, has not been
    found closed. *)
Fixpoint guarded (cur : option session) (tr : list (event sysE)) : Prop :=
  match tr with
  | [] => True
  | ev :: tr' =>
    match started ev, found_closed ev with
    | Some s, _ => cur = None ∧ guarded (Some s) tr'
    | None, Some s => guarded (if decide (cur = Some s) then None else cur) tr'
    | None, None => guarded cur tr'
    end
  end.

Lemma guarded_unrelated cur tr tr' : unrelated tr → guarded cur (tr ++ tr') ↔ guarded cur tr'.
Proof. induction 1 as [|ev tr [H1 H2] _ IH]; [done|]. simpl. by rewrite H1, H2. Qed.

Lemma tuned_unrelated {A} c (a : A) : wp (_ ← applyKCP c; mret a) (λ tr _, unrelated tr).
Proof.
  apply wp_bind. eapply wp_mono, applyKCP_quiet. intros tr u Htr. simpl.
  rewrite app_nil_r. by apply quiet_unrelated.
Qed.

Lemma dial_of_unrelated t : wp (dial_of t) (λ tr _, unrelated tr).
Proof.
  destruct t as [remote|remote sni|remote host path sni useTLS|rp peer]; cbn [dial_of].
  - unfold dial_udp. wp_call r Hr. destruct r as [c|e]; [|by repeat constructor].
    eapply wp_mono, tuned_unrelated. intros tr a Htr. by constructor.
  - unfold dialTLS. wp_steps; by repeat constructor.
  - unfold dialWS. wp_steps; by repeat constructor.
  - unfold dial_raw. apply wp_bind. eapply wp_mono, NewRawPacketConn_quiet.
    intros tr p Htr%quiet_unrelated. destruct p as [pconn|e]; [|simpl; by rewrite app_nil_r].
    wp_call r Hr. destruct r as [c|e].
    + eapply wp_mono, tuned_unrelated. intros tr' a Htr'. apply Forall_app. split; [done|by constructor].
    + apply wp_bind. eapply wp_mono, Close_quiet. intros tr' u Htr'%quiet_unrelated. simpl.
      rewrite app_nil_r. apply Forall_app. split; [done|by constructor].
Qed.

Lemma guarded_test cached tr :
  guarded None tr → guarded cached (session_test cached ++ tr).
Proof. destruct cached; simpl; [by rewrite decide_True|done]. Qed.

Lemma new_session_guarded t cached tr r cached' tr2 :
  new_session_runs t cached tr r cached' →
  guarded (match r with Ok s => Some s | Err _ => None end) tr2 → guarded None (tr ++ tr2).
Proof.
  intros [trd e Hd _|trd c e Hd _|trd c s Hd _] H2; apply (wp_runs _ _ _ _ (dial_of_unrelated t)) in Hd;
    unfold starts; rewrite <- ?app_assoc, guarded_unrelated by done; simpl; auto.
Qed.


Lemma guarded_weaken cur tr : guarded cur tr → guarded None tr.
Proof.
  revert cur. induction tr as [|ev tr IH]; intros cur; simpl; [done|].
  destruct (started ev) as [s|]; [by intros [_ ?]|].
  destruct (found_closed ev) as [s|]; apply IH.
Qed.

Lemma guarded_count cur tr :
  guarded cur tr → omap found_closed tr = [] →
  (length (omap started tr) <= if cur then 0 else 1)%nat.
Proof.
  revert cur. induction tr as [|ev tr IH]; intros cur; simpl; [intros; destruct cur; simpl; lia|].
  destruct (started ev) as [s|]; destruct (found_closed ev) as [s'|]; try done.
  - intros [-> Hg] Hf. apply (IH (Some s)) in Hg; [|done]. unfold omap in Hg. simpl in *. lia.
  - intros Hg Hf. by apply IH.
Qed.

(** C29. One session at a time: in any series of calls of [getSession], one
    after the other as the mutex of the udp, tls and ws clients orders them, a
    session is started only when there was none, or after the one before was
    found closed. *)
Theorem get_sessions_guarded n t cached :
  wp (get_sessions n t cached) (λ tr _, guarded cached tr).
Proof.
  revert cached. induction n as [|n IH]; intros cached; [done|].
  cbn [get_sessions]. apply wp_bind. eapply wp_mono, cached_session_wp.
  intros tr [r cached'] Hr. apply wp_bind. eapply wp_mono, (IH cached').
  intros tr' [rs cached''] Htr'. simpl. rewrite app_nil_r.
  destruct Hr as [(s & -> & -> & -> & ->)|(tr1 & -> & Hr)]; [exact Htr'|].
  rewrite <- app_assoc. apply guarded_test. eapply new_session_guarded; [done|].
  destruct Hr; [by eapply guarded_weaken..|done].
Qed.

(** ** The raw client has no mutex

    Its goroutines share the variable [session] without a lock.  A goroutine
    tests it, dials and starts a session, stores it and returns what the
    variable holds then; the goroutines interleave at these points. *)
Inductive raw_caller :=
| RTest
| RDial
| RStore (s : session)
| RReturn
| RGot (s : option session)
| RFailed.

Record raw_clients := { rc_session : option session; rc_callers : gmap nat raw_caller }.

Definition set_caller (p : raw_clients) (h : nat) (st : raw_caller) : raw_clients :=
  {| rc_session := rc_session p; rc_callers := <[h := st]> (rc_callers p) |}.

Inductive rc_step (rp : RawParams) (peer : rawAddr) :
    raw_clients → list (event sysE) → raw_clients → Prop :=
| rc_call p h :
    rc_callers p !! h = None → rc_step rp peer p [] (set_caller p h RTest)
| rc_none p h :
    rc_callers p !! h = Some RTest → rc_session p = None →
    rc_step rp peer p [] (set_caller p h RDial)
| rc_test p h s (closed : bool) :
    rc_callers p !! h = Some RTest → rc_session p = Some s →
    rc_step rp peer p [Event (SmuxIsClosed s) closed]
      (set_caller p h (if closed then RDial else RReturn))
| rc_dial p h tr s :
    rc_callers p !! h = Some RDial →
    runs (new_session d (dial_raw key rp peer) None) tr (Ok s, Some s) →
    rc_step rp peer p tr (set_caller p h (RStore s))
| rc_dial_fails p h tr e :
    rc_callers p !! h = Some RDial →
    runs (new_session d (dial_raw key rp peer) None) tr (Err e, None) →
    rc_step rp peer p tr (set_caller p h RFailed)
| rc_store p h s :
    rc_callers p !! h = Some (RStore s) →
    rc_step rp peer p [] (set_caller {| rc_session := Some s; rc_callers := rc_callers p |} h RReturn)
| rc_return p h :
    rc_callers p !! h = Some RReturn →
    rc_step rp peer p [] (set_caller p h (RGot (rc_session p))).

Inductive rc_steps (rp : RawParams) (peer : rawAddr) :
    raw_clients → list (event sysE) → raw_clients → Prop :=
| rc_refl p : rc_steps rp peer p [] p
| rc_trans p tr p' tr' p'' :
    rc_steps rp peer p tr p' → rc_step rp peer p' tr' p'' → rc_steps rp peer p (tr ++ tr') p''.

(** Two callers that both find no session both dial, and the second store
    overwrites the first. *)
Lemma rc_silent rp peer p p1 p2 q tr :
  rc_step rp peer p [] p1 → rc_steps rp peer q tr p → p1 = p2 → rc_steps rp peer q tr p2.
Proof. intros Hs Hq <-. rewrite <- (app_nil_r tr). by eapply rc_trans. Qed.

Lemma rc_race rp peer tr1 s1 tr2 s2 :
  runs (new_session d (dial_raw key rp peer) None) tr1 (Ok s1, Some s1) →
  runs (new_session d (dial_raw key rp peer) None) tr2 (Ok s2, Some s2) →
  rc_steps rp peer {| rc_session := None; rc_callers := ∅ |} (tr1 ++ tr2)
    {| rc_session := Some s2;
       rc_callers := {[0%nat := RGot (Some s2); 1%nat := RGot (Some s2)]} |}.
Proof.
  intros H1 H2.
  set (st v c0 c1 := {| rc_session := v; rc_callers := {[0%nat := c0; 1%nat := c1]} |}).
  assert (rc_steps rp peer {| rc_session := None; rc_callers := ∅ |} [] (st None RDial RDial)) as Hd.
  { eapply rc_silent; [apply (rc_none rp peer (st None RDial RTest) 1); reflexivity| |reflexivity].
    eapply rc_silent; [apply (rc_none rp peer (st None RTest RTest) 0); reflexivity| |reflexivity].
    eapply rc_silent; [apply (rc_call rp peer {| rc_session := None; rc_callers := {[0%nat := RTest]} |} 1);
      reflexivity| |reflexivity].
    eapply rc_silent; [by apply (rc_call rp peer {| rc_session := None; rc_callers := ∅ |} 0)|apply rc_refl|
      reflexivity]. }
  assert (rc_steps rp peer {| rc_session := None; rc_callers := ∅ |} (tr1 ++ tr2)
    (st None (RStore s1) (RStore s2))) as Hst.
  { apply (rc_trans rp peer _ _ (st None (RStore s1) RDial)).
    - apply (rc_trans rp peer _ [] (st None RDial RDial)); [exact Hd|].
      by apply (rc_dial rp peer (st None RDial RDial) 0).
    - by apply (rc_dial rp peer (st None (RStore s1) RDial) 1). }
  eapply rc_silent; [apply (rc_return rp peer (st (Some s2) (RGot (Some s2)) RReturn) 1); reflexivity|
    |reflexivity].
  eapply rc_silent; [apply (rc_return rp peer (st (Some s2) RReturn RReturn) 0); reflexivity|
    |reflexivity].
  eapply rc_silent; [apply (rc_store rp peer (st (Some s1) RReturn (RStore s2)) 1); reflexivity|
    |reflexivity].
  by eapply rc_silent; [apply (rc_store rp peer (st None (RStore s1) (RStore s2)) 0)| |].
Qed.

End spec.

(** ** Properties of the server *)

Definition demo_rp : RawParams := {|
  rp_Iface := "eth0"; rp_SrcMAC := "aa"; rp_GwMAC := "bb"; rp_SrcIP := "10.0.0.1";
  rp_DstIP := "10.0.0.2"; rp_SrcPort := 4000; rp_DstPort := 443
|}.

Definition demo_peer : rawAddr := {| ip := None; port := 443 |}.

(** A run of the scripted world in which every call succeeds. *)
Definition all_well (n : nat) : script := {| sc_ok := []; sc_clock := 0; sc_next := n |}.


Definition smux_closed (ev : event sysE) : option session :=
  match ev with
  | @Event _ _ e _ => match e with SmuxClose s => Some s | _ => None end
  end.

Definition demo_smux_config : smux_config := {|
  Version := 1; KeepAliveDisabled := false; KeepAliveInterval := 10 * second;
  KeepAliveTimeout := 30 * second; MaxFrameSize := 32768; MaxReceiveBuffer := 4194304;
  MaxStreamBuffer := 65536
|}.

(** A raw session started in a world in which every call succeeds. *)
Lemma raw_session_starts n :
  ∃ tr, runs (new_session demo_smux_config (dial_raw [] demo_rp demo_peer) None) tr
          (Ok (4 + n)%nat, Some (4 + n)%nat) ∧
    omap started tr = [(4 + n)%nat] ∧ omap found_closed tr = [] ∧ omap smux_closed tr = [].
Proof.
  assert (∃ tr s, run scripted (new_session demo_smux_config (dial_raw [] demo_rp demo_peer) None)
    (all_well n) = Some (tr, (Ok (4 + n)%nat, Some (4 + n)%nat), s) ∧
    omap started tr = [(4 + n)%nat] ∧ omap found_closed tr = [] ∧ omap smux_closed tr = [])
    as (tr & s & Hr & Hp) by (vm_compute; do 2 eexists; split_and!; reflexivity).
  exists tr. split; [|done]. by eapply run_runs, Hr; apply scripted_ok.
Qed.

(** The raw client can start two sessions at once: its [getSession] has no
    mutex, so in an execution two local connections both find no session and
    both dial; both are given the session stored last, and the one stored
    first stays open although nobody can reach or close it any more.  The
    guarantee of the other clients, one session at a time, does not hold. *)
Theorem raw_clients_race :
  ∃ tr p s1 s2,
    rc_steps demo_smux_config [] demo_rp demo_peer {| rc_session := None; rc_callers := ∅ |} tr p ∧
    s1 ≠ s2 ∧ omap started tr = [s1; s2] ∧ omap found_closed tr = [] ∧ omap smux_closed tr = [] ∧
    ¬ guarded None tr ∧ rc_session p = Some s2 ∧
    rc_callers p !! 0%nat = Some (RGot (Some s2)) ∧ rc_callers p !! 1%nat = Some (RGot (Some s2)).
Proof.
  destruct (raw_session_starts 50) as (tr1 & H1 & Hs1 & Hf1 & Hc1).
  destruct (raw_session_starts 60) as (tr2 & H2 & Hs2 & Hf2 & Hc2).
  eexists _, _, 54%nat, 64%nat. split; [by apply (rc_race _ _ _ _ _ _ _ _ H1 H2)|].
  assert (omap started (tr1 ++ tr2) = [54; 64]%nat) as Hs by (by rewrite omap_app, Hs1, Hs2).
  assert (omap found_closed (tr1 ++ tr2) = []) as Hf by (by rewrite omap_app, Hf1, Hf2).
  split; [done|]. split; [exact Hs|]. split; [exact Hf|].
  split; [by rewrite omap_app, Hc1, Hc2|]. split; [|by split_and!].
  intros Hg%guarded_count; [|done]. rewrite Hs in Hg. simpl in Hg. lia.
Qed.

(** ** The server *)

(** What a call accepts, and what it hands to a goroutine. *)
Definition accepted_conn (ev : event sysE) : option (res conn) :=
  match ev with
  | @Event _ _ e x =>
    match e in sysE X return X → option (res conn) with
    | Accept _ => λ r, Some r
    | _ => λ _, None
    end x
  end.

Definition handed_conn (ev : event sysE) : option (conn * string) :=
  match ev with
  | @Event _ _ e _ => match e with GoServe c target => Some (c, target) | _ => None end
  end.

Definition res_some {A} (r : res A) : option A :=
  match r with Ok a => Some a | Err _ => None end.

(** The streams [sts] are accepted from [s], one after the other, and each handed
    to its goroutine. *)
Definition serving (s : session) (target : string) (sts : list stream) : list (event sysE) :=
  concat ((λ st, [Event (SmuxAcceptStream s) (Ok st); Event (GoStream st target) tt]) <$> sts).

(** The loop goes on until [AcceptStream] fails, and ends then. *)
Lemma accept_streams_wp fuel s target :
  wp (accept_streams fuel s target) (λ tr r, ∃ sts,
    match r with
    | None => tr = serving s target sts ∧ length sts = fuel
    | Some _ => ∃ e, tr = serving s target sts ++ [Event (SmuxAcceptStream s) (Err e)]
    end).
Proof.
  induction fuel as [|fuel IH]; [by exists []|]. cbn [accept_streams]. wp_call st Hst.
  destruct st as [st|e]; [|by exists [], e]. wp_call u Hu. destruct u.
  eapply wp_mono, IH. intros tr r (sts & Hr). exists (st :: sts). destruct r as [u|].
  - destruct Hr as [e ->]. by exists e.
  - by destruct Hr as [-> <-].
Qed.

(** C30. A server session serves every stream and cleans up: the session is
    started on the padded connection, and the streams it accepts are handed, in
    order and each once, to a goroutine for the target, until [AcceptStream]
    fails; then, and not before, the smux session and the connection are
    closed, in this order and each once, and the handler returns.  When the
    session cannot be started the connection is closed.  There are no other
    calls, and the handler has returned unless as many streams as there is fuel
    were accepted. *)
Theorem handleServerSession_serves d fuel c target :
  wp (handleServerSession d fuel c target) (λ tr r,
    (∃ e, r = Some tt ∧
       tr = [Event (SmuxServer (WrapObfs c DefaultObfsConfig) (smuxConfig d)) (Err e);
             Event (ConnClose c) tt]) ∨
    (∃ s sts,
       match r with
       | None => length sts = fuel ∧
           tr = Event (SmuxServer (WrapObfs c DefaultObfsConfig) (smuxConfig d)) (Ok s) ::
                serving s target sts
       | Some _ => ∃ e,
           tr = Event (SmuxServer (WrapObfs c DefaultObfsConfig) (smuxConfig d)) (Ok s) ::
                serving s target sts ++
                [Event (SmuxAcceptStream s) (Err e); Event (SmuxClose s) tt; Event (ConnClose c) tt]
       end)).
Proof.
  unfold handleServerSession. wp_call s Hs. destruct s as [s|e].
  - apply wp_bind. eapply wp_mono, accept_streams_wp. intros tr r (sts & Hr). destruct r as [[]|].
    + wp_call u Hu. wp_call u' Hu'. destruct u, u', Hr as [e ->]. right. exists s, sts, e.
      by rewrite <- app_assoc.
    + destruct Hr as [-> Hlen]. cbn [wp mret prog_ret]. rewrite app_nil_r. right. by exists s, sts.
  - wp_call u Hu. destruct u. left. by exists e.
Qed.

Lemma applyKCP_wp c :
  wp (applyKCP c) (λ tr _, omap accepted_conn tr = [] ∧ omap handed_conn tr = [] ∧ tuned tr c).
Proof.
  apply (wp_mono _ (λ tr u, (omap accepted_conn tr = [] ∧ omap handed_conn tr = []) ∧ tuned tr c));
    [tauto|]. apply wp_and; [|apply applyKCP_tunes]. unfold applyKCP. by wp_steps.
Qed.

Lemma maybe_tune_wp (kcp : bool) c :
  wp (if kcp then applyKCP c else mret tt) (λ tr _,
    omap accepted_conn tr = [] ∧ omap handed_conn tr = [] ∧ (kcp = true → tuned tr c)).
Proof.
  destruct kcp; [|done]. eapply wp_mono, applyKCP_wp. intros tr _ (? & ? & ?). auto.
Qed.

(** The accept loop of a server hands every connection it accepts, in
    order, to one goroutine for the target, after tuning it when it is a KCP
    connection.  The udp and tls servers never return on an error of [Accept];
    the raw and ws servers return on the first one; within the fuel, one
    unit per call of [Accept], nothing else ends the loop. *)
Theorem accept_loop_hands_off fuel retry kcp l target :
  wp (accept_loop fuel retry kcp l target) (λ tr r,
    omap handed_conn tr = (λ c, (c, target)) <$> omap res_some (omap accepted_conn tr) ∧
    (kcp = true → ∀ c, Ok c ∈ omap accepted_conn tr → tuned tr c) ∧
    match r with
    | Some _ => retry = false ∧ ∃ cs e, omap accepted_conn tr = (Ok <$> cs) ++ [Err e]
    | None => length (omap accepted_conn tr) = fuel ∧
        (retry = false → ∃ cs, omap accepted_conn tr = Ok <$> cs)
    end).
Proof.
  induction fuel as [|fuel IH].
  { split_and!; [done| |done|by exists []]. by intros _ c ?%elem_of_nil. }
  cbn [accept_loop]. wp_call r Hr. destruct r as [c|e]; [|destruct retry].
  - apply wp_bind. eapply wp_mono, maybe_tune_wp. intros tr0 u0 (Ha0 & Hh0 & Hk0). wp_call u Hu.
    eapply wp_mono, IH. intros tr r (Hh & Hk & Hend).
    change (Event ?a ?b :: tr0 ++ Event ?d ?e :: ?rest)
      with ([Event a b] ++ tr0 ++ [Event d e] ++ rest).
    rewrite !omap_app, Ha0, Hh0. simpl omap at 1 3 4 6. change (list_omap _ _ ?f ?l) with (omap f l).
    split_and!.
    + cbn [app omap list_omap]. change (list_omap _ _ ?f ?l) with (omap f l). by rewrite Hh.
    + intros Hkcp c' [[= ->]|Hc']%elem_of_cons; apply tuned_app_r.
      * by apply tuned_app_l, Hk0.
      * by apply tuned_app_r, tuned_app_r, Hk.
    + destruct r as [u'|].
      * destruct Hend as (-> & cs & e & ->). split; [done|]. by exists (c :: cs), e.
      * destruct Hend as [Hlen Hok]. split; [by f_equal/=|]. intros Hretry.
        destruct (Hok Hretry) as [cs ->]. by exists (c :: cs).
  - eapply wp_mono, IH. intros tr r (Hh & Hk & Hend). simpl.
    change (list_omap _ _ ?f ?l) with (omap f l). split_and!; [done| |].
    + intros Hkcp c' [?|Hc']%elem_of_cons; [done|]. by apply (tuned_app_r [_]), Hk.
    + destruct r; [by destruct Hend|]. destruct Hend as [Hlen _]. by split; [f_equal|].
  - split_and!; [done| |done|by exists [], e]. intros _ c' Hc'. by apply list_elem_of_singleton in Hc'.
Qed.
