(* ===== verification/Main.v ===== *)
(** * engine.go: [main]

    The command line is validated and dispatched to one of the servers and
    clients.  A run of [main] ends in a [log.Fatal] or in the call that serves
    from then on. *)

From S2P Require Import Prelude GoStrings Effects Net TlsTransport TunnelConfig MultiPath IPTables AutoDiscover Tunnel.

(** The flags, as parsed. *)
Record flags := {
  mode : string;
  listen : string;
  target : string;
  remote : string;
  key : string;
  transport : string;
  iface : string;
  srcMAC : string;
  gwMAC : string;
  srcIP : string;
  dstIP : string;
  srcPort : Z;
  dstPort : Z;
  noAutoIPT : bool;
  sni : string;
  remotes : string;
  wsPath : string;
  wsHost : string;
  wsTLS : bool;
  utlsFlag : bool;
  fragFlag : Z
}.

(** What [main] starts. *)
Inductive launch :=
| LServerRaw (target : string) (rp : RawParams)
| LServerTLS (listen target sni : string)
| LServerWS (listen target path sni : string) (useTLS : bool)
| LServer (listen target : string)
| LClientRaw (listen : string) (rp : RawParams)
| LClientTLS (listen remote sni : string)
| LClientWS (listen remote host path sni : string) (useTLS : bool)
| LClient (listen remote : string)
| LMultiPath (listen : string) (servers : list ServerEndpoint).

Inductive outcome :=
| Fatal (msg : string)
| Launch (g : tls_globals) (block : list byte) (l : launch).

(** ** The parts of [main] *)

(** The list of [-remotes]. *)
Fixpoint parse_addrs (addrs : list string) : list string :=
  match addrs with
  | [] => []
  | a :: addrs' =>
    let a := trim_space a in
    if decide (a = "") then parse_addrs addrs' else a :: parse_addrs addrs'
  end.

Definition tls_endpoint (f : flags) (a : string) : ServerEndpoint := {|
  Address := a; SNI := sni f; Transport := ""; WSPath := ""; WSHost := ""; WSTLS := false;
  failCount := 0; lastFail := zero_time
|}.

Definition ws_endpoint (f : flags) (a : string) : ServerEndpoint := {|
  Address := a; SNI := sni f; Transport := "ws"; WSPath := wsPath f; WSHost := wsHost f;
  WSTLS := wsTLS f; failCount := 0; lastFail := zero_time
|}.

(** The assignments from what [AutoDiscover] found. *)
Definition fill (f : flags) (ni : AutoNetInfo) : flags := {|
  mode := mode f; listen := listen f; target := target f; remote := remote f; key := key f;
  transport := transport f;
  iface := if decide (iface f = "") then Iface ni else iface f;
  srcMAC := if decide (srcMAC f = "") then LocalMAC ni else srcMAC f;
  gwMAC := if decide (gwMAC f = "") then GatewayMAC ni else gwMAC f;
  srcIP := if decide (srcIP f = "") then LocalIP ni else srcIP f;
  dstIP := dstIP f; srcPort := srcPort f; dstPort := dstPort f; noAutoIPT := noAutoIPT f;
  sni := sni f; remotes := remotes f; wsPath := wsPath f; wsHost := wsHost f; wsTLS := wsTLS f;
  utlsFlag := utlsFlag f; fragFlag := fragFlag f
|}.

Definition raw_params (f : flags) : RawParams := {|
  rp_Iface := iface f; rp_SrcMAC := srcMAC f; rp_GwMAC := gwMAC f; rp_SrcIP := srcIP f;
  rp_DstIP := dstIP f; rp_SrcPort := uint16 (srcPort f); rp_DstPort := uint16 (dstPort f)
|}.

Definition rawValid (f : flags) : bool :=
  bool_decide (srcMAC f ≠ "" ∧ gwMAC f ≠ "" ∧ srcIP f ≠ "" ∧ dstIP f ≠ "" ∧ srcPort f ≠ 0 ∧
               dstPort f ≠ 0).

(** The network parameters of the raw transport. *)
Definition discover (f : flags) : prog sysE (string + flags) :=
  if decide (transport f = "raw") then
    if decide (dstIP f = "") then mret (inl "[!] حالت raw نیاز به -dstip (آی‌پی طرف مقابل) داره"%string)
    else if decide (srcMAC f = "" ∨ gwMAC f = "" ∨ srcIP f = "" ∨ iface f = "") then
      ni ← AutoDiscover (dstIP f);
      mret match ni with
           | Err _ => inl "[!] کشف خودکار شکست خورد"%string
           | Ok ni => inr (fill f ni)
           end
    else mret (inr f)
  else mret (inr f).

Definition uses_iptables (f : flags) : bool :=
  bool_decide (transport f = "raw" ∧ noAutoIPT f = false ∧ srcPort f ≠ 0).

(** The firewall rules, and the goroutine that removes them on a signal; an
    error of [Apply] is only logged. *)
Definition firewall (f : flags) : prog sysE unit :=
  if uses_iptables f then
    _ ← Apply (NewIPTablesManager (uint16 (srcPort f)));
    trigger (GoOnSignal (uint16 (srcPort f)))
  else mret tt.

Definition on_signal (port : Z) : prog sysE unit := Cleanup (NewIPTablesManager port).

Definition raw_usage : string :=
  "[!] حالت raw نیاز به -srcmac -gwmac -srcip -dstip -srcport -dstport داره".

(** The switch over mode and transport. *)
Definition dispatch (f : flags) : string + launch :=
  if decide (mode f = "server") then
    if decide (target f = "") then inl "[!] server نیاز به -target داره"%string
    else if decide (transport f = "raw") then
      if rawValid f then inr (LServerRaw (target f) (raw_params f)) else inl raw_usage
    else if decide (transport f = "tls") then
      if decide (listen f = "") then inl "[!] server (tls) نیاز به -listen داره"%string
      else inr (LServerTLS (listen f) (target f) (sni f))
    else if decide (transport f = "ws") then
      if decide (listen f = "") then inl "[!] server (ws) نیاز به -listen داره"%string
      else inr (LServerWS (listen f) (target f) (wsPath f) (sni f) (wsTLS f))
    else
      if decide (listen f = "") then inl "[!] server (udp) نیاز به -listen داره"%string
      else inr (LServer (listen f) (target f))
  else if decide (mode f = "client") then
    if decide (listen f = "") then inl "[!] client نیاز به -listen داره"%string
    else if decide (transport f = "raw") then
      if rawValid f then inr (LClientRaw (listen f) (raw_params f)) else inl raw_usage
    else if decide (transport f = "tls") then
      if decide (remotes f ≠ "") then
        let servers := tls_endpoint f <$> parse_addrs (split_char "," (remotes f)) in
        if decide (length servers = 0%nat) then inl "[!] -remotes خالیه"%string
        else inr (LMultiPath (listen f) servers)
      else if decide (remote f = "") then inl "[!] client (tls) نیاز به -remote یا -remotes داره"%string
      else inr (LClientTLS (listen f) (remote f) (sni f))
    else if decide (transport f = "ws") then
      if decide (remotes f ≠ "") then
        let servers := ws_endpoint f <$> parse_addrs (split_char "," (remotes f)) in
        if decide (length servers = 0%nat) then inl "[!] -remotes خالیه"%string
        else inr (LMultiPath (listen f) servers)
      else if decide (remote f = "") then inl "[!] client (ws) نیاز به -remote یا -remotes داره"%string
      else inr (LClientWS (listen f) (remote f) (wsHost f) (wsPath f) (sni f) (wsTLS f))
    else
      if decide (remote f = "") then inl "[!] client (udp) نیاز به -remote داره"%string
      else inr (LClient (listen f) (remote f))
  else inl "[!] -mode باید server یا client باشه"%string.

Definition main (f : flags) : prog sysE outcome :=
  let g := {| useUTLS := utlsFlag f; fragSize := fragFlag f |} in
  if decide (key f = "") then mret (Fatal "[!] -key الزامیه (دو طرف باید یکسان باشه)")
  else
    block ← trigger (AESBlockCrypt (pad32 (bytes_of_string (key f))));
    match block with
    | Err _ => mret (Fatal "[!] خطا در ساخت crypt")
    | Ok block =>
      r ← discover f;
      match r with
      | inl msg => mret (Fatal msg)
      | inr f =>
        _ ← firewall f;
        mret match dispatch f with
             | inl msg => Fatal msg
             | inr l => Launch g block l
             end
      end
    end.

(** ** What may be started *)

Definition raw_ok (f : flags) (rp : RawParams) : Prop :=
  transport f = "raw" ∧
  (rp_Iface rp ≠ "" ∧ (iface f ≠ "" → rp_Iface rp = iface f)) ∧
  (rp_SrcMAC rp ≠ "" ∧ (srcMAC f ≠ "" → rp_SrcMAC rp = srcMAC f)) ∧
  (rp_GwMAC rp ≠ "" ∧ (gwMAC f ≠ "" → rp_GwMAC rp = gwMAC f)) ∧
  (rp_SrcIP rp ≠ "" ∧ (srcIP f ≠ "" → rp_SrcIP rp = srcIP f)) ∧
  (rp_DstIP rp ≠ "" ∧ rp_DstIP rp = dstIP f) ∧
  srcPort f ≠ 0 ∧ rp_SrcPort rp = uint16 (srcPort f) ∧
  dstPort f ≠ 0 ∧ rp_DstPort rp = uint16 (dstPort f).

(** The servers of [-remotes]. *)
Definition addresses_ok (f : flags) (servers : list ServerEndpoint) : Prop :=
  servers ≠ [] ∧
  (Address <$> servers) = filter (λ a, a ≠ "") (trim_space <$> split_char "," (remotes f)) ∧
  Forall (λ e, SNI e = sni f ∧ failCount e = 0 ∧
    (transport f = "ws" → Transport e = "ws" ∧ WSPath e = wsPath f ∧ WSHost e = wsHost f ∧
       WSTLS e = wsTLS f) ∧
    (transport f = "tls" → Transport e = "")) servers.

Definition udp_transport (f : flags) : Prop :=
  transport f ≠ "raw" ∧ transport f ≠ "tls" ∧ transport f ≠ "ws".

(** [raw] is what is asked of the parameters of a raw transport. *)
Definition launch_ok (raw : RawParams → Prop) (f : flags) (l : launch) : Prop :=
  match l with
  | LServerRaw t rp => mode f = "server" ∧ t = target f ∧ t ≠ "" ∧ raw rp
  | LServerTLS li t sn => mode f = "server" ∧ transport f = "tls" ∧ li = listen f ∧ li ≠ "" ∧
      t = target f ∧ t ≠ "" ∧ sn = sni f
  | LServerWS li t p sn tls => mode f = "server" ∧ transport f = "ws" ∧ li = listen f ∧ li ≠ "" ∧
      t = target f ∧ t ≠ "" ∧ p = wsPath f ∧ sn = sni f ∧ tls = wsTLS f
  | LServer li t => mode f = "server" ∧ udp_transport f ∧ li = listen f ∧ li ≠ "" ∧
      t = target f ∧ t ≠ ""
  | LClientRaw li rp => mode f = "client" ∧ li = listen f ∧ li ≠ "" ∧ raw rp
  | LClientTLS li r sn => mode f = "client" ∧ transport f = "tls" ∧ li = listen f ∧ li ≠ "" ∧
      remotes f = "" ∧ r = remote f ∧ r ≠ "" ∧ sn = sni f
  | LClientWS li r h p sn tls => mode f = "client" ∧ transport f = "ws" ∧ li = listen f ∧ li ≠ "" ∧
      remotes f = "" ∧ r = remote f ∧ r ≠ "" ∧ h = wsHost f ∧ p = wsPath f ∧ sn = sni f ∧
      tls = wsTLS f
  | LClient li r => mode f = "client" ∧ udp_transport f ∧ li = listen f ∧ li ≠ "" ∧
      r = remote f ∧ r ≠ ""
  | LMultiPath li servers => mode f = "client" ∧ (transport f = "tls" ∨ transport f = "ws") ∧
      li = listen f ∧ li ≠ "" ∧ addresses_ok f servers
  end.

Lemma parse_addrs_filter addrs : parse_addrs addrs = filter (λ a, a ≠ "") (trim_space <$> addrs).
Proof.
  induction addrs as [|a addrs IH]; [done|]. simpl. rewrite filter_cons.
  by repeat case_decide; rewrite ?IH.
Qed.

Lemma addresses_tls f :
  transport f = "tls" → length (tls_endpoint f <$> parse_addrs (split_char "," (remotes f))) ≠ 0%nat →
  addresses_ok f (tls_endpoint f <$> parse_addrs (split_char "," (remotes f))).
Proof.
  intros Ht Hne. split; [by intros Heq; rewrite Heq in Hne|]. split.
  - by rewrite <- list_fmap_compose, <- parse_addrs_filter, (list_fmap_ext _ id), list_fmap_id.
  - apply Forall_fmap, Forall_forall. intros a _. simpl. rewrite Ht. done.
Qed.

Lemma addresses_ws f :
  transport f = "ws" → length (ws_endpoint f <$> parse_addrs (split_char "," (remotes f))) ≠ 0%nat →
  addresses_ok f (ws_endpoint f <$> parse_addrs (split_char "," (remotes f))).
Proof.
  intros Ht Hne. split; [by intros Heq; rewrite Heq in Hne|]. split.
  - by rewrite <- list_fmap_compose, <- parse_addrs_filter, (list_fmap_ext _ id), list_fmap_id.
  - apply Forall_fmap, Forall_forall. intros a _. simpl. rewrite Ht. done.
Qed.

(** The flags after discovery. *)
Definition discovered (f f' : flags) : Prop :=
  f' = f ∨ ∃ ni, Iface ni ≠ "" ∧ f' = fill f ni.

Lemma discover_wp f :
  wp (discover f) (λ _ r, ∀ f', r = inr f' → discovered f f' ∧ (transport f = "raw" → iface f' ≠ "")).
Proof.
  unfold discover. case_decide as Ht; [|by intros f' [= <-]; split; [left|]].
  case_decide as Hd; [done|]. case_decide as Hm.
  - apply wp_bind. eapply wp_mono, AutoDiscover_iface. intros tr r Hr. destruct r as [ni|e]; [|done].
    intros f' [= <-]. specialize (Hr ni eq_refl). split; [right; by exists ni|].
    intros _. simpl. by case_decide.
  - intros f' [= <-]. split; [by left|]. intros _ Hi. apply Hm. auto.
Qed.

(** The fields that discovery does not touch, and those it only fills. *)
Lemma discovered_same f f' :
  discovered f f' →
  mode f' = mode f ∧ listen f' = listen f ∧ target f' = target f ∧ remote f' = remote f ∧
  transport f' = transport f ∧ dstIP f' = dstIP f ∧ srcPort f' = srcPort f ∧
  dstPort f' = dstPort f ∧ sni f' = sni f ∧ remotes f' = remotes f ∧ wsPath f' = wsPath f ∧
  wsHost f' = wsHost f ∧ wsTLS f' = wsTLS f.
Proof. intros [->|(ni & _ & ->)]; by split_and!. Qed.

Lemma discovered_kept f f' :
  discovered f f' →
  (iface f ≠ "" → iface f' = iface f) ∧ (srcMAC f ≠ "" → srcMAC f' = srcMAC f) ∧
  (gwMAC f ≠ "" → gwMAC f' = gwMAC f) ∧ (srcIP f ≠ "" → srcIP f' = srcIP f).
Proof.
  intros [->|(ni & _ & ->)]; [by split_and!|]. simpl.
  split_and!; intros ?; by rewrite decide_False.
Qed.

Lemma raw_params_ok f f' :
  discovered f f' → (transport f = "raw" → iface f' ≠ "") → transport f' = "raw" →
  rawValid f' = true → raw_ok f (raw_params f').
Proof.
  intros Hd Hi Ht Hv. apply discovered_same in Hd as Hs. apply discovered_kept in Hd as Hk.
  destruct Hs as (_ & _ & _ & _ & Htr & Hdst & Hsp & Hdp & _). destruct Hk as (Hk1 & Hk2 & Hk3 & Hk4).
  unfold rawValid in Hv. apply bool_decide_eq_true in Hv as (V1 & V2 & V3 & V4 & V5 & V6).
  rewrite Htr in Ht. rewrite Hsp in V5. rewrite Hdp in V6.
  unfold raw_ok, raw_params. simpl. rewrite Hdst, Hsp, Hdp in *. split_and!; auto.
Qed.

Lemma dispatch_ok (raw : RawParams → Prop) f l :
  (transport f = "raw" → rawValid f = true → raw (raw_params f)) →
  dispatch f = inr l → launch_ok raw f l.
Proof.
  intros Hraw. pose proof (addresses_tls f) as Htls. pose proof (addresses_ws f) as Hws.
  unfold dispatch. cbv zeta.
  repeat case_decide; try done; try destruct (rawValid f) eqn:Hv; try done;
    intros [= <-]; simpl; unfold udp_transport; split_and!; auto.
  all: by destruct (decide (remotes f = "")).
Qed.

(** What the launch asks of the flags does not depend on what was discovered. *)
Lemma launch_ok_discovered raw f f' l : discovered f f' → launch_ok raw f' l → launch_ok raw f l.
Proof. intros [->|(ni & _ & ->)]; [done|]. by destruct l. Qed.

Lemma firewall_wp f : wp (firewall f) (λ _ _, True).
Proof.
  unfold firewall. destruct (uses_iptables f); [|done].
  apply wp_bind. apply (wp_mono _ (λ _ _, True)); [|].
  - intros tr r _. wp_call u Hu. done.
  - unfold Apply. induction (rules _) as [|r rs IH]; [done|]. cbn [apply_rules].
    wp_call e He. destruct e as [e|]; [|by apply IH]. wp_call out Hout.
    destruct out as [out [err|]]; [done|by apply IH].
Qed.

Lemma main_launches f :
  wp (main f) (λ tr o,
    match o with
    | Fatal _ => True
    | Launch g block l =>
      key f ≠ "" ∧ g = {| useUTLS := utlsFlag f; fragSize := fragFlag f |} ∧
      block = pad32 (bytes_of_string (key f)) ∧ launch_ok (raw_ok f) f l
    end).
Proof.
  unfold main. case_decide as Hkey; [done|]. wp_call blk Hb.
  assert (length (pad32 (bytes_of_string (key f))) ∈ [16; 24; 32]%nat) as Hlen.
  { rewrite pad32_length. set_solver. }
  rewrite (Hb Hlen). clear Hb.
  apply wp_bind. eapply wp_mono, discover_wp. intros tr r Hr. destruct r as [msg|f']; [done|].
  destruct (Hr f' eq_refl) as [Hd Hi].
  apply wp_bind. eapply wp_mono, firewall_wp. intros tr' u _. simpl.
  destruct (dispatch f') as [msg|l] eqn:Hdisp; [done|].
  split_and!; [done..|]. eapply launch_ok_discovered; [done|].
  eapply dispatch_ok, Hdisp. intros Ht Hv. by eapply raw_params_ok.
Qed.

(** C5. [main] starts only what the flags describe completely: it never panics;
    without a key it stops before any effect; what it starts has the 32-byte
    key, the mode and transport of the flags, and every address that mode and
    transport need; for the raw transport all addresses are known, those that
    were given are kept, and neither port flag is zero.  The ports themselves
    are the low 16 bits of those flags, so that they can still be zero: a flag
    that is a multiple of 65536 passes.  A client of several servers has
    exactly the non-blank entries of [-remotes], in order. *)
Theorem main_starts_complete f :
  wp (main f) (λ tr o,
    (key f = "" → tr = []) ∧
    match o with
    | Fatal _ => True
    | Launch g block l =>
      key f ≠ "" ∧ g = {| useUTLS := utlsFlag f; fragSize := fragFlag f |} ∧
      block = pad32 (bytes_of_string (key f)) ∧ launch_ok (raw_ok f) f l
    end).
Proof.
  destruct (decide (key f = "")) as [Hkey|Hkey].
  - unfold main. by rewrite decide_True.
  - eapply wp_mono, main_launches. by intros tr o Ho.
Qed.

(** ** The list of servers *)

Definition spaces (s : string) : Prop := Forall (λ c, Ascii.is_space c = true) (chars s).

(** An entry of the list: an address with blanks around it. *)
Definition entry : Type := string * string * string.

Definition entry_text (e : entry) : string := e.1.1 +:+ e.1.2 +:+ e.2.

Definition entry_ok (e : entry) : Prop :=
  spaces e.1.1 ∧ spaces e.2 ∧ plain_token e.1.2 = true ∧ lacks "," e.1.2 = true.

Lemma spaces_lacks s : spaces s → lacks "," s = true.
Proof.
  induction s as [|c s IH]; [done|]. unfold spaces. simpl. intros [Hc Hs]%Forall_cons.
  rewrite IH by done. rewrite bool_decide_eq_false_2; [done|]. by intros ->.
Qed.

Lemma entries_parse l :
  Forall entry_ok l → parse_addrs (split_char "," (join "," (entry_text <$> l))) = (λ e, e.1.2) <$> l.
Proof.
  intros Hl. rewrite parse_addrs_filter. destruct l as [|e l]; [done|].
  rewrite split_join; [|done|].
  - rewrite (filter_all _ (trim_space <$> _)).
    + rewrite <- list_fmap_compose. apply list_fmap_ext. intros i e' He'.
      apply list_elem_of_lookup_2 in He'. eapply Forall_forall in He'; [|done].
      destruct He' as (Hpre & Hpost & Hp & _). by apply trim_space_pad.
    + intros a Ha. rewrite <- list_fmap_compose in Ha.
      apply list_elem_of_fmap in Ha as (e' & -> & He').
      eapply Forall_forall in He'; [|done]. destruct He' as (Hpre & Hpost & Hp & _). simpl.
      unfold entry_text. rewrite trim_space_pad by done. by apply plain_token_spec in Hp as [? _].
  - apply Forall_fmap. eapply Forall_impl; [done|]. intros e' (Hpre & Hpost & Hp & Hc). simpl.
    unfold entry_text. by rewrite !lacks_app, (spaces_lacks e'.1.1), (spaces_lacks e'.2), Hc.
Qed.

(** C32. [-remotes] is read back: for a non-empty list of addresses, each a single
    word without a comma and with any blanks around it, joined by commas, a
    tls client starts with exactly those servers, in that order. *)
Theorem dispatch_remotes f (l : list entry) :
  mode f = "client" → listen f ≠ "" → transport f = "tls" → l ≠ [] → Forall entry_ok l →
  remotes f = join "," (entry_text <$> l) →
  dispatch f = inr (LMultiPath (listen f) (tls_endpoint f <$> ((λ e, e.1.2) <$> l))).
Proof.
  intros Hm Hli Ht Hne Hl Hr.
  assert (remotes f ≠ "") as Hrem.
  { rewrite Hr. intros Heq. pose proof (entries_parse l Hl) as Hp. rewrite Heq in Hp.
    destruct l as [|e l]; [done|]. simpl in Hp.  done. }
  assert (length (tls_endpoint f <$> ((λ e, e.1.2) <$> l)) ≠ 0%nat) as Hlen
    by (rewrite !length_fmap; by destruct l).
  unfold dispatch. rewrite Hm, Ht. cbv zeta. rewrite Hr, entries_parse by done. rewrite <- Hr.
  repeat first
    [ rewrite (decide_True (P := remotes f ≠ "")) by done
    | rewrite (decide_False (P := length _ = 0%nat)) by done
    | rewrite (decide_False (P := listen f = "")) by done ].
  reflexivity.
Qed.

Definition demo_flags : flags := {|
  mode := "client"; listen := "127.0.0.1:1080"; target := ""; remote := ""; key := "secret";
  transport := "tls"; iface := ""; srcMAC := ""; gwMAC := ""; srcIP := ""; dstIP := "";
  srcPort := 0; dstPort := 0; noAutoIPT := false; sni := "www.cloudflare.com";
  remotes := "10.0.0.1:443, 10.0.0.2:443 "; wsPath := "/"; wsHost := ""; wsTLS := true;
  utlsFlag := false; fragFlag := 0
|}.

Lemma dispatch_remotes_witness :
  Forall entry_ok [("", "10.0.0.1:443", ""); (" ", "10.0.0.2:443", " ")]%string ∧
  dispatch demo_flags = inr (LMultiPath (listen demo_flags)
    (tls_endpoint demo_flags <$> ["10.0.0.1:443"; "10.0.0.2:443"]%string)).
Proof.
  assert (Forall entry_ok [("", "10.0.0.1:443", ""); (" ", "10.0.0.2:443", " ")]%string) as Hl
    by (repeat constructor).
  split; [exact Hl|].
  by apply (dispatch_remotes demo_flags [("", "10.0.0.1:443", ""); (" ", "10.0.0.2:443", " ")]%string).
Defined.

(** The client of several servers, each in a cell of its own. *)
Definition multipath_client (listen : string) (servers : list ServerEndpoint) : MultiPathClient :=
  NewMultiPathClient listen (seq 0 (length servers)) (map_seq 0 servers).

(** The client of several servers that [main] starts is well formed, so
    the theorems on [MultiPathClient] apply to it: its servers are distinct
    cells, at least one, all with a cleared failure count, and the current
    index is in range. *)
Theorem main_multipath_wf f :
  wp (main f) (λ _ o, ∀ g block li servers,
    o = Launch g block (LMultiPath li servers) → Z.of_nat (length servers) < 2 ^ 31 →
    mp_wf (multipath_client li servers)).
Proof.
  eapply wp_mono, main_launches. intros _ o Ho g block li servers -> Hlen.
  destruct Ho as (_ & _ & _ & _ & _ & _ & _ & Hne & _ & Hall).
  constructor; simpl; try done.
  - apply NoDup_seq.
  - intros Heq%(f_equal length). rewrite length_seq in Heq. by apply length_zero_iff_nil in Heq.
  - by rewrite length_seq.
  - rewrite length_seq. destruct servers; [done|simpl; lia].
  - intros l Hl. simpl in *. apply elem_of_seq in Hl. rewrite lookup_map_seq_0. apply lookup_lt_is_Some. lia.
  - intros l e He. rewrite lookup_map_seq_0 in He. apply list_elem_of_lookup_2 in He.
    eapply Forall_forall in Hall as (_ & -> & _); [|done]. unfold in_int32. lia.
Qed.

(** ** Ports and the firewall *)

Definition raw_launch (l : launch) : option RawParams :=
  match l with LServerRaw _ rp | LClientRaw _ rp => Some rp | _ => None end.

Lemma uint16_zero x : uint16 x = 0 ↔ (65536 | x).
Proof. unfold uint16, wrap_u. change (2 ^ 16) with 65536. apply Z.mod_divide. lia. Qed.

(** The ports of the raw transport are checked before they are cut to 16
    bits: what is started has ports in range, but a port flag that is a
    non-zero multiple of 65536 passes the check and becomes port 0. *)
Theorem dispatch_port_wraps f l rp :
  dispatch f = inr l → raw_launch l = Some rp →
  srcPort f ≠ 0 ∧ dstPort f ≠ 0 ∧ 0 <= rp_SrcPort rp < 65536 ∧ 0 <= rp_DstPort rp < 65536 ∧
  (rp_SrcPort rp = 0 ↔ (65536 | srcPort f)) ∧ (rp_DstPort rp = 0 ↔ (65536 | dstPort f)).
Proof.
  intros Hd Hl. apply (dispatch_ok (λ rp, srcPort f ≠ 0 ∧ dstPort f ≠ 0 ∧ rp = raw_params f)) in Hd.
  - assert (srcPort f ≠ 0 ∧ dstPort f ≠ 0 ∧ rp = raw_params f) as (Hs & Hdp & ->).
    { destruct l; simplify_eq/=; tauto. }
    simpl. rewrite !uint16_zero. split_and!; try done; apply uint16_range.
  - intros _ Hv. unfold rawValid in Hv. apply bool_decide_eq_true in Hv. tauto.
Qed.

Definition demo_raw_flags (sport dport : Z) : flags := {|
  mode := "server"; listen := ""; target := "127.0.0.1:443"; remote := ""; key := "secret";
  transport := "raw"; iface := "eth0"; srcMAC := "aa"; gwMAC := "bb"; srcIP := "10.0.0.1";
  dstIP := "10.0.0.2"; srcPort := sport; dstPort := dport; noAutoIPT := false; sni := "";
  remotes := ""; wsPath := ""; wsHost := ""; wsTLS := true; utlsFlag := false; fragFlag := 0
|}.

Lemma dispatch_port_wraps_witness :
  let f := demo_raw_flags 65536 443 in
  dispatch f = inr (LServerRaw "127.0.0.1:443" (raw_params f)) ∧ rp_SrcPort (raw_params f) = 0 ∧
  srcPort f ≠ 0 ∧ dstPort f ≠ 0 ∧ 0 <= rp_SrcPort (raw_params f) < 65536 ∧
  0 <= rp_DstPort (raw_params f) < 65536 ∧
  (rp_SrcPort (raw_params f) = 0 ↔ (65536 | srcPort f)) ∧
  (rp_DstPort (raw_params f) = 0 ↔ (65536 | dstPort f)).
Proof.
  intros f. split; [reflexivity|]. split; [reflexivity|].
  apply (dispatch_port_wraps f (LServerRaw "127.0.0.1:443" (raw_params f)) (raw_params f)); reflexivity.
Defined.

(** The operation of a call of [iptables]. *)
Definition iptables_op (ev : event sysE) : option string :=
  match ev with
  | @Event _ _ e _ =>
    match e with
    | ExecRun name args | ExecCombined name args =>
      if decide (name = "iptables"%string) then args !! 2%nat else None
    | _ => None
    end
  end.

Lemma apply_rules_ops rs :
  wp (apply_rules rs) (λ tr _, Forall (λ ev, iptables_op ev ≠ Some "-D"%string) tr).
Proof.
  induction rs as [|r rs IH]; [constructor|]. cbn [apply_rules].
  wp_call e He. destruct e as [e|].
  - wp_call out Hout. destruct out as [out [err|]]; simpl.
    + by repeat constructor.
    + eapply wp_mono, IH. intros tr a Htr. by repeat constructor.
  - eapply wp_mono, IH. intros tr a Htr. by repeat constructor.
Qed.

(** The firewall rules can outlive the program: with all the addresses of
    the raw transport given, but no port of the peer, [main] first installs
    the rules for our port and only then finds the port missing and exits
    through [log.Fatal]; no rule is ever deleted on that path, because only
    the goroutine that waits for a signal deletes them. *)
Theorem main_fatal_keeps_rules f :
  key f ≠ "" → mode f = "server" → target f ≠ "" → transport f = "raw" → dstIP f ≠ "" →
  srcMAC f ≠ "" → gwMAC f ≠ "" → srcIP f ≠ "" → iface f ≠ "" →
  noAutoIPT f = false → srcPort f ≠ 0 → dstPort f = 0 →
  wp (main f) (λ tr o,
    o = Fatal raw_usage ∧
    Forall (λ ev, iptables_op ev ≠ Some "-D"%string) tr ∧
    ∃ block tr' r, runs (Apply (NewIPTablesManager (uint16 (srcPort f)))) tr' r ∧
      tr = Event (AESBlockCrypt (pad32 (bytes_of_string (key f)))) (Ok block) :: tr' ++
           [Event (GoOnSignal (uint16 (srcPort f))) tt]).
Proof.
  intros Hk Hm Ht Htr Hd Hsm Hgm Hsi Hif Hno Hsp Hdp.
  unfold main. rewrite decide_False by done. wp_call blk Hb.
  assert (blk = Ok (pad32 (bytes_of_string (key f)))) as -> by (apply Hb; rewrite pad32_length; set_solver).
  unfold discover. rewrite decide_True, !decide_False by (done || tauto). cbn [mbind prog_bind pbind mret prog_ret].
  unfold firewall, uses_iptables. rewrite bool_decide_eq_true_2 by done.
  apply wp_bind. apply wp_bind. eapply wp_mono; [|apply wp_self, apply_rules_ops].
  intros tr r [Hr Hops]. wp_call u Hu. destruct u. simpl.
  assert (dispatch f = inl raw_usage) as ->.
  { unfold dispatch. rewrite Hm, Htr, (decide_False (P := target f = "")) by done.
    unfold rawValid. rewrite bool_decide_eq_false_2 by tauto. reflexivity. }
  rewrite app_nil_r. split; [done|]. split.
  - constructor; [done|]. apply Forall_app. split; [done|by repeat constructor].
  - by exists (pad32 (bytes_of_string (key f))), tr, r.
Qed.

Lemma main_fatal_keeps_rules_witness :
  wp (main (demo_raw_flags 4000 0)) (λ tr o,
    o = Fatal raw_usage ∧
    Forall (λ ev, iptables_op ev ≠ Some "-D"%string) tr ∧
    ∃ block tr' r, runs (Apply (NewIPTablesManager (uint16 4000))) tr' r ∧
      tr = Event (AESBlockCrypt (pad32 (bytes_of_string "secret"))) (Ok block) :: tr' ++
           [Event (GoOnSignal (uint16 4000)) tt]).
Proof. by apply (main_fatal_keeps_rules (demo_raw_flags 4000 0)). Defined.
