(* ===== verification/Program.v ===== *)
(** * The clients' accept loops, and what [main] starts

    The last lines of every branch of [main]: the server or client it starts,
    with its listener and its accept loop; and the whole program. *)

From S2P Require Import Prelude Effects Net TlsTransport WsTransport TunnelConfig MultiPath IPTables AutoDiscover RawPacketConn Tunnel Main.

(** ** The clients

    The goroutine of a local connection is [Tunnel.serve_client], or
    [MultiPath.handleConn]. *)
Fixpoint client_loop (fuel : nat) (local : listener) : prog sysE unit :=
  match fuel with
  | O => mret tt
  | S fuel' =>
    r ← trigger (Accept local);
    match r with
    | Err _ => client_loop fuel' local
    | Ok c => _ ← trigger (GoClient c); client_loop fuel' local
    end
  end.

(** The clients give the server that [getSession] of their goroutines dials;
    an error is a [log.Fatalf]. *)
Definition runClient (fuel : nat) (listen remote : string) : prog sysE (res Tunnel.transport) :=
  local ← listenTCP listen;
  match local with
  | Err e => mret (Err e)
  | Ok local => _ ← client_loop fuel local; mret (Ok (TUdp remote))
  end.

Definition runClientTLS (fuel : nat) (listen remote sni : string)
    : prog sysE (res Tunnel.transport) :=
  local ← listenTCP listen;
  match local with
  | Err e => mret (Err e)
  | Ok local => _ ← client_loop fuel local; mret (Ok (TTls remote sni))
  end.

Definition runClientWS (fuel : nat) (listen remote host path sni : string) (useTLS : bool)
    : prog sysE (res Tunnel.transport) :=
  local ← listenTCP listen;
  match local with
  | Err e => mret (Err e)
  | Ok local => _ ← client_loop fuel local; mret (Ok (TWs remote host path sni useTLS))
  end.

Definition runClientRaw (fuel : nat) (listen : string) (rp : RawParams)
    : prog sysE (res Tunnel.transport) :=
  local ← listenTCP listen;
  match local with
  | Err e => mret (Err e)
  | Ok local =>
    ip4 ← trigger (ParseIP4 (rp_DstIP rp));
    let peer := {| ip := ip4; port := rp_DstPort rp |} in
    _ ← client_loop fuel local; mret (Ok (TRaw rp peer))
  end.

Definition Run (fuel : nat) (m : MultiPathClient) : prog sysE (res unit) :=
  local ← listenTCP (mp_listen m);
  match local with
  | Err e => mret (Err e)
  | Ok local => _ ← client_loop fuel local; mret (Ok tt)
  end.

(** ** What [main] starts *)

Inductive running :=
| RServer (stopped : option unit)
| RClient (t : Tunnel.transport)
| RMultiPath (m : MultiPathClient).

Definition res_map {A B} (f : A → B) (r : res A) : res B :=
  match r with Ok a => Ok (f a) | Err e => Err e end.

Section launch.
Context (fuel : nat) (key : list byte).

Definition run_launch (l : launch) : prog sysE (res running) :=
  match l with
  | LServerRaw target rp => r ← runServerRaw key fuel target rp; mret (res_map RServer r)
  | LServerTLS listen target sni => r ← runServerTLS fuel listen target sni; mret (res_map RServer r)
  | LServerWS listen target path sni useTLS =>
    r ← runServerWS fuel listen target path sni useTLS; mret (res_map RServer r)
  | LServer listen target => r ← runServer key fuel listen target; mret (res_map RServer r)
  | LClientRaw listen rp => r ← runClientRaw fuel listen rp; mret (res_map RClient r)
  | LClientTLS listen remote sni => r ← runClientTLS fuel listen remote sni; mret (res_map RClient r)
  | LClientWS listen remote host path sni useTLS =>
    r ← runClientWS fuel listen remote host path sni useTLS; mret (res_map RClient r)
  | LClient listen remote => r ← runClient fuel listen remote; mret (res_map RClient r)
  | LMultiPath listen servers =>
    (* the endpoints are shared by pointer *)
    let m := NewMultiPathClient listen (seq 0 (length servers)) (map_seq 0 servers) in
    r ← Run fuel m; mret (res_map (λ _, RMultiPath m) r)
  end.

(** ** Every connection is handed on *)

Definition handed_client (ev : event sysE) : option conn :=
  match ev with
  | @Event _ _ e _ => match e with GoClient c => Some c | _ => None end
  end.

(** The addresses a trace listens on; the raw server listens on its capture. *)
Definition listens_on (ev : event sysE) : option string :=
  match ev with
  | @Event _ _ e _ =>
    match e with
    | NetListen addr | TlsListen addr _ | KcpListen addr _ _ _ => Some addr
    | _ => None
    end
  end.

(** Calls that accept nothing and hand nothing on. *)
Definition handless (tr : list (event sysE)) : Prop :=
  omap accepted_conn tr = [] ∧ omap handed_conn tr = [] ∧ omap handed_client tr = [].

Lemma client_loop_wp n l :
  wp (client_loop n l) (λ tr _,
    omap handed_conn tr = [] ∧ omap handed_client tr = omap res_some (omap accepted_conn tr) ∧
    length (omap accepted_conn tr) = n).
Proof.
  induction n as [|n IH]; [done|]. cbn [client_loop]. wp_call r Hr. destruct r as [c|e].
  - wp_call u Hu. eapply wp_mono, IH. intros tr [] (H1 & H2 & H3). simpl.
    change (list_omap _ _ ?f ?l) with (omap f l). by rewrite H1, H2, H3.
  - eapply wp_mono, IH. intros tr [] (H1 & H2 & H3). simpl.
    change (list_omap _ _ ?f ?l) with (omap f l). by rewrite H1, H2, H3.
Qed.

Lemma applyKCP_handless c : wp (applyKCP c) (λ tr _, handless tr).
Proof. unfold applyKCP. by wp_steps. Qed.

Lemma accept_loop_clients n retry kcp l target :
  wp (accept_loop n retry kcp l target) (λ tr _, omap handed_client tr = []).
Proof.
  induction n as [|n IH]; [done|]. cbn [accept_loop]. wp_call r Hr. destruct r as [c|e].
  - apply wp_bind.
    assert (wp (if kcp then applyKCP c else mret tt) (λ tr _, omap handed_client tr = [])) as Ht.
    { destruct kcp; [|done]. eapply wp_mono, applyKCP_handless. by intros tr u (_ & _ & ?). }
    eapply wp_mono, Ht. intros tr0 u0 H0. wp_call u Hu. eapply wp_mono, IH. intros tr1 u1 H1.
    change (Event ?a ?b :: tr0 ++ ?rest) with ([Event a b] ++ tr0 ++ rest).
    by rewrite !omap_app, H0.
  - destruct retry; [|done]. eapply wp_mono, IH. by intros tr1 u1 H1.
Qed.

(** What the accept loop of a server does, and how it can end. *)
Definition served (retry : bool) (target : string) (tr : list (event sysE)) (stopped : option unit) :
    Prop :=
  omap handed_client tr = [] ∧
  omap handed_conn tr = (λ c, (c, target)) <$> omap res_some (omap accepted_conn tr) ∧
  match stopped with
  | Some _ => retry = false ∧ ∃ cs e, omap accepted_conn tr = (Ok <$> cs) ++ [Err e]
  | None => length (omap accepted_conn tr) = fuel ∧
      (retry = false → ∃ cs, omap accepted_conn tr = Ok <$> cs)
  end.

Lemma accept_loop_served retry kcp l target :
  wp (accept_loop fuel retry kcp l target) (λ tr r, served retry target tr r).
Proof.
  eapply wp_mono, wp_and; [|apply accept_loop_clients|apply accept_loop_hands_off].
  intros tr r (Hc & Hh & _ & Hend). by split_and!.
Qed.

Lemma served_quiet retry target tr tr' r :
  handless tr → served retry target tr' r → served retry target (tr ++ tr') r.
Proof.
  intros (H1 & H2 & H3) (Hc & Hh & Hend). unfold served. rewrite !omap_app, H1, H2, H3.
  by split_and!.
Qed.

(** Whether the accept loop of a launched server goes on after an error, and the
    target of the server. *)
Definition server_of (l : launch) : option (bool * string) :=
  match l with
  | LServerRaw target _ => Some (false, target)
  | LServerTLS _ target _ => Some (true, target)
  | LServerWS _ target _ _ _ => Some (false, target)
  | LServer _ target => Some (true, target)
  | _ => None
  end.

Lemma NewRawPacketConn_handless iface smac dmac sip dip sport dport :
  wp (NewRawPacketConn iface smac dmac sip dip sport dport) (λ tr _, handless tr).
Proof. unfold NewRawPacketConn. by wp_steps. Qed.

Lemma generateSelfSignedCert_handless sni : wp (generateSelfSignedCert sni) (λ tr _, handless tr).
Proof. unfold generateSelfSignedCert. by wp_steps. Qed.

Lemma handless_app tr tr' : handless tr → handless tr' → handless (tr ++ tr').
Proof. intros (A1 & A2 & A3) (B1 & B2 & B3). unfold handless. by rewrite !omap_app, A1, A2, A3. Qed.

Lemma NewTLSListener_handless listen sni : wp (NewTLSListener listen sni) (λ tr _, handless tr).
Proof.
  unfold NewTLSListener. apply wp_bind. eapply wp_mono, generateSelfSignedCert_handless.
  intros tr [c|e] Htr; wp_steps; by apply handless_app.
Qed.

Lemma NewWSListener_handless listen path sni useTLS :
  wp (NewWSListener listen path sni useTLS) (λ tr _, handless tr).
Proof.
  unfold NewWSListener. wp_call r Hr. destruct r as [ln|e]; [|done]. destruct useTLS; [|done].
  apply wp_bind. eapply wp_mono, generateSelfSignedCert_handless.
  intros tr [c|e] Htr; wp_steps; by apply (handless_app [_]), handless_app.
Qed.

(** Running a server or a client behind its set-up. *)
Lemma after_handless {A B} (p : prog sysE A) (k : A → prog sysE B) (Q : list (event sysE) → B → Prop) :
  wp p (λ tr _, handless tr) → (∀ tr tr' b, handless tr → Q tr' b → Q (tr ++ tr') b) →
  (∀ a, wp (k a) Q) → wp (p ≫= k) Q.
Proof.
  intros Hp HQ Hk. apply wp_bind. eapply wp_mono, Hp. intros tr a Htr.
  eapply wp_mono, Hk. intros tr' b Hb. by apply HQ.
Qed.

(** Where a server or client listens. *)
Definition listens_at (l : launch) : list string :=
  match l with
  | LServerRaw _ _ => []
  | LServerTLS li _ _ | LServerWS li _ _ _ _ | LServer li _ | LClientRaw li _ | LClientTLS li _ _
  | LClientWS li _ _ _ _ _ | LClient li _ | LMultiPath li _ => [li]
  end.

(** The tunnel whose sessions the goroutines of a client use: to the server of
    the launch, at the address that was parsed for the raw transport. *)
Definition tunnel_of (l : launch) (tr : list (event sysE)) (r : running) : Prop :=
  match l, r with
  | LClient _ remote, RClient t => t = TUdp remote
  | LClientTLS _ remote sni, RClient t => t = TTls remote sni
  | LClientWS _ remote host path sni useTLS, RClient t => t = TWs remote host path sni useTLS
  | LClientRaw _ rp, RClient t => ∃ ip4, Event (ParseIP4 (rp_DstIP rp)) ip4 ∈ tr ∧
      t = TRaw rp {| ip := ip4; port := rp_DstPort rp |}
  | LMultiPath li servers, RMultiPath m =>
      mp_listen m = li ∧ MultiPath.servers m = seq 0 (length servers) ∧
      ∀ k e, servers !! k = Some e → endpoints m !! k = Some e
  | _, _ => False
  end.

Lemma tunnel_of_after l tr tr' r : tunnel_of l tr' r → tunnel_of l (tr ++ tr') r.
Proof.
  destruct l, r; try done. intros (ip4 & Hin & ->). exists ip4. split; [|done].
  apply elem_of_app. by right.
Qed.

(** What a launched server or client is to do. *)
Definition launched (l : launch) (tr : list (event sysE)) (r : res running) : Prop :=
  match r with
  | Err _ => handless tr
  | Ok (RServer stopped) => ∃ retry target, server_of l = Some (retry, target) ∧
      served retry target tr stopped
  | Ok r => server_of l = None ∧ tunnel_of l tr r ∧ omap handed_conn tr = [] ∧
      omap handed_client tr = omap res_some (omap accepted_conn tr) ∧
      length (omap accepted_conn tr) = fuel
  end.

Lemma launched_after l tr tr' r : handless tr → launched l tr' r → launched l (tr ++ tr') r.
Proof.
  intros Htr. destruct r as [[stopped|t|m]|e]; simpl.
  - intros (retry & target & Hl & Hs). exists retry, target. split; [done|]. by apply served_quiet.
  - intros (Hs & Ht & Hr). destruct Htr as (H1 & H2 & H3). rewrite !omap_app, H1, H2, H3.
    split; [done|]. split; [by apply tunnel_of_after|done].
  - intros (Hs & Ht & Hr). destruct Htr as (H1 & H2 & H3). rewrite !omap_app, H1, H2, H3.
    split; [done|]. split; [by apply tunnel_of_after|done].
  - by apply handless_app.
Qed.

Lemma wp_res_map {A} (p : prog sysE A) (f : A → res running) l :
  wp p (λ tr a, launched l tr (f a)) → wp (a ← p; mret (f a)) (launched l).
Proof.
  intros Hp. apply wp_bind. eapply wp_mono, Hp. intros tr a Ha.
  cbn [wp mret prog_ret]. by rewrite app_nil_r.
Qed.

Lemma accept_loop_launched l retry kcp lis target (k : option unit → prog sysE (res (option unit))) :
  server_of l = Some (retry, target) →
  (∀ st, wp (k st) (λ tr r, handless tr ∧ r = Ok st)) →
  wp (accept_loop fuel retry kcp lis target ≫= k) (λ tr r, launched l tr (res_map RServer r)).
Proof.
  intros Hl Hk. apply wp_bind. eapply wp_mono, accept_loop_served. intros tr st Hst.
  eapply wp_mono, Hk. intros tr' r [(H1 & H2 & H3) ->]. exists retry, target. split; [done|].
  unfold served in *. by rewrite !omap_app, H1, H2, H3, !app_nil_r.
Qed.

Lemma client_loop_launched l lis t pre :
  server_of l = None → handless pre → (∀ tr, tunnel_of l (pre ++ tr) (RClient t)) →
  wp (_ ← client_loop fuel lis; mret (Ok t)) (λ tr r, launched l (pre ++ tr) (res_map RClient r)).
Proof.
  intros Hl (P1 & P2 & P3) Ht. apply wp_bind. eapply wp_mono, client_loop_wp. intros tr u (H1 & H2 & H3).
  cbn [wp mret prog_ret launched res_map]. rewrite app_nil_r, !omap_app, P1, P2, P3. by split_and!.
Qed.

Lemma Close_handless c : wp (Close c) (λ tr _, handless tr).
Proof. unfold Close. destruct (closeCh c); [done|]. by wp_steps. Qed.

(** A listener is opened, and a client runs on it. *)
Lemma client_launched l listen (k : listener → prog sysE (res Tunnel.transport)) :
  (∀ lis, wp (k lis) (λ tr r, launched l tr (res_map RClient r))) →
  wp (local ← listenTCP listen;
      match local with Err e => mret (Err e) | Ok local => k local end)
    (λ tr r, launched l tr (res_map RClient r)).
Proof.
  intros Hk. unfold listenTCP. wp_call local Hlocal. destruct local as [lis|e]; [|done].
  eapply wp_mono, Hk. intros tr r Hr. by apply (launched_after l [_]).
Qed.

Lemma run_launch_wp l : wp (run_launch l) (launched l).
Proof.
  destruct l; cbn [run_launch]; apply wp_res_map.
  - unfold runServerRaw. eapply after_handless; [apply NewRawPacketConn_handless|
      intros tr tr' b; apply launched_after|]. intros [pconn|e]; [|done].
    wp_call lis Hlis. destruct lis as [lis|e]; [|done].
    eapply wp_mono; [intros tr r; apply (launched_after _ [_]); done|].
    apply (accept_loop_launched _ false); [done|]. intros [u|]; [|done].
    apply wp_bind. eapply wp_mono, Close_handless. intros tr u' Htr.
    cbn [wp mret prog_ret]. by rewrite app_nil_r.
  - unfold runServerTLS. eapply after_handless; [apply NewTLSListener_handless|
      intros tr tr' b; apply launched_after|]. intros [lis|e]; [|done].
    by apply (accept_loop_launched _ true).
  - unfold runServerWS. eapply after_handless; [apply NewWSListener_handless|
      intros tr tr' b; apply launched_after|]. intros [[[[p lis] c] w]|e]; [|done].
    by apply (accept_loop_launched _ false).
  - unfold runServer. wp_call lis Hlis. destruct lis as [lis|e]; [|done].
    eapply wp_mono; [intros tr r; apply (launched_after _ [_]); done|].
    by apply (accept_loop_launched _ true).
  - apply client_launched. intros lis. wp_call ip4 Hip.
    apply (client_loop_launched _ _ _ [_]); [done..|]. intros tr. exists ip4. split; [left|done].
  - apply client_launched. intros lis. by apply (client_loop_launched _ _ _ []).
  - apply client_launched. intros lis. by apply (client_loop_launched _ _ _ []).
  - apply client_launched. intros lis. by apply (client_loop_launched _ _ _ []).
  - unfold Run, listenTCP. wp_call lis Hlis. destruct lis as [lis|e]; [|done].
    apply wp_bind. eapply wp_mono, client_loop_wp. intros tr u (H1 & H2 & H3).
    cbn [wp mret prog_ret]. rewrite app_nil_r. apply (launched_after _ [_]); [done|].
    split; [done|]. split; [|done]. split; [done|]. split; [done|].
    intros k e Hk. cbn. by rewrite lookup_map_seq_0.
Qed.

(** ** Where it listens *)

Definition unlistening (tr : list (event sysE)) : Prop := omap listens_on tr = [].

Lemma unlistening_bind {A B} (p : prog sysE A) (k : A → prog sysE B) :
  wp p (λ tr _, unlistening tr) → (∀ a, wp (k a) (λ tr _, unlistening tr)) →
  wp (p ≫= k) (λ tr _, unlistening tr).
Proof.
  intros Hp Hk. apply wp_bind. eapply wp_mono, Hp. intros tr a Htr.
  eapply wp_mono, Hk. intros tr' b Hb. unfold unlistening in *. by rewrite omap_app, Htr.
Qed.

(** When it succeeds, the program has listened on exactly these addresses. *)
Definition listens {A} (p : prog sysE (res A)) (addrs : list string) : Prop :=
  wp p (λ tr r, (∃ x, r = Ok x) → omap listens_on tr = addrs).

Lemma listens_then {A B} (p : prog sysE (res A)) (k : A → prog sysE (res B)) addrs :
  listens p addrs → (∀ a, wp (k a) (λ tr _, unlistening tr)) →
  listens (r ← p; match r with Err e => mret (Err e) | Ok a => k a end) addrs.
Proof.
  intros Hp Hk. apply wp_bind. eapply wp_mono, Hp. intros tr [a|e] Htr; [|by intros [? ?]].
  eapply wp_mono, Hk. intros tr' b Hb _. rewrite omap_app, Hb, app_nil_r. apply Htr. by eexists.
Qed.

Lemma listens_map {A} (p : prog sysE (res A)) (f : A → running) addrs :
  listens p addrs → listens (r ← p; mret (res_map f r)) addrs.
Proof.
  intros Hp. apply wp_bind. eapply wp_mono, Hp. intros tr r Hr.
  cbn [wp mret prog_ret]. rewrite app_nil_r. intros [x Hx]. apply Hr. destruct r; [by eexists|done].
Qed.

Lemma client_loop_unlistening n l : wp (client_loop n l) (λ tr _, unlistening tr).
Proof.
  induction n as [|n IH]; [done|]. cbn [client_loop]. wp_call r Hr. destruct r as [c|e]; [|exact IH].
  wp_call u Hu. exact IH.
Qed.

Lemma accept_loop_unlistening n retry kcp l target :
  wp (accept_loop n retry kcp l target) (λ tr _, unlistening tr).
Proof.
  induction n as [|n IH]; [done|]. cbn [accept_loop]. wp_call r Hr. destruct r as [c|e].
  - apply wp_bind. apply (wp_mono _ (λ tr _, unlistening tr)).
    + intros tr0 u0 H0. wp_call u Hu. eapply wp_mono, IH. intros tr1 u1 H1.
      change (Event ?a ?b :: tr0 ++ ?rest) with ([Event a b] ++ tr0 ++ rest).
      unfold unlistening in *. by rewrite !omap_app, H0.
    + destruct kcp; [|done]. unfold applyKCP. by wp_steps.
  - destruct retry; [exact IH|done].
Qed.

Lemma generateSelfSignedCert_unlistening sni :
  wp (generateSelfSignedCert sni) (λ tr _, unlistening tr).
Proof. unfold generateSelfSignedCert. by wp_steps. Qed.

Lemma NewRawPacketConn_unlistening iface smac dmac sip dip sport dport :
  wp (NewRawPacketConn iface smac dmac sip dip sport dport) (λ tr _, unlistening tr).
Proof. unfold NewRawPacketConn. by wp_steps. Qed.

Lemma NewTLSListener_listens addr sni : listens (NewTLSListener addr sni) [addr].
Proof.
  unfold NewTLSListener. apply wp_bind. eapply wp_mono, generateSelfSignedCert_unlistening.
  intros tr [c|e] Htr; [|by intros [? ?]]. wp_call l Hl. intros _. by rewrite omap_app, Htr.
Qed.

Lemma NewWSListener_listens addr path sni useTLS : listens (NewWSListener addr path sni useTLS) [addr].
Proof.
  unfold NewWSListener. wp_call ln Hln. destruct ln as [ln|e]; [|by intros [? ?]].
  destruct useTLS; [|by intros _]. apply wp_bind. eapply wp_mono, generateSelfSignedCert_unlistening.
  intros tr [c|e] Htr.
  - cbn [wp mret prog_ret]. intros _. rewrite app_nil_r. simpl. f_equal. exact Htr.
  - wp_call u Hu. by intros [? ?].
Qed.

Lemma Close_unlistening c : wp (Close c) (λ tr _, unlistening tr).
Proof. unfold Close. destruct (closeCh c); [done|]. by wp_steps. Qed.

(** The loops, and what is left to do when they end. *)
Lemma accept_loop_listens {B} n retry kcp lis target (k : option unit → prog sysE B) :
  (∀ st, wp (k st) (λ tr _, unlistening tr)) →
  wp (accept_loop n retry kcp lis target ≫= k) (λ tr _, unlistening tr).
Proof. intros Hk. by apply unlistening_bind; [apply accept_loop_unlistening|]. Qed.

Lemma client_listens {A} n addr (t : A) :
  listens (local ← listenTCP addr;
    match local with
    | Err e => mret (Err e)
    | Ok local => _ ← client_loop n local; mret (Ok t)
    end) [addr].
Proof.
  apply listens_then; [by wp_call l Hl|]. intros l.
  apply unlistening_bind; [apply client_loop_unlistening|done].
Qed.

Lemma run_launch_listens l : listens (run_launch l) (listens_at l).
Proof.
  destruct l; cbn [run_launch listens_at]; apply listens_map.
  - apply listens_then; [eapply wp_mono, NewRawPacketConn_unlistening; by intros|].
    intros pconn. wp_call lis Hlis. destruct lis as [lis|e]; [|done].
    apply accept_loop_listens. intros [u|]; [|done].
    apply unlistening_bind; [apply Close_unlistening|done].
  - apply listens_then; [apply NewTLSListener_listens|]. intros lis. by apply accept_loop_listens.
  - apply listens_then; [apply NewWSListener_listens|]. intros [[[p lis] c] w].
    by apply accept_loop_listens.
  - apply listens_then; [by wp_call lis Hlis|]. intros lis. by apply accept_loop_listens.
  - apply listens_then; [by wp_call lis Hlis|]. intros lis. wp_call ip4 Hip.
    apply unlistening_bind; [apply client_loop_unlistening|done].
  - apply client_listens.
  - apply client_listens.
  - apply client_listens.
  - apply client_listens.
Qed.

End launch.

(** ** The whole program

    [main] and what it starts; [inl] is a [log.Fatal] of [main]. *)
Definition program (fuel : nat) (f : flags) : prog sysE (string + launch * res running) :=
  o ← main f;
  match o with
  | Fatal msg => mret (inl msg)
  | Launch _ block l => r ← run_launch fuel block l; mret (inr (l, r))
  end.

(** Calls that neither listen, accept nor hand on. *)
Definition idle (tr : list (event sysE)) : Prop := handless tr ∧ unlistening tr.

Lemma idle_bind {A B} (p : prog sysE A) (k : A → prog sysE B) :
  wp p (λ tr _, idle tr) → (∀ a, wp (k a) (λ tr _, idle tr)) →
  wp (p ≫= k) (λ tr _, idle tr).
Proof.
  intros Hp Hk. apply wp_bind. eapply wp_mono, Hp. intros tr a [H1 H2].
  eapply wp_mono, Hk. intros tr' b [H3 H4]. split; [by apply handless_app|].
  unfold unlistening in *. by rewrite omap_app, H2.
Qed.

Lemma readNeighMAC_idle ip : wp (readNeighMAC ip) (λ tr _, idle tr).
Proof. unfold readNeighMAC. by wp_steps. Qed.

Lemma findGatewayMAC_idle ip iface : wp (findGatewayMAC ip iface) (λ tr _, idle tr).
Proof.
  unfold findGatewayMAC. apply idle_bind; [apply readNeighMAC_idle|]. intros mac.
  case_decide; [done|]. wp_call e He.
  apply (idle_bind (readNeighMAC ip)); [apply readNeighMAC_idle|].
  intros mac'. by case_decide.
Qed.

Lemma AutoDiscover_idle ip : wp (AutoDiscover ip) (λ tr _, idle tr).
Proof.
  unfold AutoDiscover. wp_call out Hout. destruct out as [text|e]; [|done].
  repeat (case_decide; [done|]). wp_call hw Hhw. destruct hw as [hw|e]; [|done].
  apply (idle_bind (findGatewayMAC _ _)); [apply findGatewayMAC_idle|]. by intros [mac|e].
Qed.

Lemma discover_idle f : wp (discover f) (λ tr _, idle tr).
Proof.
  unfold discover. repeat case_decide; try done.
  apply idle_bind; [apply AutoDiscover_idle|done].
Qed.

Lemma firewall_idle f : wp (firewall f) (λ tr _, idle tr).
Proof.
  unfold firewall. destruct (uses_iptables f); [|done]. apply idle_bind; [|by intros e].
  unfold Apply. induction (rules _) as [|r rs IH]; [done|]. cbn [apply_rules].
  wp_call e He. destruct e as [e|]; [|exact IH]. wp_call out Hout.
  by destruct out as [out [err|]].
Qed.

Lemma main_idle f : wp (main f) (λ tr _, idle tr).
Proof.
  unfold main. case_decide; [done|]. wp_call blk Hb. destruct blk as [blk|e]; [|done].
  apply (idle_bind (discover f)); [apply discover_idle|]. intros [msg|f']; [done|].
  apply idle_bind; [apply firewall_idle|]. intros u. by destruct (dispatch f').
Qed.

