(* ===== verification/Sha256.v ===== *)
(** * SHA-256 and hexadecimal digits

    The two encodings of the standard library the panel uses: [hex] and the
    SHA-256 hash of [crypto/sha256] (FIPS 180-4), on lists of bytes. *)

From S2P Require Import Prelude GoStrings.

(** ** [encoding/hex] *)

Definition hex_digit (n : Z) : ascii :=
  Ascii.ascii_of_N (Z.to_N (if n <? 10 then 48 + n else 87 + n)).

Fixpoint hex_encode (bs : list byte) : string :=
  match bs with
  | [] => ""
  | b :: bs' =>
    String (hex_digit (Z_of_byte b / 16)) (String (hex_digit (Z_of_byte b `mod` 16)) (hex_encode bs'))
  end.

(** The value of a digit, of either case. *)
Definition from_hex (c : ascii) : option Z :=
  let n := code c in
  if (48 <=? n) && (n <=? 57) then Some (n - 48)
  else if (97 <=? n) && (n <=? 102) then Some (n - 87)
  else if (65 <=? n) && (n <=? 70) then Some (n - 55)
  else None.

(** [hex.DecodeString] without its error: the bytes before the first bad
    digit, or before an odd last one. *)
Fixpoint hex_decode (s : string) : list byte :=
  match s with
  | String c1 (String c2 s') =>
    match from_hex c1, from_hex c2 with
    | Some a, Some b => byte_of_Z (a * 16 + b) :: hex_decode s'
    | _, _ => []
    end
  | _ => []
  end.

(** ** SHA-256 *)

Definition sha_k : list Z := [
  1116352408; 1899447441; 3049323471; 3921009573; 961987163; 1508970993;
  2453635748; 2870763221; 3624381080; 310598401; 607225278; 1426881987;
  1925078388; 2162078206; 2614888103; 3248222580; 3835390401; 4022224774;
  264347078; 604807628; 770255983; 1249150122; 1555081692; 1996064986;
  2554220882; 2821834349; 2952996808; 3210313671; 3336571891; 3584528711;
  113926993; 338241895; 666307205; 773529912; 1294757372; 1396182291;
  1695183700; 1986661051; 2177026350; 2456956037; 2730485921; 2820302411;
  3259730800; 3345764771; 3516065817; 3600352804; 4094571909; 275423344;
  430227734; 506948616; 659060556; 883997877; 958139571; 1322822218;
  1537002063; 1747873779; 1955562222; 2024104815; 2227730452; 2361852424;
  2428436474; 2756734187; 3204031479; 3329325298].

Definition sha_init : list Z := [1779033703; 3144134277; 1013904242; 2773480762; 1359893119; 2600822924; 528734635; 1541459225].

Definition rotr (n x : Z) : Z := Z.lor (Z.shiftr x n) (uint32 (Z.shiftl x (32 - n))).

Definition not32 (x : Z) : Z := Z.lxor x 4294967295.

Definition sha_ch (x y z : Z) : Z := Z.lxor (Z.land x y) (Z.land (not32 x) z).

Definition sha_maj (x y z : Z) : Z := Z.lxor (Z.lxor (Z.land x y) (Z.land x z)) (Z.land y z).

Definition big_sigma0 (x : Z) : Z := Z.lxor (Z.lxor (rotr 2 x) (rotr 13 x)) (rotr 22 x).
Definition big_sigma1 (x : Z) : Z := Z.lxor (Z.lxor (rotr 6 x) (rotr 11 x)) (rotr 25 x).
Definition small_sigma0 (x : Z) : Z := Z.lxor (Z.lxor (rotr 7 x) (rotr 18 x)) (Z.shiftr x 3).
Definition small_sigma1 (x : Z) : Z := Z.lxor (Z.lxor (rotr 17 x) (rotr 19 x)) (Z.shiftr x 10).

(** Big-endian words. *)
Definition put32 (x : Z) : list byte :=
  [byte_of_Z (Z.shiftr x 24); byte_of_Z (Z.shiftr x 16); byte_of_Z (Z.shiftr x 8); byte_of_Z x].

Fixpoint words (bs : list byte) : list Z :=
  match bs with
  | a :: b :: c :: d :: bs' =>
    (((Z_of_byte a * 256 + Z_of_byte b) * 256 + Z_of_byte c) * 256 + Z_of_byte d) :: words bs'
  | _ => []
  end.

(** The message, a one bit, zeroes, and the length in bits. *)
Definition sha_pad (bs : list byte) : list byte :=
  let len := Z.of_nat (length bs) in
  bs ++ [byte_of_Z 128] ++ replicate (Z.to_nat ((55 - len) `mod` 64)) Byte.x00 ++
  put32 (Z.shiftr (len * 8) 32) ++ put32 (len * 8).

(** The schedule, newest word first: [n] further words. *)
Fixpoint sha_extend (n : nat) (w : list Z) : list Z :=
  match n with
  | O => w
  | S n' =>
    let at_ i := nth i w 0 in
    sha_extend n'
      (uint32 (small_sigma1 (at_ 1%nat) + at_ 6%nat + small_sigma0 (at_ 14%nat) + at_ 15%nat) :: w)
  end.

Definition sha_schedule (block : list Z) : list Z := reverse (sha_extend 48 (reverse block)).

Definition sha_round (st : list Z) (kw : Z * Z) : list Z :=
  match st with
  | [a; b; c; d; e; f; g; h] =>
    let t1 := uint32 (h + big_sigma1 e + sha_ch e f g + kw.1 + kw.2) in
    let t2 := uint32 (big_sigma0 a + sha_maj a b c) in
    [uint32 (t1 + t2); a; b; c; uint32 (d + t1); e; f; g]
  | _ => st
  end.

Definition sha_block (st block : list Z) : list Z :=
  zip_with (λ x y, uint32 (x + y)) st (foldl sha_round st (zip sha_k (sha_schedule block))).

Fixpoint sha_blocks (n : nat) (st ws : list Z) : list Z :=
  match n with
  | O => st
  | S n' => sha_blocks n' (sha_block st (take 16 ws)) (drop 16 ws)
  end.

Definition sha256 (bs : list byte) : list byte :=
  let ws := words (sha_pad bs) in
  concat (put32 <$> sha_blocks (length ws / 16) sha_init ws).

(** ** Test vectors *)

Example sha256_empty :
  hex_encode (sha256 []) = "e3b0c44298fc1c149afbf4c8996fb92427ae41e4649b934ca495991b7852b855".
Proof. vm_compute. reflexivity. Qed.

Example sha256_abc :
  hex_encode (sha256 (bytes_of_string "abc")) =
    "ba7816bf8f01cfea414140de5dae2223b00361a396177a9cb410ff61f20015ad".
Proof. vm_compute. reflexivity. Qed.

(** A message of two blocks. *)
Example sha256_448 :
  hex_encode (sha256 (bytes_of_string "abcdbcdecdefdefgefghfghighijhijkijkljklmklmnlmnomnopnopq")) =
    "248d6a61d20638b8e5c026930c3e6039a33ce45964ff2167f6ecedd419db06c1".
Proof. vm_compute. reflexivity. Qed.

(** ** Lemmas *)

Lemma from_hex_digit n : 0 <= n < 16 → from_hex (hex_digit n) = Some n.
Proof.
  intros Hn. assert (n ∈ [0; 1; 2; 3; 4; 5; 6; 7; 8; 9; 10; 11; 12; 13; 14; 15]) as Hin
    by (rewrite !elem_of_cons; lia).
  clear Hn. revert n Hin. apply Forall_forall. repeat constructor.
Qed.

Lemma hex_roundtrip bs : hex_decode (hex_encode bs) = bs.
Proof.
  induction bs as [|b bs IH]; [done|]. cbn [hex_encode hex_decode].
  pose proof (Z_of_byte_range b).
  rewrite !from_hex_digit by zmod. rewrite IH. f_equal.
  replace (Z_of_byte b / 16 * 16 + Z_of_byte b `mod` 16) with (Z_of_byte b) by zmod.
  apply byte_of_Z_of_byte.
Qed.

Lemma hex_encode_inj bs bs' : hex_encode bs = hex_encode bs' → bs = bs'.
Proof. intros Heq. by rewrite <- (hex_roundtrip bs), Heq, hex_roundtrip. Qed.

Lemma hex_encode_length bs : String.length (hex_encode bs) = (2 * length bs)%nat.
Proof. induction bs as [|b bs IH]; simpl; lia. Qed.

Lemma hex_digit_plain n : 0 <= n < 16 → plain_char (hex_digit n) = true.
Proof.
  intros Hn. assert (n ∈ [0; 1; 2; 3; 4; 5; 6; 7; 8; 9; 10; 11; 12; 13; 14; 15]) as Hin
    by (rewrite !elem_of_cons; lia).
  clear Hn. revert n Hin. apply Forall_forall. repeat constructor.
Qed.

Lemma hex_encode_plain bs : plain_chars (hex_encode bs) = true.
Proof.
  induction bs as [|b bs IH]; [done|]. cbn [hex_encode plain_chars].
  pose proof (Z_of_byte_range b). rewrite !hex_digit_plain, IH by zmod. done.
Qed.

Lemma sha_round_length st kw : length (sha_round st kw) = length st.
Proof. unfold sha_round. by repeat case_match. Qed.

Lemma sha_rounds_length st kws : length (foldl sha_round st kws) = length st.
Proof.
  revert st. induction kws as [|kw kws IH]; intros st; [done|]. simpl. by rewrite IH, sha_round_length.
Qed.

Lemma sha_blocks_length n st ws : length (sha_blocks n st ws) = length st.
Proof.
  revert st ws. induction n as [|n IH]; intros st ws; [done|]. simpl. rewrite IH.
  unfold sha_block. rewrite length_zip_with, sha_rounds_length. lia.
Qed.

Lemma sha256_length bs : length (sha256 bs) = 32%nat.
Proof.
  unfold sha256. pose proof (sha_blocks_length (length (words (sha_pad bs)) / 16) sha_init
    (words (sha_pad bs))) as Hlen. revert Hlen.
  generalize (sha_blocks (length (words (sha_pad bs)) / 16) sha_init (words (sha_pad bs))) as l.
  intros l Hl. rewrite (length_concat_const 4).
  - by rewrite length_fmap, Hl.
  - apply Forall_fmap, Forall_forall. done.
Qed.
