(* ===== verification/PanelAuth.v ===== *)
(** * panel.go: the account, the sessions and the log-in

    The panel has one account, kept in a file with a salted hash of the
    password, and a table of session tokens in memory. *)

From S2P Require Import Prelude GoStrings Effects Net Sha256.

(** ** The account *)

Record DB := { User : string; PassHash : string; Salt : string; path : string }.

(** [json.MarshalIndent] of a [DB], and [json.Unmarshal] into one, whose error
    is ignored: it may set some fields and leave others. *)
Class DbCodec := {
  db_marshal : DB → string;
  db_unmarshal : string → DB → DB
}.

(** The documented round trip, for printable ASCII texts. *)
Class DbCodecLaw `{DbCodec} : Prop :=
  db_round_trip : ∀ d d0,
    plain_chars (User d) = true → plain_chars (PassHash d) = true → plain_chars (Salt d) = true →
    db_unmarshal (db_marshal d) d0 =
      {| User := User d; PassHash := PassHash d; Salt := Salt d; path := path d0 |}.

Section db.
Context `{DbCodec}.

Definition loadDB (p : string) : prog sysE (DB * bool) :=
  let db := {| User := "admin"; PassHash := ""; Salt := ""; path := p |} in
  b ← trigger (ReadFile p);
  match b with
  | Err _ => mret (db, false)
  | Ok b =>
    let db := db_unmarshal b db in
    let db := {| User := User db; PassHash := PassHash db; Salt := Salt db; path := p |} in
    mret (db, bool_decide (PassHash db ≠ ""))
  end.

Definition save (d : DB) : prog sysE (option goerr) :=
  trigger (WriteFile (path d) (db_marshal d) 384).

End db.

Definition randHex (n : nat) : prog sysE string :=
  b ← trigger (RandRead n);
  mret (hex_encode b).

Definition hashPw (salt pw : string) : string :=
  hex_encode (sha256 (bytes_of_string (salt +:+ ":" +:+ pw))).

Definition setPassword (d : DB) (pw : string) : prog sysE DB :=
  salt ← randHex 16;
  mret {| User := User d; PassHash := hashPw salt pw; Salt := salt; path := path d |}.

(** [subtle.ConstantTimeCompare]. *)
Definition ConstantTimeCompare (x y : list byte) : Z := if decide (x = y) then 1 else 0.

Definition check (d : DB) (user pw : string) : bool :=
  if negb (ConstantTimeCompare (bytes_of_string user) (bytes_of_string (User d)) =? 1) then false
  else
    let want := hex_decode (PassHash d) in
    let got := hex_decode (hashPw (Salt d) pw) in
    ConstantTimeCompare want got =? 1.

(** ** The sessions *)

Abbreviation Sessions := (gmap string Z).

Definition newSessions : Sessions := ∅.

Definition create (s : Sessions) : prog sysE (string * Sessions) :=
  tok ← randHex 32;
  now ← trigger TimeNow;
  mret (tok, <[tok := now + 8 * hour]> s).

Definition valid (s : Sessions) (tok : string) : prog sysE (bool * Sessions) :=
  if decide (tok = "") then mret (false, s)
  else
    match s !! tok with
    | None => mret (false, delete tok s)
    | Some exp =>
      now ← trigger TimeNow;
      if now >? exp then mret (false, delete tok s) else mret (true, s)
    end.

Definition drop (s : Sessions) (tok : string) : Sessions := delete tok s.

(** ** Requests and responses *)

Record request := {
  Method : string;
  URLPath : string;
  (* the value of the first cookie [t2sess] *)
  t2sess : option string;
  Body : string
}.

Inductive json :=
| JBool (b : bool)
| JStr (s : string)
| JList (l : list json)
| JObj (kvs : list (string * json)).

Record cookie := {
  ck_Name : string;
  ck_Value : string;
  ck_Path : string;
  ck_HttpOnly : bool;
  ck_Strict : bool;
  ck_MaxAge : Z
}.

(** What a handler answers: a JSON object, or text of a content type. *)
Inductive body :=
| JsonBody (v : json)
| TextBody (contentType text : string).

Record response := { code : Z; cookies : list cookie; content : body }.

Definition writeJSON (c : Z) (v : list (string * json)) : response :=
  {| code := c; cookies := []; content := JsonBody (JObj v) |}.

Record Server := { db : DB; sess : Sessions }.

Definition set_sess (s : Server) (ss : Sessions) : Server := {| db := db s; sess := ss |}.

Definition handler : Type := Server → request → prog sysE (response * Server).

Definition auth (next : handler) : handler := λ s r,
  match t2sess r with
  | None => mret (writeJSON 401 [("error", JStr "unauthorized")], s)
  | Some c =>
    '(ok, ss) ← valid (sess s) c;
    if negb ok then mret (writeJSON 401 [("error", JStr "unauthorized")], set_sess s ss)
    else next (set_sess s ss) r
  end.

(** [json.NewDecoder(io.LimitReader(r.Body, 1<<16)).Decode] of the log-in form;
    the error is ignored, so the fields that were not decoded are empty. *)
Class LoginDecoder := login_decode : string → string * string.

Definition limited (n : nat) (body : string) : string := take_string n body.

(** 64 KiB, never to be unfolded in unary. *)
Definition body_limit : nat := Z.to_nat 65536.
Lemma body_limit_eq : body_limit = Z.to_nat 65536.
Proof. reflexivity. Qed.
#[global] Opaque body_limit.

Definition login_cookie (tok : string) : cookie := {|
  ck_Name := "t2sess"; ck_Value := tok; ck_Path := "/"; ck_HttpOnly := true; ck_Strict := true;
  ck_MaxAge := 8 * 3600
|}.

Definition handleLogin `{LoginDecoder} : handler := λ s r,
  if decide (Method r ≠ "POST") then mret (writeJSON 405 [("error", JStr "method")], s)
  else
    let '(user, pass) := login_decode (limited body_limit (Body r)) in
    _ ← trigger (TimeSleep (250 * millisecond));
    if negb (check (db s) user pass) then
      mret (writeJSON 401 [("error", JStr "نام کاربری یا رمز اشتباه است")], s)
    else
      '(tok, ss) ← create (sess s);
      mret ({| code := 200; cookies := [login_cookie tok];
               content := JsonBody (JObj [("ok", JBool true)]) |}, set_sess s ss).

Definition handleLogout : handler := λ s r,
  let ss := match t2sess r with Some c => drop (sess s) c | None => sess s end in
  mret ({| code := 200;
           cookies := [{| ck_Name := "t2sess"; ck_Value := ""; ck_Path := "/"; ck_HttpOnly := false;
                          ck_Strict := false; ck_MaxAge := -1 |}];
           content := JsonBody (JObj [("ok", JBool true)]) |}, set_sess s ss).

(** ** The account keeps its password *)

Lemma bytes_of_string_inj s t : bytes_of_string s = bytes_of_string t → s = t.
Proof.
  intros Heq. rewrite <- (String.string_of_list_byte_of_string s), Heq.
  apply String.string_of_list_byte_of_string.
Qed.

Lemma check_spec d user pw :
  check d user pw = true ↔
    user = User d ∧ hex_decode (PassHash d) = sha256 (bytes_of_string (Salt d +:+ ":" +:+ pw)).
Proof.
  unfold check, ConstantTimeCompare, hashPw. rewrite hex_roundtrip.
  destruct (decide (bytes_of_string user = bytes_of_string (User d))) as [Heq|Hne]; simpl.
  - apply bytes_of_string_inj in Heq as ->. case_decide; naive_solver.
  - split; [done|]. by intros [-> _].
Qed.

Lemma setPassword_wp d pw :
  wp (setPassword d pw) (λ tr d', User d' = User d ∧ path d' = path d ∧
    plain_chars (Salt d') = true ∧ plain_chars (PassHash d') = true ∧ PassHash d' ≠ "" ∧
    length (hex_decode (Salt d')) = 16%nat ∧ PassHash d' = hashPw (Salt d') pw).
Proof.
  unfold setPassword, randHex. apply wp_bind. wp_call b Hb. simpl.
  split_and!; try done; try apply hex_encode_plain.
  - unfold hashPw. intros Heq%(f_equal String.length). rewrite hex_encode_length, sha256_length in Heq.
    discriminate.
  - by rewrite hex_roundtrip.
Qed.

Definition fresh_db (p : string) : DB := {| User := "admin"; PassHash := ""; Salt := ""; path := p |}.

Lemma loadDB_wp `{DbCodec} p :
  wp (loadDB p) (λ tr '(d, ok), ∃ r, tr = [Event (ReadFile p) r] ∧
    match r with
    | Err _ => d = fresh_db p ∧ ok = false
    | Ok b => path d = p ∧ User d = User (db_unmarshal b (fresh_db p)) ∧
        PassHash d = PassHash (db_unmarshal b (fresh_db p)) ∧
        Salt d = Salt (db_unmarshal b (fresh_db p)) ∧ ok = bool_decide (PassHash d ≠ "")
    end).
Proof. unfold loadDB. wp_call b Hb. by destruct b; simpl; eexists. Qed.

Definition file_read (ev : event sysE) : option (res string) :=
  match ev with
  | @Event _ _ e x =>
    match e in sysE X return X → option (res string) with
    | ReadFile _ => λ r, Some r
    | _ => λ _, None
    end x
  end.

(** C17. The account survives a restart: once [setPassword] has chosen a salt and
    the account has been saved, a panel that reads the file back finds the
    account and accepts the user with every password whose salted SHA-256 hash
    is that of the password set, the password itself among them, and nothing
    else. *)
Theorem account_survives_restart `{DbCodecLaw} d pw :
  plain_chars (User d) = true →
  wp (setPassword d pw) (λ _ d1,
    wp (save d1) (λ tr e, e = None →
      ∃ content, tr = [Event (WriteFile (path d) content 384) None] ∧
      wp (loadDB (path d)) (λ tr' '(d2, exists_), tr' = [Event (ReadFile (path d)) (Ok content)] →
        exists_ = true ∧
        (∀ user pw', check d2 user pw' = true ↔ user = User d ∧
           sha256 (bytes_of_string (Salt d1 +:+ ":" +:+ pw')) =
           sha256 (bytes_of_string (Salt d1 +:+ ":" +:+ pw))) ∧
        check d2 (User d) pw = true))).
Proof.
  intros Hu. eapply wp_mono, setPassword_wp.
  intros _ d1 (Hu1 & Hp1 & Hs & Hh & Hne & _ & Hpw).
  unfold save. split; [done|]. intros e _. cbn [wp]. intros ->. rewrite Hp1. eexists. split; [done|].
  eapply wp_mono, loadDB_wp. intros tr' [d2 ok] (r & -> & Hr) Heq.
  apply (f_equal (omap file_read)) in Heq. injection Heq as ->.
  rewrite db_round_trip in Hr by (rewrite ?Hu1; done). simpl in Hr.
  destruct Hr as (_ & Hu2 & Hp2 & Hs2 & ->).
  assert (∀ user pw', check d2 user pw' = true ↔ user = User d ∧
    sha256 (bytes_of_string (Salt d1 +:+ ":" +:+ pw')) =
    sha256 (bytes_of_string (Salt d1 +:+ ":" +:+ pw))) as Hcheck.
  { intros user pw'. rewrite check_spec, Hu2, Hp2, Hs2, Hu1, Hpw. unfold hashPw.
    rewrite hex_roundtrip. naive_solver. }
  split_and!; [apply bool_decide_eq_true; by rewrite Hp2|exact Hcheck|by apply Hcheck].
Qed.

(** ** The sessions are what was granted

    One operation on the table, at a time [t] that never goes back. *)
Inductive sess_label :=
| LCreate (tok : string) (t : Z)
| LDrop (tok : string) (t : Z)
| LValid (tok : string) (t : Z) (ok : bool).

Definition clock_is (t : Z) (tr : list (event sysE)) : Prop :=
  ∀ t', Event TimeNow t' ∈ tr → t' = t.

Inductive sess_steps : Sessions → Z → list sess_label → Sessions → Z → Prop :=
| sess_refl s t : sess_steps s t [] s t
| sess_create s0 t0 ls s t t' tr tok s' :
    sess_steps s0 t0 ls s t → t <= t' → runs (create s) tr (tok, s') → clock_is t' tr →
    sess_steps s0 t0 (ls ++ [LCreate tok t']) s' t'
| sess_drop s0 t0 ls s t t' tok :
    sess_steps s0 t0 ls s t → t <= t' →
    sess_steps s0 t0 (ls ++ [LDrop tok t']) (drop s tok) t'
| sess_valid s0 t0 ls s t t' tr tok ok s' :
    sess_steps s0 t0 ls s t → t <= t' → runs (valid s tok) tr (ok, s') → clock_is t' tr →
    sess_steps s0 t0 (ls ++ [LValid tok t' ok]) s' t'.

(** When [tok] was last granted, if it has not been dropped since. *)
Definition grant_step (tok : string) (g : option Z) (l : sess_label) : option Z :=
  match l with
  | LCreate tok' t => if decide (tok' = tok) then Some t else g
  | LDrop tok' _ => if decide (tok' = tok) then None else g
  | LValid _ _ _ => g
  end.

Definition granted (ls : list sess_label) (tok : string) : option Z :=
  foldl (grant_step tok) None ls.

(** The table holds the grants, but for some that have run out. *)
Definition sess_rep (ls : list sess_label) (now : Z) (s : Sessions) : Prop :=
  ∀ tok, match granted ls tok with
         | Some c => s !! tok = Some (c + 8 * hour) ∨ (s !! tok = None ∧ c + 8 * hour < now)
         | None => s !! tok = None
         end.

Lemma granted_snoc ls l tok : granted (ls ++ [l]) tok = grant_step tok (granted ls tok) l.
Proof. unfold granted. by rewrite foldl_app. Qed.

Lemma sess_rep_later ls now now' s : sess_rep ls now s → now <= now' → sess_rep ls now' s.
Proof.
  intros Hrep Hle tok. specialize (Hrep tok). destruct (granted ls tok); [|done].
  destruct Hrep as [?|[? ?]]; [by left|right]. split; [done|lia].
Qed.

Lemma create_wp s :
  wp (create s) (λ tr '(tok, s'), ∃ b t, length b = 32%nat ∧ tok = hex_encode b ∧
    tr = [Event (RandRead 32) b; Event TimeNow t] ∧ s' = <[tok := t + 8 * hour]> s).
Proof.
  unfold create, randHex. apply wp_bind. wp_call b Hb. simpl. split; [done|].
  intros t _. by exists b, t.
Qed.

Lemma valid_wp s tok :
  wp (valid s tok) (λ tr '(ok, s'),
    (ok = false ∧ s' = s ∧ tr = [] ∧ (tok = "" ∨ s !! tok = None)) ∨
    (tok ≠ "" ∧ ∃ exp t, s !! tok = Some exp ∧ tr = [Event TimeNow t] ∧
       ((exp < t ∧ ok = false ∧ s' = delete tok s) ∨ (t <= exp ∧ ok = true ∧ s' = s)))).
Proof.
  unfold valid. case_decide as Htok; [left; by auto|].
  destruct (s !! tok) as [exp|] eqn:Hs.
  - wp_call t Ht. destruct (Z.gtb_spec t exp); right; (split; [done|]); exists exp, t;
      (split; [done|]; split; [done|]); [left|right]; (split; [lia|done]).
  - left. split_and!; [done| |done|by right]. by apply delete_id.
Qed.

Lemma sess_rep_step ls now s : ∀ s0 t0,
  sess_steps s0 t0 ls s now → s0 = ∅ → sess_rep ls now s.
Proof.
  intros s0 t0 Hss H0. induction Hss as [s t|s0 t0 ls s t t' tr tok s' Hss IH Hle Hr Hcl
    |s0 t0 ls s t t' tok Hss IH Hle|s0 t0 ls s t t' tr tok ok s' Hss IH Hle Hr Hcl].
  - subst. intros tok. apply lookup_empty.
  - specialize (sess_rep_later _ _ t' _ (IH H0) Hle). intros Hrep tok'. specialize (Hrep tok').
    apply (wp_runs _ _ _ _ (create_wp s)) in Hr as (b & t1 & Hb & -> & -> & ->).
    assert (t1 = t') as -> by (apply Hcl; set_solver).
    rewrite granted_snoc. simpl. case_decide as Heq; [subst tok'|].
    + left. by rewrite lookup_insert_eq.
    + by rewrite lookup_insert_ne.
  - specialize (sess_rep_later _ _ t' _ (IH H0) Hle). intros Hrep tok'. specialize (Hrep tok').
    rewrite granted_snoc. simpl. unfold drop. case_decide as Heq; [subst tok'|].
    + by rewrite lookup_delete_eq.
    + by rewrite lookup_delete_ne.
  - specialize (sess_rep_later _ _ t' _ (IH H0) Hle). intros Hrep tok'. specialize (Hrep tok').
    rewrite granted_snoc. simpl.
    apply (wp_runs _ _ _ _ (valid_wp s tok)) in Hr as [(-> & -> & -> & _)|
      (Htok & exp & t1 & Hexp & -> & [(Hlt & -> & ->)|(_ & -> & ->)])]; [done| |done].
    assert (t1 = t') as -> by (apply Hcl; set_solver).
    destruct (decide (tok = tok')) as [<-|Hne]; [|by rewrite lookup_delete_ne].
    rewrite lookup_delete_eq, Hexp in *. destruct (granted ls tok); [right|done].
    destruct Hrep as [[= ->]|[? ?]]; [by split|done].
Qed.

(** C7. A session is valid exactly while it is granted: in any series of log-ins,
    log-outs and checks from the empty table, with a clock that does not go
    back, a check of a token succeeds if and only if the token is not empty,
    it has been granted by a log-in, it has not been dropped since, and no
    more than eight hours have passed.  That expired entries are deleted when
    they are seen makes no difference. *)
Theorem sessions_refine_grants ls t0 s t tok t' tr ok s' :
  sess_steps newSessions t0 ls s t → t <= t' → runs (valid s tok) tr (ok, s') → clock_is t' tr →
  ok = true ↔ tok ≠ "" ∧ ∃ c, granted ls tok = Some c ∧ t' <= c + 8 * hour.
Proof.
  intros Hss Hle Hr Hcl. pose proof (sess_rep_step _ _ _ _ _ Hss eq_refl tok) as Hrep.
  apply (wp_runs _ _ _ _ (valid_wp s tok)) in Hr as [(-> & -> & -> & Hnone)|
    (Htok & exp & t1 & Hexp & -> & Hok)].
  - split; [done|]. intros (Htok & c & Hc & Hlt). rewrite Hc in Hrep.
    destruct Hnone as [?|Hnone]; [done|]. destruct Hrep as [Hs|[_ Hs]]; [congruence|lia].
  - assert (t1 = t') as -> by (apply Hcl; set_solver). rewrite Hexp in Hrep.
    destruct (granted ls tok) as [c|]; [|done]. destruct Hrep as [[= ->]|[? _]]; [|done].
    destruct Hok as [(Hlt & -> & _)|(Hlt & -> & _)]; split; try done; [|intros _; by eauto].
    intros (_ & c' & [= <-] & Hlt'). lia.
Qed.

(** ** Log-in and the guard *)

(** The user is the one of the account, and the stored hash is that of the
    salted password. *)
Definition credentials (d : DB) (user pw : string) : Prop :=
  user = User d ∧ hex_decode (PassHash d) = sha256 (bytes_of_string (Salt d +:+ ":" +:+ pw)).

Lemma check_false d user pw : check d user pw = false ↔ ¬ credentials d user pw.
Proof. unfold credentials. rewrite <- check_spec. by destruct (check d user pw). Qed.

(** The cookie of a session: not for scripts, not for other sites, for the whole
    panel, and for eight hours. *)
Definition session_cookie (tok : string) : cookie := {|
  ck_Name := "t2sess"; ck_Value := tok; ck_Path := "/"; ck_HttpOnly := true; ck_Strict := true;
  ck_MaxAge := 28800
|}.

(** How a log-in ends, with the calls it makes. *)
Inductive login_ends (s : Server) (r : request) (user pw : string) :
    list (event sysE) → response → Server → Prop :=
| login_method resp :
    Method r ≠ "POST" → code resp = 405 → cookies resp = [] → login_ends s r user pw [] resp s
| login_wrong resp :
    Method r = "POST" → ¬ credentials (db s) user pw → code resp = 401 → cookies resp = [] →
    login_ends s r user pw [Event (TimeSleep (250 * millisecond)) tt] resp s
| login_right resp b t s' :
    Method r = "POST" → credentials (db s) user pw → length b = 32%nat →
    code resp = 200 → cookies resp = [session_cookie (hex_encode b)] →
    db s' = db s → sess s' = <[hex_encode b := t + 8 * hour]> (sess s) →
    login_ends s r user pw [Event (TimeSleep (250 * millisecond)) tt; Event (RandRead 32) b;
                            Event TimeNow t] resp s'.

Lemma handleLogin_wp `{LoginDecoder} s r :
  wp (handleLogin s r) (λ tr '(resp, s'),
    let '(user, pw) := login_decode (limited body_limit (Body r)) in
    login_ends s r user pw tr resp s').
Proof.
  unfold handleLogin. destruct (login_decode _) as [user pass].
  case_decide as Hm; [by apply login_method|].
  assert (Method r = "POST") as Hpost by (by destruct (decide (Method r = "POST"))).
  wp_call u Hu. destruct u. destruct (check (db s) user pass) eqn:Hc; cbn [negb].
  - apply check_spec in Hc. apply wp_bind. eapply wp_mono, create_wp.
    intros tr [tok ss] (b & t & Hb & -> & -> & ->). by eapply login_right.
  - apply check_false in Hc. by apply login_wrong.
Qed.

(** C36. A log-in is slow and strict: only a POST is answered with anything but
    405; every attempt waits 250 ms before the password is looked at; unless
    the user is that of the account and the salted SHA-256 hash of the
    password, computed from at most 64 KiB of the body, is the stored one, the
    answer is 401 without a cookie and nothing is granted; otherwise it is 200
    with exactly one cookie, HttpOnly and SameSite=Strict and for eight hours,
    with a token of 256 random bits, which is granted for eight hours from then
    on.  The account never changes. *)
Theorem handleLogin_grants `{LoginDecoder} s r :
  wp (handleLogin s r) (λ tr '(resp, s'), db s' = db s ∧
    let '(user, pw) := login_decode (take_string (Z.to_nat 65536) (Body r)) in
    login_ends s r user pw tr resp s').
Proof.
  eapply wp_mono, handleLogin_wp. intros tr [resp s'] Hl. unfold limited in Hl. rewrite body_limit_eq in Hl.
  destruct (login_decode _) as [user pw]. split; [by destruct Hl|exact Hl].
Qed.

Definition reads_clock (ev : event sysE) : Prop := ∃ t, ev = Event TimeNow t.

Definition clock_read (ev : event sysE) : option Z :=
  match ev with
  | @Event _ _ e x =>
    match e in sysE X return X → option Z with TimeNow => λ t, Some t | _ => λ _, None end x
  end.

Lemma clock_singleton t t' :
  (Event TimeNow t' : event sysE) ∈ [Event TimeNow t : event sysE] → t' = t.
Proof.
  intros Hin%list_elem_of_singleton. apply (f_equal clock_read) in Hin. by injection Hin.
Qed.

(** What the guard lets through. *)
Definition authorized (s : Server) (r : request) (t : Z) : Prop :=
  ∃ c exp, t2sess r = Some c ∧ c ≠ "" ∧ sess s !! c = Some exp ∧ t <= exp.

(** A request that is turned away. *)
Definition refused (s : Server) (r : request) (tr : list (event sysE)) (resp : response)
    (s' : Server) : Prop :=
  resp = writeJSON 401 [("error", JStr "unauthorized")] ∧ db s' = db s ∧ sess s' ⊆ sess s ∧
  Forall reads_clock tr ∧ (length tr <= 1)%nat ∧ ∀ t, Event TimeNow t ∈ tr → ¬ authorized s r t.

Lemma refused_at_once s r s' :
  db s' = db s → sess s' ⊆ sess s →
  refused s r [] (writeJSON 401 [("error", JStr "unauthorized")]) s'.
Proof. intros Hd Hs. split_and!; try done; [simpl; lia|]. by intros t ?%elem_of_nil. Qed.

Lemma refused_expired s r c exp t :
  t2sess r = Some c → sess s !! c = Some exp → exp < t →
  refused s r [Event TimeNow t] (writeJSON 401 [("error", JStr "unauthorized")])
    (set_sess s (delete c (sess s))).
Proof.
  intros Hc Hexp Hlt. split_and!; try done; [apply delete_subseteq|by repeat econstructor|].
  intros t' Hin (c' & exp' & Hc' & _ & Hexp' & Hle). simplify_eq.
  apply clock_singleton in Hin as ->. lia.
Qed.

(** The guard [auth]: a request reaches the handler behind it only with a
    token that is in the table and has not run out when the clock is read;
    the handler then runs on the unchanged server.  Any other request gets
    401, and has no effect but a reading of the clock and the deletion of an
    expired token. *)
Lemma auth_guards next s r tr resp s' :
  runs (auth next s r) tr (resp, s') →
  (∃ t tr', authorized s r t ∧ tr = Event TimeNow t :: tr' ∧ runs (next s r) tr' (resp, s')) ∨
  refused s r tr resp s'.
Proof.
  unfold auth. destruct (t2sess r) as [c|] eqn:Hck.
  - intros (tr1 & tr2 & [ok ss] & -> & Hv & Hr)%runs_bind.
    apply (wp_runs _ _ _ _ (valid_wp (sess s) c)) in Hv as
      [(-> & -> & -> & _)|(Hne & exp & t & Hexp & -> & [(Hlt & -> & ->)|(Hle & -> & ->)])]; simpl in Hr.
    + destruct Hr as [-> [= -> ->]]. right. by apply refused_at_once.
    + destruct Hr as [-> [= -> ->]]. right. by eapply refused_expired.
    + left. exists t, tr2. replace (set_sess s (sess s)) with s in Hr by (by destruct s).
      split_and!; [by exists c, exp|done|done].
  - intros [-> [= -> ->]]. right. by apply refused_at_once.
Qed.

(** ** Examples *)

(** A file with one field per line. *)
#[global] Instance line_codec : DbCodec := {
  db_marshal d := join (String "010" "") [User d; PassHash d; Salt d];
  db_unmarshal s d :=
    match split_char "010" s with
    | [u; h; salt] => {| User := u; PassHash := h; Salt := salt; path := path d |}
    | _ => d
    end
}.

#[global] Instance line_codec_law : DbCodecLaw.
Proof.
  intros d d0 Hu Hh Hs. unfold db_unmarshal, db_marshal, line_codec.
  rewrite split_join; [done|done|].
  repeat constructor; by apply plain_chars_lacks.
Qed.

Lemma account_survives_restart_witness :
  let d := fresh_db "panel.db.json" in
  plain_chars (User d) = true ∧
  wp (setPassword d "secret") (λ _ d1,
    wp (save d1) (λ tr e, e = None →
      ∃ content, tr = [Event (WriteFile (path d) content 384) None] ∧
      wp (loadDB (path d)) (λ tr' '(d2, exists_), tr' = [Event (ReadFile (path d)) (Ok content)] →
        exists_ = true ∧
        (∀ user pw', check d2 user pw' = true ↔ user = User d ∧
           sha256 (bytes_of_string (Salt d1 +:+ ":" +:+ pw')) =
           sha256 (bytes_of_string (Salt d1 +:+ ":" +:+ "secret"))) ∧
        check d2 (User d) "secret" = true))).
Proof.
  intros d. split; [done|]. exact (account_survives_restart d "secret" eq_refl).
Defined.

Definition demo_token : string := hex_encode (replicate 32 Byte.x00).

(** A log-in at time 0 and a check at eight hours. *)
Lemma demo_sessions :
  sess_steps newSessions 0 [LCreate demo_token 0] {[demo_token := 8 * hour]} 0.
Proof.
  apply (sess_create newSessions 0 [] newSessions 0 0
    [Event (RandRead 32) (replicate 32 Byte.x00); Event TimeNow 0] demo_token).
  - constructor.
  - lia.
  - exists (replicate 32 Byte.x00), [Event TimeNow 0]. split; [done|]. split; [done|].
    exists 0, []. by split_and!.
  - intros t' [?|Hin]%elem_of_cons; [done|by apply clock_singleton].
Qed.

Lemma sessions_refine_grants_witness :
  runs (valid {[demo_token := 8 * hour]} demo_token) [Event TimeNow (8 * hour)]
    (true, {[demo_token := 8 * hour]}) ∧
  (true = true ↔ demo_token ≠ "" ∧ ∃ c, granted [LCreate demo_token 0] demo_token = Some c ∧
     8 * hour <= c + 8 * hour).
Proof.
  assert (runs (valid {[demo_token := 8 * hour]} demo_token) [Event TimeNow (8 * hour)]
    (true, {[demo_token := 8 * hour]})) as Hr.
  { unfold valid. rewrite decide_False by done. rewrite lookup_singleton_eq.
    exists (8 * hour), []. by split_and!. }
  split; [exact Hr|].
  eapply (sessions_refine_grants [LCreate demo_token 0] 0 _ 0 demo_token (8 * hour)); [| |exact Hr|].
  - exact demo_sessions.
  - unfold hour, minute, second, millisecond. lia.
  - intros t' Hin. by apply clock_singleton.
Defined.

Definition demo_server : Server :=
  {| db := fresh_db "panel.db.json"; sess := {[demo_token := 8 * hour]} |}.

Definition demo_request (p : string) (tok : option string) (b : string) : request :=
  {| Method := "POST"; URLPath := p; t2sess := tok; Body := b |}.
