(* ===== verification/PanelPeers.v ===== *)
(** * panel.go: the peers of the installed service

    [handlePeer] finds the command line of the tunnel in the unit file of the
    service, reads the addresses of the peers from it and tries to connect to
    each of them. *)

From S2P Require Import Prelude GoStrings Effects Net PanelAuth.

(** The double quote. *)
Definition quote : ascii := "034"%char.

(** ** [parsePeers] *)

(** The inner loop of the [-dstip] case: the token after the last [-dstport]. *)
Fixpoint last_dstport (tok : list string) (port : string) : string :=
  match tok with
  | a :: (b :: _) as tok' => last_dstport tok' (if decide (a = "-dstport") then b else port)
  | _ => port
  end.

(** The non-blank entries of a [-remotes] list. *)
Fixpoint remote_list (ps : list string) : list string :=
  match ps with
  | [] => []
  | p :: ps' =>
    let p := trim_space p in
    if decide (p ≠ "") then p :: remote_list ps' else remote_list ps'
  end.

(** What the token [t], followed by [v], adds to the list. *)
Definition peer_of (all : list string) (t v : string) : list string :=
  if decide (t = "-remote") then [trim_char quote v]
  else if decide (t = "-remotes") then remote_list (split_char "," (trim_char quote v))
  else if decide (t = "-dstip") then
    let ip := trim_char quote v in
    let port := last_dstport all "" in
    if decide (port ≠ "") then [ip +:+ ":" +:+ port] else []
  else [].

Fixpoint parse_tokens (all tok : list string) : list string :=
  match tok with
  | t :: (v :: _) as tok' => peer_of all t v ++ parse_tokens all tok'
  | _ => []
  end.

Definition parsePeers (execLine : string) : list string :=
  let tok := fields execLine in parse_tokens tok tok.

(** ** [tcpReachable] and [firstLine] *)

Definition tcpReachable (addr : string) (timeout : Z) : prog sysE bool :=
  c ← trigger (NetDial {| Timeout := timeout; KeepAlive := None |} addr);
  match c with
  | Err _ => mret false
  | Ok c => _ ← trigger (ConnClose c); mret true
  end.

(** [firstLine]: [strings.IndexByte(s, '\n')]. *)
Definition firstLine (s : string) : string :=
  match index_byte "010" s with
  | Some i => take_string i s
  | None => trim_space s
  end.

(** ** [handlePeer] *)

Definition unit_path (service : string) : string := "/etc/systemd/system/" +:+ service +:+ ".service".

Definition exec_prefix : string := "ExecStart=".

(** The loop over the lines of the unit file. *)
Fixpoint exec_line (lines : list string) : string :=
  match lines with
  | [] => ""
  | ln :: lines' =>
    if has_prefix exec_prefix (trim_space ln) then trim_prefix exec_prefix (trim_space ln)
    else exec_line lines'
  end.

Fixpoint reach (peers : list string) : prog sysE (list (string * bool)) :=
  match peers with
  | [] => mret []
  | p :: peers' =>
    up ← tcpReachable p (4 * second);
    rs ← reach peers';
    mret ((p, up) :: rs)
  end.

Definition peer_result (r : string * bool) : json := JObj [("addr", JStr r.1); ("up", JBool r.2)].

Definition handlePeer (service : string) : handler := λ s r,
  data ← trigger (ReadFile (unit_path service));
  match data with
  | Err _ =>
    mret (writeJSON 200 [("configured", JBool false); ("reachable", JBool false);
                         ("reason", JStr "سرویس هنوز ساخته نشده")], s)
  | Ok data =>
    let execLine := exec_line (split_char "010" data) in
    let peers := parsePeers execLine in
    let role := if contains "-mode client" execLine then "client" else "server" in
    if decide (length peers = 0%nat) then
      mret (writeJSON 200 [("configured", JBool true); ("role", JStr role);
        ("reachable", JBool false);
        ("reason", JStr "این سمت سرور است؛ منتظر اتصال کلاینت می‌ماند")], s)
    else
      results ← reach peers;
      mret (writeJSON 200 [("configured", JBool true); ("role", JStr role);
        ("reachable", JBool (existsb snd results));
        ("peers", JList (peer_result <$> results))], s)
  end.

(** ** The command lines the panel writes *)

(** What the form of the panel puts on the command line for the peers. *)
Inductive peer_spec :=
| PRemote (addr : string)
| PRemotes (addrs : list string)
| PRaw (ip sport dport : string)
| PNone.

Definition quoted (s : string) : string := String quote "" +:+ s +:+ String quote "".

Definition peer_tokens (p : peer_spec) : list string :=
  match p with
  | PRemote a => ["-remote"; a]
  | PRemotes l => ["-remotes"; quoted (join "," l)]
  | PRaw ip sport dport => ["-dstip"; ip; "-srcport"; sport; "-dstport"; dport]
  | PNone => []
  end%string.

Definition peers_of (p : peer_spec) : list string :=
  match p with
  | PRemote a => [a]
  | PRemotes l => l
  | PRaw ip _ dport => [ip +:+ ":" +:+ dport]
  | PNone => []
  end.

(** A word that is not one of the flags the panel looks for. *)
Definition word (s : string) : Prop :=
  plain_token s = true ∧ s ∉ ["-remote"; "-remotes"; "-dstip"; "-dstport"]%string.

Definition value (s : string) : Prop := word s ∧ lacks quote s = true.

Definition peer_spec_ok (p : peer_spec) : Prop :=
  match p with
  | PRemote a => value a
  | PRemotes l => l ≠ [] ∧ Forall (λ a, value a ∧ lacks "," a = true) l
  | PRaw ip sport dport => value ip ∧ value sport ∧ value dport
  | PNone => True
  end.

(** The command line: the program, other arguments, the peers, other
    arguments. *)
Definition exec_of (before after : list string) (p : peer_spec) : list string :=
  before ++ peer_tokens p ++ after.

(** ** Lemmas *)

Lemma peer_of_word all t v : word t → peer_of all t v = [].
Proof.
  intros [_ Ht]. rewrite !not_elem_of_cons in Ht. destruct Ht as (H1 & H2 & H3 & _).
  unfold peer_of. by rewrite !decide_False.
Qed.

Lemma parse_tokens_words all pre rest :
  Forall word pre → parse_tokens all (pre ++ rest) = parse_tokens all rest.
Proof.
  induction 1 as [|t pre Ht Hpre IH]; [done|]. rewrite <- IH. cbn [app].
  destruct (pre ++ rest) as [|v l] eqn:Hl; [done|]. 
  change (parse_tokens all (t :: v :: l)) with (peer_of all t v ++ parse_tokens all (v :: l)).
  by rewrite peer_of_word.
Qed.

Lemma last_dstport_words pre rest port :
  Forall word pre → last_dstport (pre ++ rest) port = last_dstport rest port.
Proof.
  intros Hpre. revert port. induction Hpre as [|t pre [_ Ht] Hpre IH]; intros port; [done|].
  rewrite <- IH. cbn [app]. rewrite !not_elem_of_cons in Ht. destruct Ht as (_ & _ & _ & Ht & _).
  destruct (pre ++ rest) as [|v l]; [done|].
  change (last_dstport (t :: v :: l) port) with
    (last_dstport (v :: l) (if decide (t = "-dstport") then v else port)).
  by rewrite decide_False.
Qed.

Lemma remote_list_plain l : Forall (λ a, plain_token a = true) l → remote_list l = l.
Proof.
  induction 1 as [|a l Ha Hl IH]; [done|]. cbn [remote_list]. cbv zeta.
  rewrite trim_space_token, IH by done. apply plain_token_spec in Ha as [Ha _].
  by rewrite decide_True.
Qed.

Lemma lacks_join q sep l :
  lacks q sep = true → Forall (λ a, lacks q a = true) l → lacks q (join sep l) = true.
Proof.
  intros Hsep. induction 1 as [|a l Ha Hl IH]; [done|]. destruct l as [|b l]; [done|].
  rewrite join_cons2, !lacks_app, Ha, Hsep. exact IH.
Qed.

Lemma plain_chars_join sep l :
  plain_chars sep = true → Forall (λ a, plain_chars a = true) l → plain_chars (join sep l) = true.
Proof.
  intros Hsep. induction 1 as [|a l Ha Hl IH]; [done|]. destruct l as [|b l]; [done|].
  rewrite join_cons2, !plain_chars_app, Ha, Hsep. exact IH.
Qed.

Lemma quoted_plain s : plain_chars s = true → plain_token (quoted s) = true.
Proof.
  intros Hs. apply plain_token_spec. split; [done|]. unfold quoted.
  by rewrite !plain_chars_app, Hs.
Qed.

(** The unit file the panel writes for the command line [exec]. *)
Definition unit_head : list string :=
  ["[Unit]"; "Description=T2HASH Tunnel"; "After=network-online.target";
   "Wants=network-online.target"; ""; "[Service]"; "Type=simple"]%string.

Definition unit_tail (caps : list string) : list string :=
  ["Restart=always"; "RestartSec=3"; "LimitNOFILE=1048576"]%string ++ caps ++
  [""; "[Install]"; "WantedBy=multi-user.target"]%string.

Definition unit_text (caps : list string) (exec : string) : string :=
  join (String "010" "") (unit_head ++ (exec_prefix +:+ exec) :: unit_tail caps).

Lemma exec_line_found pre ln post :
  Forall (λ l, has_prefix exec_prefix (trim_space l) = false) pre →
  trim_space ln = ln → has_prefix exec_prefix ln = true →
  exec_line (pre ++ ln :: post) = trim_prefix exec_prefix ln.
Proof.
  intros Hpre Hln Hp. induction Hpre as [|l pre Hl Hpre IH]; cbn [app exec_line].
  - by rewrite Hln, Hp.
  - by rewrite Hl, IH.
Qed.

Lemma plain_lacks_newline t : plain_token t = true → lacks "010" t = true.
Proof. intros [_ Ht]%plain_token_spec. by apply plain_chars_lacks. Qed.

Lemma exec_line_unit caps bin args :
  Forall (λ t, plain_token t = true) (bin :: args) → Forall (λ l, lacks "010" l = true) caps →
  exec_line (split_char "010" (unit_text caps (join " " (bin :: args)))) = join " " (bin :: args).
Proof.
  intros Hall Hcaps.
  assert (exec_prefix +:+ join " " (bin :: args) = join " " ((exec_prefix +:+ bin) :: args)) as Heq.
  { destruct args; [done|]. rewrite !join_cons2. by rewrite sapp_assoc. }
  assert (Forall (λ t, plain_token t = true) ((exec_prefix +:+ bin) :: args)) as Hall'.
  { apply Forall_cons in Hall as [Hb Hargs]. constructor; [|done].
    apply plain_token_spec in Hb as [_ Hb]. apply plain_token_spec. split; [done|].
    by rewrite plain_chars_app, Hb. }
  unfold unit_text. rewrite split_join; [|done|].
  - rewrite exec_line_found; [apply trim_prefix_app|by repeat constructor| |apply has_prefix_app].
    rewrite Heq. by apply trim_space_join.
  - apply Forall_app. split; [by repeat constructor|]. constructor.
    + rewrite Heq. apply lacks_join; [done|]. eapply Forall_impl; [exact Hall'|].
      intros t. apply plain_lacks_newline.
    + unfold unit_tail. apply Forall_app. split; [by repeat constructor|].
      apply Forall_app. split; [done|by repeat constructor].
Qed.

Lemma peer_tokens_plain p : peer_spec_ok p → Forall (λ t, plain_token t = true) (peer_tokens p).
Proof.
  destruct p as [a|l|ip sp dp|]; simpl; unfold value, word.
  - intros [[Ha _] _]. by repeat constructor.
  - intros [_ Hl]. constructor; [done|]. constructor; [|done]. apply quoted_plain.
    apply plain_chars_join; [done|]. eapply Forall_impl; [exact Hl|].
    by intros a [[[[_ Ha]%plain_token_spec _] _] _].
  - intros ([[H1 _] _] & [[H2 _] _] & [[H3 _] _]). by repeat constructor.
  - by constructor.
Qed.

Lemma parse_words all l : Forall word l → parse_tokens all l = [].
Proof. intros Hl. rewrite <- (app_nil_r l). by rewrite parse_tokens_words. Qed.

Lemma last_dstport_none l port : Forall word l → last_dstport l port = port.
Proof. intros Hl. rewrite <- (app_nil_r l). by rewrite last_dstport_words. Qed.

Lemma parse_tokens_cons all t v l :
  parse_tokens all (t :: v :: l) = peer_of all t v ++ parse_tokens all (v :: l).
Proof. done. Qed.

Lemma last_dstport_cons t v l port :
  last_dstport (t :: v :: l) port = last_dstport (v :: l) (if decide (t = "-dstport") then v else port).
Proof. done. Qed.

Lemma word_srcport : word "-srcport".
Proof. split; [done|]. rewrite !not_elem_of_cons. split_and!; try done. apply not_elem_of_nil. Qed.

Lemma word_quoted l :
  Forall (λ a, value a ∧ lacks "," a = true) l → word (quoted (join "," l)).
Proof.
  intros Hl. split; [|by rewrite !not_elem_of_cons; split_and!; try done; apply not_elem_of_nil].
  apply quoted_plain, plain_chars_join; [done|]. eapply Forall_impl; [exact Hl|].
  by intros a [[[[_ Ha']%plain_token_spec _] _] _].
Qed.

Lemma peer_of_remotes all l :
  l ≠ [] → Forall (λ a, value a ∧ lacks "," a = true) l →
  peer_of all "-remotes" (quoted (join "," l)) = l.
Proof.
  intros Hne Hl. unfold peer_of. rewrite decide_False, decide_True by done.
  unfold quoted. rewrite sapp_cons, sapp_nil_l, trim_char_quoted.
  - rewrite split_join; [apply remote_list_plain|done|]; (eapply Forall_impl; [exact Hl|]).
    + by intros a [[[? _] _] _].
    + by intros a [_ ?].
  - apply lacks_join; [done|]. eapply Forall_impl; [exact Hl|]. by intros a [[_ ?] _].
Qed.

(** The port of a raw command line. *)
Lemma last_dstport_exec before after ip sp dp :
  Forall word before → Forall word after → word ip → word sp → word dp →
  last_dstport (exec_of before after (PRaw ip sp dp)) "" = dp.
Proof.
  intros Hb Ha Hi Hs Hd. unfold exec_of. rewrite last_dstport_words by done.
  cbn [peer_tokens app]. rewrite last_dstport_cons, (decide_False (P := _ = _)) by done.
  change (ip :: "-srcport"%string :: sp :: ?r) with ([ip; "-srcport"%string; sp] ++ r).
  rewrite last_dstport_words by (repeat constructor; by (apply word_srcport || apply Hi || apply Hs)).
  rewrite last_dstport_cons, decide_True by done.
  apply last_dstport_none. by constructor.
Qed.

Lemma parse_exec before after p :
  Forall word before → Forall word after → peer_spec_ok p →
  parse_tokens (exec_of before after p) (exec_of before after p) = peers_of p.
Proof.
  intros Hb Ha Hp. unfold exec_of at 2. rewrite parse_tokens_words by done.
  destruct p as [a|l|ip sp dp|]; cbn [peer_tokens app]; simpl in Hp.
  - destruct Hp as [Hw Hq]. rewrite parse_tokens_cons, (parse_words _ (a :: after)) by (by constructor).
    unfold peer_of. rewrite decide_True by done. by rewrite trim_char_lacks.
  - destruct Hp as [Hne Hl]. rewrite parse_tokens_cons, (parse_words _ (_ :: after))
      by (constructor; [by apply word_quoted|done]).
    by rewrite peer_of_remotes, app_nil_r.
  - destruct Hp as ([Hwi Hqi] & [Hws _] & [Hwd _]).
    rewrite parse_tokens_cons. unfold peer_of at 1.
    rewrite !(decide_False (P := "-dstip" = _)), decide_True by done. cbv zeta.
    rewrite last_dstport_exec by done. rewrite trim_char_lacks by done.
    destruct Hwd as [Hdp Hwd]. pose proof Hdp as [Hne _]%plain_token_spec.
    rewrite decide_True by done.
    change (ip :: "-srcport"%string :: sp :: ?r) with ([ip; "-srcport"%string; sp] ++ r).
    rewrite parse_tokens_words by (repeat constructor; by (apply word_srcport || apply Hwi || apply Hws)).
    rewrite parse_tokens_cons, (parse_words _ (dp :: after)) by (by constructor).
    unfold peer_of. by rewrite !decide_False.
  - by apply parse_words.
Qed.

Lemma exec_of_plain before after p :
  Forall word before → Forall word after → peer_spec_ok p →
  Forall (λ t, plain_token t = true) (exec_of before after p).
Proof.
  intros Hb Ha Hp. unfold exec_of. rewrite !Forall_app. split_and!.
  - eapply Forall_impl; [exact Hb|]. by intros t [? _].
  - by apply peer_tokens_plain.
  - eapply Forall_impl; [exact Ha|]. by intros t [? _].
Qed.

(** C11. The peers are read back from the unit file: for every unit the panel
    writes, with any program and other arguments that are single words and
    not the flags it looks for, and any peers as its form writes them (one
    server, a quoted list of servers, or an address and a port of the raw
    transport, none of them quoted or with a comma themselves), the panel
    finds the command line and in it exactly those peers, in order. *)
Theorem parsePeers_unit caps bin before after p :
  word bin → Forall word before → Forall word after → peer_spec_ok p →
  Forall (λ l, lacks "010" l = true) caps →
  parsePeers (exec_line (split_char "010"
    (unit_text caps (join " " (bin :: exec_of before after p))))) = peers_of p.
Proof.
  intros Hbin Hb Ha Hp Hcaps.
  assert (Forall (λ t, plain_token t = true) (exec_of (bin :: before) after p)) as Hall
    by (apply exec_of_plain; [by constructor|done|done]).
  rewrite exec_line_unit by done. unfold parsePeers. rewrite fields_join by done.
  apply (parse_exec (bin :: before)); [by constructor|done|done].
Qed.

Lemma demo_word s : bool_decide (plain_token s = true ∧
  s ∉ ["-remote"; "-remotes"; "-dstip"; "-dstport"]%string) = true → word s.
Proof. apply bool_decide_eq_true. Qed.

Lemma parsePeers_unit_witness :
  parsePeers (exec_line (split_char "010"
    (unit_text [] (join " " ("/usr/local/bin/t2tunnel"%string ::
      exec_of ["-mode"; "client"; "-transport"; "tls"]%string ["-sni"; "example.com"]%string
        (PRemotes ["10.0.0.1:443"; "10.0.0.2:443"]%string)))))) = ["10.0.0.1:443"; "10.0.0.2:443"]%string.
Proof.
  apply (parsePeers_unit [] "/usr/local/bin/t2tunnel" ["-mode"; "client"; "-transport"; "tls"]%string
    ["-sni"; "example.com"]%string (PRemotes ["10.0.0.1:443"; "10.0.0.2:443"]%string)).
  - by apply demo_word.
  - repeat constructor; apply (bool_decide_unpack _); by vm_compute.
  - repeat constructor; apply (bool_decide_unpack _); by vm_compute.
  - split; [done|]. repeat constructor; apply (bool_decide_unpack _); by vm_compute.
  - constructor.
Defined.

(** ** The report *)

(** The dials of a trace: the address, the timeout and whether it succeeded. *)
Definition dial_result (ev : event sysE) : option (string * Z * bool) :=
  match ev with
  | @Event _ _ e x =>
    match e in sysE X return X → option (string * Z * bool) with
    | NetDial d addr => λ r, Some (addr, Timeout d, is_ok r)
    | _ => λ _, None
    end x
  end.

Definition dials (tr : list (event sysE)) : list (string * Z * bool) := omap dial_result tr.

(** A dial, or the closing of a connection. *)
Definition probing (ev : event sysE) : Prop := is_Some (dial_result ev) ∨ is_Some (closes ev).

Definition probes (rs : list (string * bool)) (tr : list (event sysE)) : Prop :=
  dials tr = (λ r, (r.1, 4 * second, r.2)) <$> rs ∧ Forall probing tr ∧ no_leak None tr.

Lemma tcpReachable_wp addr :
  wp (tcpReachable addr (4 * second)) (λ tr up, probes [(addr, up)] tr).
Proof.
  unfold tcpReachable. wp_call c Hc. destruct c as [c|e].
  - wp_call u Hu. split_and!; [done| |].
    + constructor; [by left; eexists|]. constructor; [by right; eexists|constructor].
    + split; [|by repeat constructor]. right. apply list_elem_of_here.
  - split_and!; [done| |done]. constructor; [by left; eexists|constructor].
Qed.

Lemma probes_app rs rs' tr tr' : probes rs tr → probes rs' tr' → probes (rs ++ rs') (tr ++ tr').
Proof.
  intros (Hd & Hp & Hl) (Hd' & Hp' & Hl'). unfold probes, dials in *.
  rewrite omap_app, Hd, Hd', fmap_app, Forall_app. by split_and!; [..|apply no_leak_app].
Qed.

Lemma reach_wp peers : wp (reach peers) (λ tr rs, rs.*1 = peers ∧ probes rs tr).
Proof.
  induction peers as [|p peers IH]; [by repeat split|].
  cbn [reach]. apply wp_bind. eapply wp_mono, tcpReachable_wp. intros tr up Hd. apply wp_bind.
  eapply wp_mono, IH. intros tr' rs [Hrs Hd']. cbn [wp mret prog_ret]. rewrite app_nil_r.
  split; [by rewrite <- Hrs|]. by apply (probes_app [(p, up)]).
Qed.

Lemma some_up rs : existsb snd rs = true ↔ ∃ addr : string, (addr, true) ∈ rs.
Proof.
  rewrite existsb_exists. setoid_rewrite <- list_elem_of_In. split.
  - intros ([addr up] & Hin & Hup). simpl in Hup. subst. by exists addr.
  - intros [addr Hin]. by exists (addr, true).
Qed.

(** C35. What [handlePeer] reports is what it saw: it reads the unit file of the
    service; when there is none it reports that nothing is configured; when
    the command line names no peer it makes no other call; otherwise it dials
    each peer of the command line once, in order and for four seconds, closes
    every connection it opened, and does nothing else; it reports each peer by
    its address as up when its dial succeeded and as not up when it failed,
    and the service as reachable when some dial succeeded. *)
Theorem handlePeer_reports service s r :
  wp (handlePeer service s r) (λ tr '(resp, s'),
    s' = s ∧ code resp = 200 ∧
    ∃ data tr', tr = Event (ReadFile ("/etc/systemd/system/" +:+ service +:+ ".service")) data :: tr' ∧
    match data with
    | Err _ => tr' = [] ∧ ∃ reason, content resp = JsonBody (JObj [("configured", JBool false);
        ("reachable", JBool false); ("reason", reason)])
    | Ok text =>
      let execLine := exec_line (split_char "010" text) in
      let role := if contains "-mode client" execLine then "client"%string else "server"%string in
      (parsePeers execLine = [] ∧ tr' = [] ∧ ∃ reason, content resp = JsonBody (JObj
         [("configured", JBool true); ("role", JStr role); ("reachable", JBool false);
          ("reason", reason)])) ∨
      (∃ rs some, rs.*1 = parsePeers execLine ∧ rs ≠ [] ∧ probes rs tr' ∧
         (some = true ↔ ∃ addr, (addr, true) ∈ rs) ∧
         content resp = JsonBody (JObj [("configured", JBool true); ("role", JStr role);
           ("reachable", JBool some);
           ("peers", JList ((λ '(addr, up), JObj [("addr", JStr addr); ("up", JBool up)]) <$> rs))]))
    end).
Proof.
  unfold handlePeer. wp_call data Hdata. destruct data as [text|e].
  - cbv zeta. case_decide as Hlen.
    + apply length_zero_iff_nil in Hlen. split_and!; try done. eexists _, []. split; [done|].
      left. split; [done|]. split; [done|]. by eexists.
    + apply wp_bind. eapply wp_mono, reach_wp. intros tr rs [Hrs Hp].
      cbn [wp mret prog_ret]. rewrite app_nil_r. split_and!; try done.
      exists (Ok text), tr. split; [done|]. right. exists rs, (existsb snd rs).
      split_and!; [done| |done|apply some_up|].
      * intros ->. by rewrite <- Hrs in Hlen.
      * simpl. do 8 f_equal. apply list_fmap_ext. by intros i [addr up].
  - split_and!; try done. eexists _, []. split; [done|]. split; [done|]. by eexists.
Qed.
