(* ===== verification/PanelHandlers.v ===== *)
(** * panel.go: the handlers, the routes and the start of the panel

    Every handler answers with a response and the new state of the server; its
    commands, file operations and dials are external calls.  The bodies of the
    requests are decoded by the JSON package, which is an interface. *)

From S2P Require Import Prelude GoStrings Effects Net Sha256 PanelAuth PanelPeers.

(** The flags of the panel, [-repo] made absolute. *)
Record config := {
  flagAddr : string;
  flagRepo : string;
  flagBin : string;
  flagService : string;
  flagDB : string
}.

Definition Version : string := "2.3.1".
Definition GoVersion : string := "1.22.5".

(** Script texts are written with backquotes for double quotes. *)
Fixpoint requote (s : string) : string :=
  match s with
  | EmptyString => EmptyString
  | String c s' => String (if decide (c = "`"%char) then quote else c) (requote s')
  end.

Definition ensureGoScript : string := requote "
set -e
need=1
if command -v go >/dev/null 2>&1; then
  cur=$(go version 2>/dev/null | grep -oE 'go[0-9]+\.[0-9]+' | head -1 | sed 's/go//')
  major=$(echo `$cur` | cut -d. -f1)
  minor=$(echo `$cur` | cut -d. -f2)
  if [ `${major:-0}` -gt 1 ] || { [ `${major:-0}` -eq 1 ] && [ `${minor:-0}` -ge 22 ]; }; then
    need=0
  fi
fi
if [ `$need` -eq 1 ]; then
  if command -v snap >/dev/null 2>&1 && snap install go --classic >/dev/null 2>&1; then
    export PATH=$PATH:/snap/bin
  else
    arch=$(uname -m)
    case `$arch` in
      x86_64) goarch=`amd64` ;;
      aarch64) goarch=`arm64` ;;
      armv7l) goarch=`armv6l` ;;
      *) goarch=`amd64` ;;
    esac
    apt-get remove -y golang-go >/dev/null 2>&1 || true
    rm -rf /usr/local/go
    curl -fL --retry 3 `https://go.dev/dl/go" +:+ GoVersion +:+ requote ".linux-${goarch}.tar.gz` -o /tmp/go.tar.gz || true
    [ -f /tmp/go.tar.gz ] && tar -C /usr/local -xzf /tmp/go.tar.gz && rm -f /tmp/go.tar.gz
    grep -q `/usr/local/go/bin` /etc/profile 2>/dev/null || echo 'export PATH=$PATH:/usr/local/go/bin' >> /etc/profile
    ln -sf /usr/local/go/bin/go /usr/local/bin/go 2>/dev/null || true
  fi
fi
export PATH=$PATH:/usr/local/go/bin:/snap/bin
go env -w GOPROXY=https://goproxy.cn,https://goproxy.io,https://proxy.golang.org,direct 2>/dev/null || true
go env -w GOSUMDB=off 2>/dev/null || true
".

(** ** Helpers *)

(** [err.Error()]. *)
Fixpoint error_text (e : goerr) : string :=
  match e with
  | EOF => "EOF"
  | ErrUnexpectedEOF => "unexpected EOF"
  | ErrClosed => "use of closed network connection"
  | ErrTimeout => "i/o timeout"
  | ErrNotExist => "file does not exist"
  | ErrAllServersDown => "همه‌ی سرورها از دسترس خارجن"
  | ErrText msg => msg
  | ErrWrap ctx e => ctx +:+ ": " +:+ error_text e
  end.

(** [run]: the combined output, whatever the exit status. *)
Definition run_cmd (name : string) (args : list string) : prog sysE string :=
  out ← trigger (ExecCombined name args);
  mret out.1.

Definition fileExists (p : string) : prog sysE bool :=
  e ← trigger (StatFile p);
  mret (bool_decide (e = None)).

(** [filepath.Join] of a clean directory and a plain name. *)
Definition path_join (dir name : string) : string :=
  if decide (dir = "") then name
  else if decide (dir = "/") then "/" +:+ name
  else dir +:+ "/" +:+ name.

Definition hasLibpcap : prog sysE bool :=
  out ← run_cmd "sh" ["-c"; "ldconfig -p 2>/dev/null | grep libpcap"];
  mret (contains "libpcap" out).

(** The bodies of the requests.  The decoders that are not asked for their error
    leave what was not decoded empty or false. *)
Class BodyDecoder := {
  dec_action : string → string;
  dec_unit : string → res string;
  dec_uninstall : string → bool * bool * bool
}.

(** [1<<18]. *)
Definition unit_limit : nat := Z.to_nat 262144.
#[global] Opaque unit_limit.

Section handlers.
Context `{LoginDecoder, BodyDecoder} (cfg : config).

Definition handleStatus : handler := λ s r,
  gov ← run_cmd "sh" ["-c"; "export PATH=$PATH:/usr/local/go/bin; go version"];
  bin ← fileExists (flagBin cfg);
  pcap ← hasLibpcap;
  out ← run_cmd "systemctl" ["is-active"; flagService cfg];
  let active := trim_space out in
  mret (writeJSON 200 [("version", JStr Version); ("repo", JStr (flagRepo cfg));
    ("service", JStr (flagService cfg)); ("goVersion", JStr (firstLine gov));
    ("binExists", JBool bin); ("libpcap", JBool pcap);
    ("serviceActive", JBool (bool_decide (active = "active"))); ("serviceState", JStr active)], s).

(** The commands of [handleAction]. *)
Definition deps_script : string :=
  "apt-get update -y && apt-get install -y libpcap-dev build-essential iptables curl tar; " +:+
  ensureGoScript.

Definition build_script : string :=
  ensureGoScript +:+
  "cd '" +:+ flagRepo cfg +:+ "' && [ -f go.mod ] || go mod init t2hash/tunnel; " +:+
  "export GOTOOLCHAIN=local; " +:+
  "export GOPROXY=https://goproxy.cn,https://goproxy.io,https://proxy.golang.org,direct; " +:+
  "export GOSUMDB=off; " +:+
  "export GOFLAGS=-mod=mod; " +:+
  "export HOME=/root; " +:+
  "go get github.com/refraction-networking/utls@v1.6.7 && " +:+
  "go get github.com/xtaci/kcp-go/v5@v5.6.18 && " +:+
  "go get github.com/google/gopacket && go get github.com/gorilla/websocket && go get github.com/xtaci/smux && " +:+
  "go mod tidy && go build -trimpath -ldflags '-s -w' -o t2tunnel . && " +:+
  "install -m 0755 t2tunnel '" +:+ flagBin cfg +:+ "'".

Definition action_command (a : string) : option (string * list string) :=
  if decide (a = "install-deps") then Some ("sh", ["-c"; deps_script])
  else if decide (a = "build") then Some ("sh", ["-c"; build_script])
  else if decide (a = "service-start") then Some ("systemctl", ["start"; flagService cfg])
  else if decide (a = "service-stop") then Some ("systemctl", ["stop"; flagService cfg])
  else if decide (a = "service-restart") then Some ("systemctl", ["restart"; flagService cfg])
  else if decide (a = "service-enable") then Some ("systemctl", ["enable"; flagService cfg])
  else if decide (a = "service-disable") then Some ("systemctl", ["disable"; flagService cfg])
  else if decide (a = "daemon-reload") then Some ("systemctl", ["daemon-reload"])
  else None.

(** The answer to a command: its output, and its error when it failed. *)
Definition command_result (out : string * option goerr) : list (string * json) :=
  [("output", JStr out.1); ("ok", JBool (bool_decide (out.2 = None)))] ++
  match out.2 with Some e => [("error", JStr (error_text e))] | None => [] end.

Definition handleAction : handler := λ s r,
  match action_command (dec_action (limited body_limit (Body r))) with
  | None => mret (writeJSON 400 [("error", JStr "عمل ناشناخته")], s)
  | Some (name, args) =>
    out ← trigger (ExecCombined name args);
    mret (writeJSON 200 (command_result out), s)
  end.

Definition handleLogs : handler := λ s r,
  out ← run_cmd "journalctl" ["-u"; flagService cfg; "-n"; "200"; "--no-pager"; "-o"; "short-iso"];
  mret (writeJSON 200 [("logs", JStr out)], s).

Definition handleSaveService : handler := λ s r,
  match dec_unit (limited unit_limit (Body r)) with
  | Err _ => mret (writeJSON 400 [("error", JStr "bad body")], s)
  | Ok unit_ =>
    if negb (contains "[Service]" unit_) || negb (contains "ExecStart=" unit_) then
      mret (writeJSON 400 [("error", JStr "محتوای سرویس معتبر نیست")], s)
    else
      let p := unit_path (flagService cfg) in
      e ← trigger (WriteFile p unit_ 420);
      match e with
      | Some e => mret (writeJSON 500 [("error", JStr (error_text e))], s)
      | None =>
        _ ← run_cmd "systemctl" ["daemon-reload"];
        mret (writeJSON 200 [("ok", JBool true); ("path", JStr p)], s)
      end
  end.

(** ** [handleUninstall] *)

(** The line of the log for a removal that is reported. *)
Definition removal_line (done gone failed : string) (e : option goerr) : string :=
  match e with
  | None => done
  | Some e => if decide (e = ErrNotExist) then gone else failed +:+ error_text e
  end.

Definition uninstall_service : prog sysE (list string) :=
  _ ← run_cmd "systemctl" ["stop"; flagService cfg];
  _ ← run_cmd "systemctl" ["disable"; flagService cfg];
  let u := unit_path (flagService cfg) in
  e ← trigger (RemoveFile u);
  let line := removal_line ("سرویس حذف شد: " +:+ u) "سرویس از قبل وجود نداشت" "خطا در حذف سرویس: " e in
  _ ← run_cmd "systemctl" ["daemon-reload"];
  mret [line].

Definition uninstall_binary : prog sysE (list string) :=
  e ← trigger (RemoveFile (flagBin cfg));
  mret [removal_line ("باینری حذف شد: " +:+ flagBin cfg) "باینری از قبل وجود نداشت" "خطا در حذف باینری: " e].

Definition build_names : list string := ["t2tunnel"; "rawtest"; "rawchantest"; "kcprawtest"].

Fixpoint remove_builds (names : list string) : prog sysE (list string) :=
  match names with
  | [] => mret ["فایل‌های موقت بیلد پاک شدند"%string]
  | name :: names' =>
    let p := path_join (flagRepo cfg) name in
    e ← trigger (RemoveFile p);
    log ← remove_builds names';
    mret (match e with None => ("پاک شد: " +:+ p) :: log | Some _ => log end)
  end.

Definition handleUninstall : handler := λ s r,
  let '(binary, service, build) := dec_uninstall (limited body_limit (Body r)) in
  l1 ← (if service : bool then uninstall_service else mret []);
  l2 ← (if binary : bool then uninstall_binary else mret []);
  l3 ← (if build : bool then remove_builds build_names else mret []);
  mret (writeJSON 200 [("ok", JBool true); ("log", JStr (join (String "010" "") (l1 ++ l2 ++ l3)))], s).

(** ** Xray and the page *)

Definition xrayBin : string := "/usr/local/bin/xray".

Definition handleXrayStatus : handler := λ s r,
  there ← fileExists xrayBin;
  ver ← (if there : bool then (out ← run_cmd xrayBin ["version"]; mret (firstLine out)) else mret "");
  installed ← fileExists xrayBin;
  arch ← run_cmd "sh" ["-c"; "uname -m | tr -d '" +:+ String "010" "'"];
  mret (writeJSON 200 [("installed", JBool installed); ("version", JStr ver); ("arch", JStr arch)], s).

Definition xray_script : string :=
  requote "bash -c `$(curl -L https://github.com/XTLS/Xray-install/raw/main/install-release.sh)` @ install".

Definition handleXrayInstall : handler := λ s r,
  out ← trigger (ExecCombined "sh" ["-c"; xray_script]);
  installed ← fileExists xrayBin;
  mret (writeJSON 200 (command_result out ++ [("installed", JBool installed)]), s).

Definition html : string := "text/html; charset=utf-8".

Definition missing_page : string :=
  "<!doctype html><meta charset=utf-8><body style='font-family:sans-serif;background:#080812;color:#e8e8f5;padding:40px'>" +:+
  "<h2>panel.html پیدا نشد</h2><p>فایل <code>panel.html</code> را کنار باینری پنل (در پوشه‌ی repo) بگذار.</p>".

Definition panel_page : string := path_join (flagRepo cfg) "panel.html".

Definition handleIndex : handler := λ s r,
  if decide (URLPath r ≠ "/") then
    mret ({| code := 404; cookies := [];
             content := TextBody "text/plain; charset=utf-8" ("404 page not found" +:+ String "010" "") |}, s)
  else
    b ← trigger (ReadFile panel_page);
    mret ({| code := 200; cookies := [];
             content := TextBody html (match b with Ok b => b | Err _ => missing_page end) |}, s).

(** ** The routes

    [http.ServeMux] takes the handler of the exact path, and [/] for every other
    path; it is asked with clean paths only. *)
Definition route (p : string) : handler :=
  if decide (p = "/api/login") then handleLogin
  else if decide (p = "/api/logout") then auth handleLogout
  else if decide (p = "/api/status") then auth handleStatus
  else if decide (p = "/api/action") then auth handleAction
  else if decide (p = "/api/logs") then auth handleLogs
  else if decide (p = "/api/save-service") then auth handleSaveService
  else if decide (p = "/api/uninstall") then auth handleUninstall
  else if decide (p = "/api/peer") then auth (handlePeer (flagService cfg))
  else if decide (p = "/api/xray/status") then auth handleXrayStatus
  else if decide (p = "/api/xray/install") then auth handleXrayInstall
  else handleIndex.

Definition serve : handler := λ s r, route (URLPath r) s r.

End handlers.

(** ** The start of the panel *)

(** [warnIfPublic]: whether the warning is logged, and for which host. *)
Definition public_host (addr : string) : option string :=
  let host := match last_index ":" addr with Some i => take_string i addr | None => addr end in
  if bool_decide (host ≠ "" ∧ host ≠ "127.0.0.1" ∧ host ≠ "localhost") then Some host else None.

(** [main] up to the call of [ListenAndServe]: the server, and on the first run
    the user and the password it prints. *)
Definition start `{DbCodec} (cfg : config) : prog sysE (res (Server * option (string * string))) :=
  '(d, exists_) ← loadDB (flagDB cfg);
  if exists_ : bool then mret (Ok ({| db := d; sess := newSessions |}, None))
  else
    pw ← randHex 9;
    d ← setPassword d pw;
    e ← save d;
    match e with
    | Some e => mret (Err e)
    | None => mret (Ok ({| db := d; sess := newSessions |}, Some (User d, pw)))
    end.

(** ** Properties *)

Section properties.
Context `{LoginDecoder, BodyDecoder} (cfg : config).

(** The calls that read the clock, wait, draw random bytes or read the page;
    all others touch the system. *)
Definition harmless (ev : event sysE) : Prop :=
  match ev with
  | @Event _ _ e _ =>
    match e with
    | TimeNow | TimeSleep _ | RandRead _ => True
    | ReadFile p => p = panel_page cfg
    | _ => False
    end
  end.

Definition guarded_path (p : string) : Prop :=
  p ∈ ["/api/logout"; "/api/status"; "/api/action"; "/api/logs"; "/api/save-service";
       "/api/uninstall"; "/api/peer"; "/api/xray/status"; "/api/xray/install"]%string.

(** What a request without a session can do. *)
Definition unprivileged (s : Server) (r : request) (tr : list (event sysE)) (resp : response)
    (s' : Server) : Prop :=
  Forall harmless tr ∧ db s' = db s ∧
  (guarded_path (URLPath r) → code resp = 401 ∧ cookies resp = [] ∧ sess s' ⊆ sess s) ∧
  (URLPath r ≠ "/api/login" → sess s' ⊆ sess s).

Lemma clock_harmless tr : Forall reads_clock tr → Forall harmless tr.
Proof. intros Htr. eapply Forall_impl; [exact Htr|]. by intros ev [t ->]. Qed.

Lemma auth_route next s r tr resp s' :
  runs (auth next s r) tr (resp, s') →
  (∃ t, authorized s r t ∧ Event TimeNow t ∈ tr) ∨ unprivileged s r tr resp s'.
Proof.
  intros [(t & tr' & Ha & -> & _)|(-> & Hdb & Hs & Htr & _)]%auth_guards.
  - left. exists t. split; [done|left].
  - right. split_and!; try done. by apply clock_harmless.
Qed.

Lemma handleLogin_harmless s r :
  wp (handleLogin s r) (λ tr '(_, s'), Forall harmless tr ∧ db s' = db s).
Proof.
  unfold handleLogin. case_decide; [by split|].
  destruct (login_decode _) as [user pass]. wp_call u Hu.
  destruct (negb (check (db s) user pass)); [by split; [repeat constructor|]|].
  apply wp_bind. eapply wp_mono, create_wp. intros tr [tok ss] (b & t & _ & _ & -> & ->).
  split; [by repeat constructor|done].
Qed.

Lemma handleIndex_harmless s r :
  wp (handleIndex cfg s r) (λ tr '(_, s'), Forall harmless tr ∧ s' = s).
Proof.
  unfold handleIndex. case_decide; [by split|]. wp_call b Hb. split; [by repeat constructor|done].
Qed.

Lemma login_not_guarded : ¬ guarded_path "/api/login".
Proof.
  unfold guarded_path. rewrite !not_elem_of_cons. split_and!; try done. apply not_elem_of_nil.
Qed.

(** C4. Without a session the panel cannot be made to touch the system: in every
    run of every request, on any path, either the request carries a token that
    is in the table and has not run out at a time the run reads from the clock,
    or the run does nothing but read the clock, wait, draw random bytes and
    read the page of the panel, the account is unchanged, the guarded paths
    answer 401 without a cookie, and no path but the log-in adds a session. *)
Theorem serve_guarded s r tr resp s' :
  runs (serve cfg s r) tr (resp, s') →
  (∃ t, authorized s r t ∧ Event TimeNow t ∈ tr) ∨ unprivileged s r tr resp s'.
Proof.
  unfold serve, route.
  case_decide as Hp; [|repeat (case_decide; [apply auth_route|])].
  - intros Hr. right. apply (wp_runs _ _ _ _ (handleLogin_harmless s r)) in Hr as [Htr Hdb].
    split_and!; try done. rewrite Hp. by intros Hg%login_not_guarded.
  - intros Hr. right. apply (wp_runs _ _ _ _ (handleIndex_harmless s r)) in Hr as [Htr ->].
    split_and!; try done. unfold guarded_path. rewrite !elem_of_cons, elem_of_nil. tauto.
Qed.

(** The actions and their commands, which only the flags of the panel change. *)
Definition actions : list (string * (string * list string)) := [
  ("install-deps", ("sh", ["-c"; deps_script]));
  ("build", ("sh", ["-c"; build_script cfg]));
  ("service-start", ("systemctl", ["start"; flagService cfg]));
  ("service-stop", ("systemctl", ["stop"; flagService cfg]));
  ("service-restart", ("systemctl", ["restart"; flagService cfg]));
  ("service-enable", ("systemctl", ["enable"; flagService cfg]));
  ("service-disable", ("systemctl", ["disable"; flagService cfg]));
  ("daemon-reload", ("systemctl", ["daemon-reload"]))
]%string.

(** What the answer says of a command that gave [text] and the error [err]. *)
Definition reports_command (resp : response) (text : string) (err : option goerr) : Prop :=
  code resp = 200 ∧ cookies resp = [] ∧
  content resp = JsonBody (JObj match err with
    | None => [("output", JStr text); ("ok", JBool true)]
    | Some e => [("output", JStr text); ("ok", JBool false); ("error", JStr (error_text e))]
    end).

Lemma action_command_table a :
  match action_command cfg a with Some cmd => (a, cmd) ∈ actions | None => a ∉ actions.*1 end.
Proof.
  unfold action_command, actions.
  repeat (destruct (decide (a = _)) as [->|?]; [rewrite !elem_of_cons; tauto|]).
  cbn [fmap list_fmap fst]. rewrite !not_elem_of_cons. split_and!; try done. apply not_elem_of_nil.
Qed.

(** C33. The actions are a closed list: a request to [handleAction] that names one
    of the eight actions runs the command of that action, once and nothing
    else; any other request runs nothing and is answered 400.  Nothing of the
    request but the choice of the action reaches a command line.  The answer
    to an action is 200, with the output of the command, [ok] exactly when it
    succeeded, and its error when it failed; the state of the server does not
    change. *)
Theorem handleAction_closed s r :
  wp (handleAction cfg s r) (λ tr '(resp, s'), s' = s ∧
    let a := dec_action (limited body_limit (Body r)) in
    (a ∉ actions.*1 ∧ tr = [] ∧ code resp = 400 ∧ cookies resp = []) ∨
    (∃ name args text err, (a, (name, args)) ∈ actions ∧
       tr = [Event (ExecCombined name args) (text, err)] ∧ reports_command resp text err)).
Proof.
  unfold handleAction. generalize (dec_action (limited body_limit (Body r))) as a. intros a.
  pose proof (action_command_table a) as Ha. destruct (action_command cfg a) as [[name args]|].
  - wp_call out Hout. destruct out as [text err]. split; [done|]. right.
    exists name, args, text, err. split; [done|]. split; [done|]. by destruct err.
  - split; [done|]. by left.
Qed.

(** [handleSaveService] writes one file only, the unit of the service, and
    only a body that decodes and has both a [[Service]] section and a command
    line; it reloads systemd after a successful write and not otherwise, and
    reports what happened. *)
Theorem handleSaveService_writes s r :
  wp (handleSaveService cfg s r) (λ tr '(resp, s'), s' = s ∧
    match dec_unit (limited unit_limit (Body r)) with
    | Err _ => tr = [] ∧ code resp = 400
    | Ok u =>
      ((¬ (contains "[Service]" u = true ∧ contains "ExecStart=" u = true)) ∧ tr = [] ∧ code resp = 400) ∨
      (contains "[Service]" u = true ∧ contains "ExecStart=" u = true ∧
       ((∃ e, tr = [Event (WriteFile (unit_path (flagService cfg)) u 420) (Some e)] ∧ code resp = 500) ∨
        (∃ out, tr = [Event (WriteFile (unit_path (flagService cfg)) u 420) None;
                      Event (ExecCombined "systemctl" ["daemon-reload"]%string) out] ∧ code resp = 200)))
    end).
Proof.
  unfold handleSaveService. destruct (dec_unit _) as [u|e]; [|done].
  destruct (contains "[Service]" u); [|split; [done|left; by split; [intros []|]]].
  destruct (contains "ExecStart=" u); [|split; [done|left; by split; [intros []|]]].
  cbn [negb orb]. wp_call e He. destruct e as [e|].
  - split; [done|]. right. split_and!; [done..|]. left. by exists e.
  - unfold run_cmd. apply wp_bind. wp_call out Hout. cbn [wp mret prog_ret].
    split; [done|]. right. split_and!; [done..|]. right. by exists out.
Qed.

(** The calls of the uninstallation. *)
Inductive call :=
| Removes (p : string)
| Runs (name : string) (args : list string).

Definition call_of (ev : event sysE) : option call :=
  match ev with
  | @Event _ _ e _ =>
    match e with
    | RemoveFile p => Some (Removes p)
    | ExecCombined name args => Some (Runs name args)
    | _ => None
    end
  end.

(** The trace is these calls, in this order, and nothing else. *)
Definition does (tr : list (event sysE)) (cs : list call) : Prop := call_of <$> tr = Some <$> cs.

Lemma does_app tr tr' cs cs' : does tr cs → does tr' cs' → does (tr ++ tr') (cs ++ cs').
Proof. unfold does. intros H1 H2. by rewrite !fmap_app, H1, H2. Qed.

Definition service_calls : list call :=
  [Runs "systemctl" ["stop"; flagService cfg]; Runs "systemctl" ["disable"; flagService cfg];
   Removes (unit_path (flagService cfg)); Runs "systemctl" ["daemon-reload"]]%string.

Lemma uninstall_service_does : wp (uninstall_service cfg) (λ tr _, does tr service_calls).
Proof.
  unfold uninstall_service, run_cmd. apply wp_bind. wp_call o1 H1. cbn [wp mret prog_ret].
  apply wp_bind. wp_call o2 H2. cbn [wp mret prog_ret]. wp_call e He.
  apply wp_bind. by wp_call o3 H3.
Qed.

Lemma remove_builds_does names :
  wp (remove_builds cfg names)
    (λ tr _, does tr ((λ n, Removes (path_join (flagRepo cfg) n)) <$> names)).
Proof.
  induction names as [|n names IH]; [done|].
  cbn [remove_builds]. wp_call e He. apply wp_bind. eapply wp_mono, IH. intros tr log Hd.
  cbn [wp mret prog_ret]. rewrite app_nil_r.
  by apply (does_app [Event (RemoveFile (path_join (flagRepo cfg) n)) e] tr [_]).
Qed.

Lemma requested_does (b : bool) (p : prog sysE (list string)) cs :
  wp p (λ tr _, does tr cs) → wp (if b then p else mret []) (λ tr _, does tr (if b then cs else [])).
Proof. by destruct b. Qed.

(** C34. [handleUninstall] removes exactly what it was asked to remove, in this
    order: the unit file, after stopping and disabling the service and before
    reloading systemd; the binary; the four build products in the repository;
    each of the three only when the request says so, and without another file,
    command or call.  It goes on after a failed removal, and answers 200. *)
Theorem handleUninstall_removes s r :
  wp (handleUninstall cfg s r) (λ tr '(resp, s'),
    let '(binary, service, build) := dec_uninstall (limited body_limit (Body r)) in
    s' = s ∧ code resp = 200 ∧
    does tr
      ((if service then service_calls else []) ++ (if binary then [Removes (flagBin cfg)] else []) ++
       (if build then (λ n, Removes (path_join (flagRepo cfg) n)) <$>
          ["t2tunnel"; "rawtest"; "rawchantest"; "kcprawtest"]%string else []))).
Proof.
  unfold handleUninstall. destruct (dec_uninstall _) as [[binary service] build].
  apply wp_bind. eapply wp_mono, requested_does, uninstall_service_does. intros tr1 l1 H1.
  apply wp_bind. eapply wp_mono, (requested_does _ _ [Removes (flagBin cfg)]);
    [intros tr2 l2 H2|unfold uninstall_binary; by wp_call e He].
  apply wp_bind. eapply wp_mono, requested_does, remove_builds_does. intros tr3 l3 H3.
  cbn [wp mret prog_ret]. rewrite app_nil_r. split_and!; [done|done|].
  by repeat apply does_app.
Qed.

End properties.

(** ** The first start *)

Section start_properties.
Context `{DbCodec, LoginDecoder, BodyDecoder} (cfg : config).

Lemma save_wp d :
  wp (save d) (λ tr e, tr = [Event (WriteFile (path d) (db_marshal d) 384) e]).
Proof. by split. Qed.

(** The account in a file with the text [text]. *)
Definition stored (text : string) : DB :=
  let d := db_unmarshal text (fresh_db (flagDB cfg)) in
  {| User := User d; PassHash := PassHash d; Salt := Salt d; path := flagDB cfg |}.

(** Reading the file gave no account. *)
Definition no_account (b : res string) : Prop :=
  match b with Ok text => PassHash (stored text) = "" | Err _ => True end.

(** What [start] does: with an account in the file it reads the file and nothing
    else; otherwise it draws a password and a salt and writes the account. *)
Lemma start_wp :
  wp (start cfg) (λ tr r, ∃ b,
    match r with
    | Ok (srv, None) => ∃ text, b = Ok text ∧ tr = [Event (ReadFile (flagDB cfg)) b] ∧
        PassHash (stored text) ≠ "" ∧ srv = {| db := stored text; sess := ∅ |}
    | Ok (srv, Some (user, pw)) => no_account b ∧ (∀ e, b = Err e → user = "admin") ∧ ∃ b1 b2,
        tr = [Event (ReadFile (flagDB cfg)) b; Event (RandRead 9) b1; Event (RandRead 16) b2;
              Event (WriteFile (flagDB cfg) (db_marshal (db srv)) 384) None] ∧
        length b1 = 9%nat ∧ length b2 = 16%nat ∧ pw = hex_encode b1 ∧
        srv = {| db := {| User := user; PassHash := hashPw (hex_encode b2) pw;
                          Salt := hex_encode b2; path := flagDB cfg |}; sess := ∅ |}
    | Err e => no_account b ∧ ∃ b1 b2 content,
        tr = [Event (ReadFile (flagDB cfg)) b; Event (RandRead 9) b1; Event (RandRead 16) b2;
              Event (WriteFile (flagDB cfg) content 384) (Some e)]
    end).
Proof.
  unfold start. apply wp_bind. eapply wp_mono, loadDB_wp. intros tr1 [d ok] (b & -> & Hb).
  assert (path d = flagDB cfg ∧ ok = bool_decide (PassHash d ≠ "") ∧
    match b with Ok text => d = stored text | Err _ => d = fresh_db (flagDB cfg) end)
    as (Hp & -> & Hd).
  { destruct b; [|by destruct Hb as [-> ->]]. destruct Hb as (? & ? & ? & ? & ->), d.
    split_and!; [done..|]. unfold stored. simpl in *. by subst. }
  clear Hb. case_bool_decide as Hne.
  - destruct b as [text|]; [|by subst d]. subst d. by exists (Ok text), text.
  - unfold randHex, setPassword, randHex. apply wp_bind. wp_call b1 Hb1. cbn [wp mret prog_ret].
    apply wp_bind. apply wp_bind. wp_call b2 Hb2. cbn [wp mret prog_ret].
    apply wp_bind. eapply wp_mono, save_wp. intros tr e ->. simpl path. rewrite Hp.
    assert (no_account b ∧ ∀ e, b = Err e → User d = "admin") as [Hno Hu].
    { by destruct b as [text|]; subst d. }
    destruct e as [e|]; cbn [wp mret prog_ret]; exists b.
    + split; [done|]. by exists b1, b2, (db_marshal {| User := User d;
        PassHash := hashPw (hex_encode b2) (hex_encode b1); Salt := hex_encode b2;
        path := flagDB cfg |}).
    + split; [done|]. split; [done|]. by exists b1, b2.
Qed.

(** *** Behind the guard no request is turned away *)

Definition admits (h : handler) : Prop := ∀ s r, wp (h s r) (λ _ '(resp, _), code resp ≠ 401).

(** The answers of a handler do not depend on the calls before. *)
Lemma wp_any {A B} (p : prog sysE A) (k : A → prog sysE B) (Q : B → Prop) :
  wp p (λ _ _, True) → (∀ a, wp (k a) (λ _ b, Q b)) → wp (p ≫= k) (λ _ b, Q b).
Proof. intros Hp Hk. apply wp_bind. eapply wp_mono, Hp. intros tr a _. apply Hk. Qed.

Lemma run_cmd_any name args : wp (run_cmd name args) (λ _ _, True).
Proof. unfold run_cmd. by wp_call out Hout. Qed.

Lemma fileExists_any p : wp (fileExists p) (λ _ _, True).
Proof. unfold fileExists. by wp_call e He. Qed.

Lemma handleStatus_admits : admits (handleStatus cfg).
Proof.
  intros s r. unfold handleStatus. apply wp_any; [apply run_cmd_any|]. intros gov.
  apply wp_any; [apply fileExists_any|]. intros bin. apply wp_any.
  - unfold hasLibpcap. by apply wp_any; [apply run_cmd_any|].
  - intros pcap. by apply wp_any; [apply run_cmd_any|].
Qed.

Lemma handleAction_admits : admits (handleAction cfg).
Proof.
  intros s r. unfold handleAction. destruct (action_command _ _) as [[name args]|]; [|done].
  by wp_call out Hout.
Qed.

Lemma handleSaveService_admits : admits (handleSaveService cfg).
Proof.
  intros s r. unfold handleSaveService. destruct (dec_unit _) as [u|e]; [|done].
  destruct (_ || _); [done|]. wp_call e He. destruct e as [e|]; [done|].
  by apply wp_any; [apply run_cmd_any|].
Qed.

Lemma handleUninstall_admits : admits (handleUninstall cfg).
Proof.
  intros s r. unfold handleUninstall. destruct (dec_uninstall _) as [[binary service] build].
  assert (∀ (b : bool) (p : prog sysE (list string)), wp p (λ _ _, True) →
    wp (if b then p else mret []) (λ _ _, True)) as Hif by (by intros []).
  apply wp_any; [apply Hif; by eapply wp_mono, uninstall_service_does|]. intros l1.
  apply wp_any; [apply Hif; unfold uninstall_binary; by wp_call e He|]. intros l2.
  by apply wp_any; [apply Hif; eapply wp_mono, remove_builds_does|].
Qed.

Lemma handlePeer_admits : admits (handlePeer (flagService cfg)).
Proof.
  intros s r. unfold handlePeer. wp_call data Hdata. destruct data as [text|e]; [|done].
  case_decide; [done|]. apply wp_any; [|done]. by eapply wp_mono, reach_wp.
Qed.

Lemma handleXrayStatus_admits : admits handleXrayStatus.
Proof.
  intros s r. unfold handleXrayStatus. apply wp_any; [apply fileExists_any|]. intros there.
  apply wp_any; [destruct there; [by apply wp_any; [apply run_cmd_any|]|done]|]. intros ver.
  apply wp_any; [apply fileExists_any|]. intros inst. by apply wp_any; [apply run_cmd_any|].
Qed.

Lemma handleXrayInstall_admits : admits handleXrayInstall.
Proof.
  intros s r. unfold handleXrayInstall. wp_call out Hout. by apply wp_any; [apply fileExists_any|].
Qed.

(** Every guarded path has the guard and a handler behind it that never answers
    401 itself. *)
Lemma guarded_route p : guarded_path p → ∃ h, route cfg p = auth h ∧ admits h.
Proof.
  unfold guarded_path. rewrite !elem_of_cons, elem_of_nil. unfold route. intros Hp.
  repeat (destruct Hp as [->|Hp]; [eexists; split; [reflexivity|]|]); [..|done].
  - by intros s r.
  - apply handleStatus_admits.
  - apply handleAction_admits.
  - intros s r. by apply wp_any; [apply run_cmd_any|].
  - apply handleSaveService_admits.
  - apply handleUninstall_admits.
  - apply handlePeer_admits.
  - apply handleXrayStatus_admits.
  - apply handleXrayInstall_admits.
Qed.

(** A token lets in: with it the guarded paths answer something else than 401, as
    long as the clock reads at most eight hours after [t0]. *)
Definition lets_in (s : Server) (tok : string) (t0 : Z) : Prop :=
  ∀ rq tr resp s', guarded_path (URLPath rq) → t2sess rq = Some tok →
    runs (serve cfg s rq) tr (resp, s') → (∀ t, Event TimeNow t ∈ tr → t <= t0 + 8 * hour) →
    code resp ≠ 401.

Lemma granted_lets_in s b t0 :
  length b = 32%nat → sess s !! hex_encode b = Some (t0 + 8 * hour) → lets_in s (hex_encode b) t0.
Proof.
  intros Hb Hs rq tr resp s' Hp Hrq Hr Ht. unfold serve in Hr.
  destruct (guarded_route _ Hp) as (h & Hroute & Hh). rewrite Hroute in Hr. unfold auth in Hr.
  rewrite Hrq in Hr. apply runs_bind in Hr as (tr1 & tr2 & [ok ss] & -> & Hv & Hr).
  apply (wp_runs _ _ _ _ (valid_wp _ _)) in Hv as [(_ & _ & _ & [Hne|Hnone])|
    (_ & exp & t & Hexp & -> & [(Hlt & _)|(_ & -> & _)])].
  - apply (f_equal String.length) in Hne. rewrite hex_encode_length, Hb in Hne. discriminate.
  - congruence.
  - rewrite Hs in Hexp. injection Hexp as <-. specialize (Ht t ltac:(left)). lia.
  - by apply (wp_runs _ _ _ _ (Hh _ _)) in Hr.
Qed.

(** The user and the password open the panel. *)
Definition opens_with (srv : Server) (user pw : string) : Prop :=
  ∀ rq, Method rq = "POST" → URLPath rq = "/api/login" →
    login_decode (limited body_limit (Body rq)) = (user, pw) →
    wp (serve cfg srv rq) (λ tr '(resp, srv'), ∃ tok t0,
      code resp = 200 ∧ cookies resp = [session_cookie tok] ∧ Event TimeNow t0 ∈ tr ∧
      lets_in srv' tok t0).

Lemma login_route srv rq : URLPath rq = "/api/login" → serve cfg srv rq = handleLogin srv rq.
Proof. intros Hp. unfold serve, route. by rewrite Hp. Qed.

Lemma credentials_open srv user pw : credentials (db srv) user pw → opens_with srv user pw.
Proof.
  intros Hc rq Hm Hp Hd. rewrite login_route by done. eapply wp_mono, handleLogin_wp.
  intros tr [resp srv']. rewrite Hd.
  intros [resp' Hm'|resp' _ Hwrong|resp' b t s'' _ _ Hb Hcode Hck _ Hs]; [done|done|].
  exists (hex_encode b), t. split_and!; [done|done|do 2 right; left|].
  apply granted_lets_in; [done|]. by rewrite Hs, lookup_insert_eq.
Qed.

(** What is written on the first start is read back by the next one. *)
Lemma stored_marshal `{!DbCodecLaw} d :
  path d = flagDB cfg → plain_chars (User d) = true → plain_chars (PassHash d) = true →
  plain_chars (Salt d) = true → stored (db_marshal d) = d.
Proof.
  intros Hp Hu Hh Hs. unfold stored. rewrite db_round_trip by done. destruct d. simpl in *. by subst.
Qed.

Lemma reads_file p r (tr : list (event sysE)) : Event (ReadFile p) r ∈ tr → r ∈ omap file_read tr.
Proof. intros Hin. apply list_elem_of_omap. by exists (Event (ReadFile p) r). Qed.

Lemma start_again `{!DbCodecLaw} d :
  path d = flagDB cfg → plain_chars (User d) = true → plain_chars (PassHash d) = true →
  plain_chars (Salt d) = true → PassHash d ≠ "" →
  wp (start cfg) (λ tr r, Event (ReadFile (flagDB cfg)) (Ok (db_marshal d)) ∈ tr →
    r = Ok ({| db := d; sess := ∅ |}, None)).
Proof.
  intros Hp Hu Hh Hs Hne. pose proof (stored_marshal d Hp Hu Hh Hs) as Hd.
  eapply wp_mono, start_wp. intros tr r (b & Hr) Hin%reads_file.
  destruct r as [[srv [[user pw]|]]|e].
  - destruct Hr as (Hno & _ & b1 & b2 & -> & _). apply list_elem_of_singleton in Hin as <-.
    destruct Hne. by rewrite <- Hd.
  - destruct Hr as (text & -> & -> & _ & ->). apply list_elem_of_singleton in Hin as [= <-].
    by rewrite Hd.
  - destruct Hr as (Hno & b1 & b2 & content & ->). apply list_elem_of_singleton in Hin as <-.
    destruct Hne. by rewrite <- Hd.
Qed.

(** C18. The first start hands out a key that works: when there is no account
    yet the panel draws a salt and a password of 9 random bytes, writes the
    account, readable by its owner only, and prints the user, [admin] when
    there was no file, and the password; a log-in with these is answered with
    a cookie, and for eight hours the guarded paths do not turn away a request
    that carries it.  What is written keeps the key: a later start that reads
    it hands out nothing new, and is opened by the same user and password.
    When the file holds an account it is kept, and nothing is written or
    printed; when the account cannot be written the panel does not start. *)
Theorem first_run_opens_panel `{!DbCodecLaw} :
  wp (start cfg) (λ tr r, ∃ b,
    match r with
    | Ok (srv, Some (user, pw)) => ∃ b1 b2 content,
      no_account b ∧ (∀ e, b = Err e → user = "admin") ∧
      tr = [Event (ReadFile (flagDB cfg)) b; Event (RandRead 9) b1; Event (RandRead 16) b2;
            Event (WriteFile (flagDB cfg) content 384) None] ∧
      pw = hex_encode b1 ∧ sess srv = ∅ ∧ opens_with srv user pw ∧
      (plain_chars user = true →
       wp (start cfg) (λ tr' r', Event (ReadFile (flagDB cfg)) (Ok content) ∈ tr' →
         ∃ srv', r' = Ok (srv', None) ∧ opens_with srv' user pw))
    | Ok (srv, None) => ∃ text, b = Ok text ∧ tr = [Event (ReadFile (flagDB cfg)) b] ∧
        PassHash (stored text) ≠ "" ∧ srv = {| db := stored text; sess := ∅ |}
    | Err e => no_account b ∧ ∃ b1 b2 content,
        tr = [Event (ReadFile (flagDB cfg)) b; Event (RandRead 9) b1; Event (RandRead 16) b2;
              Event (WriteFile (flagDB cfg) content 384) (Some e)]
    end).
Proof.
  eapply wp_mono, start_wp. intros tr r (b & Hr). exists b.
  destruct r as [[srv [[user pw]|]]|e]; [|exact Hr|exact Hr].
  destruct Hr as (Hno & Hu & b1 & b2 & -> & _ & _ & -> & ->).
  set (d := {| User := user; PassHash := _; Salt := _; path := _ |}).
  assert (credentials d user (hex_encode b1)) as Hc.
  { split; [done|]. unfold d, hashPw. simpl. apply hex_roundtrip. }
  exists b1, b2, (db_marshal d). split_and!; [done..|by apply credentials_open|].
  intros Hplain. eapply wp_mono, (start_again d); try done; try apply hex_encode_plain.
  - intros tr' r' Hr Hin. exists {| db := d; sess := ∅ |}. split; [by apply Hr|].
    by apply credentials_open.
  - unfold d, hashPw. simpl. intros Heq%(f_equal String.length).
    rewrite hex_encode_length, sha256_length in Heq. discriminate.
Qed.

End start_properties.

(** [warnIfPublic] is silent for an address without a host, which is every
    interface of the machine. *)
Lemma public_host_silent port : lacks ":" port = true → public_host (":" +:+ port) = None.
Proof.
  intros Hp. unfold public_host. change (":" +:+ port) with ("" +:+ String ":" port).
  by rewrite (last_index_app ":" "" port Hp).
Qed.

(** ** Examples *)

(** Decoders of a one-line form. *)
#[global] Instance form_login : LoginDecoder := λ b,
  match split_char "&" b with [u; p] => (u, p) | _ => ("", "") end.

#[global] Instance form_body : BodyDecoder := {
  dec_action b := b;
  dec_unit b := Ok b;
  dec_uninstall b := (contains "binary" b, contains "service" b, contains "build" b)
}.

Definition demo_config : config := {|
  flagAddr := "127.0.0.1:2331"; flagRepo := "/opt/t2tunnel"; flagBin := "/usr/local/bin/t2tunnel";
  flagService := "t2tunnel"; flagDB := "panel.db.json"
|}.

(** A first start in the world in which every call succeeds. *)
Lemma first_run_opens_panel_witness :
  ∃ tr srv pw, runs (start demo_config) tr (Ok (srv, Some ("admin"%string, pw))) ∧
    opens_with demo_config srv "admin" pw.
Proof.
  assert (∃ tr srv pw w, run scripted (start demo_config) {| sc_ok := []; sc_clock := 0; sc_next := 0 |}
    = Some (tr, Ok (srv, Some ("admin"%string, pw)), w)) as (tr & srv & pw & w & Hr)
    by (vm_compute; do 4 eexists; reflexivity).
  apply run_runs in Hr; [|exact scripted_ok]. exists tr, srv, pw. split; [exact Hr|].
  destruct (wp_runs _ _ _ _ (first_run_opens_panel demo_config) Hr)
    as (b & b1 & b2 & content & _ & _ & _ & _ & _ & Ho & _).
  exact Ho.
Defined.

(** A forged cookie does not start the service. *)
Lemma serve_guarded_witness :
  let r := demo_request "/api/action" (Some "forged") "service-start" in
  let resp := writeJSON 401 [("error", JStr "unauthorized")] in
  runs (serve demo_config demo_server r) [] (resp, demo_server) ∧
  ((∃ t, authorized demo_server r t ∧ Event TimeNow t ∈ ([] : list (event sysE))) ∨
   unprivileged demo_config demo_server r [] resp demo_server).
Proof.
  intros r resp.
  assert (runs (serve demo_config demo_server r) [] (resp, demo_server)) as Hr.
  { vm_compute. by split. }
  split; [exact Hr|]. exact (serve_guarded demo_config demo_server r [] resp demo_server Hr).
Defined.
